(** * cf-saas-starter: provisioning script, schema bootstrap and seed routine

    A shallow embedding of [lib/db/setup.ts], [lib/db/bootstrap.ts] and
    [lib/db/seed.ts].  JavaScript strings are sequences of UTF-16 code
    units; exceptions are explicit completions; the regular expressions
    of the source are data run by a small backtracking matcher; the
    process-wide promise of the schema bootstrap is a transition system
    over the events of the single-threaded event loop. *)

From Stdlib Require Import String Ascii NArith ZArith Bool Lia Arith List.
Import ListNotations.

Set Implicit Arguments.

(** ** The JavaScript fragment the program uses *)

Module JS.

(** A string is a list of UTF-16 code units. *)
Definition char := N.
Definition jsstring := list char.

(** ASCII literals. *)
Definition str (s : string) : jsstring :=
  map N_of_ascii (list_ascii_of_string s).

Definition chr (s : string) : char :=
  match str s with c :: _ => c | [] => 0%N end.

Fixpoint jseqb (a b : jsstring) : bool :=
  match a, b with
  | [], [] => true
  | x :: a', y :: b' => N.eqb x y && jseqb a' b'
  | _, _ => false
  end.

(** Completion of a call: a value, or a thrown exception. *)
Inductive error :=
| TypeError
| SyntaxError
| Error (message : jsstring)
| ExecError (stdout stderr : jsstring).

Inductive completion (A : Type) :=
| Normal (a : A)
| Throw (e : error).
Arguments Normal {A} a.
Arguments Throw {A} e.

Definition bind {A B} (c : completion A) (k : A -> completion B) : completion B :=
  match c with
  | Normal a => k a
  | Throw e => Throw e
  end.

(** [try { c } catch { h }] *)
Definition try_catch {A} (c : completion A) (h : error -> completion A) : completion A :=
  match c with
  | Normal a => Normal a
  | Throw e => h e
  end.

Notation "x <- c ;; k" := (bind c (fun x => k))
  (at level 61, c at next level, right associativity).

(** *** String.prototype *)

Fixpoint startsWith (pat s : jsstring) : bool :=
  match pat, s with
  | [], _ => true
  | p :: pat', c :: s' => N.eqb p c && startsWith pat' s'
  | _ :: _, [] => false
  end.

(** [s.indexOf(pat)], searching from [s] with [i] code units already passed. *)
Fixpoint indexOf_from (pat s : jsstring) (i : Z) : Z :=
  if startsWith pat s then i
  else match s with
       | [] => (-1)%Z
       | _ :: s' => indexOf_from pat s' (i + 1)
       end.

Definition indexOf (pat s : jsstring) : Z := indexOf_from pat s 0.

(** [s.lastIndexOf(pat)]: the greatest index at which [pat] starts. *)
Fixpoint lastIndexOf_from (pat s : jsstring) (i : Z) (found : Z) : Z :=
  let found' := if startsWith pat s then i else found in
  match s with
  | [] => found'
  | _ :: s' => lastIndexOf_from pat s' (i + 1) found'
  end.

Definition lastIndexOf (pat s : jsstring) : Z := lastIndexOf_from pat s 0 (-1).

Definition includes (pat s : jsstring) : bool :=
  negb (indexOf pat s =? -1)%Z.

(** [s.slice(b, e)] with the relative-index clamping of the language. *)
Definition clamp_index (len k : Z) : Z :=
  if (k <? 0)%Z then Z.max (len + k) 0 else Z.min k len.

Definition slice (s : jsstring) (b e : Z) : jsstring :=
  let len := Z.of_nat (length s) in
  let from := clamp_index len b in
  let to := clamp_index len e in
  firstn (Z.to_nat (Z.max (to - from) 0)) (skipn (Z.to_nat from) s).

(** WhiteSpace and LineTerminator code units: what [trim] removes and
    what the class [\s] matches. *)
Definition is_space (c : char) : bool :=
  ((9 <=? c) && (c <=? 13) || (c =? 32) || (c =? 160) || (c =? 5760)
   || (8192 <=? c) && (c <=? 8202) || (c =? 8232) || (c =? 8233)
   || (c =? 8239) || (c =? 8287) || (c =? 12288) || (c =? 65279))%N.

Fixpoint trimStart (s : jsstring) : jsstring :=
  match s with
  | c :: s' => if is_space c then trimStart s' else s
  | [] => []
  end.

Definition trimEnd (s : jsstring) : jsstring := rev (trimStart (rev s)).

Definition trim (s : jsstring) : jsstring := trimEnd (trimStart s).

(** GetSubstitution for a string pattern (no captures): in the
    replacement text [$$] is a dollar sign, [$&] the matched text,
    [$`] the text before the match and [$'] the text after it; every
    other character, a dollar sign followed by anything else included,
    stands for itself. *)
Fixpoint getSubstitution (matched before after template : jsstring) : jsstring :=
  match template with
  | 36%N :: t =>
      match t with
      | 36%N :: t' => 36%N :: getSubstitution matched before after t'
      | 38%N :: t' => matched ++ getSubstitution matched before after t'
      | 96%N :: t' => before ++ getSubstitution matched before after t'
      | 39%N :: t' => after ++ getSubstitution matched before after t'
      | _ => 36%N :: getSubstitution matched before after t
      end
  | c :: t => c :: getSubstitution matched before after t
  | [] => []
  end.

(** [s.replace(pat, template)] for a string [pat]: the first occurrence only. *)
Definition replace (pat template s : jsstring) : jsstring :=
  let pos := indexOf pat s in
  if (pos =? -1)%Z then s
  else
    let before := firstn (Z.to_nat pos) s in
    let after := skipn (Z.to_nat pos + length pat) s in
    before ++ getSubstitution pat before after template ++ after.

(** *** Regular expressions

    The expressions of the source use character sets with counted,
    greedy or lazy repetition, capture groups that do not nest, and the
    anchors [^] and [$] (never the multiline flag).  An expression is a
    list of atoms; a literal character is a set repeated exactly once. *)

Inductive atom :=
| Rep (p : char -> bool) (lo : nat) (hi : option nat) (greedy : bool)
| Open
| Close
| Bol
| Eol.

Definition regex := list atom.

Section Matcher.
Variable R : Type.

(** Between [lo] and [hi] characters of the set [p], then the
    continuation [k]; a greedy repetition tries the longer match
    first, a lazy one the shorter.  [bol] tells whether the position
    is the start of the input. *)
Fixpoint rep (p : char -> bool) (lo : nat) (hi : option nat) (greedy : bool)
    (k : bool -> jsstring -> option R) (bol : bool) (s : jsstring)
    {struct s} : option R :=
  let stop (_ : unit) := match lo with 0 => k bol s | S _ => None end in
  let more (_ : unit) :=
    match hi, s with
    | Some 0, _ => None
    | _, c :: s' =>
        if p c then rep p (pred lo) (option_map pred hi) greedy k false s'
        else None
    | _, [] => None
    end in
  if greedy
  then match more tt with Some r => Some r | None => stop tt end
  else match stop tt with Some r => Some r | None => more tt end.

End Matcher.

(** Match [r] at the current position.  [opened] is the input at the
    last [Open]; [caps] the groups closed so far.  The result is the
    input left after the match and the captured groups. *)
Fixpoint mh (r : regex) (bol : bool) (s opened : jsstring) (caps : list jsstring)
    : option (jsstring * list jsstring) :=
  match r with
  | [] => Some (s, caps)
  | Rep p lo hi g :: r' =>
      rep p lo hi g (fun bol' s' => mh r' bol' s' opened caps) bol s
  | Open :: r' => mh r' bol s s caps
  | Close :: r' =>
      mh r' bol s opened (caps ++ [firstn (length opened - length s) opened])
  | Bol :: r' => if bol then mh r' bol s opened caps else None
  | Eol :: r' => match s with [] => mh r' bol s opened caps | _ :: _ => None end
  end.

Record match_result := MatchResult {
  index : nat;
  matched : jsstring;      (* m[0] *)
  groups : list jsstring   (* m[1], m[2], ... *)
}.

(** The leftmost match: the start positions are tried in order. *)
Fixpoint exec_from (re : regex) (bol : bool) (s : jsstring) (i : nat)
    : option match_result :=
  match mh re bol s [] [] with
  | Some (rest, caps) =>
      Some (MatchResult i (firstn (length s - length rest) s) caps)
  | None =>
      match s with
      | [] => None
      | _ :: s' => exec_from re false s' (S i)
      end
  end.

(** [s.match(re)] for an expression without the global flag. *)
Definition exec (re : regex) (s : jsstring) : option match_result :=
  exec_from re true s 0.

(** [re.test(s)] *)
Definition test (re : regex) (s : jsstring) : bool :=
  match exec re s with Some _ => true | None => false end.

(** [m[n]] for n >= 1; a group that took no part reads [undefined]. *)
Definition group (m : match_result) (n : nat) : option jsstring :=
  nth_error (groups m) (n - 1).

(** [s.split(re)] for an expression without groups.  [piece] is the
    current piece, reversed.  A match that is empty at the start of the
    current piece does not split. *)
Fixpoint split_go (re : regex) (fuel : nat) (bol : bool) (s piece : jsstring)
    : list jsstring :=
  match fuel with
  | 0 => [rev piece ++ s]
  | S fuel' =>
      match s with
      | [] => [rev piece]
      | c :: s' =>
          match mh re bol s [] [] with
          | Some (rest, _) =>
              if (length rest =? length s)%nat && (length piece =? 0)%nat
              then split_go re fuel' false s' (c :: piece)
              else rev piece :: split_go re fuel' false rest []
          | None => split_go re fuel' false s' (c :: piece)
          end
      end
  end.

Definition split (re : regex) (s : jsstring) : list jsstring :=
  match s with
  | [] => match mh re true [] [] [] with Some _ => [] | None => [[]] end
  | _ :: _ => split_go re (2 * length s + 2) true s []
  end.

(** Character sets. *)
Definition eqc (c0 : char) : char -> bool := fun c => (c =? c0)%N.
Definition range (a b : string) : char -> bool :=
  fun c => ((chr a <=? c) && (c <=? chr b))%N.
Definition either (p q : char -> bool) : char -> bool := fun c => p c || q c.
Definition except (p : char -> bool) : char -> bool := fun c => negb (p c).

(** [.] matches everything but the line terminators. *)
Definition dot : char -> bool :=
  fun c => negb ((c =? 10) || (c =? 13) || (c =? 8232) || (c =? 8233))%N.

(** [\w] *)
Definition word : char -> bool :=
  either (range "a" "z") (either (range "A" "Z") (either (range "0" "9") (eqc (chr "_")))).

(** The flag [i]: a character matches a set when the character or its
    other-case form is in the set.  The sets of the source hold ASCII
    members only, for which the canonicalization of the language maps
    no character outside ASCII onto a member. *)
Definition swapcase (c : char) : char :=
  if ((65 <=? c) && (c <=? 90))%N then (c + 32)%N
  else if ((97 <=? c) && (c <=? 122))%N then (c - 32)%N
  else c.

Definition icase (p : char -> bool) : char -> bool :=
  fun c => p c || p (swapcase c).

Definition one (p : char -> bool) : atom := Rep p 1 (Some 1) true.
Definition many0 (p : char -> bool) : atom := Rep p 0 None true.
Definition many1 (p : char -> bool) : atom := Rep p 1 None true.
Definition many1_lazy (p : char -> bool) : atom := Rep p 1 None false.
Definition maybe (p : char -> bool) : atom := Rep p 0 (Some 1) true.
Definition times (n : nat) (p : char -> bool) : atom := Rep p n (Some n) true.

(** A literal run of characters, case-sensitive or under the flag [i]. *)
Definition lit_chars (cs : jsstring) : regex := map (fun c => one (eqc c)) cs.
Definition lit (s : string) : regex := lit_chars (str s).
Definition lit_i (s : string) : regex := map (fun c => one (icase (eqc c))) (str s).

(** *** JSON *)

#[warnings="-register-all"]
Inductive json :=
| JNull
| JBool (b : bool)
| JNumber (lexeme : jsstring)
| JString (s : jsstring)
| JArray (items : list json)
| JObject (fields : list (jsstring * json)).

Definition is_json_ws (c : char) : bool :=
  ((c =? 32) || (c =? 9) || (c =? 10) || (c =? 13))%N.

Fixpoint skip_ws (s : jsstring) : jsstring :=
  match s with
  | c :: s' => if is_json_ws c then skip_ws s' else s
  | [] => []
  end.

Definition is_digit (c : char) : bool := ((48 <=? c) && (c <=? 57))%N.

Definition hex_value (c : char) : option N :=
  if is_digit c then Some (c - 48)%N
  else if ((97 <=? c) && (c <=? 102))%N then Some (c - 87)%N
  else if ((65 <=? c) && (c <=? 70))%N then Some (c - 55)%N
  else None.

(** The body of a string literal, after the opening quote. *)
Fixpoint parse_string (s : jsstring) (acc : jsstring) : option (jsstring * jsstring) :=
  match s with
  | [] => None
  | c :: s1 =>
      if (c =? 34)%N then Some (rev acc, s1)
      else if (c <? 32)%N then None
      else if (c =? 92)%N then
        match s1 with
        | e :: s2 =>
            if (e =? 34)%N then parse_string s2 (34%N :: acc)
            else if (e =? 92)%N then parse_string s2 (92%N :: acc)
            else if (e =? 47)%N then parse_string s2 (47%N :: acc)
            else if (e =? 98)%N then parse_string s2 (8%N :: acc)
            else if (e =? 102)%N then parse_string s2 (12%N :: acc)
            else if (e =? 110)%N then parse_string s2 (10%N :: acc)
            else if (e =? 114)%N then parse_string s2 (13%N :: acc)
            else if (e =? 116)%N then parse_string s2 (9%N :: acc)
            else if (e =? 117)%N then
              match s2 with
              | h1 :: h2 :: h3 :: h4 :: s3 =>
                  match hex_value h1, hex_value h2, hex_value h3, hex_value h4 with
                  | Some a, Some b, Some c', Some d =>
                      parse_string s3 ((((a * 16 + b) * 16 + c') * 16 + d)%N :: acc)
                  | _, _, _, _ => None
                  end
              | _ => None
              end
            else None
        | [] => None
        end
      else parse_string s1 (c :: acc)
  end.

Fixpoint take_digits (s : jsstring) : jsstring * jsstring :=
  match s with
  | c :: s' =>
      if is_digit c then let (d, r) := take_digits s' in (c :: d, r) else ([], s)
  | [] => ([], [])
  end.

(** A number: an optional minus sign, an integer part (a lone 0, or
    digits that do not start with 0), an optional fraction (a dot and
    digits) and an optional exponent (e or E, an optional sign and
    digits).  The value keeps the lexeme; the program never computes
    with it. *)
Definition parse_number (s : jsstring) : option (jsstring * jsstring) :=
  let (sign, s1) :=
    match s with
    | 45%N :: s' => ([45%N], s')
    | _ => ([], s)
    end in
  let int :=
    match s1 with
    | 48%N :: s' => Some ([48%N], s')
    | _ => match take_digits s1 with
           | ([], _) => None
           | (d, r) => Some (d, r)
           end
    end in
  match int with
  | None => None
  | Some (ipart, s2) =>
      let (fpart, s3) :=
        match s2 with
        | 46%N :: s' =>
            match take_digits s' with
            | ([], _) => ([46%N], [])    (* a dot needs a digit: marked below *)
            | (d, r) => (46%N :: d, r)
            end
        | _ => ([], s2)
        end in
      match fpart with
      | [46%N] => None
      | _ =>
          let (epart, s4) :=
            match s3 with
            | e :: s' =>
                if ((e =? 101) || (e =? 69))%N then
                  let (sg, s'') :=
                    match s' with
                    | 43%N :: t => ([43%N], t)
                    | 45%N :: t => ([45%N], t)
                    | _ => ([], s')
                    end in
                  match take_digits s'' with
                  | ([], _) => ([e], [])
                  | (d, r) => (e :: sg ++ d, r)
                  end
                else ([], s3)
            | [] => ([], s3)
            end in
          match epart with
          | [_] => None
          | _ => Some (sign ++ ipart ++ fpart ++ epart, s4)
          end
      end
  end.

(** The input after white space and the character [c], if it is next. *)
Definition next_is (c : char) (s : jsstring) : option jsstring :=
  match skip_ws s with
  | x :: s' => if (x =? c)%N then Some s' else None
  | [] => None
  end.

Fixpoint parse_value (fuel : nat) (s : jsstring) : option (json * jsstring) :=
  match fuel with
  | 0 => None
  | S f =>
      match skip_ws s with
      | [] => None
      | c :: s1 =>
          if (c =? 123)%N then
            match next_is 125%N s1 with
            | Some s2 => Some (JObject [], s2)
            | None => parse_members f s1 []
            end
          else if (c =? 91)%N then
            match next_is 93%N s1 with
            | Some s2 => Some (JArray [], s2)
            | None => parse_elements f s1 []
            end
          else if (c =? 34)%N then
            match parse_string s1 [] with
            | Some (v, s2) => Some (JString v, s2)
            | None => None
            end
          else if startsWith (str "true") (c :: s1) then Some (JBool true, skipn 3 s1)
          else if startsWith (str "false") (c :: s1) then Some (JBool false, skipn 4 s1)
          else if startsWith (str "null") (c :: s1) then Some (JNull, skipn 3 s1)
          else
            match parse_number (c :: s1) with
            | Some (lexeme, s2) => Some (JNumber lexeme, s2)
            | None => None
            end
      end
  end
with parse_elements (fuel : nat) (s : jsstring) (acc : list json)
    : option (json * jsstring) :=
  match fuel with
  | 0 => None
  | S f =>
      match parse_value f s with
      | Some (v, s1) =>
          match next_is 44%N s1 with
          | Some s2 => parse_elements f s2 (v :: acc)
          | None =>
              match next_is 93%N s1 with
              | Some s2 => Some (JArray (rev (v :: acc)), s2)
              | None => None
              end
          end
      | None => None
      end
  end
with parse_members (fuel : nat) (s : jsstring) (acc : list (jsstring * json))
    : option (json * jsstring) :=
  match fuel with
  | 0 => None
  | S f =>
      match next_is 34%N s with
      | Some s1 =>
          match parse_string s1 [] with
          | Some (key, s2) =>
              match next_is 58%N s2 with
              | Some s3 =>
                  match parse_value f s3 with
                  | Some (v, s4) =>
                      match next_is 44%N s4 with
                      | Some s5 => parse_members f s5 ((key, v) :: acc)
                      | None =>
                          match next_is 125%N s4 with
                          | Some s5 => Some (JObject (rev ((key, v) :: acc)), s5)
                          | None => None
                          end
                      end
                  | None => None
                  end
              | None => None
              end
          | None => None
          end
      | None => None
      end
  end.

(** [JSON.parse(text)]: one value between optional white space, or a
    SyntaxError. *)
Definition JSON_parse (text : jsstring) : completion json :=
  match parse_value (2 * length text + 2) text with
  | Some (v, rest) =>
      match skip_ws rest with
      | [] => Normal v
      | _ :: _ => Throw SyntaxError
      end
  | None => Throw SyntaxError
  end.

(** *** Values read out of parsed JSON

    A value of the program is [undefined] ([None]) or a JSON value. *)
Definition value := option json.

(** Reading property [k] of a value that is neither [null] nor
    [undefined]: an own property of an object (the last of duplicate
    keys, as the parser keeps it), [undefined] on anything else for the
    keys the program reads. *)
Fixpoint lookup (k : jsstring) (fields : list (jsstring * json)) (found : value) : value :=
  match fields with
  | [] => found
  | (k', v) :: rest => lookup k rest (if jseqb k k' then Some v else found)
  end.

Definition get (j : json) (k : string) : value :=
  match j with
  | JObject fields => lookup (str k) fields None
  | _ => None
  end.

Definition nullish (v : value) : bool :=
  match v with
  | None | Some JNull => true
  | Some _ => false
  end.

(** [v.k]: a TypeError on [null] and [undefined]. *)
Definition member (v : value) (k : string) : completion value :=
  match v with
  | None | Some JNull => Throw TypeError
  | Some j => Normal (get j k)
  end.

(** [v?.k] *)
Definition opt_member (v : value) (k : string) : value :=
  match v with
  | None | Some JNull => None
  | Some j => get j k
  end.

(** [a ?? b] *)
Definition coalesce (a b : value) : value := if nullish a then b else a.

(** The number that [JSON.parse] makes of a lexeme is the double
    nearest to its value.  [mantissa] reads the sign, the digits and
    the dot: the digits as an integer, and how many of them follow the
    dot; what is left starts at the exponent. *)
Fixpoint mantissa (lexeme : jsstring) (fraction : bool) (digits places : Z)
    : Z * Z * jsstring :=
  match lexeme with
  | [] => (digits, places, [])
  | c :: r =>
      if is_digit c then
        mantissa r fraction (digits * 10 + Z.of_N (c - 48))
          (if fraction then places + 1 else places)%Z
      else if (c =? 46)%N then mantissa r true digits places
      else if (c =? 45)%N then mantissa r fraction digits places
      else (digits, places, lexeme)
  end.

Fixpoint decimal (s : jsstring) (acc : Z) : Z :=
  match s with
  | c :: r => if is_digit c then decimal r (acc * 10 + Z.of_N (c - 48)) else acc
  | [] => acc
  end.

(** The exponent part: e or E, an optional sign and digits. *)
Definition exponent (s : jsstring) : Z :=
  match s with
  | [] => 0%Z
  | _ :: r =>
      match r with
      | sign :: digits =>
          if (sign =? 45)%N then (- decimal digits 0)%Z
          else if (sign =? 43)%N then decimal digits 0
          else decimal r 0
      | [] => 0%Z
      end
  end.

(** The double is zero when the digits are all 0, or when the value is
    so small that zero is the nearest double: at most 2^-1075, half of
    the smallest double above zero (a tie goes to zero, which is even). *)
Definition number_is_zero (lexeme : jsstring) : bool :=
  let '(digits, places, rest) := mantissa lexeme false 0 0 in
  let scale := (exponent rest - places)%Z in
  ((digits =? 0) || ((scale <? 0) && (digits * 2 ^ 1075 <=? 10 ^ (- scale))))%Z.

(** ToBoolean *)
Definition truthy (v : value) : bool :=
  match v with
  | None | Some JNull => false
  | Some (JBool b) => b
  | Some (JNumber lexeme) => negb (number_is_zero lexeme)
  | Some (JString s) => match s with [] => false | _ :: _ => true end
  | Some (JArray _) | Some (JObject _) => true
  end.

(** [s.replace(re, '')] for an expression with the global flag: every
    match, found from left to right, is removed. *)
Fixpoint remove_all (re : regex) (fuel : nat) (bol : bool) (s : jsstring) : jsstring :=
  match fuel with
  | 0 => s
  | S fuel' =>
      match mh re bol s [] [], s with
      | Some (rest, _), c :: s' =>
          if (length rest =? length s)%nat
          then c :: remove_all re fuel' false s'
          else remove_all re fuel' false rest
      | Some _, [] => []
      | None, c :: s' => c :: remove_all re fuel' false s'
      | None, [] => []
      end
  end.

Definition replace_all_empty (re : regex) (s : jsstring) : jsstring :=
  remove_all re (S (length s)) true s.

(** [Number.parseInt(s, 10)]: leading white space, an optional sign and
    the longest run of decimal digits; [None] is NaN. *)
Fixpoint digits_value (s : jsstring) (acc : Z) : Z :=
  match s with
  | c :: s' => if is_digit c then digits_value s' (acc * 10 + Z.of_N (c - 48)) else acc
  | [] => acc
  end.

Definition parseInt10 (s : jsstring) : option Z :=
  let s1 := trimStart s in
  let (neg, s2) :=
    match s1 with
    | 45%N :: t => (true, t)
    | 43%N :: t => (false, t)
    | _ => (false, s1)
    end in
  match s2 with
  | c :: _ =>
      if is_digit c
      then Some (if neg then (- digits_value s2 0)%Z else digits_value s2 0)
      else None
  | [] => None
  end.

(** ASCII literal in which the apostrophe stands for the double quote. *)
Definition dq (s : string) : jsstring :=
  map (fun c => if (c =? 39)%N then 34%N else c) (str s).

End JS.

(** ** lib/db/setup.ts *)

Module Setup.
Import JS.

Record AccountInfo := {
  id : jsstring;
  name : option jsstring
}.

(** [/\u001b\[[0-9;?]*[ -\/]*[@-~]/g] *)
Definition ansi_re : regex :=
  [ one (eqc 27%N); one (eqc (chr "["));
    many0 (either (range "0" "9") (either (eqc (chr ";")) (eqc (chr "?"))));
    many0 (range " " "/");
    one (range "@" "~") ].

Definition stripAnsi (value : jsstring) : jsstring :=
  replace_all_empty ansi_re value.

(** The result is the parsed value, or [JNull] for [null]. *)
Definition parseJsonFromOutput (raw : jsstring) : completion json :=
  match raw with
  | [] => Normal JNull
  | _ :: _ =>
      let clean := stripAnsi raw in
      let firstBrace := indexOf (str "{") clean in
      let lastBrace := lastIndexOf (str "}") clean in
      if (firstBrace =? -1)%Z || (lastBrace =? -1)%Z || (lastBrace <=? firstBrace)%Z
      then Normal JNull
      else
        let slice := slice clean firstBrace (lastBrace + 1) in
        try_catch (JSON_parse slice) (fun _ => Normal JNull)
  end.

(** [/^[a-f0-9]{32}$/i] *)
Definition account_id_re : regex :=
  [ Bol; times 32 (icase (either (range "a" "f") (range "0" "9"))); Eol ].

(** The global expression of one quote character, double or single. *)
Definition quotes_re : regex := [ one (either (eqc 34%N) (eqc 39%N)) ].

(** The accounts map: keyed by id, in insertion order. *)
Definition has (accounts : list AccountInfo) (key : jsstring) : bool :=
  existsb (fun a => jseqb (id a) key) accounts.

(** [x.trim()] on a value that need not be a string. *)
Definition call_trim (v : json) : completion jsstring :=
  match v with
  | JString s => Normal (trim s)
  | _ => Throw TypeError
  end.

(** The closure [addAccount] of [extractAccounts], with the map it
    updates passed through. *)
Definition addAccount (id0 name0 : value) (accounts : list AccountInfo)
    : completion (list AccountInfo) :=
  match id0 with
  | None => Normal accounts
  | Some idv =>
      if negb (truthy id0) then Normal accounts
      else
        trimmedId <- call_trim idv ;;
        if negb (test account_id_re trimmedId) then Normal accounts
        else
          trimmedName <-
            match name0 with
            | None | Some JNull => Normal None
            | Some n => t <- call_trim n ;; Normal (Some t)
            end ;;
          let cleanName :=
            match trimmedName with
            | Some ((_ :: _) as t) => Some (trim (replace_all_empty quotes_re t))
            | _ => None
            end in
          if negb (has accounts trimmedId)
          then Normal (accounts ++
                 [ {| id := trimmedId;
                      name := match cleanName with
                              | Some ((_ :: _) as n) => Some n
                              | _ => None
                              end |} ])
          else Normal accounts
  end.

Definition isArray (v : value) : option (list json) :=
  match v with
  | Some (JArray items) => Some items
  | _ => None
  end.

(** [for (const entry of candidates) addAccount(entry.id ?? null, entry.name ?? null)] *)
Fixpoint add_entries (candidates : list json) (accounts : list AccountInfo)
    : completion (list AccountInfo) :=
  match candidates with
  | [] => Normal accounts
  | entry :: rest =>
      i <- member (Some entry) "id" ;;
      n <- member (Some entry) "name" ;;
      accounts' <- addAccount (coalesce i (Some JNull)) (coalesce n (Some JNull)) accounts ;;
      add_entries rest accounts'
  end.

Definition bar : char -> bool := either (eqc 9474%N) (eqc (chr "|")).

(** [/^[│\|].*[│\|]$/] *)
Definition table_row_re : regex := [ Bol; one bar; many0 dot; one bar; Eol ].
(** [/[│\|]/] *)
Definition bar_re : regex := [ one bar ].
(** [/account name/i] and [/account id/i] *)
Definition account_name_re : regex := lit_i "account name".
Definition account_id_header_re : regex := lit_i "account id".
(** [/(.+?)\s*\(id:\s*([0-9a-f]{32})\)/i] *)
Definition inline_re : regex :=
  [ Open; many1_lazy dot; Close; many0 is_space ] ++ lit_i "(id:" ++
  [ many0 is_space; Open; times 32 (icase (either (range "0" "9") (range "a" "f"))); Close ] ++
  lit_i ")".
(** [/account\s+id\s*:\s*([0-9a-f]{32})/i] *)
Definition colon_re : regex :=
  lit_i "account" ++ [ many1 is_space ] ++ lit_i "id" ++ [ many0 is_space ] ++
  lit_i ":" ++
  [ many0 is_space; Open; times 32 (icase (either (range "0" "9") (range "a" "f"))); Close ].
(** [/\r?\n/] *)
Definition newline_re : regex := [ maybe (eqc 13%N); one (eqc 10%N) ].

Definition nonempty (s : jsstring) : bool :=
  match s with [] => false | _ :: _ => true end.

Definition string_arg (s : option jsstring) : value := option_map JString s.

(** The body of the loop over the lines. *)
Definition scan_line (line : jsstring) (accounts : list AccountInfo)
    : completion (list AccountInfo) :=
  let trimmed := trim line in
  if negb (nonempty trimmed) then Normal accounts
  else if test table_row_re trimmed then
    let parts := filter nonempty (map trim (split bar_re trimmed)) in
    match parts with
    | maybeName :: maybeId :: _ =>
        if negb (test account_name_re maybeName) && negb (test account_id_header_re maybeId)
        then addAccount (Some (JString maybeId)) (Some (JString maybeName)) accounts
        else Normal accounts
    | _ => Normal accounts
    end
  else
    match exec inline_re trimmed with
    | Some inlineMatch =>
        addAccount (string_arg (group inlineMatch 2)) (string_arg (group inlineMatch 1)) accounts
    | None =>
        match exec colon_re trimmed with
        | Some colonMatch => addAccount (string_arg (group colonMatch 1)) None accounts
        | None => Normal accounts
        end
    end.

Fixpoint scan_lines (lines : list jsstring) (accounts : list AccountInfo)
    : completion (list AccountInfo) :=
  match lines with
  | [] => Normal accounts
  | line :: rest =>
      accounts' <- scan_line line accounts ;;
      scan_lines rest accounts'
  end.

(** The block guarded by [if (data)]. *)
Definition scan_json (data : json) (accounts : list AccountInfo)
    : completion (list AccountInfo) :=
  if truthy (Some data) then
    let account := get data "account" in
    accounts1 <- addAccount (coalesce (opt_member account "id") (Some JNull))
                            (coalesce (opt_member account "name") (Some JNull))
                            accounts ;;
    let candidates :=
      (match isArray (get data "accounts") with Some l => l | None => [] end) ++
      (let result := get data "result" in
       if truthy result
       then match isArray (opt_member result "accounts") with Some l => l | None => [] end
       else []) in
    add_entries candidates accounts1
  else Normal accounts.

Definition extractAccounts (raw : jsstring) : completion (list AccountInfo) :=
  let cleanOutput := stripAnsi raw in
  data <- parseJsonFromOutput cleanOutput ;;
  accounts <- scan_json data [] ;;
  scan_lines (split newline_re cleanOutput) accounts.

(** *** The prompts

    The operator's answers are the lines that standard input will
    deliver, in order.  [question] consumes one and trims it; a prompt
    that finds no line left waits for ever ([None]). *)
Definition question (stdin : list jsstring) : option (jsstring * list jsstring) :=
  match stdin with
  | [] => None
  | ans :: rest => Some (trim ans, rest)
  end.

Definition label_of (s : jsstring) : option jsstring :=
  match s with [] => None | _ :: _ => Some s end.

(** [while (true)] in [promptForAccountId]: one round per answer. *)
Fixpoint promptForAccountId (stdin : list jsstring) : option (AccountInfo * list jsstring) :=
  match stdin with
  | [] => None
  | ans :: rest =>
      let accountId := trim (trim ans) in
      if test account_id_re accountId then
        match question rest with
        | Some (l, rest') =>
            Some ({| id := accountId; name := label_of (trim l) |}, rest')
        | None => None
        end
      else promptForAccountId rest
  end.

Fixpoint choose_loop (detected : list AccountInfo) (first : AccountInfo)
    (stdin : list jsstring) : option (AccountInfo * list jsstring) :=
  match stdin with
  | [] => None
  | ans :: rest =>
      let answer := trim (trim ans) in
      match answer with
      | [] => Some (first, rest)
      | _ :: _ =>
          let by_id :=
            if test account_id_re answer then
              match question rest with
              | Some (l, rest') =>
                  Some ({| id := answer; name := label_of (trim l) |}, rest')
              | None => None
              end
            else choose_loop detected first rest in
          match parseInt10 answer with
          | Some index =>
              if (1 <=? index)%Z && (index <=? Z.of_nat (length detected))%Z then
                match nth_error detected (Z.to_nat (index - 1)) with
                | Some a => Some (a, rest)
                | None => by_id
                end
              else by_id
          | None => by_id
          end
      end
  end.

Definition chooseCloudflareAccount (detected : list AccountInfo) (stdin : list jsstring)
    : option (AccountInfo * list jsstring) :=
  match detected with
  | first :: _ => choose_loop detected first stdin
  | [] => promptForAccountId stdin
  end.

(** *** parseD1CreateResult *)

Definition quote : atom := one (eqc 34%N).
Definition hex : char -> bool := icase (either (range "0" "9") (range "a" "f")).
Definition any_quote : char -> bool := either (eqc 34%N) (eqc 39%N).

(** The quoted key database_id, a colon and a quoted run of 36
    characters out of [0-9a-f-], under the flag [i]. *)
Definition snippet_id_re : regex :=
  [ quote ] ++ lit_i "database_id" ++ [ quote; many0 is_space ] ++ lit_i ":" ++
  [ many0 is_space; quote; Open;
    times 36 (icase (either (range "0" "9") (either (range "a" "f") (eqc (chr "-")))));
    Close; quote ].

(** The quoted key database_name, a colon and a quoted non-empty run of
    characters other than the double quote, under the flag [i]. *)
Definition snippet_name_re : regex :=
  [ quote ] ++ lit_i "database_name" ++ [ quote; many0 is_space ] ++ lit_i ":" ++
  [ many0 is_space; quote; Open; many1 (icase (except (eqc 34%N))); Close; quote ].

(** [/([0-9a-f]{8}-[0-9a-f]{4}-[0-9a-f]{4}-[0-9a-f]{4}-[0-9a-f]{12})/i] *)
Definition uuid_re : regex :=
  [ Open; times 8 hex ] ++ lit_i "-" ++ [ times 4 hex ] ++ lit_i "-" ++
  [ times 4 hex ] ++ lit_i "-" ++ [ times 4 hex ] ++ lit_i "-" ++
  [ times 12 hex; Close ].

(** DB or database, a space, an optional quote of either kind, a
    captured run of [\w-] and an optional quote, under the flag [i]. *)
Definition name_after (keyword : string) : regex :=
  lit_i keyword ++ lit_i " " ++
  [ maybe any_quote; Open; many1 (icase (either word (eqc (chr "-")))); Close;
    maybe any_quote ].
Definition db_name_re : regex := name_after "DB".
Definition database_name_re : regex := name_after "database".

Definition first_defined (vs : list value) : value :=
  fold_right coalesce None vs.

Definition group_or (m : option match_result) (n : nat) (fallback : jsstring) : jsstring :=
  match m with
  | Some r => match group r n with Some g => g | None => fallback end
  | None => fallback
  end.

(** The result is [{ id, name }] or [None] for [null].  The first stage
    returns whatever values the JSON holds. *)
Definition parseD1CreateResult (raw fallbackName : jsstring) : completion (option (json * json)) :=
  let clean := stripAnsi raw in
  data <- parseJsonFromOutput clean ;;
  let from_json :=
    if truthy (Some data) then
      let payload := match coalesce (get data "result") (Some data) with
                     | Some p => p
                     | None => data
                     end in
      let id := first_defined [ get payload "uuid"; get payload "id";
                                get payload "database_id"; get payload "databaseId" ] in
      let name := first_defined [ get payload "name"; get payload "database_name";
                                  get payload "databaseName"; Some (JString fallbackName) ] in
      match id, name with
      | Some i, Some n => if truthy id && truthy name then Some (i, n) else None
      | _, _ => None
      end
    else None in
  match from_json with
  | Some r => Normal (Some r)
  | None =>
      match exec snippet_id_re clean with
      | Some snippetIdMatch =>
          let snippetNameMatch := exec snippet_name_re clean in
          Normal (Some (JString (group_or (Some snippetIdMatch) 1 []),
                        JString (group_or snippetNameMatch 1 fallbackName)))
      | None =>
          match exec uuid_re clean with
          | Some uuidMatch =>
              let nameMatch :=
                match exec db_name_re clean with
                | Some m => Some m
                | None => exec database_name_re clean
                end in
              Normal (Some (JString (group_or (Some uuidMatch) 1 []),
                            JString (group_or nameMatch 1 fallbackName)))
          | None => Normal None
          end
      end
  end.

(** *** updateWranglerConfig *)

Definition quoted (key value : jsstring) : jsstring :=
  [34%N] ++ key ++ [34%N] ++ str ": " ++ [34%N] ++ value ++ [34%N].

Definition binding_placeholder : jsstring := quoted (str "binding") (str "BINDING_NAME").
Definition database_name_placeholder : jsstring := quoted (str "database_name") (str "YOUR_DB_NAME").
Definition database_id_placeholder : jsstring := quoted (str "database_id") (str "YOUR_DB_ID").

(** [if (updated.includes(token)) { updated = updated.replace(token, value); changed = true }] *)
Definition patch (token replacement : jsstring) (st : jsstring * bool) : jsstring * bool :=
  let (updated, changed) := st in
  if includes token updated then (replace token replacement updated, true) else (updated, changed).

Definition patch_all (bindingName databaseId databaseName content : jsstring) : jsstring * bool :=
  patch database_id_placeholder (quoted (str "database_id") databaseId)
    (patch database_name_placeholder (quoted (str "database_name") databaseName)
      (patch binding_placeholder (quoted (str "binding") bindingName)
        (content, false))).

Definition updated_message : jsstring :=
  str "Updated wrangler.jsonc with your D1 configuration.".
Definition already_message : jsstring :=
  str "wrangler.jsonc already contains D1 configuration. Please verify it is correct.".
Definition warning_message : jsstring :=
  str "Could not update wrangler.jsonc automatically. Please ensure it contains the correct D1 binding information.".

(** What a run does to the file and prints: [written] is the content
    handed to [fs.writeFile], if it was called. *)
Record config_outcome := {
  written : option jsstring;
  console : jsstring
}.

(** [readFile] is the completion of [fs.readFile], [writeFile] that of
    [fs.writeFile] on the content it is given. *)
Definition updateWranglerConfig (bindingName databaseId databaseName : jsstring)
    (readFile : completion jsstring) (writeFile : jsstring -> completion unit)
    : config_outcome :=
  match readFile with
  | Throw _ => {| written := None; console := warning_message |}
  | Normal content =>
      let (updated, changed) := patch_all bindingName databaseId databaseName content in
      if changed then
        match writeFile updated with
        | Normal _ => {| written := Some updated; console := updated_message |}
        | Throw _ => {| written := Some updated; console := warning_message |}
        end
      else {| written := None; console := already_message |}
  end.

(** *** createStripeWebhook *)

(** [/whsec_[a-zA-Z0-9]+/] *)
Definition alnum : char -> bool :=
  either (range "a" "z") (either (range "A" "Z") (range "0" "9")).
Definition whsec_re : regex := lit "whsec_" ++ [ many1 alnum ].

(** [listen] is the completion of [stripe listen --print-secret]: its
    standard output and standard error, or the failure of the command.
    The error caught is thrown again. *)
Definition createStripeWebhook (listen : completion (jsstring * jsstring))
    : completion jsstring :=
  try_catch
    (out <- listen ;;
     match exec whsec_re (fst out) with
     | None => Throw (Error (str "Failed to extract Stripe webhook secret"))
     | Some m => Normal (matched m)
     end)
    (fun error => Throw error).

End Setup.

(** ** lib/db/bootstrap.ts *)

Module Bootstrap.
Import JS.

Definition MIGRATION_STATEMENTS : list jsstring :=
  map str [
    "CREATE TABLE IF NOT EXISTS users (
    id INTEGER PRIMARY KEY AUTOINCREMENT NOT NULL,
    name TEXT(100),
    email TEXT(255) NOT NULL,
    password_hash TEXT NOT NULL,
    role TEXT(20) DEFAULT 'member' NOT NULL,
    created_at INTEGER DEFAULT (unixepoch()) NOT NULL,
    updated_at INTEGER DEFAULT (unixepoch()) NOT NULL,
    deleted_at INTEGER
  );";
    "CREATE TABLE IF NOT EXISTS teams (
    id INTEGER PRIMARY KEY AUTOINCREMENT NOT NULL,
    name TEXT(100) NOT NULL,
    created_at INTEGER DEFAULT (unixepoch()) NOT NULL,
    updated_at INTEGER DEFAULT (unixepoch()) NOT NULL,
    stripe_customer_id TEXT,
    stripe_subscription_id TEXT,
    stripe_product_id TEXT,
    plan_name TEXT(50),
    subscription_status TEXT(20)
  );";
    "CREATE UNIQUE INDEX IF NOT EXISTS teams_stripe_customer_id_unique ON teams (stripe_customer_id);";
    "CREATE UNIQUE INDEX IF NOT EXISTS teams_stripe_subscription_id_unique ON teams (stripe_subscription_id);";
    "CREATE TABLE IF NOT EXISTS team_members (
    id INTEGER PRIMARY KEY AUTOINCREMENT NOT NULL,
    user_id INTEGER NOT NULL,
    team_id INTEGER NOT NULL,
    role TEXT(50) NOT NULL,
    joined_at INTEGER DEFAULT (unixepoch()) NOT NULL,
    FOREIGN KEY (user_id) REFERENCES users(id) ON UPDATE NO ACTION ON DELETE NO ACTION,
    FOREIGN KEY (team_id) REFERENCES teams(id) ON UPDATE NO ACTION ON DELETE NO ACTION
  );";
    "CREATE TABLE IF NOT EXISTS invitations (
    id INTEGER PRIMARY KEY AUTOINCREMENT NOT NULL,
    team_id INTEGER NOT NULL,
    email TEXT(255) NOT NULL,
    role TEXT(50) NOT NULL,
    invited_by INTEGER NOT NULL,
    invited_at INTEGER DEFAULT (unixepoch()) NOT NULL,
    status TEXT(20) DEFAULT 'pending' NOT NULL,
    FOREIGN KEY (team_id) REFERENCES teams(id) ON UPDATE NO ACTION ON DELETE NO ACTION,
    FOREIGN KEY (invited_by) REFERENCES users(id) ON UPDATE NO ACTION ON DELETE NO ACTION
  );";
    "CREATE TABLE IF NOT EXISTS activity_logs (
    id INTEGER PRIMARY KEY AUTOINCREMENT NOT NULL,
    team_id INTEGER NOT NULL,
    user_id INTEGER,
    action TEXT NOT NULL,
    timestamp INTEGER DEFAULT (unixepoch()) NOT NULL,
    ip_address TEXT(45),
    FOREIGN KEY (team_id) REFERENCES teams(id) ON UPDATE NO ACTION ON DELETE NO ACTION,
    FOREIGN KEY (user_id) REFERENCES users(id) ON UPDATE NO ACTION ON DELETE NO ACTION
  );";
    "CREATE UNIQUE INDEX IF NOT EXISTS users_email_unique ON users (email);"
  ]%string.

(** What [ensureD1Schema] may be handed: its parameter has type
    [unknown].  A function-valued [prepare] stands for a database
    handle, named by a number. *)
Inductive property :=
| FunctionValued (handle : nat)
| NotAFunction.

Inductive candidate :=
| Undefined
| Null
| Primitive
| Callable
| Object (prepare : option property).

Inductive type_tag := T_undefined | T_object | T_function | T_other.

(** [typeof x] *)
Definition typeof (x : candidate) : type_tag :=
  match x with
  | Undefined => T_undefined
  | Null => T_object
  | Primitive => T_other
  | Callable => T_function
  | Object _ => T_object
  end.

Definition is_tag (a b : type_tag) : bool :=
  match a, b with
  | T_undefined, T_undefined | T_object, T_object
  | T_function, T_function | T_other, T_other => true
  | _, _ => false
  end.

Definition is_null (x : candidate) : bool :=
  match x with Null => true | _ => false end.

(** [typeof x.prepare] for an [x] that is not [null] or [undefined]. *)
Definition typeof_prepare (x : candidate) : type_tag :=
  match x with
  | Object (Some (FunctionValued _)) => T_function
  | Object (Some NotAFunction) => T_other
  | _ => T_undefined
  end.

Definition isD1DatabaseLike (candidate : candidate) : bool :=
  is_tag (typeof candidate) T_object &&
  negb (is_null candidate) &&
  is_tag (typeof_prepare candidate) T_function.

Definition handle_of (x : candidate) : nat :=
  match x with
  | Object (Some (FunctionValued h)) => h
  | _ => 0
  end.

(** Promises. *)
Inductive outcome :=
| Fulfilled
| Rejected (e : error).

Inductive promise :=
| Pending
| Settled (o : outcome).

(** One evaluation of the expression assigned to [bootstrapPromise]:
    the async function over the statements, called on the spot, and
    the promise that [.catch] derives from it.  [next] is the index of
    the statement whose [run()] the body awaits. *)
Record attempt := {
  db : nat;
  next : nat;
  body : promise;
  derived : promise
}.

(** What the database handles see. *)
Inductive op :=
| Issued (attempt handle : nat) (statement : jsstring)
| Done (attempt index : nat) (o : outcome).

(** The module state and the callers.  [bootstrapPromise] is [null] or
    the derived promise of an attempt, named by its position in
    [attempts]. *)
Record state := {
  attempts : list attempt;
  bootstrapPromise : option nat;
  log : list op;
  waiting : list (nat * nat);
  returned : list (nat * outcome)
}.

Definition initial : state :=
  {| attempts := []; bootstrapPromise := None; log := [];
     waiting := []; returned := [] |}.

(** What the event loop does next: a caller enters [ensureD1Schema];
    the [run()] a body awaits settles and the body goes on; the
    reaction registered by [.catch] on a settled body runs.  A
    [prepare] or [run] that throws on the spot rejects the body as a
    rejected [run()] does, and is the event [RunSettles] with
    [Rejected] too.  The handles are those of a database: they do not
    call back into this module. *)
Inductive event :=
| Call (caller : nat) (db : candidate)
| RunSettles (attempt : nat) (o : outcome)
| BodyReaction (attempt : nat).

Definition not_available : error :=
  Error (str "Cloudflare D1 binding is not available.").

Definition set_attempt (a : nat) (t : attempt) (l : list attempt) : list attempt :=
  firstn a l ++ [t] ++ skipn (S a) l.

(** The loop of the body reaches statement [i] of attempt [a]: it calls
    [db.prepare(statement).run()] and awaits, or, past the last
    statement, the body is fulfilled. *)
Definition reach (a : nat) (t : attempt) (i : nat) (l : list op) : attempt * list op :=
  match nth_error MIGRATION_STATEMENTS i with
  | Some statement =>
      ({| db := db t; next := i; body := Pending; derived := derived t |},
       l ++ [Issued a (db t) statement])
  | None =>
      ({| db := db t; next := i; body := Settled Fulfilled; derived := derived t |}, l)
  end.

(** [await bootstrapPromise] for caller [c]. *)
Definition await_bootstrap (c : nat) (s : state) : state :=
  match bootstrapPromise s with
  | None =>
      {| attempts := attempts s; bootstrapPromise := bootstrapPromise s; log := log s;
         waiting := waiting s; returned := returned s ++ [(c, Fulfilled)] |}
  | Some a =>
      match option_map derived (nth_error (attempts s) a) with
      | Some (Settled o) =>
          {| attempts := attempts s; bootstrapPromise := bootstrapPromise s; log := log s;
             waiting := waiting s; returned := returned s ++ [(c, o)] |}
      | _ =>
          {| attempts := attempts s; bootstrapPromise := bootstrapPromise s; log := log s;
             waiting := waiting s ++ [(c, a)]; returned := returned s |}
      end
  end.

Definition ensureD1Schema (c : nat) (x : candidate) (s : state) : state :=
  if negb (isD1DatabaseLike x) then
    {| attempts := attempts s; bootstrapPromise := bootstrapPromise s; log := log s;
       waiting := waiting s; returned := returned s ++ [(c, Rejected not_available)] |}
  else
    let s1 :=
      match bootstrapPromise s with
      | None =>
          let a := length (attempts s) in
          let (t, l) := reach a {| db := handle_of x; next := 0;
                                   body := Pending; derived := Pending |} 0 (log s) in
          {| attempts := attempts s ++ [t]; bootstrapPromise := Some a; log := l;
             waiting := waiting s; returned := returned s |}
      | Some _ => s
      end in
    await_bootstrap c s1.

Definition waits_on (a : nat) (w : nat * nat) : bool := (snd w =? a)%nat.

Definition step (s : state) (e : event) : option state :=
  match e with
  | Call c x => Some (ensureD1Schema c x s)
  | RunSettles a o =>
      match nth_error (attempts s) a with
      | Some t =>
          match body t with
          | Pending =>
              match o with
              | Fulfilled =>
                  let (t', l) := reach a t (S (next t)) (log s ++ [Done a (next t) Fulfilled]) in
                  Some {| attempts := set_attempt a t' (attempts s);
                          bootstrapPromise := bootstrapPromise s; log := l;
                          waiting := waiting s; returned := returned s |}
              | Rejected e =>
                  let t' := {| db := db t; next := next t;
                               body := Settled (Rejected e); derived := derived t |} in
                  Some {| attempts := set_attempt a t' (attempts s);
                          bootstrapPromise := bootstrapPromise s;
                          log := log s ++ [Done a (next t) (Rejected e)];
                          waiting := waiting s; returned := returned s |}
              end
          | Settled _ => None
          end
      | None => None
      end
  | BodyReaction a =>
      match nth_error (attempts s) a with
      | Some t =>
          match body t, derived t with
          | Settled o, Pending =>
              let t' := {| db := db t; next := next t; body := body t; derived := Settled o |} in
              Some {| attempts := set_attempt a t' (attempts s);
                      bootstrapPromise :=
                        match o with
                        | Rejected _ => None
                        | Fulfilled => bootstrapPromise s
                        end;
                      log := log s;
                      waiting := filter (fun w => negb (waits_on a w)) (waiting s);
                      returned := returned s ++
                        map (fun w => (fst w, o)) (filter (waits_on a) (waiting s)) |}
          | _, _ => None
          end
      | None => None
      end
  end.

Fixpoint run (s : state) (tr : list event) : option state :=
  match tr with
  | [] => Some s
  | e :: tr' =>
      match step s e with
      | Some s' => run s' tr'
      | None => None
      end
  end.

End Bootstrap.



(** ** lib/db/setup.ts: the steps of the script

    The script talks to the operator, runs commands and touches two
    files.  A [world] holds what these will answer, in order, and
    records what the script did to them.  Text printed to the console
    is left out. *)
Module Run.
Import JS Setup.

(** One call of [execAsync]: the command line, the account id put in
    its environment if the call passes one, and whether the command
    succeeded. *)
Record invocation := {
  command : jsstring;
  account_env : option jsstring;
  succeeded : bool
}.

Record world := {
  execs : list (completion (jsstring * jsstring));
      (* the outcome of each command to come: stdout and stderr, or its failure *)
  stdin : list jsstring;             (* the lines the operator will type *)
  entropy : nat -> Byte.byte;        (* the bytes [crypto.randomBytes] will deliver *)
  drawn : nat;                       (* how many of them were taken *)
  wrangler_jsonc : completion jsstring; (* what reading wrangler.jsonc gives *)
  jsonc_writable : bool;
  env_writable : bool;
  invoked : list invocation;         (* the commands run so far, oldest first *)
  dot_env : option jsstring          (* the content written to .env, if any *)
}.

(** How a step ends: with a value, with an exception, with
    [process.exit(code)], or never when it waits for input that does not
    come. *)
Inductive result (A : Type) :=
| Value (a : A)
| Thrown (e : error)
| Exit (code : Z)
| Waiting.
Arguments Thrown {A} e.
Arguments Exit {A} code.
Arguments Waiting {A}.

Definition proc (A : Type) : Type := world -> result A * world.

Definition ret {A} (a : A) : proc A := fun w => (Value a, w).

Definition pbind {A B} (m : proc A) (k : A -> proc B) : proc B :=
  fun w =>
    match m w with
    | (Value a, w') => k a w'
    | (Thrown e, w') => (Thrown e, w')
    | (Exit c, w') => (Exit c, w')
    | (Waiting, w') => (Waiting, w')
    end.

Notation "x <~ c ;; k" := (pbind c (fun x => k))
  (at level 61, c at next level, right associativity).

(** [try { m } catch (error) { h }]: only an exception is caught. *)
Definition catch {A} (m : proc A) (h : error -> proc A) : proc A :=
  fun w =>
    match m w with
    | (Thrown e, w') => h e w'
    | r => r
    end.

Definition lift {A} (c : completion A) : proc A :=
  fun w => (match c with Normal a => Value a | Throw e => Thrown e end, w).

Definition throw {A} (e : error) : proc A := fun w => (Thrown e, w).

Definition exit {A} (code : Z) : proc A := fun w => (Exit code, w).

Definition set_stdin (l : list jsstring) (w : world) : world :=
  {| execs := execs w; stdin := l; entropy := entropy w; drawn := drawn w;
     wrangler_jsonc := wrangler_jsonc w; jsonc_writable := jsonc_writable w;
     env_writable := env_writable w; invoked := invoked w; dot_env := dot_env w |}.

Definition ran (i : invocation) (rest : list (completion (jsstring * jsstring)))
    (w : world) : world :=
  {| execs := rest; stdin := stdin w; entropy := entropy w; drawn := drawn w;
     wrangler_jsonc := wrangler_jsonc w; jsonc_writable := jsonc_writable w;
     env_writable := env_writable w; invoked := invoked w ++ [i]; dot_env := dot_env w |}.

Definition draw (size : nat) (w : world) : world :=
  {| execs := execs w; stdin := stdin w; entropy := entropy w; drawn := drawn w + size;
     wrangler_jsonc := wrangler_jsonc w; jsonc_writable := jsonc_writable w;
     env_writable := env_writable w; invoked := invoked w; dot_env := dot_env w |}.

Definition set_wrangler_jsonc (content : jsstring) (w : world) : world :=
  {| execs := execs w; stdin := stdin w; entropy := entropy w; drawn := drawn w;
     wrangler_jsonc := Normal content; jsonc_writable := jsonc_writable w;
     env_writable := env_writable w; invoked := invoked w; dot_env := dot_env w |}.

Definition set_dot_env (content : jsstring) (w : world) : world :=
  {| execs := execs w; stdin := stdin w; entropy := entropy w; drawn := drawn w;
     wrangler_jsonc := wrangler_jsonc w; jsonc_writable := jsonc_writable w;
     env_writable := env_writable w; invoked := invoked w; dot_env := Some content |}.

(** [await execAsync(command, { env })] *)
Definition execAsync (cmd : jsstring) (env : option jsstring) : proc (jsstring * jsstring) :=
  fun w =>
    match execs w with
    | [] => (Waiting, w)
    | Normal out :: rest =>
        (Value out, ran {| command := cmd; account_env := env; succeeded := true |} rest w)
    | Throw e :: rest =>
        (Thrown e, ran {| command := cmd; account_env := env; succeeded := false |} rest w)
    end.

(** [await question(query)] *)
Definition ask : proc jsstring :=
  fun w =>
    match question (stdin w) with
    | Some (answer, rest) => (Value answer, set_stdin rest w)
    | None => (Waiting, w)
    end.

(** A prompt of the first part, run on the lines of the world. *)
Definition prompt {A} (p : list jsstring -> option (A * list jsstring)) : proc A :=
  fun w =>
    match p (stdin w) with
    | Some (a, rest) => (Value a, set_stdin rest w)
    | None => (Waiting, w)
    end.

(** [getStdout(error)], [getStderr(error)]: of the errors, the failure
    of a command alone carries the two texts. *)
Definition getStdout (e : error) : jsstring :=
  match e with ExecError stdout _ => stdout | _ => [] end.

Definition getStderr (e : error) : jsstring :=
  match e with ExecError _ stderr => stderr | _ => [] end.

Definition formatAccount (account : AccountInfo) : jsstring :=
  match name account with
  | Some ((_ :: _) as n) => n ++ str " (" ++ id account ++ str ")"
  | _ => id account
  end.

(** [answer.toLowerCase() === 'y']: y and Y are the only strings whose
    lower case is y. *)
Definition lower_is_y (answer : jsstring) : bool :=
  jseqb answer (str "y") || jseqb answer (str "Y").

(** [parts.join(sep)] *)
Fixpoint join (sep : jsstring) (parts : list jsstring) : jsstring :=
  match parts with
  | [] => []
  | [p] => p
  | p :: rest => p ++ sep ++ join sep rest
  end.

Definition newline : jsstring := [10%N].

(** *** promptForExistingDatabaseDetails *)

(** [/^[0-9a-f]{8}-[0-9a-f]{4}-[0-9a-f]{4}-[0-9a-f]{4}-[0-9a-f]{12}$/i] *)
Definition uuidPattern : regex :=
  [ Bol; times 8 hex ] ++ lit_i "-" ++ [ times 4 hex ] ++ lit_i "-" ++
  [ times 4 hex ] ++ lit_i "-" ++ [ times 4 hex ] ++ lit_i "-" ++
  [ times 12 hex; Eol ].

(** [while (!databaseName)]: one round per answer. *)
Fixpoint ask_name (fallbackName : option jsstring) (lines : list jsstring)
    : option (jsstring * list jsstring) :=
  match lines with
  | [] => None
  | ans :: rest =>
      let answer := trim ans in
      let databaseName :=
        match answer with
        | _ :: _ => answer
        | [] => match fallbackName with
                | Some ((_ :: _) as f) => f
                | _ => []
                end
        end in
      match databaseName with
      | _ :: _ => Some (databaseName, rest)
      | [] => ask_name fallbackName rest
      end
  end.

(** [while (!uuidPattern.test(databaseId))]: the empty string it
    starts from fails the test, so one answer at least is read. *)
Fixpoint ask_uuid (lines : list jsstring) : option (jsstring * list jsstring) :=
  match lines with
  | [] => None
  | ans :: rest =>
      let databaseId := trim ans in
      if test uuidPattern databaseId then Some (databaseId, rest) else ask_uuid rest
  end.

(** The result is [(databaseName, databaseId)]. *)
Definition promptForExistingDatabaseDetails (defaultName : option jsstring)
    (lines : list jsstring) : option ((jsstring * jsstring) * list jsstring) :=
  let fallbackName := option_map trim defaultName in
  match ask_name fallbackName lines with
  | Some (databaseName, rest) =>
      match ask_uuid rest with
      | Some (databaseId, rest') => Some ((databaseName, databaseId), rest')
      | None => None
      end
  | None => None
  end.

(** *** checkStripeCLI *)

Definition checkStripeCLI : proc unit :=
  catch
    (_ <~ execAsync (str "stripe --version") None ;;
     catch
       (_ <~ execAsync (str "stripe config --list") None ;; ret tt)
       (fun _ =>
          answer <~ ask ;;
          if lower_is_y answer then
            catch
              (_ <~ execAsync (str "stripe config --list") None ;; ret tt)
              (fun _ => exit 1%Z)
          else exit 1%Z))
    (fun _ => exit 1%Z).

(** *** checkWranglerCLI *)

(** The round [attempt] of [for (let attempt = 0; attempt < 2; attempt++)],
    with [rounds] rounds left; the value is [detectedAccounts] at the
    end of the loop. *)
Fixpoint whoami (rounds attempt : nat) : proc (option (list AccountInfo)) :=
  match rounds with
  | 0 => ret None
  | S rounds' =>
      catch
        (out <~ execAsync (str "pnpm wrangler whoami") None ;;
         detectedAccounts <~ lift (extractAccounts (fst out)) ;;
         ret (Some detectedAccounts))
        (fun error =>
           accountsFromError <~ lift (extractAccounts (getStdout error)) ;;
           match accountsFromError with
           | _ :: _ => ret (Some accountsFromError)
           | [] =>
               if Nat.eqb attempt 0 then
                 answer <~ ask ;;
                 if lower_is_y answer then whoami rounds' (S attempt) else exit 1%Z
               else exit 1%Z
           end)
  end.

Definition checkWranglerCLI : proc AccountInfo :=
  _ <~ catch (_ <~ execAsync (str "pnpm wrangler --version") None ;; ret tt)
             (fun _ => exit 1%Z) ;;
  detectedAccounts <~ whoami 2 0 ;;
  match detectedAccounts with
  | None => throw (Error (str "Unable to determine Wrangler CLI authentication status."))
  | Some detected => prompt (chooseCloudflareAccount detected)
  end.

(** *** setupCloudflareD1 and the steps after it *)

Section Texts.

(** The string of the number that a JSON lexeme denotes. *)
Variable number_text : jsstring -> jsstring.

(** A parsed value put into a template literal: ToString.  An array
    prints its elements with commas between, [null] as nothing.  An
    object prints through [Object.prototype.toString], unless it has
    a property [toString] of its own: a parsed value is never a
    function, and [valueOf] returns no primitive, so that ToPrimitive
    throws. *)
Fixpoint to_text (v : json) : completion jsstring :=
  match v with
  | JNull => Normal (str "null")
  | JBool true => Normal (str "true")
  | JBool false => Normal (str "false")
  | JNumber lexeme => Normal (number_text lexeme)
  | JString s => Normal s
  | JArray items =>
      parts <- (fix elements (l : list json) : completion (list jsstring) :=
                  match l with
                  | [] => Normal []
                  | item :: rest =>
                      t <- match item with JNull => Normal [] | _ => to_text item end ;;
                      ts <- elements rest ;;
                      Normal (t :: ts)
                  end) items ;;
      Normal (join (str ",") parts)
  | JObject fields =>
      match lookup (str "toString") fields None with
      | Some _ => Throw TypeError
      | None => Normal (str "[object Object]")
      end
  end.

(** The identifier and the name are strings when the operator typed
    them, and whatever the JSON of the command held otherwise. *)
Record D1SetupResult := {
  databaseId : json;
  databaseName : json;
  bindingName : jsstring;
  apiToken : jsstring
}.

(** [if (updated.includes(token)) { updated = updated.replace(token, `...`); changed = true }]:
    the template literal is evaluated only when the token is there. *)
Definition patch_with (token : jsstring) (replacement : completion jsstring)
    (st : jsstring * bool) : completion (jsstring * bool) :=
  let (updated, changed) := st in
  if includes token updated
  then r <- replacement ;; Normal (replace token r updated, true)
  else Normal st.

(** The file is read and written in the world.  Whatever is thrown
    between the reading and the writing is caught: the script goes on. *)
Definition updateWranglerConfig (binding : jsstring) (identifier name : json) : proc unit :=
  fun w =>
    let patched :=
      content <- wrangler_jsonc w ;;
      st1 <- patch_with binding_placeholder
               (Normal (quoted (str "binding") binding)) (content, false) ;;
      st2 <- patch_with database_name_placeholder
               (t <- to_text name ;; Normal (quoted (str "database_name") t)) st1 ;;
      patch_with database_id_placeholder
        (t <- to_text identifier ;; Normal (quoted (str "database_id") t)) st2 in
    (Value tt,
     match patched with
     | Normal (updated, true) => if jsonc_writable w then set_wrangler_jsonc updated w else w
     | _ => w
     end).

(** [while (!desiredName)]: one round per answer. *)
Fixpoint ask_nonempty (lines : list jsstring) : option (jsstring * list jsstring) :=
  match lines with
  | [] => None
  | ans :: rest =>
      match trim ans with
      | [] => ask_nonempty rest
      | (_ :: _) as desiredName => Some (desiredName, rest)
      end
  end.

(** The [try] and [catch] around [wrangler d1 create]; the value is
    [(databaseId, databaseName)]. *)
Definition create_database (account : AccountInfo) (desiredName : jsstring)
    : proc (json * json) :=
  catch
    (out <~ execAsync (str "pnpm wrangler d1 create " ++ desiredName) (Some (id account)) ;;
     let combinedOutput := join newline (filter nonempty [fst out; snd out]) in
     parsed <~ lift (parseD1CreateResult combinedOutput desiredName) ;;
     match parsed with
     | None => throw (Error (str "Could not parse Wrangler output."))
     | Some (databaseId, databaseName) =>
         (* the message of console.log prints the name, then the identifier *)
         _ <~ lift (to_text databaseName) ;;
         _ <~ lift (to_text databaseId) ;;
         ret (databaseId, databaseName)
     end)
    (fun _ =>
       manualDetails <~ prompt (promptForExistingDatabaseDetails (Some desiredName)) ;;
       ret (JString (snd manualDetails), JString (fst manualDetails))).

Definition setupCloudflareD1 (account : AccountInfo) : proc D1SetupResult :=
  answer <~ ask ;;
  let hasExistingDb := trim answer in
  details <~ (if lower_is_y hasExistingDb then
                manualDetails <~ prompt (promptForExistingDatabaseDetails None) ;;
                ret (JString (snd manualDetails), JString (fst manualDetails))
              else
                desiredName <~ prompt ask_nonempty ;;
                create_database account desiredName) ;;
  b <~ ask ;;
  let binding := match trim b with [] => str "DB" | (_ :: _) as n => n end in
  t <~ ask ;;
  let token := trim t in
  _ <~ updateWranglerConfig binding (fst details) (snd details) ;;
  ret {| databaseId := fst details; databaseName := snd details;
         bindingName := binding; apiToken := token |}.

Definition getStripeSecretKey : proc jsstring := ask.

(** A step whose exception is kept as a value. *)
Definition settle {A} (m : proc A) : proc (completion A) :=
  fun w =>
    match m w with
    | (Value a, w') => (Value (Normal a), w')
    | (Thrown e, w') => (Value (Throw e), w')
    | (Exit c, w') => (Exit c, w')
    | (Waiting, w') => (Waiting, w')
    end.

Definition createStripeWebhook : proc jsstring :=
  listen <~ settle (execAsync (str "stripe listen --print-secret") None) ;;
  lift (Setup.createStripeWebhook listen).

(** [crypto.randomBytes(size)] *)
Definition randomBytes (size : nat) : proc (list Byte.byte) :=
  fun w => (Value (map (entropy w) (seq (drawn w) size)), draw size w).

(** [buffer.toString('hex')] *)
Definition nibble (n : N) : char :=
  if (n <? 10)%N then (48 + n)%N else (87 + n)%N.

Definition hex_of_byte (b : Byte.byte) : jsstring :=
  let n := Byte.to_N b in [ nibble (n / 16); nibble (n mod 16) ].

Definition toString_hex (bytes : list Byte.byte) : jsstring :=
  flat_map hex_of_byte bytes.

Definition generateAuthSecret : proc jsstring :=
  bytes <~ randomBytes 32 ;;
  ret (toString_hex bytes).

(** One line of the file: [`${key}=${value ?? ''}`]. *)
Definition env_line (entry : string * json) : completion jsstring :=
  t <- match snd entry with
       | JNull => Normal []
       | value => to_text value
       end ;;
  Normal (str (fst entry) ++ str "=" ++ t).

Fixpoint env_lines (entries : list (string * json)) : completion (list jsstring) :=
  match entries with
  | [] => Normal []
  | entry :: rest =>
      l <- env_line entry ;;
      ls <- env_lines rest ;;
      Normal (l :: ls)
  end.

Definition writeEnvFile (envVars : list (string * json)) : proc unit :=
  lines <~ lift (env_lines envVars) ;;
  let envContent := join newline lines in
  fun w =>
    if env_writable w then (Value tt, set_dot_env (envContent ++ newline) w)
    else (Thrown (Error (str "EACCES")), w).

Definition main : proc unit :=
  _ <~ checkStripeCLI ;;
  account <~ checkWranglerCLI ;;
  d1 <~ setupCloudflareD1 account ;;
  STRIPE_SECRET_KEY <~ getStripeSecretKey ;;
  STRIPE_WEBHOOK_SECRET <~ createStripeWebhook ;;
  let BASE_URL := str "http://localhost:3000" in
  AUTH_SECRET <~ generateAuthSecret ;;
  writeEnvFile
    [ ("CLOUDFLARE_ACCOUNT_ID", JString (id account));
      ("CLOUDFLARE_D1_DATABASE_ID", databaseId d1);
      ("CLOUDFLARE_D1_DATABASE_NAME", databaseName d1);
      ("CLOUDFLARE_D1_BINDING", JString (bindingName d1));
      ("CLOUDFLARE_D1_API_TOKEN", JString (apiToken d1));
      ("STRIPE_SECRET_KEY", JString STRIPE_SECRET_KEY);
      ("STRIPE_WEBHOOK_SECRET", JString STRIPE_WEBHOOK_SECRET);
      ("BASE_URL", JString BASE_URL);
      ("AUTH_SECRET", JString AUTH_SECRET) ]%string.

(** [main().catch((error) => { console.error(error); process.exit(1) })] *)
Definition entry : proc unit :=
  catch main (fun _ => exit 1%Z).

End Texts.

End Run.

(** ** The database of a request: resolveD1Database and getDb *)
Module Db.
Import JS Bootstrap.

(** A value found under a name of the bindings object, which has type
    [unknown]: only what the code asks of it is kept.  [Scalar] is a
    boolean, a number, a bigint or a symbol, with its truth value. *)
Inductive binding :=
| Missing
| NullValue
| Text (s : jsstring)
| Scalar (truth : bool)
| Function
| Resource (prepare : option property).

Definition nullish (b : binding) : bool :=
  match b with Missing | NullValue => true | _ => false end.

(** ToBoolean *)
Definition truthy (b : binding) : bool :=
  match b with
  | Missing | NullValue => false
  | Text s => match s with [] => false | _ :: _ => true end
  | Scalar truth => truth
  | Function | Resource _ => true
  end.

(** [a ?? b] *)
Definition coalesce (a b : binding) : binding := if nullish a then b else a.

(** The value as [ensureD1Schema] sees it. *)
Definition to_candidate (b : binding) : candidate :=
  match b with
  | Missing => Undefined
  | NullValue => Null
  | Text _ | Scalar _ => Primitive
  | Function => Callable
  | Resource prepare => Object prepare
  end.

(** [a < b] on strings: the order of [Array.prototype.sort] without a
    comparison function. *)
Fixpoint before (a b : jsstring) : bool :=
  match a, b with
  | [], _ :: _ => true
  | _, [] => false
  | x :: a', y :: b' => (x <? y)%N || ((x =? y)%N && before a' b')
  end.

Fixpoint insert (k : jsstring) (sorted : list jsstring) : list jsstring :=
  match sorted with
  | [] => [k]
  | x :: rest => if before k x then k :: sorted else x :: insert k rest
  end.

Definition sort (keys : list jsstring) : list jsstring := fold_right insert [] keys.

(** [parts.join(sep)] *)
Fixpoint join (sep : jsstring) (parts : list jsstring) : jsstring :=
  match parts with
  | [] => []
  | [p] => p
  | p :: rest => p ++ sep ++ join sep rest
  end.

Section Bindings.

(** What a name that is not an own property of the bindings object
    reads as: [Missing], or what the prototype of the object holds. *)
Variable inherited : jsstring -> binding.

(** [envRecord[name]]; the object is the list of its own properties. *)
Definition get (envRecord : list (jsstring * binding)) (name : jsstring) : binding :=
  match find (fun entry => jseqb (fst entry) name) envRecord with
  | Some entry => snd entry
  | None => inherited name
  end.

(** The name of the binding to look for first. *)
Definition preferredBindingName (process_env : option jsstring)
    (envRecord : list (jsstring * binding)) : jsstring :=
  let configuredBinding :=
    match process_env with
    | Some s => Some s
    | None =>
        match get envRecord (str "CLOUDFLARE_D1_BINDING") with
        | Text s => Some s
        | _ => None
        end
    end in
  match option_map trim configuredBinding with
  | Some ((_ :: _) as name) => name
  | _ => str "DB"
  end.

Definition missing_binding (name : jsstring) (envRecord : list (jsstring * binding)) : error :=
  let available :=
    match join (str ", ") (sort (map fst envRecord)) with
    | [] => str "none"
    | (_ :: _) as keys => keys
    end in
  Error (str "Missing Cloudflare D1 binding " ++ [34%N] ++ name ++ [34%N] ++
         str ". Available bindings: " ++ available ++ str ".").

(** [process_env] is [process.env.CLOUDFLARE_D1_BINDING].  [env] is
    [None] when it is not an object: [undefined], [null], a primitive
    or a function. *)
Definition resolveD1Database (process_env : option jsstring)
    (env : option (list (jsstring * binding))) : completion binding :=
  match env with
  | None => Throw (Error (str "Cloudflare bindings are not available."))
  | Some envRecord =>
      let preferred := preferredBindingName process_env envRecord in
      let binding :=
        coalesce (get envRecord preferred)
          (coalesce (get envRecord (str "MY_D1")) (get envRecord (str "DB"))) in
      if negb (truthy binding) then Throw (missing_binding preferred envRecord)
      else Normal binding
  end.

(** One evaluation of the body of [getDb] for caller [c], up to the
    [await] of [ensureD1Schema]; [env] is what [getCloudflareContext]
    resolved to.  An exception of [resolveD1Database] rejects the
    caller on the spot.  The memoization of [cache] is left out. *)
Definition getDb (c : nat) (process_env : option jsstring)
    (env : option (list (jsstring * binding))) (s : state) : state :=
  match resolveD1Database process_env env with
  | Throw e =>
      {| attempts := attempts s; bootstrapPromise := bootstrapPromise s; log := log s;
         waiting := waiting s; returned := returned s ++ [(c, Rejected e)] |}
  | Normal binding => ensureD1Schema c (to_candidate binding) s
  end.

End Bindings.

End Db.

(** ** lib/db/seed.ts: the callback of the remote driver *)
Module Remote.
Import JS.

Inductive RemoteMethod := Run | All | Values | Get.

(** What [fetch] resolves to, as far as the callback reads it:
    [response.ok], [response.status] as the text of the number, and
    the completion of [response.json()]. *)
Record response := {
  ok : bool;
  status : jsstring;
  body : completion json
}.

(** [`${baseUrl}/${method === 'values' ? 'raw' : 'query'}`] *)
Definition endpoint (baseUrl : jsstring) (method : RemoteMethod) : jsstring :=
  baseUrl ++ str "/" ++ match method with Values => str "raw" | _ => str "query" end.

(** [v?.[0]] *)
Definition opt_first (v : value) : value :=
  match v with
  | Some (JArray (item :: _)) => Some item
  | Some (JString (c :: _)) => Some (JString [c])
  | Some (JObject fields) => lookup (str "0") fields None
  | _ => None
  end.

Fixpoint join (sep : jsstring) (parts : list jsstring) : jsstring :=
  match parts with
  | [] => []
  | [p] => p
  | p :: rest => p ++ sep ++ join sep rest
  end.

Section Texts.

(** The string of the number that a JSON lexeme denotes. *)
Variable number_text : jsstring -> jsstring.

(** The line of one entry of [data.errors]. *)
Definition error_line (error : json) : jsstring :=
  let code :=
    match opt_member (Some error) "code" with
    | Some (JNumber lexeme) => number_text lexeme
    | _ => str "unknown"
    end in
  let message :=
    match opt_member (Some error) "message" with
    | Some (JString s) => s
    | _ => str "Unknown error"
    end in
  code ++ str ": " ++ message.

(** [answer] is the completion of [fetch]; the result is [rows]. *)
Definition remoteCallback (answer : completion response) : completion (list json) :=
  response <- answer ;;
  data <- body response ;;
  failed <-
    (if negb (ok response) then Normal true
     else success <- member (Some data) "success" ;; Normal (negb (truthy success))) ;;
  if (failed : bool) then
    errors <- member (Some data) "errors" ;;
    Throw (Error
      match errors with
      | Some (JArray ((_ :: _) as entries)) => join [10%N] (map error_line entries)
      | _ => str "Unexpected response from Cloudflare D1 API (" ++ status response ++ str ")"
      end)
  else
    result <- member (Some data) "result" ;;
    let results := opt_member (opt_first result) "results" in
    Normal
      match results with
      | Some (JArray rows) => rows
      | Some (JObject fields) =>
          match lookup (str "rows") fields None with
          | Some (JArray rows) => rows
          | _ => []
          end
      | _ => []
      end.

End Texts.

End Remote.

(** ** lib/db/seed.ts: the routine

    The routine reaches four things that are not of this repository:
    [hashPassword], [fetch] with the service behind it, the driver
    that [drizzleRemote] makes of [remoteCallback], and the billing
    provider.  They are parameters here.  Of the driver two parts are
    kept apart: the statement and the parameters that it builds for
    each query, and [mapResultRow], the object that it makes of a row
    that the callback returned; a selection calls the callback with
    the method all and an insertion with the method run. *)
Module Seed.
Import JS Remote.

Definition BOOTSTRAP_STATEMENTS : list jsstring := Bootstrap.MIGRATION_STATEMENTS.

Inductive table := users | teams | teamMembers.

(** The body of a request: [{ sql, params }]. *)
Record query := {
  sql : jsstring;
  params : list value
}.

(** What the routine asks of the world outside. *)
Inductive request :=
| Hash (password : jsstring)
| Fetch (url : jsstring) (body : query)
| ProductsCreate (name description : jsstring)
| PricesCreate (product : value) (unit_amount : Z).

Section Routine.

(** The state of the services. *)
Variable service : Type.

Variable hashPassword : jsstring -> service -> completion jsstring * service.
Variable fetch : jsstring -> query -> service -> completion response * service.
Variable products_create : jsstring -> jsstring -> service -> completion json * service.
Variable prices_create : value -> Z -> service -> completion json * service.

(** The string of the number that a JSON lexeme denotes. *)
Variable number_text : jsstring -> jsstring.

(** The address made of the three variables of the environment. *)
Variable baseUrl : jsstring.

(** The queries of the driver. *)
Variable select_user : jsstring -> query.
Variable insert_user : jsstring -> jsstring -> jsstring -> query.
Variable select_team : jsstring -> query.
Variable insert_team : jsstring -> query.
Variable select_member : value -> value -> query.
Variable insert_member : value -> value -> jsstring -> query.

Variable mapResultRow : table -> json -> completion json.

(** The requests sent so far, oldest first, and the services. *)
Record world := {
  sent : list request;
  remote : service
}.

Definition step (A : Type) : Type := world -> completion A * world.

Definition ret {A} (a : A) : step A := fun w => (Normal a, w).

Definition sbind {A B} (m : step A) (k : A -> step B) : step B :=
  fun w =>
    match m w with
    | (Normal a, w') => k a w'
    | (Throw e, w') => (Throw e, w')
    end.

Notation "x <-- c ;; k" := (sbind c (fun x => k))
  (at level 61, c at next level, right associativity).

Definition lift {A} (c : completion A) : step A := fun w => (c, w).

Definition throw {A} (e : error) : step A := fun w => (Throw e, w).

(** One request and its answer. *)
Definition call {A} (r : request) (f : service -> completion A * service) : step A :=
  fun w =>
    let (answer, s) := f (remote w) in
    (answer, {| sent := sent w ++ [r]; remote := s |}).

(** [await remoteCallback(sql, params, method)]: the request, then
    what the callback makes of the answer. *)
Definition remoteCallback (q : query) (method : RemoteMethod) : step (list json) :=
  fun w =>
    let url := endpoint baseUrl method in
    let (answer, s) := fetch url q (remote w) in
    (Remote.remoteCallback number_text answer,
     {| sent := sent w ++ [Fetch url q]; remote := s |}).

Fixpoint map_rows (t : table) (rows : list json) : completion (list json) :=
  match rows with
  | [] => Normal []
  | row :: rest =>
      r <- mapResultRow t row ;;
      rs <- map_rows t rest ;;
      Normal (r :: rs)
  end.

(** [await db.select().from(t).where(...).limit(1)] *)
Definition all (q : query) (t : table) : step (list json) :=
  rows <-- remoteCallback q All ;;
  lift (map_rows t rows).

(** [await db.insert(t).values(...)] *)
Definition run (q : query) : step unit :=
  _ <-- remoteCallback q Run ;;
  ret tt.

(** [[row] = rows] *)
Definition first (rows : list json) : value :=
  match rows with
  | row :: _ => Some row
  | [] => None
  end.

Fixpoint for_each {A} (l : list A) (body : A -> step unit) : step unit :=
  match l with
  | [] => ret tt
  | a :: rest => _ <-- body a ;; for_each rest body
  end.

Definition createStripeProducts : step unit :=
  baseProduct <-- call (ProductsCreate (str "Base") (str "Base subscription plan"))
                       (products_create (str "Base") (str "Base subscription plan")) ;;
  baseId <-- lift (member (Some baseProduct) "id") ;;
  _ <-- call (PricesCreate baseId 800) (prices_create baseId 800) ;;
  plusProduct <-- call (ProductsCreate (str "Plus") (str "Plus subscription plan"))
                       (products_create (str "Plus") (str "Plus subscription plan")) ;;
  plusId <-- lift (member (Some plusProduct) "id") ;;
  _ <-- call (PricesCreate plusId 1200) (prices_create plusId 1200) ;;
  ret tt.

Definition seed : step unit :=
  let email := str "test@test.com" in
  let password := str "admin123" in
  passwordHash <-- call (Hash password) (hashPassword password) ;;
  _ <-- for_each BOOTSTRAP_STATEMENTS
          (fun statement =>
             _ <-- remoteCallback {| sql := statement; params := [] |} Run ;; ret tt) ;;
  found <-- all (select_user email) users ;;
  user <-- (if negb (truthy (first found)) then
              _ <-- run (insert_user email passwordHash (str "owner")) ;;
              again <-- all (select_user email) users ;;
              ret (first again)
            else ret (first found)) ;;
  if negb (truthy user) then throw (Error (str "Failed to retrieve the seeded user."))
  else
    let teamName := str "Test Team" in
    found <-- all (select_team teamName) teams ;;
    team <-- (if negb (truthy (first found)) then
                _ <-- run (insert_team teamName) ;;
                again <-- all (select_team teamName) teams ;;
                ret (first again)
              else ret (first found)) ;;
    if negb (truthy team) then throw (Error (str "Failed to retrieve the seeded team."))
    else
      teamId <-- lift (member team "id") ;;
      userId <-- lift (member user "id") ;;
      existing <-- all (select_member teamId userId) teamMembers ;;
      _ <-- (if negb (truthy (first existing)) then
               run (insert_member teamId userId (str "owner"))
             else ret tt) ;;
      createStripeProducts.

End Routine.

End Seed.

(** * Properties *)

Unset Implicit Arguments.

(** ** Strings *)

Section StringFacts.
Import JS.

Lemma jseqb_eq a : forall b, jseqb a b = true <-> a = b.
Proof.
  induction a as [|x a IH]; intros [|y b]; simpl; split; intros H;
    try reflexivity; try discriminate.
  - apply andb_true_iff in H. destruct H as [H1 H2].
    apply N.eqb_eq in H1. apply IH in H2. congruence.
  - injection H as -> ->. rewrite N.eqb_refl. now apply IH.
Qed.

Lemma startsWith_app pat : forall s, startsWith pat s = true <-> exists post, s = pat ++ post.
Proof.
  induction pat as [|p pat IH]; intros s; simpl.
  - split; [intros _; now exists s | reflexivity].
  - destruct s as [|c s].
    + split; [discriminate | intros [post H]; discriminate].
    + rewrite andb_true_iff, N.eqb_eq, IH. split.
      * intros [-> [post ->]]. now exists post.
      * intros [post H]. injection H as -> ->. split; [reflexivity | now exists post].
Qed.

(** The first occurrence: where [indexOf] points, and that nothing
    matches before it. *)
Lemma indexOf_from_found pat : forall s i k,
  indexOf_from pat s i = k -> k <> (-1)%Z -> (0 <= i)%Z ->
  exists pre post,
    s = pre ++ pat ++ post /\ k = (i + Z.of_nat (length pre))%Z /\
    forall n, n < length pre -> startsWith pat (skipn n s) = false.
Proof.
  induction s as [|c s IH]; intros i k H Hk Hi; simpl in H.
  - destruct (startsWith pat []) eqn:E; [|congruence].
    apply startsWith_app in E. destruct E as [post E].
    exists [], post. simpl. repeat split; [exact E | lia | intros n Hn; inversion Hn].
  - destruct (startsWith pat (c :: s)) eqn:E.
    + apply startsWith_app in E. destruct E as [post E].
      exists [], post. simpl. repeat split; [exact E | lia | intros n Hn; inversion Hn].
    + destruct (IH (i + 1)%Z k H Hk ltac:(lia)) as (pre & post & Hs & Hk' & Hno).
      exists (c :: pre), post. simpl. repeat split.
      * now rewrite Hs.
      * lia.
      * intros [|n] Hn; [exact E|]. simpl. apply Hno. lia.
Qed.

Lemma indexOf_from_bounds pat : forall s i,
  (0 <= i)%Z -> indexOf_from pat s i = (-1)%Z \/ (i <= indexOf_from pat s i)%Z.
Proof.
  induction s as [|c s IH]; intros i Hi; simpl.
  - destruct (startsWith pat []); [right; lia | now left].
  - destruct (startsWith pat (c :: s)); [right; lia|].
    destruct (IH (i + 1)%Z ltac:(lia)); [now left | right; lia].
Qed.

Lemma indexOf_from_none pat : forall s i,
  indexOf_from pat s i = (-1)%Z -> (0 <= i)%Z ->
  forall n, startsWith pat (skipn n s) = false.
Proof.
  induction s as [|c s IH]; intros i H Hi n; simpl in H.
  - destruct (startsWith pat []) eqn:E; [lia|]. now destruct n.
  - destruct (startsWith pat (c :: s)) eqn:E; [lia|].
    destruct n as [|n]; [exact E|]. simpl. exact (IH _ H ltac:(lia) n).
Qed.

Lemma startsWith_char c s : startsWith [c] s = true <-> exists t, s = c :: t.
Proof. rewrite startsWith_app. reflexivity. Qed.

Lemma startsWith_char_false c x s : x <> c -> startsWith [c] (x :: s) = false.
Proof.
  intros H. simpl. rewrite andb_true_r. apply N.eqb_neq. congruence.
Qed.

Lemma indexOf_char_absent c : forall s i,
  ~ In c s -> indexOf_from [c] s i = (-1)%Z.
Proof.
  induction s as [|x s IH]; intros i H; simpl; [reflexivity|].
  rewrite andb_true_r. destruct (N.eqb_spec c x) as [->|Hne].
  - exfalso. apply H. now left.
  - apply IH. intros Hin. apply H. now right.
Qed.

Lemma indexOf_char_first c pre : forall post i,
  ~ In c pre -> indexOf_from [c] (pre ++ c :: post) i = (i + Z.of_nat (length pre))%Z.
Proof.
  induction pre as [|x pre IH]; intros post i H.
  - simpl. rewrite N.eqb_refl. simpl. lia.
  - cbn [app indexOf_from startsWith]. rewrite andb_true_r.
    destruct (N.eqb_spec c x) as [->|Hne].
    + exfalso. apply H. now left.
    + rewrite IH by (intros Hin; apply H; now right). cbn [length]. lia.
Qed.

Lemma lastIndexOf_char_absent c : forall s i found,
  ~ In c s -> lastIndexOf_from [c] s i found = found.
Proof.
  induction s as [|x s IH]; intros i found H; simpl; [reflexivity|].
  rewrite andb_true_r. destruct (N.eqb_spec c x) as [->|Hne].
  - exfalso. apply H. now left.
  - apply IH. intros Hin. apply H. now right.
Qed.

Lemma lastIndexOf_char_last c pre : forall post i found,
  ~ In c post ->
  lastIndexOf_from [c] (pre ++ c :: post) i found = (i + Z.of_nat (length pre))%Z.
Proof.
  induction pre as [|x pre IH]; intros post i found H.
  - simpl. rewrite N.eqb_refl. simpl. rewrite lastIndexOf_char_absent by exact H. lia.
  - cbn [app lastIndexOf_from]. rewrite IH by exact H. cbn [length]. lia.
Qed.

Lemma includes_false pat s :
  includes pat s = false -> forall pre post, s <> pre ++ pat ++ post.
Proof.
  unfold includes, indexOf. intros H pre post ->.
  apply negb_false_iff, Z.eqb_eq in H.
  pose proof (indexOf_from_none pat _ 0 H ltac:(lia) (length pre)) as Hn.
  rewrite skipn_app, skipn_all, Nat.sub_diag in Hn. simpl in Hn.
  assert (startsWith pat (pat ++ post) = true) by (apply startsWith_app; now exists post).
  congruence.
Qed.

Lemma firstn_exact {A} (pre post : list A) : firstn (length pre) (pre ++ post) = pre.
Proof. now rewrite firstn_app, firstn_all, Nat.sub_diag, app_nil_r. Qed.

Lemma skipn_exact {A} (pre post : list A) : skipn (length pre) (pre ++ post) = post.
Proof. now rewrite skipn_app, skipn_all, Nat.sub_diag. Qed.

(** [replace] rewrites the first occurrence and nothing else. *)
Lemma replace_first pat template s :
  includes pat s = true ->
  exists pre post,
    s = pre ++ pat ++ post /\
    (forall n, n < length pre -> startsWith pat (skipn n s) = false) /\
    replace pat template s = pre ++ getSubstitution pat pre post template ++ post.
Proof.
  unfold includes, indexOf, replace. intros H.
  apply negb_true_iff, Z.eqb_neq in H.
  destruct (indexOf_from_found pat s 0 _ eq_refl H ltac:(lia)) as (pre & post & Hs & Hk & Hno).
  exists pre, post. split; [exact Hs|]. split; [exact Hno|].
  unfold indexOf. destruct (Z.eqb_spec (indexOf_from pat s 0) (-1)) as [E|_]; [congruence|].
  assert (Hpos : Z.to_nat (indexOf_from pat s 0) = length pre) by (rewrite Hk; lia).
  rewrite Hpos. clear Hk Hpos H Hno. subst s.
  rewrite firstn_exact.
  replace (length pre + length pat) with (length (pre ++ pat)) by apply length_app.
  rewrite (app_assoc pre pat post), skipn_exact. reflexivity.
Qed.

Lemma replace_absent pat template s :
  includes pat s = false -> replace pat template s = s.
Proof.
  unfold includes, replace. intros H. apply negb_false_iff in H. now rewrite H.
Qed.

End StringFacts.
(** ** The matcher *)

Section MatcherFacts.
Import JS.

(** The longest prefix in the set [p], and the rest. *)
Fixpoint span (p : char -> bool) (s : jsstring) : jsstring * jsstring :=
  match s with
  | c :: s' => if p c then let (a, b) := span p s' in (c :: a, b) else ([], s)
  | [] => ([], [])
  end.

Lemma span_spec p : forall s a b,
  span p s = (a, b) ->
  s = a ++ b /\ forallb p a = true /\ match b with [] => True | c :: _ => p c = false end.
Proof.
  induction s as [|c s IH]; intros a b H; simpl in H.
  - injection H as <- <-. now repeat split.
  - destruct (p c) eqn:E.
    + destruct (span p s) as [a' b']. injection H as <- <-.
      destruct (IH a' b' eq_refl) as (-> & Ha & Hb). simpl. rewrite E. now repeat split.
    + injection H as <- <-. simpl. now repeat split.
Qed.

Lemma span_maximal p : forall a b,
  forallb p a = true -> match b with [] => True | c :: _ => p c = false end ->
  span p (a ++ b) = (a, b).
Proof.
  induction a as [|c a IH]; intros b Ha Hb.
  - destruct b as [|c b]; simpl; [reflexivity | now rewrite Hb].
  - simpl in Ha. apply andb_true_iff in Ha. destruct Ha as [Hc Ha].
    simpl. rewrite Hc, (IH b Ha Hb). reflexivity.
Qed.

(** A set matched exactly once. *)
Lemma rep_one R p (k : bool -> jsstring -> option R) b s :
  rep p 1 (Some 1) true k b s =
  match s with
  | c :: s' => if p c then k false s' else None
  | [] => None
  end.
Proof.
  destruct s as [|c s]; [reflexivity|]. cbn [rep Nat.pred option_map].
  destruct (p c); [|reflexivity].
  destruct s; cbn [rep]; destruct (k false _); reflexivity.
Qed.

(** A set matched exactly [n] times. *)
Lemma rep_exact R p g (k : bool -> jsstring -> option R) : forall n b s r,
  rep p n (Some n) g k b s = Some r ->
  exists pre rest b',
    s = pre ++ rest /\ length pre = n /\ forallb p pre = true /\ k b' rest = Some r.
Proof.
  induction n as [|n IH]; intros b s r H.
  - exists [], s, b. repeat split.
    destruct s; cbn [rep] in H; destruct g; try exact H;
      destruct (k b _); congruence.
  - destruct s as [|c s]; cbn [rep Nat.pred option_map] in H.
    + destruct g; discriminate.
    + destruct (p c) eqn:E; [|destruct g; discriminate].
      assert (H' : rep p n (Some n) g k false s = Some r).
      { destruct g; [|exact H].
        destruct (rep p n (Some n) true k false s); [congruence | discriminate]. }
      destruct (IH _ _ _ H') as (pre & rest & b' & -> & Hl & Hp & Hk).
      exists (c :: pre), rest, b'. simpl. rewrite E, Hl, Hp. now repeat split.
Qed.

(** A greedy repetition without upper bound, followed by something
    that always matches, takes the longest run. *)
Lemma rep_greedy_longest R p (f : jsstring -> R) : forall s lo b,
  rep p lo None true (fun _ s' => Some (f s')) b s =
  if (lo <=? length (fst (span p s)))%nat then Some (f (snd (span p s))) else None.
Proof.
  induction s as [|c s IH]; intros lo b.
  - destruct lo; reflexivity.
  - cbn [rep option_map span]. destruct (p c) eqn:E.
    + rewrite IH. destruct (span p s) as [a r]. cbn [fst snd length].
      destruct lo as [|lo]; cbn [Nat.pred].
      * reflexivity.
      * change (S lo <=? S (length a))%nat with (lo <=? length a)%nat.
        destruct (lo <=? length a)%nat; reflexivity.
    + cbn [fst snd length]. destruct lo; reflexivity.
Qed.

(** A literal run is matched character by character. *)
Lemma mh_lit cs : forall r b s o caps,
  mh (lit_chars cs ++ r) b s o caps =
  if startsWith cs s
  then mh r (match cs with [] => b | _ :: _ => false end) (skipn (length cs) s) o caps
  else None.
Proof.
  unfold lit_chars.
  induction cs as [|c cs IH]; intros r b s o caps; [reflexivity|].
  cbn [map app mh]. unfold one at 1. cbn [mh]. rewrite rep_one.
  destruct s as [|x s]; [reflexivity|]. cbn [startsWith length skipn].
  unfold eqc at 1. rewrite N.eqb_sym.
  destruct (N.eqb c x); [|reflexivity]. cbn [andb]. rewrite IH.
  destruct (startsWith cs s); [|reflexivity]. now destruct cs.
Qed.

End MatcherFacts.
(** ** parseJsonFromOutput *)

Section ParseJsonFacts.
Import JS Setup.

Definition lbrace : char := chr "{".
Definition rbrace : char := chr "}".

Lemma slice_middle (pre obj post : jsstring) :
  slice (pre ++ obj ++ post) (Z.of_nat (length pre)) (Z.of_nat (length pre + length obj)) = obj.
Proof.
  unfold slice, clamp_index. rewrite !length_app.
  destruct (Z.ltb_spec (Z.of_nat (length pre)) 0); [lia|].
  destruct (Z.ltb_spec (Z.of_nat (length pre + length obj)) 0); [lia|].
  rewrite !Z.min_l by lia.
  replace (Z.to_nat (Z.max (Z.of_nat (length pre + length obj) - Z.of_nat (length pre)) 0))
    with (length obj) by lia.
  rewrite Nat2Z.id, skipn_exact, firstn_exact. reflexivity.
Qed.

Lemma stripAnsi_empty : stripAnsi [] = [].
Proof. reflexivity. Qed.

(** The slice the function hands to [JSON.parse] when the first [{]
    and the last [}] delimit [obj]. *)
Lemma parseJsonFromOutput_slice raw pre mid post :
  stripAnsi raw = pre ++ (lbrace :: mid ++ [rbrace]) ++ post ->
  ~ In lbrace pre -> ~ In rbrace post ->
  parseJsonFromOutput raw =
  try_catch (JSON_parse (lbrace :: mid ++ [rbrace])) (fun _ => Normal JNull).
Proof.
  intros Hclean Hpre Hpost. unfold parseJsonFromOutput.
  destruct raw as [|c raw]; [rewrite stripAnsi_empty in Hclean; now destruct pre|].
  rewrite Hclean. cbv zeta.
  assert (Hfirst : indexOf (str "{") (pre ++ (lbrace :: mid ++ [rbrace]) ++ post)
                   = Z.of_nat (length pre)).
  { unfold indexOf. change (str "{") with [lbrace]. cbn [app].
    now rewrite indexOf_char_first. }
  assert (Hlast : lastIndexOf (str "}") (pre ++ (lbrace :: mid ++ [rbrace]) ++ post)
                  = Z.of_nat (length pre + S (length mid))).
  { unfold lastIndexOf. change (str "}") with [rbrace].
    replace (pre ++ (lbrace :: mid ++ [rbrace]) ++ post)
      with ((pre ++ lbrace :: mid) ++ rbrace :: post)
      by (cbn [app]; now rewrite <- !app_assoc).
    rewrite lastIndexOf_char_last by exact Hpost.
    rewrite length_app. cbn [length]. lia. }
  rewrite Hfirst, Hlast.
  destruct (Z.eqb_spec (Z.of_nat (length pre)) (-1)); [lia|].
  destruct (Z.eqb_spec (Z.of_nat (length pre + S (length mid))) (-1)); [lia|].
  destruct (Z.leb_spec (Z.of_nat (length pre + S (length mid))) (Z.of_nat (length pre))); [lia|].
  cbn [orb].
  replace (Z.of_nat (length pre + S (length mid)) + 1)%Z
    with (Z.of_nat (length pre + length (lbrace :: mid ++ [rbrace])))
    by (cbn [length]; rewrite length_app; cbn [length]; lia).
  now rewrite slice_middle.
Qed.

Lemma nth_error_middle {A} (pre : list A) x post : nth_error (pre ++ x :: post) (length pre) = Some x.
Proof. rewrite nth_error_app2, Nat.sub_diag; [reflexivity | lia]. Qed.

(** When the last [}] comes before every [{]. *)
Lemma parseJsonFromOutput_misordered raw a b :
  stripAnsi raw = a ++ rbrace :: b -> ~ In rbrace b -> ~ In lbrace a ->
  parseJsonFromOutput raw = Normal JNull.
Proof.
  intros Hclean Hb Ha. unfold parseJsonFromOutput.
  destruct raw as [|c raw]; [reflexivity|]. rewrite Hclean. cbv zeta.
  assert (Hlast : lastIndexOf (str "}") (a ++ rbrace :: b) = Z.of_nat (length a)).
  { unfold lastIndexOf. change (str "}") with [rbrace].
    rewrite lastIndexOf_char_last by exact Hb. lia. }
  rewrite Hlast.
  destruct (Z.eqb_spec (indexOf (str "{") (a ++ rbrace :: b)) (-1)) as [|Hne]; [reflexivity|].
  destruct (indexOf_from_found (str "{") (a ++ rbrace :: b) 0 _ eq_refl Hne ltac:(lia))
    as (pre & post & Hs & Hk & _).
  unfold indexOf. rewrite Hk.
  assert (Hlt : length a < length pre).
  { destruct (Nat.lt_ge_cases (length a) (length pre)) as [|Hge]; [assumption|exfalso].
    pose proof (nth_error_middle pre lbrace post) as Hn.
    change (str "{" ++ post) with (lbrace :: post) in Hs. rewrite <- Hs in Hn.
    destruct (Nat.eq_dec (length pre) (length a)) as [E|E].
    - rewrite E, nth_error_middle in Hn. discriminate.
    - rewrite nth_error_app1 in Hn by lia. apply nth_error_In in Hn. contradiction. }
  destruct (Z.eqb_spec (Z.of_nat (length a)) (-1)); [reflexivity|].
  destruct (Z.leb_spec (Z.of_nat (length a)) (0 + Z.of_nat (length pre))); [|lia].
  now rewrite orb_true_r.
Qed.

Lemma parseJsonFromOutput_normal raw : exists v, parseJsonFromOutput raw = Normal v.
Proof.
  unfold parseJsonFromOutput. destruct raw; [now exists JNull|]. cbv zeta.
  destruct (_ || _); [now exists JNull|].
  destruct (JSON_parse _) as [v|e]; [now exists v | now exists JNull].
Qed.

(** C2, as the code has it.  When the first [{] and the last [}] of
    the text, ANSI sequences removed, delimit a well-formed JSON
    object, [parseJsonFromOutput] returns it; it returns [null] when
    the text has no [{], no [}], its last [}] before every [{], or when
    the slice between the two does not parse; it never throws. *)
Theorem parseJsonFromOutput_first_to_last_brace :
  (forall raw pre mid post v,
     stripAnsi raw = pre ++ (lbrace :: mid ++ [rbrace]) ++ post ->
     ~ In lbrace pre -> ~ In rbrace post ->
     JSON_parse (lbrace :: mid ++ [rbrace]) = Normal v ->
     parseJsonFromOutput raw = Normal v) /\
  (forall raw, ~ In lbrace (stripAnsi raw) -> parseJsonFromOutput raw = Normal JNull) /\
  (forall raw, ~ In rbrace (stripAnsi raw) -> parseJsonFromOutput raw = Normal JNull) /\
  (forall raw a b,
     stripAnsi raw = a ++ rbrace :: b -> ~ In rbrace b -> ~ In lbrace a ->
     parseJsonFromOutput raw = Normal JNull) /\
  (forall raw pre mid post e,
     stripAnsi raw = pre ++ (lbrace :: mid ++ [rbrace]) ++ post ->
     ~ In lbrace pre -> ~ In rbrace post ->
     JSON_parse (lbrace :: mid ++ [rbrace]) = Throw e ->
     parseJsonFromOutput raw = Normal JNull) /\
  (forall raw, exists v, parseJsonFromOutput raw = Normal v).
Proof.
  repeat apply conj.
  - intros raw pre mid post v Hc Hpre Hpost Hparse.
    rewrite (parseJsonFromOutput_slice raw pre mid post Hc Hpre Hpost), Hparse. reflexivity.
  - intros raw H. unfold parseJsonFromOutput. destruct raw; [reflexivity|]. cbv zeta.
    unfold indexOf. change (str "{") with [lbrace].
    now rewrite indexOf_char_absent by exact H.
  - intros raw H. unfold parseJsonFromOutput. destruct raw; [reflexivity|]. cbv zeta.
    unfold lastIndexOf. change (str "}") with [rbrace].
    rewrite lastIndexOf_char_absent by exact H. cbn [Z.eqb]. now rewrite orb_true_r.
  - exact parseJsonFromOutput_misordered.
  - intros raw pre mid post e Hc Hpre Hpost Hparse.
    rewrite (parseJsonFromOutput_slice raw pre mid post Hc Hpre Hpost), Hparse. reflexivity.
  - exact parseJsonFromOutput_normal.
Qed.

(** An object in green between two colour sequences, after a word. *)
Lemma parseJsonFromOutput_first_to_last_brace_witness :
  parseJsonFromOutput (str "id " ++ [27%N] ++ dq "[32m{'a':1}" ++ [27%N] ++ str "[0m ok")
  = Normal (JObject [(str "a", JNumber (str "1"))]).
Proof.
  apply (proj1 parseJsonFromOutput_first_to_last_brace _ (str "id ") (dq "'a':1") (str " ok")).
  - vm_compute. reflexivity.
  - vm_compute. intros [H|[H|[H|[]]]]; discriminate.
  - vm_compute. intros [H|[H|[H|[]]]]; discriminate.
  - vm_compute. reflexivity.
Defined.

(** Not as the specification has it: when the prose around the object
    holds a brace, the text has one well-formed object and the result
    is [null]. *)
Lemma parseJsonFromOutput_brace_in_prose :
  JSON_parse (dq "{'a':1}") = Normal (JObject [(str "a", JNumber (str "1"))]) /\
  parseJsonFromOutput (dq "{'a':1}" ++ str " (see } below)") = Normal JNull.
Proof. split; vm_compute; reflexivity. Qed.

End ParseJsonFacts.

(** *** What [JSON.parse] makes of a text that starts with a brace *)

Section ObjectFacts.
Import JS Setup.

Lemma parse_members_object : forall fuel s acc v rest,
  parse_members fuel s acc = Some (v, rest) -> exists fields, v = JObject fields.
Proof.
  induction fuel as [|fuel IH]; intros s acc v rest H; [discriminate|].
  cbn [parse_members] in H.
  destruct (next_is 34%N s) as [s1|]; [|discriminate].
  destruct (parse_string s1 []) as [[key s2]|]; [|discriminate].
  destruct (next_is 58%N s2) as [s3|]; [|discriminate].
  destruct (parse_value fuel s3) as [[v1 s4]|]; [|discriminate].
  destruct (next_is 44%N s4) as [s5|]; [exact (IH _ _ _ _ H)|].
  destruct (next_is 125%N s4) as [s5|]; [|discriminate].
  injection H as <- _. now eexists.
Qed.

Lemma JSON_parse_brace t v :
  JSON_parse (lbrace :: t) = Normal v -> exists fields, v = JObject fields.
Proof.
  unfold JSON_parse.
  destruct (parse_value _ _) as [[v0 rest]|] eqn:E; [|discriminate].
  destruct (skip_ws rest); [|discriminate]. intros H. injection H as <-.
  cbn [Nat.mul Nat.add length parse_value] in E.
  change (skip_ws (lbrace :: t)) with (lbrace :: t) in E.
  change (lbrace =? 123)%N with true in E. cbv iota in E.
  destruct (next_is 125%N t) as [s2|].
  - injection E as <- _. now eexists.
  - exact (parse_members_object _ _ _ _ _ E).
Qed.

Lemma slice_from_brace clean k e :
  indexOf (str "{") clean = k -> k <> (-1)%Z -> (k < e)%Z ->
  exists t, slice clean k e = lbrace :: t.
Proof.
  intros Hk Hne Hlt.
  destruct (indexOf_from_found (str "{") clean 0 k Hk Hne ltac:(lia))
    as (pre & post & -> & Hk' & _).
  change (str "{" ++ post) with (lbrace :: post).
  unfold slice, clamp_index. rewrite length_app. cbn [length].
  destruct (Z.ltb_spec k 0); [lia|]. destruct (Z.ltb_spec e 0); [lia|].
  rewrite (Z.min_l k) by lia.
  replace (Z.to_nat k) with (length pre) by lia. rewrite skipn_exact.
  destruct (Z.to_nat (Z.max (Z.min e (Z.of_nat (length pre + S (length post))) - k) 0))
    as [|n] eqn:En; [lia|].
  cbn [firstn]. now eexists.
Qed.

(** [parseJsonFromOutput] returns an object or [null]. *)
Lemma parseJsonFromOutput_object raw v :
  parseJsonFromOutput raw = Normal v -> v = JNull \/ exists fields, v = JObject fields.
Proof.
  unfold parseJsonFromOutput. destruct raw as [|c raw]; [intros H; left; congruence|].
  cbv zeta.
  destruct (Z.eqb_spec (indexOf (str "{") (stripAnsi (c :: raw))) (-1)) as [E1|Hf];
    [intros H; left; cbn [orb] in H; congruence|].
  destruct (Z.eqb_spec (lastIndexOf (str "}") (stripAnsi (c :: raw))) (-1)) as [E2|Hl];
    [intros H; left; cbn [orb] in H; congruence|].
  destruct (Z.leb_spec (lastIndexOf (str "}") (stripAnsi (c :: raw)))
                       (indexOf (str "{") (stripAnsi (c :: raw)))) as [E3|Hlt];
    [intros H; left; cbn [orb] in H; congruence|].
  cbn [orb].
  destruct (slice_from_brace (stripAnsi (c :: raw)) _
              (lastIndexOf (str "}") (stripAnsi (c :: raw)) + 1) eq_refl Hf ltac:(lia))
    as [t Ht].
  rewrite Ht. unfold try_catch.
  destruct (JSON_parse (lbrace :: t)) as [v0|] eqn:E; intros H; injection H as <-.
  - right. exact (JSON_parse_brace _ _ E).
  - now left.
Qed.

End ObjectFacts.
(** ** extractAccounts and the account prompts *)

Section AccountFacts.
Import JS Setup.

Definition hex_digit (c : char) : bool :=
  ((48 <=? c) && (c <=? 57) || (97 <=? c) && (c <=? 102) || (65 <=? c) && (c <=? 70))%N.

Definition lower_hex_digit (c : char) : bool :=
  ((48 <=? c) && (c <=? 57) || (97 <=? c) && (c <=? 102))%N.

(** An account id as the code accepts it: 32 hexadecimal digits, of
    either case. *)
Definition account_id (s : jsstring) : Prop :=
  length s = 32 /\ forallb hex_digit s = true.

Definition valid_account (a : AccountInfo) : Prop := account_id (id a).

Ltac bool_lia :=
  repeat match goal with
  | |- context [N.leb ?a ?b] => destruct (N.leb_spec a b)
  | |- context [N.eqb ?a ?b] => destruct (N.eqb_spec a b)
  end; cbn [andb orb negb]; try reflexivity; try lia.

Lemma id_class_hex c :
  icase (either (range "a" "f") (range "0" "9")) c = hex_digit c.
Proof.
  unfold icase, either, range, swapcase, hex_digit.
  change (chr "a") with 97%N. change (chr "f") with 102%N.
  change (chr "0") with 48%N. change (chr "9") with 57%N.
  destruct (N.leb_spec 65 c), (N.leb_spec c 90), (N.leb_spec 97 c), (N.leb_spec c 122);
    cbn [andb]; bool_lia.
Qed.

Lemma forallb_ext_eq {A} (p q : A -> bool) l :
  (forall x, p x = q x) -> forallb p l = forallb q l.
Proof. intros H. induction l as [|x l IH]; simpl; [reflexivity | now rewrite H, IH]. Qed.

Lemma exec_from_bol r : forall s i, exec_from (Bol :: r) false s i = None.
Proof. induction s as [|c s IH]; intros i; cbn [exec_from mh]; [reflexivity | apply IH]. Qed.

(** The anchored expression accepts the 32-digit strings only. *)
Lemma test_account_id s : test account_id_re s = true -> account_id s.
Proof.
  unfold test, exec, account_id_re, times.
  destruct s as [|c s]; cbn [exec_from mh].
  - cbn. discriminate.
  - destruct (rep _ 32 (Some 32) true _ true (c :: s)) as [[rest caps]|] eqn:E.
    + intros _. apply rep_exact in E.
      destruct E as (pre & rest' & b' & Hs & Hl & Hp & Hk).
      cbn [mh] in Hk. destruct rest'; [|discriminate].
      rewrite app_nil_r in Hs. rewrite Hs. split; [exact Hl|].
      rewrite <- Hp. apply forallb_ext_eq. intros x. symmetry. apply id_class_hex.
    + rewrite exec_from_bol. discriminate.
Qed.

Lemma addAccount_valid i n acc acc' :
  Forall valid_account acc -> addAccount i n acc = Normal acc' -> Forall valid_account acc'.
Proof.
  intros Hacc H. unfold addAccount in H.
  destruct i as [idv|]; [|now injection H as <-].
  destruct (truthy (Some idv)); cbn [negb] in H; [|now injection H as <-].
  destruct (call_trim idv) as [trimmedId|]; cbn [bind] in H; [|discriminate].
  destruct (test account_id_re trimmedId) eqn:Et; cbn [negb] in H; [|now injection H as <-].
  destruct (match n with None | Some JNull => _ | Some _ => _ end) as [tn|];
    cbn [bind] in H; [|discriminate].
  destruct (has acc trimmedId); cbn [negb] in H; injection H as <-; [exact Hacc|].
  apply Forall_app. split; [exact Hacc|]. constructor; [|constructor].
  exact (test_account_id _ Et).
Qed.

Lemma add_entries_valid l : forall acc acc',
  Forall valid_account acc -> add_entries l acc = Normal acc' -> Forall valid_account acc'.
Proof.
  induction l as [|e l IH]; intros acc acc' Hacc H; cbn [add_entries] in H.
  - now injection H as <-.
  - destruct (member (Some e) "id") as [i|]; cbn [bind] in H; [|discriminate].
    destruct (member (Some e) "name") as [n|]; cbn [bind] in H; [|discriminate].
    destruct (addAccount _ _ acc) as [acc1|] eqn:E; cbn [bind] in H; [|discriminate].
    exact (IH _ _ (addAccount_valid _ _ _ _ Hacc E) H).
Qed.

Lemma scan_json_valid data acc acc' :
  Forall valid_account acc -> scan_json data acc = Normal acc' -> Forall valid_account acc'.
Proof.
  intros Hacc H. unfold scan_json in H.
  destruct (truthy (Some data)); [|now injection H as <-].
  destruct (addAccount _ _ acc) as [acc1|] eqn:E; cbn [bind] in H; [|discriminate].
  exact (add_entries_valid _ _ _ (addAccount_valid _ _ _ _ Hacc E) H).
Qed.

Lemma scan_line_valid line acc acc' :
  Forall valid_account acc -> scan_line line acc = Normal acc' -> Forall valid_account acc'.
Proof.
  intros Hacc H. unfold scan_line in H.
  destruct (nonempty (trim line)); cbn [negb] in H; [|now injection H as <-].
  destruct (test table_row_re (trim line)).
  - destruct (filter nonempty _) as [|maybeName [|maybeId parts]];
      try (now injection H as <-).
    destruct (_ && _); [|now injection H as <-].
    exact (addAccount_valid _ _ _ _ Hacc H).
  - destruct (exec inline_re (trim line)).
    + exact (addAccount_valid _ _ _ _ Hacc H).
    + destruct (exec colon_re (trim line)).
      * exact (addAccount_valid _ _ _ _ Hacc H).
      * now injection H as <-.
Qed.

Lemma scan_lines_valid lines : forall acc acc',
  Forall valid_account acc -> scan_lines lines acc = Normal acc' -> Forall valid_account acc'.
Proof.
  induction lines as [|line lines IH]; intros acc acc' Hacc H; cbn [scan_lines] in H.
  - now injection H as <-.
  - destruct (scan_line line acc) as [acc1|] eqn:E; cbn [bind] in H; [|discriminate].
    exact (IH _ _ (scan_line_valid _ _ _ Hacc E) H).
Qed.

Lemma extractAccounts_valid raw accs :
  extractAccounts raw = Normal accs -> Forall valid_account accs.
Proof.
  unfold extractAccounts. intros H.
  destruct (parseJsonFromOutput _) as [data|]; cbn [bind] in H; [|discriminate].
  destruct (scan_json data []) as [acc1|] eqn:E; cbn [bind] in H; [|discriminate].
  exact (scan_lines_valid _ _ _ (scan_json_valid _ _ _ (Forall_nil _) E) H).
Qed.

Lemma promptForAccountId_valid : forall stdin a rest,
  promptForAccountId stdin = Some (a, rest) -> valid_account a.
Proof.
  induction stdin as [|ans stdin IH]; intros a rest H; cbn [promptForAccountId] in H.
  - discriminate.
  - destruct (test account_id_re (trim (trim ans))) eqn:Et.
    + destruct (question stdin) as [[l rest']|]; [|discriminate].
      injection H as <- <-. exact (test_account_id _ Et).
    + exact (IH _ _ H).
Qed.

Lemma choose_loop_valid detected first : forall stdin a rest,
  Forall valid_account detected -> valid_account first ->
  choose_loop detected first stdin = Some (a, rest) -> valid_account a.
Proof.
  intros stdin a rest Hd Hf. revert a rest.
  induction stdin as [|ans stdin IH]; intros a rest H; cbn [choose_loop] in H.
  - discriminate.
  - destruct (trim (trim ans)) as [|c answer] eqn:Ea.
    + now injection H as <- <-.
    + assert (Hby : (if test account_id_re (c :: answer)
                     then match question stdin with
                          | Some (l, rest') =>
                              Some ({| id := c :: answer; name := label_of (trim l) |}, rest')
                          | None => None
                          end
                     else choose_loop detected first stdin) = Some (a, rest) ->
                    valid_account a).
      { destruct (test account_id_re (c :: answer)) eqn:Et.
        - destruct (question stdin) as [[l rest']|]; [|discriminate].
          intros H'. injection H' as <- <-. exact (test_account_id _ Et).
        - apply IH. }
      destruct (parseInt10 (c :: answer)) as [index|]; [|exact (Hby H)].
      destruct (_ && _); [|exact (Hby H)].
      destruct (nth_error detected _) as [a0|] eqn:En; [|exact (Hby H)].
      injection H as <- <-. rewrite Forall_forall in Hd.
      exact (Hd _ (nth_error_In _ _ En)).
Qed.

(** C6, as the code has it.  Every account that [extractAccounts]
    returns, and every account that the prompts return (the detected
    ones offered for choice being accounts of [extractAccounts]), has
    an id of exactly 32 hexadecimal digits; the digits a to f may be of
    either case. *)
Theorem account_ids_are_32_hex_digits :
  (forall raw accs, extractAccounts raw = Normal accs -> Forall valid_account accs) /\
  (forall stdin a rest, promptForAccountId stdin = Some (a, rest) -> valid_account a) /\
  (forall raw detected stdin a rest,
     extractAccounts raw = Normal detected ->
     chooseCloudflareAccount detected stdin = Some (a, rest) -> valid_account a).
Proof.
  split; [exact extractAccounts_valid|]. split; [exact promptForAccountId_valid|].
  intros raw detected stdin a rest Hraw H.
  pose proof (extractAccounts_valid _ _ Hraw) as Hd.
  unfold chooseCloudflareAccount in H. destruct detected as [|first detected].
  - exact (promptForAccountId_valid _ _ _ H).
  - apply (choose_loop_valid (first :: detected) first stdin a rest Hd); [|exact H].
    now inversion Hd.
Qed.

Definition upper_id : string := "ABCDEF0123456789ABCDEF0123456789".

(** The prompt is answered with an id in capitals and an empty label. *)
Lemma account_ids_are_32_hex_digits_witness :
  valid_account {| id := str upper_id; name := None |}.
Proof.
  apply (proj1 (proj2 account_ids_are_32_hex_digits)
           [str "not an id"; str upper_id; str " "] _ []).
  vm_compute. reflexivity.
Defined.

(** Not as the specification has it: an id in capitals is accepted,
    and kept as it is. *)
Lemma account_id_in_capitals :
  extractAccounts (str ("account id: " ++ upper_id))
    = Normal [ {| id := str upper_id; name := None |} ] /\
  forallb lower_hex_digit (str upper_id) = false.
Proof. split; vm_compute; reflexivity. Qed.


(** *** The candidates and their merge *)

(** A candidate is the pair of arguments of one call of [addAccount]:
    the id and the name. *)
Definition candidate : Type := value * value.

(** The declared type of the JSON fields: a string, or nothing. *)
Definition typed (v : value) : bool :=
  match v with
  | None | Some JNull | Some (JString _) => true
  | Some _ => false
  end.

Definition clean_name (n : value) : option jsstring :=
  match n with
  | Some (JString t) =>
      match trim t with
      | [] => None
      | _ :: _ =>
          match trim (replace_all_empty quotes_re (trim t)) with
          | [] => None
          | (_ :: _) as cleaned => Some cleaned
          end
      end
  | _ => None
  end.

(** The account a candidate stands for: none unless its id, trimmed,
    is an account id. *)
Definition account_of (c : candidate) : list AccountInfo :=
  match fst c with
  | Some (JString s) =>
      if nonempty s && test account_id_re (trim s)
      then [ {| id := trim s; name := clean_name (snd c) |} ]
      else []
  | _ => []
  end.

(** The first account of each id, in the order of the list. *)
Fixpoint first_seen (seen : list jsstring) (l : list AccountInfo) : list AccountInfo :=
  match l with
  | [] => []
  | a :: rest =>
      if existsb (jseqb (id a)) seen then first_seen seen rest
      else a :: first_seen (id a :: seen) rest
  end.

Definition entry_candidate (e : json) : candidate :=
  (coalesce (get e "id") (Some JNull), coalesce (get e "name") (Some JNull)).

Definition json_entries (data : json) : list json :=
  (match isArray (get data "accounts") with Some l => l | None => [] end) ++
  (if truthy (get data "result")
   then match isArray (opt_member (get data "result") "accounts") with
        | Some l => l
        | None => []
        end
   else []).

(** The structured strategy: the object [account], then the entries of
    [accounts] and of [result.accounts]. *)
Definition json_candidates (data : json) : list candidate :=
  if truthy (Some data) then
    (coalesce (opt_member (get data "account") "id") (Some JNull),
     coalesce (opt_member (get data "account") "name") (Some JNull))
    :: map entry_candidate (json_entries data)
  else [].

(** The JSON has the declared shape: no entry is [null], ids and names
    are strings where present. *)
Definition declared_shape (data : json) : Prop :=
  Forall (fun e => e <> JNull) (json_entries data) /\
  Forall (fun c => typed (fst c) = true /\ typed (snd c) = true) (json_candidates data).

(** The textual strategies on one line: the first of table row,
    inline form and colon form that matches decides. *)
Definition line_candidates (line : jsstring) : list candidate :=
  let trimmed := trim line in
  if negb (nonempty trimmed) then []
  else if test table_row_re trimmed then
    match filter nonempty (map trim (split bar_re trimmed)) with
    | maybeName :: maybeId :: _ =>
        if negb (test account_name_re maybeName) && negb (test account_id_header_re maybeId)
        then [ (Some (JString maybeId), Some (JString maybeName)) ]
        else []
    | _ => []
    end
  else
    match exec inline_re trimmed with
    | Some m => [ (string_arg (group m 2), string_arg (group m 1)) ]
    | None =>
        match exec colon_re trimmed with
        | Some m => [ (string_arg (group m 1), None) ]
        | None => []
        end
    end.

Definition insert_new (acc : list AccountInfo) (a : AccountInfo) : list AccountInfo :=
  if has acc (id a) then acc else acc ++ [a].

Lemma has_existsb acc key : has acc key = existsb (jseqb key) (map id acc).
Proof.
  unfold has. induction acc as [|a acc IH]; simpl; [reflexivity|].
  rewrite IH. f_equal.
  destruct (jseqb (id a) key) eqn:E1, (jseqb key (id a)) eqn:E2; try reflexivity.
  - apply jseqb_eq in E1. rewrite E1 in E2.
    assert (jseqb key key = true) by now apply jseqb_eq. congruence.
  - apply jseqb_eq in E2. rewrite E2 in E1.
    assert (jseqb (id a) (id a) = true) by now apply jseqb_eq. congruence.
Qed.

Lemma existsb_jseqb_In key l : existsb (jseqb key) l = true <-> In key l.
Proof.
  rewrite existsb_exists. split.
  - intros (x & Hin & E). apply jseqb_eq in E. now subst.
  - intros H. exists key. split; [exact H | now apply jseqb_eq].
Qed.

Lemma existsb_perm_seen key a seen1 seen2 :
  existsb (jseqb key) (seen1 ++ a :: seen2) = existsb (jseqb key) (a :: seen1 ++ seen2).
Proof.
  rewrite existsb_app. cbn [existsb]. rewrite existsb_app.
  destruct (existsb (jseqb key) seen1), (jseqb key a); reflexivity.
Qed.

Lemma first_seen_ext l : forall seen1 seen2,
  (forall key, existsb (jseqb key) seen1 = existsb (jseqb key) seen2) ->
  first_seen seen1 l = first_seen seen2 l.
Proof.
  induction l as [|a l IH]; intros seen1 seen2 H; cbn [first_seen]; [reflexivity|].
  rewrite (H (id a)). destruct (existsb (jseqb (id a)) seen2).
  - now apply IH.
  - f_equal. apply IH. intros key. cbn [existsb]. now rewrite H.
Qed.

(** Adding accounts one by one to the map is keeping the first of each
    id. *)
Lemma fold_insert_new l : forall acc,
  fold_left insert_new l acc = acc ++ first_seen (map id acc) l.
Proof.
  induction l as [|a l IH]; intros acc; cbn [fold_left first_seen].
  - now rewrite app_nil_r.
  - rewrite IH. unfold insert_new. rewrite has_existsb.
    destruct (existsb (jseqb (id a)) (map id acc)) eqn:E; [reflexivity|].
    rewrite <- app_assoc. cbn [app]. do 2 f_equal.
    apply first_seen_ext. intros key. rewrite map_app. cbn [map].
    now rewrite existsb_perm_seen, app_nil_r.
Qed.

Lemma first_seen_ids l : forall seen a,
  In a (first_seen seen l) -> ~ In (id a) seen.
Proof.
  induction l as [|b l IH]; intros seen a H; cbn [first_seen] in H; [contradiction|].
  destruct (existsb (jseqb (id b)) seen) eqn:E.
  - exact (IH _ _ H).
  - destruct H as [<-|H].
    + intros Hin. apply existsb_jseqb_In in Hin. congruence.
    + intros Hin. apply (IH _ _ H). now right.
Qed.

Lemma first_seen_NoDup l : forall seen, NoDup (map id (first_seen seen l)).
Proof.
  induction l as [|a l IH]; intros seen; cbn [first_seen]; [constructor|].
  destruct (existsb (jseqb (id a)) seen); [apply IH|].
  cbn [map]. constructor; [|apply IH].
  intros Hin. apply in_map_iff in Hin. destruct Hin as (b & Hb & Hin).
  apply first_seen_ids in Hin. apply Hin. left. now symmetry.
Qed.

(** An account is kept exactly when no account before it in the list
    has its id (and none was seen before the list). *)
Lemma first_seen_In l : forall seen a,
  In a (first_seen seen l) <->
  exists l1 l2, l = l1 ++ a :: l2 /\ ~ In (id a) (seen ++ map id l1).
Proof.
  induction l as [|b l IH]; intros seen a; cbn [first_seen].
  - split; [contradiction|]. intros (l1 & l2 & H & _). now destruct l1.
  - destruct (existsb (jseqb (id b)) seen) eqn:E.
    + rewrite IH. split.
      * intros (l1 & l2 & -> & Hn). exists (b :: l1), l2. split; [reflexivity|].
        intros Hin. apply Hn. apply in_app_or in Hin. apply in_or_app.
        destruct Hin as [Hin|[Hin|Hin]]; [now left | | now right].
        left. apply existsb_jseqb_In in E. congruence.
      * intros (l1 & l2 & Hl & Hn). destruct l1 as [|b' l1].
        -- injection Hl as -> ->. exfalso. apply Hn. rewrite app_nil_r.
           now apply existsb_jseqb_In.
        -- injection Hl as -> ->. exists l1, l2. split; [reflexivity|].
           intros Hin. apply Hn. apply in_app_or in Hin. apply in_or_app.
           destruct Hin as [Hin|Hin]; [now left | right; now right].
    + cbn [In]. rewrite IH. split.
      * intros [<-|(l1 & l2 & -> & Hn)].
        -- exists [], l. split; [reflexivity|]. rewrite app_nil_r.
           intros Hin. apply existsb_jseqb_In in Hin. congruence.
        -- exists (b :: l1), l2. split; [reflexivity|].
           intros Hin. apply Hn. apply in_app_or in Hin.
           destruct Hin as [Hin|[Hin|Hin]].
           ++ right. apply in_or_app. now left.
           ++ now left.
           ++ right. apply in_or_app. now right.
      * intros (l1 & l2 & Hl & Hn). destruct l1 as [|b' l1].
        -- injection Hl as -> ->. now left.
        -- injection Hl as -> ->. right. exists l1, l2. split; [reflexivity|].
           intros Hin. apply Hn. destruct Hin as [Hin|Hin].
           ++ apply in_or_app. right. now left.
           ++ apply in_app_or in Hin. apply in_or_app.
              destruct Hin as [Hin|Hin]; [now left | right; now right].
Qed.

(** One call of [addAccount] on a candidate of the declared type. *)
Lemma addAccount_typed i n acc :
  typed i = true -> typed n = true ->
  addAccount i n acc = Normal (fold_left insert_new (account_of (i, n)) acc).
Proof.
  intros Hi Hn. unfold addAccount, account_of. cbn [fst snd].
  destruct i as [[| | |s| |]|]; try discriminate; try reflexivity.
  cbn [truthy call_trim bind nonempty].
  destruct s as [|c s]; [reflexivity|]. cbn [negb andb].
  destruct (test account_id_re (trim (c :: s))); cbn [negb nonempty andb]; [|reflexivity].
  assert (Hname : forall P : option jsstring -> completion (list AccountInfo),
    (trimmedName <-
       match n with
       | None | Some JNull => Normal None
       | Some n0 => t <- call_trim n0 ;; Normal (Some t)
       end ;; P trimmedName)
    = P (match n with Some (JString t) => Some (trim t) | _ => None end)).
  { intros P. destruct n as [[| | |t| |]|]; try discriminate; reflexivity. }
  rewrite Hname. cbn [fold_left]. unfold insert_new. cbn [id].
  destruct (has acc (trim (c :: s))); cbn [negb]; [reflexivity|].
  do 3 f_equal. unfold clean_name.
  destruct n as [[| | |t| |]|]; try reflexivity.
  destruct (trim t); [reflexivity|].
  destruct (trim (replace_all_empty quotes_re _)); reflexivity.
Qed.

Definition accounts_of (cands : list candidate) : list AccountInfo :=
  flat_map account_of cands.

Lemma fold_insert_new_app l1 l2 acc :
  fold_left insert_new (l1 ++ l2) acc = fold_left insert_new l2 (fold_left insert_new l1 acc).
Proof. apply fold_left_app. Qed.

Lemma add_entries_typed l : forall acc,
  Forall (fun e => e <> JNull) l ->
  Forall (fun c => typed (fst c) = true /\ typed (snd c) = true) (map entry_candidate l) ->
  add_entries l acc = Normal (fold_left insert_new (accounts_of (map entry_candidate l)) acc).
Proof.
  induction l as [|e l IH]; intros acc Hnn Hty; cbn [add_entries]; [reflexivity|].
  inversion Hnn as [|? ? He Hnn']; subst. cbn [map] in Hty.
  inversion Hty as [|? ? [Hi Hn] Hty']; subst.
  assert (Hm : forall k, member (Some e) k = Normal (get e k)) by (intros k; now destruct e).
  rewrite !Hm. cbn [bind].
  change (coalesce (get e "id") (Some JNull)) with (fst (entry_candidate e)).
  change (coalesce (get e "name") (Some JNull)) with (snd (entry_candidate e)).
  rewrite (addAccount_typed _ _ acc Hi Hn). cbn [bind]. rewrite (IH _ Hnn' Hty').
  cbn [map accounts_of flat_map]. rewrite fold_insert_new_app.
  now destruct (entry_candidate e).
Qed.

Lemma scan_json_typed data acc :
  declared_shape data ->
  scan_json data acc = Normal (fold_left insert_new (accounts_of (json_candidates data)) acc).
Proof.
  intros [Hnn Hty]. unfold scan_json, json_candidates in *.
  destruct (truthy (Some data)); [|reflexivity].
  inversion Hty as [|? ? [Hi Hn] Hty']; subst. cbn [fst snd] in Hi, Hn.
  rewrite (addAccount_typed _ _ acc Hi Hn). cbn [bind].
  fold (json_entries data). rewrite (add_entries_typed _ _ Hnn Hty').
  cbn [accounts_of flat_map]. now rewrite fold_insert_new_app.
Qed.

Lemma typed_string_arg o : typed (string_arg o) = true.
Proof. now destruct o. Qed.

Lemma scan_line_candidates line acc :
  scan_line line acc = Normal (fold_left insert_new (accounts_of (line_candidates line)) acc).
Proof.
  unfold scan_line, line_candidates. cbv zeta.
  destruct (negb (nonempty (trim line))); [reflexivity|].
  destruct (test table_row_re (trim line)).
  - destruct (filter nonempty _) as [|maybeName [|maybeId parts]]; try reflexivity.
    destruct (_ && _); [|reflexivity].
    rewrite addAccount_typed by reflexivity. cbn [accounts_of flat_map].
    now rewrite app_nil_r.
  - destruct (exec inline_re (trim line)) as [m|].
    + rewrite addAccount_typed by apply typed_string_arg. cbn [accounts_of flat_map].
      now rewrite app_nil_r.
    + destruct (exec colon_re (trim line)) as [m|]; [|reflexivity].
      rewrite addAccount_typed by (try apply typed_string_arg; reflexivity).
      cbn [accounts_of flat_map]. now rewrite app_nil_r.
Qed.

Lemma scan_lines_candidates lines : forall acc,
  scan_lines lines acc
  = Normal (fold_left insert_new (accounts_of (flat_map line_candidates lines)) acc).
Proof.
  induction lines as [|line lines IH]; intros acc; cbn [scan_lines]; [reflexivity|].
  rewrite scan_line_candidates. cbn [bind]. rewrite IH.
  cbn [flat_map]. unfold accounts_of. rewrite flat_map_app, fold_insert_new_app. reflexivity.
Qed.

(** All the candidates of a text, those of the structured strategy
    first, then those of the lines in order. *)
Definition candidates (raw : jsstring) (data : json) : list candidate :=
  json_candidates data ++ flat_map line_candidates (split newline_re (stripAnsi raw)).

(** C3, as the code has it.  On a text whose embedded JSON, if any,
    has the declared shape, [extractAccounts] does not throw; it
    applies the structured strategy and the scan of the lines, both
    always; on a line the first of table row, inline form and colon
    form that matches is the one used; the candidates whose trimmed id
    is not an account id contribute nothing; of the others the first
    of each id is kept, with its name, in the order of discovery. *)
Theorem extractAccounts_merges_candidates raw data :
  parseJsonFromOutput (stripAnsi raw) = Normal data ->
  declared_shape data ->
  let found := accounts_of (candidates raw data) in
  exists accs,
    extractAccounts raw = Normal accs /\
    accs = first_seen [] found /\
    NoDup (map id accs) /\
    (forall a, In a accs <->
       exists before after, found = before ++ a :: after /\ ~ In (id a) (map id before)) /\
    (forall c s, In c (candidates raw data) -> fst c = Some (JString s) ->
       test account_id_re (trim s) = false -> account_of c = []).
Proof.
  intros Hdata Hshape found.
  exists (first_seen [] found). split; [|split; [reflexivity|split; [|split]]].
  - unfold extractAccounts. rewrite Hdata. cbn [bind].
    rewrite (scan_json_typed _ _ Hshape). cbn [bind].
    rewrite scan_lines_candidates, <- fold_insert_new_app.
    rewrite fold_insert_new. cbn [app map]. unfold found, candidates, accounts_of.
    now rewrite flat_map_app.
  - apply first_seen_NoDup.
  - intros a. rewrite first_seen_In. reflexivity.
  - intros c s _ Hc Ht. unfold account_of. rewrite Hc, Ht. now rewrite andb_false_r.
Qed.

Definition id1 : string := "0123456789abcdef0123456789abcdef".
Definition id2 : string := "fedcba9876543210fedcba9876543210".

Definition three_lines : jsstring :=
  str ("Foo (id: " ++ id1 ++ ")") ++ [10%N] ++
  str ("account id: " ++ id1) ++ [13%N; 10%N] ++
  str ("| Bar | " ++ id2 ++ " |").

(** Three lines, two of them for the same id. *)
Lemma extractAccounts_merges_candidates_witness :
  exists accs,
    extractAccounts three_lines = Normal accs /\
    accs = [ {| id := str id1; name := Some (str "Foo") |};
             {| id := str id2; name := Some (str "Bar") |} ] /\
    NoDup (map id accs).
Proof.
  assert (Hdata : parseJsonFromOutput (stripAnsi three_lines) = Normal JNull)
    by (vm_compute; reflexivity).
  assert (Hshape : declared_shape JNull) by (split; constructor).
  destruct (extractAccounts_merges_candidates three_lines JNull Hdata Hshape)
    as (accs & Hrun & Hfirst & Hnodup & _).
  exists accs. split; [exact Hrun|]. split; [|exact Hnodup].
  rewrite Hfirst. vm_compute. reflexivity.
Defined.

(** Not as the specification has it: on a line that has the inline
    form the colon form is not tried, though it matches there and its
    id is an account id. *)
Lemma extractAccounts_one_shape_per_line :
  let line := str ("Foo (id: " ++ id1 ++ ") account id: " ++ id2) in
  extractAccounts line = Normal [ {| id := str id1; name := Some (str "Foo") |} ] /\
  option_map (fun m => group m 1) (exec colon_re (trim line)) = Some (Some (str id2)) /\
  test account_id_re (str id2) = true.
Proof. repeat apply conj; vm_compute; reflexivity. Qed.

(** Outside the declared shape the structured strategy throws: an id
    that is not a string, an entry that is [null]. *)
Lemma extractAccounts_undeclared_shape :
  extractAccounts (dq "{'account':{'id':true}}") = Throw TypeError /\
  extractAccounts (dq "{'accounts':[null]}") = Throw TypeError.
Proof. split; vm_compute; reflexivity. Qed.

(** C4.  A string of 33 hexadecimal digits in the colon form yields an
    account whose id is its first 32 digits; in the table, inline and
    JSON forms it yields nothing, as a string of 31 digits does in
    every form; two ids on two lines yield two accounts in the order
    of the lines. *)
Theorem extractAccounts_colon_form_33_digits :
  extractAccounts (str ("account id: " ++ id1 ++ "0"))
    = Normal [ {| id := str id1; name := None |} ] /\
  extractAccounts (str ("Foo (id: " ++ id1 ++ "0)")) = Normal [] /\
  extractAccounts (str ("| Foo | " ++ id1 ++ "0 |")) = Normal [] /\
  extractAccounts (dq ("{'account':{'id':'" ++ id1 ++ "0'}}")) = Normal [] /\
  extractAccounts (str ("account id: " ++ substring 0 31 id1)) = Normal [] /\
  extractAccounts (str ("Foo (id: " ++ substring 0 31 id1 ++ ")")) = Normal [] /\
  extractAccounts (str ("| Foo | " ++ substring 0 31 id1 ++ " |")) = Normal [] /\
  extractAccounts (dq ("{'account':{'id':'" ++ substring 0 31 id1 ++ "'}}")) = Normal [] /\
  extractAccounts (str ("account id: " ++ id2) ++ [10%N] ++ str ("account id: " ++ id1))
    = Normal [ {| id := str id2; name := None |}; {| id := str id1; name := None |} ].
Proof. repeat apply conj; vm_compute; reflexivity. Qed.

End AccountFacts.
(** ** parseD1CreateResult *)

Section CreateResultFacts.
Import JS Setup.

Definition id_aliases : list string := ["uuid"; "id"; "database_id"; "databaseId"]%string.
Definition name_aliases : list string := ["name"; "database_name"; "databaseName"]%string.

(** The value of the first of [keys] that [payload] holds with a value
    other than [null]. *)
Fixpoint first_present (payload : json) (keys : list string) : value :=
  match keys with
  | [] => None
  | k :: rest =>
      if nullish (get payload k) then first_present payload rest else get payload k
  end.

(** Stage 1: the JSON of the text, its [result] if it has one. *)
Definition stage_json (clean fallbackName : jsstring) : option (json * json) :=
  match parseJsonFromOutput clean with
  | Normal (JObject fields) =>
      let data := JObject fields in
      let payload := match get data "result" with
                     | None | Some JNull => data
                     | Some r => r
                     end in
      match first_present payload id_aliases with
      | Some i =>
          let n := match first_present payload name_aliases with
                   | Some n => n
                   | None => JString fallbackName
                   end in
          if truthy (Some i) && truthy (Some n) then Some (i, n) else None
      | None => None
      end
  | _ => None
  end.

(** Stage 2: the quoted database_id, with the quoted database_name if
    there is one. *)
Definition stage_snippet (clean fallbackName : jsstring) : option (json * json) :=
  match exec snippet_id_re clean with
  | Some m =>
      Some (JString (group_or (Some m) 1 []),
            JString (group_or (exec snippet_name_re clean) 1 fallbackName))
  | None => None
  end.

(** Stage 3: a UUID anywhere, with the name after DB or, failing that,
    after database. *)
Definition stage_uuid (clean fallbackName : jsstring) : option (json * json) :=
  match exec uuid_re clean with
  | Some m =>
      Some (JString (group_or (Some m) 1 []),
            JString (group_or (match exec db_name_re clean with
                               | Some n => Some n
                               | None => exec database_name_re clean
                               end) 1 fallbackName))
  | None => None
  end.

Fixpoint first_success {A} (stages : list (option A)) : option A :=
  match stages with
  | [] => None
  | Some r :: _ => Some r
  | None :: rest => first_success rest
  end.

Lemma first_defined_present payload keys tail :
  first_defined (map (get payload) keys ++ [tail]) =
  match first_present payload keys with
  | Some v => Some v
  | None => coalesce tail None
  end.
Proof.
  unfold first_defined.
  induction keys as [|k keys IH]; cbn [map app fold_right first_present]; [reflexivity|].
  rewrite IH. unfold coalesce at 1.
  destruct (nullish (get payload k)) eqn:E; [reflexivity|].
  destruct (get payload k) as [[]|]; try discriminate; reflexivity.
Qed.

Lemma first_present_snoc payload keys k :
  first_present payload (keys ++ [k]) =
  match first_present payload keys with
  | Some v => Some v
  | None => coalesce (get payload k) None
  end.
Proof.
  induction keys as [|k0 keys IH]; cbn [app first_present].
  - unfold coalesce. destruct (get payload k) as [[]|]; reflexivity.
  - destruct (nullish (get payload k0)) eqn:E; [exact IH|].
    destruct (get payload k0) as [[]|]; try discriminate; reflexivity.
Qed.

Lemma first_present_not_null payload keys :
  first_present payload keys <> Some JNull.
Proof.
  induction keys as [|k keys IH]; cbn [first_present]; [discriminate|].
  destruct (nullish (get payload k)) eqn:E; [exact IH|].
  destruct (get payload k) as [[]|]; discriminate.
Qed.

Definition uuid1 : string := "11111111-1111-1111-1111-111111111111".
Definition uuid2 : string := "22222222-2222-2222-2222-222222222222".

End CreateResultFacts.
(** ** updateWranglerConfig *)

Section ConfigFacts.
Import JS Setup.

(** [token] occurs in [s] first after [pre], followed by [post]. *)
Definition first_occurrence (token s pre post : jsstring) : Prop :=
  s = pre ++ token ++ post /\
  forall n, n < length pre -> startsWith token (skipn n s) = false.

Lemma patch_present token replacement s changed :
  includes token s = true ->
  exists pre post,
    first_occurrence token s pre post /\
    patch token replacement (s, changed)
    = (pre ++ getSubstitution token pre post replacement ++ post, true).
Proof.
  intros H. destruct (replace_first token replacement s H) as (pre & post & Hs & Hno & Hr).
  exists pre, post. split; [now split|]. unfold patch. now rewrite H, Hr.
Qed.

Lemma patch_absent token replacement s changed :
  includes token s = false -> patch token replacement (s, changed) = (s, changed).
Proof. intros H. unfold patch. now rewrite H. Qed.

Definition writes (o : config_outcome) (content : jsstring) (ok : bool) : Prop :=
  written o = Some content /\
  console o = if ok then updated_message else warning_message.

Definition ok_of (c : completion unit) : bool :=
  match c with Normal _ => true | Throw _ => false end.

(** C7, as the code has it.  The three placeholders are tried in the
    order binding, database_name, database_id, each on the text as
    patched so far: a token that is present has its first occurrence
    replaced by the key with the new value (the dollar patterns of
    [replace] expanded) and the text before and after it kept; a token
    that is absent leaves the text as it is.  A file with none of the
    three is not written and the already-configured message is
    printed.  A file with exactly one of the three, whose patched text
    holds no other placeholder, is written with that one occurrence
    replaced and nothing else changed. *)
Theorem updateWranglerConfig_patches_present_tokens
    (bindingName databaseId databaseName content : jsstring)
    (writeFile : jsstring -> completion unit) :
  let run := updateWranglerConfig bindingName databaseId databaseName
               (Normal content) writeFile in
  let tokens := [ (binding_placeholder, quoted (str "binding") bindingName);
                  (database_name_placeholder, quoted (str "database_name") databaseName);
                  (database_id_placeholder, quoted (str "database_id") databaseId) ] in
  patch_all bindingName databaseId databaseName content
    = fold_left (fun st tr => patch (fst tr) (snd tr) st) tokens (content, false) /\
  (forall token replacement s changed,
     (includes token s = false -> patch token replacement (s, changed) = (s, changed)) /\
     (includes token s = true ->
      exists pre post,
        first_occurrence token s pre post /\
        patch token replacement (s, changed)
        = (pre ++ getSubstitution token pre post replacement ++ post, true))) /\
  (includes binding_placeholder content = false ->
   includes database_name_placeholder content = false ->
   includes database_id_placeholder content = false ->
   patch_all bindingName databaseId databaseName content = (content, false) /\
   written run = None /\ console run = already_message) /\
  (forall i token replacement,
     nth_error tokens i = Some (token, replacement) ->
     includes token content = true ->
     (forall j other r, nth_error tokens j = Some (other, r) -> j <> i ->
        includes other content = false /\
        includes other (replace token replacement content) = false) ->
     exists pre post,
       first_occurrence token content pre post /\
       writes run (pre ++ getSubstitution token pre post replacement ++ post)
              (ok_of (writeFile (pre ++ getSubstitution token pre post replacement ++ post)))).
Proof.
  intros run tokens.
  split; [reflexivity|].
  split.
  { intros token replacement s changed. split.
    - apply patch_absent.
    - apply patch_present. }
  split.
  { intros H1 H2 H3.
    assert (E : patch_all bindingName databaseId databaseName content = (content, false)).
    { unfold patch_all. now rewrite (patch_absent _ _ _ _ H1), (patch_absent _ _ _ _ H2),
        (patch_absent _ _ _ _ H3). }
    split; [exact E|]. unfold run, updateWranglerConfig. rewrite E. now split. }
  intros i token replacement Hi Hin Hothers.
  destruct (replace_first token replacement content Hin) as (pre & post & Hs & Hno & Hr).
  exists pre, post. split; [now split|].
  assert (E : patch_all bindingName databaseId databaseName content
              = (replace token replacement content, true)).
  { unfold patch_all.
    subst tokens.
    destruct i as [|[|[|i]]]; cbn [nth_error] in Hi;
      [ | | | destruct i; discriminate ]; injection Hi as <- <-.
    - destruct (Hothers 1 _ _ eq_refl ltac:(lia)) as [_ H2].
      destruct (Hothers 2 _ _ eq_refl ltac:(lia)) as [_ H3].
      unfold patch at 3. rewrite Hin.
      now rewrite (patch_absent _ _ _ _ H2), (patch_absent _ _ _ _ H3).
    - destruct (Hothers 0 _ _ eq_refl ltac:(lia)) as [H1 _].
      destruct (Hothers 2 _ _ eq_refl ltac:(lia)) as [_ H3].
      rewrite (patch_absent _ _ _ _ H1). unfold patch at 2. rewrite Hin.
      now rewrite (patch_absent _ _ _ _ H3).
    - destruct (Hothers 0 _ _ eq_refl ltac:(lia)) as [H1 _].
      destruct (Hothers 1 _ _ eq_refl ltac:(lia)) as [H2 _].
      rewrite (patch_absent _ _ _ _ H1), (patch_absent _ _ _ _ H2).
      unfold patch. now rewrite Hin. }
  unfold run, updateWranglerConfig, writes. rewrite E, Hr.
  destruct (writeFile _); now split.
Qed.

Definition sample_config : jsstring :=
  dq "{ 'd1_databases': [ { 'binding': 'BINDING_NAME', 'database_name': 'app', 'database_id': '0' } ] }".

(** A file whose only placeholder is the binding. *)
Lemma updateWranglerConfig_patches_present_tokens_witness :
  exists pre post,
    first_occurrence binding_placeholder sample_config pre post /\
    writes (updateWranglerConfig (str "DB") (str "1") (str "x") (Normal sample_config)
              (fun _ => Normal tt))
           (pre ++ getSubstitution binding_placeholder pre post
                     (quoted (str "binding") (str "DB")) ++ post)
           true.
Proof.
  pose proof (updateWranglerConfig_patches_present_tokens
                (str "DB") (str "1") (str "x") sample_config (fun _ => Normal tt)) as H.
  cbv zeta in H. destruct H as (_ & _ & _ & H).
  apply (H 0 _ _ eq_refl).
  - vm_compute. reflexivity.
  - intros j other r Hj Hne.
    destruct j as [|[|[|j]]]; try (exfalso; apply Hne; reflexivity);
      try (destruct j; discriminate);
      injection Hj as <- <-; split; vm_compute; reflexivity.
Defined.

(** Not as the specification has it: this file holds the binding
    placeholder and no other, and the run replaces two things, because
    the binding name completes the database_name placeholder. *)
Lemma updateWranglerConfig_second_token_appears :
  let content := dq "'binding': 'BINDING_NAME': 'YOUR_DB_NAME'" in
  includes binding_placeholder content = true /\
  includes database_name_placeholder content = false /\
  includes database_id_placeholder content = false /\
  replace binding_placeholder (quoted (str "binding") (str "database_name")) content
    = dq "'binding': 'database_name': 'YOUR_DB_NAME'" /\
  written (updateWranglerConfig (str "database_name") (str "1") (str "x") (Normal content)
             (fun _ => Normal tt))
    = Some (dq "'binding': 'database_name': 'x'").
Proof. repeat apply conj; vm_compute; reflexivity. Qed.

End ConfigFacts.
(** ** createStripeWebhook *)

Section WebhookFacts.
Import JS Setup.

Definition whsec : jsstring := str "whsec_".

(** [tok] is the token that starts [s]: the prefix whsec_ and the
    longest run of letters and digits after it, which is not empty. *)
Definition token_starts (s tok : jsstring) : Prop :=
  exists body rest,
    s = whsec ++ body ++ rest /\ tok = whsec ++ body /\
    body <> [] /\ forallb alnum body = true /\
    match rest with [] => True | c :: _ => alnum c = false end.

(** [tok] is the first token of [out], after [pre]. *)
Definition first_token (out tok pre post : jsstring) : Prop :=
  out = pre ++ tok ++ post /\
  token_starts (tok ++ post) tok /\
  forall n tok', n < length pre -> ~ token_starts (skipn n out) tok'.

Definition no_token (out : jsstring) : Prop :=
  forall n tok, ~ token_starts (skipn n out) tok.

Definition token_at (s : jsstring) : option jsstring :=
  if startsWith whsec s then
    match fst (span alnum (skipn (length whsec) s)) with
    | [] => None
    | body => Some (whsec ++ body)
    end
  else None.

Lemma token_at_starts s tok : token_at s = Some tok <-> token_starts s tok.
Proof.
  unfold token_at, token_starts. split.
  - destruct (startsWith whsec s) eqn:E; [|discriminate].
    apply startsWith_app in E. destruct E as [t ->]. rewrite skipn_exact.
    destruct (span alnum t) as [body rest] eqn:Hs. cbn [fst].
    destruct (span_spec _ _ _ _ Hs) as (-> & Hb & Hr).
    destruct body as [|c body]; [discriminate|]. intros H. injection H as <-.
    exists (c :: body), rest. repeat split; auto. discriminate.
  - intros (body & rest & -> & -> & Hne & Hb & Hr).
    assert (E : startsWith whsec (whsec ++ body ++ rest) = true)
      by (apply startsWith_app; now eexists).
    rewrite E, skipn_exact, (span_maximal _ _ _ Hb Hr). cbn [fst].
    destruct body; [contradiction | reflexivity].
Qed.

Lemma mh_whsec b s :
  mh whsec_re b s [] [] =
  match token_at s with
  | Some tok => Some (skipn (length tok) s, [])
  | None => None
  end.
Proof.
  unfold whsec_re, lit, token_at. fold whsec. rewrite mh_lit.
  destruct (startsWith whsec s) eqn:E; [|reflexivity].
  apply startsWith_app in E. destruct E as [t ->]. rewrite skipn_exact.
  unfold many1. cbn [mh].
  rewrite (rep_greedy_longest _ alnum (fun s' => (s', @nil jsstring))).
  destruct (span alnum t) as [body rest] eqn:Hs. cbn [fst snd].
  destruct (span_spec _ _ _ _ Hs) as (-> & _ & _).
  destruct body as [|c body]; [reflexivity|]. cbn [length Nat.leb].
  rewrite (app_assoc whsec (c :: body) rest), skipn_exact. reflexivity.
Qed.

Lemma token_at_prefix s tok : token_at s = Some tok -> exists post, s = tok ++ post.
Proof.
  intros H. apply token_at_starts in H.
  destruct H as (body & rest & -> & -> & _). exists rest. now rewrite <- app_assoc.
Qed.

Lemma exec_whsec_step b s i :
  exec_from whsec_re b s i =
  match token_at s with
  | Some tok => Some (MatchResult i tok [])
  | None => match s with
            | [] => None
            | _ :: s' => exec_from whsec_re false s' (S i)
            end
  end.
Proof.
  destruct s as [|c s]; cbn [exec_from]; rewrite mh_whsec;
    destruct (token_at _) as [tok|] eqn:E; try reflexivity.
  - destruct (token_at_prefix _ _ E) as [post Hs]. rewrite Hs at 2 3. rewrite Hs.
    rewrite skipn_exact, length_app.
    replace (length tok + length post - length post) with (length tok) by lia.
    now rewrite firstn_exact.
  - destruct (token_at_prefix _ _ E) as [post Hs]. rewrite Hs.
    rewrite skipn_exact, length_app.
    replace (length tok + length post - length post) with (length tok) by lia.
    now rewrite firstn_exact.
Qed.

Lemma exec_whsec_found : forall s b i m,
  exec_from whsec_re b s i = Some m ->
  exists pre post,
    s = pre ++ matched m ++ post /\
    token_at (matched m ++ post) = Some (matched m) /\
    forall n, n < length pre -> token_at (skipn n s) = None.
Proof.
  induction s as [|c s IH]; intros b i m H; rewrite exec_whsec_step in H.
  - destruct (token_at []) as [tok|] eqn:E; [|discriminate]. injection H as <-.
    destruct (token_at_prefix _ _ E) as [post Hs].
    exists [], post. cbn [matched app length]. rewrite <- Hs.
    repeat split; auto. intros n Hn; inversion Hn.
  - destruct (token_at (c :: s)) as [tok|] eqn:E.
    + injection H as <-. destruct (token_at_prefix _ _ E) as [post Hs].
      exists [], post. cbn [matched app length]. rewrite <- Hs.
      repeat split; auto. intros n Hn; inversion Hn.
    + destruct (IH _ _ _ H) as (pre & post & Hs & Ht & Hno).
      exists (c :: pre), post. cbn [app length]. rewrite <- Hs. repeat split; auto.
      intros [|n] Hn; [exact E|]. cbn [skipn]. apply Hno. lia.
Qed.

Lemma exec_whsec_none : forall s b i,
  exec_from whsec_re b s i = None -> forall n, token_at (skipn n s) = None.
Proof.
  induction s as [|c s IH]; intros b i H n; rewrite exec_whsec_step in H.
  - destruct (token_at []) eqn:E; [discriminate|]. now destruct n.
  - destruct (token_at (c :: s)) eqn:E; [discriminate|].
    destruct n as [|n]; [exact E|]. cbn [skipn]. exact (IH _ _ H n).
Qed.

Definition extract_failure : error :=
  Error (str "Failed to extract Stripe webhook secret").

(** C8.  [createStripeWebhook] returns a token exactly when the
    command succeeds and the token is the first in its standard
    output that matches whsec_ and a run of letters and digits (the
    longest such run); it throws, to its caller, exactly when the
    command fails, with the command's own error, or when no part of
    the output is such a token. *)
Theorem createStripeWebhook_first_token (listen : completion (jsstring * jsstring)) :
  (forall tok,
     createStripeWebhook listen = Normal tok <->
     exists out err pre post, listen = Normal (out, err) /\ first_token out tok pre post) /\
  (forall e,
     createStripeWebhook listen = Throw e <->
     listen = Throw e \/
     exists out err, listen = Normal (out, err) /\ no_token out /\ e = extract_failure).
Proof.
  unfold createStripeWebhook, try_catch, bind.
  destruct listen as [[out err]|e0]; cbn [fst].
  - unfold exec. destruct (exec_from whsec_re true out 0) as [m|] eqn:E.
    + destruct (exec_whsec_found _ _ _ _ E) as (pre & post & Hs & Ht & Hno).
      assert (Hfirst : first_token out (matched m) pre post).
      { split; [exact Hs|]. split; [now apply token_at_starts|].
        intros n tok' Hn Hc. apply token_at_starts in Hc. rewrite (Hno n Hn) in Hc.
        discriminate. }
      split.
      * intros tok. split.
        -- intros H. injection H as <-. now exists out, err, pre, post.
        -- intros (out' & err' & pre' & post' & Heq & Hs' & Ht' & Hno').
           injection Heq as <- <-. f_equal.
           (* both are the first token: the positions agree, hence the tokens *)
           destruct (Nat.lt_trichotomy (length pre) (length pre')) as [Hlt|[Heq|Hgt]].
           ++ exfalso. apply (Hno' (length pre) (matched m) Hlt).
              rewrite Hs at 1. rewrite skipn_exact. now apply token_at_starts.
           ++ assert (Hsk : matched m ++ post = tok ++ post').
              { rewrite <- (skipn_exact pre (matched m ++ post)), <- Hs, Hs', Heq.
                now rewrite skipn_exact. }
              apply token_at_starts in Ht'. rewrite <- Hsk, Ht in Ht'. congruence.
           ++ exfalso. apply token_at_starts in Ht'.
              rewrite <- (skipn_exact pre' (tok ++ post')), <- Hs' in Ht'.
              rewrite (Hno _ Hgt) in Ht'. discriminate.
      * intros e. split; [discriminate|].
        intros [H|(out' & err' & Heq & Hnone & _)]; [discriminate|].
        injection Heq as <- <-. exfalso.
        apply (Hnone (length pre) (matched m)).
        rewrite Hs at 1. rewrite skipn_exact. now apply token_at_starts.
    + pose proof (exec_whsec_none _ _ _ E) as Hnone.
      split.
      * intros tok. split; [discriminate|].
        intros (out' & err' & pre & post & Heq & Hs & Ht & _). injection Heq as <- <-.
        apply token_at_starts in Ht.
        rewrite <- (skipn_exact pre (tok ++ post)), <- Hs, Hnone in Ht. discriminate.
      * intros e. split.
        -- intros H. injection H as <-. right. exists out, err.
           split; [reflexivity|]. split; [|reflexivity].
           intros n tok Hc. apply token_at_starts in Hc. rewrite Hnone in Hc. discriminate.
        -- intros [H|(out' & err' & _ & _ & ->)]; [discriminate | reflexivity].
  - split.
    + intros tok. split; [discriminate|]. intros (out & err & pre & post & H & _). discriminate.
    + intros e. split.
      * intros H. injection H as <-. now left.
      * intros [H|(out & err & H & _)]; [now injection H as <- | discriminate].
Qed.

(** The command prints its banner and the secret. *)
Lemma createStripeWebhook_first_token_witness :
  createStripeWebhook (Normal (str "Ready! whsec_a1B2 (^C to quit)", []))
  = Normal (str "whsec_a1B2").
Proof.
  apply (proj1 (createStripeWebhook_first_token _)).
  exists (str "Ready! whsec_a1B2 (^C to quit)"), [], (str "Ready! "), (str " (^C to quit)").
  split; [reflexivity|]. split; [reflexivity|]. split.
  - exists (str "a1B2"), (str " (^C to quit)").
    repeat split; try reflexivity. discriminate.
  - intros n tok' Hn Hc. apply token_at_starts in Hc.
    do 7 (destruct n as [|n]; [vm_compute in Hc; discriminate|]).
    vm_compute in Hn. lia.
Defined.

End WebhookFacts.
(** ** The schema bootstrap *)

Section BootstrapFacts.
Import JS Bootstrap.

(** The operations of a run of the first [k] statements by attempt [a]
    on handle [h]: each statement is issued and done before the next. *)
Fixpoint script_from (a h i : nat) (stmts : list jsstring) : list op :=
  match stmts with
  | [] => []
  | st :: rest => Issued a h st :: Done a i Fulfilled :: script_from a h (S i) rest
  end.

Definition script (a h k : nat) : list op :=
  script_from a h 0 (firstn k MIGRATION_STATEMENTS).

Definition issue (a h i : nat) : list op :=
  match nth_error MIGRATION_STATEMENTS i with
  | Some st => [Issued a h st]
  | None => []
  end.

(** What an attempt has done, read off its state. *)
Definition attempt_log (a : nat) (t : attempt) : list op :=
  match body t with
  | Pending => script a (db t) (next t) ++ issue a (db t) (next t)
  | Settled Fulfilled => script a (db t) (length MIGRATION_STATEMENTS)
  | Settled (Rejected e) =>
      script a (db t) (next t) ++ issue a (db t) (next t) ++ [Done a (next t) (Rejected e)]
  end.

Fixpoint logs_from (a : nat) (l : list attempt) : list op :=
  match l with
  | [] => []
  | t :: rest => attempt_log a t ++ logs_from (S a) rest
  end.

(** An attempt that failed and whose reaction has run. *)
Definition failed (t : attempt) : Prop :=
  exists e, body t = Settled (Rejected e) /\ derived t = Settled (Rejected e).

(** The attempt that [bootstrapPromise] names. *)
Definition live (t : attempt) : Prop :=
  match body t, derived t with
  | Pending, Pending => next t < length MIGRATION_STATEMENTS
  | Settled _, Pending => True
  | Settled Fulfilled, Settled Fulfilled => True
  | _, _ => False
  end.

Definition current (s : state) (cur : option attempt) (n : nat) : Prop :=
  match cur with
  | None => bootstrapPromise s = None
  | Some t => bootstrapPromise s = Some n /\ live t
  end.

Definition opt_list {A} (o : option A) : list A :=
  match o with Some x => [x] | None => [] end.

Definition rejected_body (cur : option attempt) : nat :=
  match option_map body cur with
  | Some (Settled (Rejected _)) => 1
  | _ => 0
  end.

(** The invariant of the reachable states, after [n] statements have
    failed: the attempts are those that failed, in order, and then at
    most one more, which is the one [bootstrapPromise] names. *)
Inductive Inv (n : nat) (s : state) : Prop :=
| Inv_intro (past : list attempt) (cur : option attempt)
    (Hatt : attempts s = past ++ opt_list cur)
    (Hpast : Forall failed past)
    (Hcur : current s cur (length past))
    (Hlog : log s = logs_from 0 (attempts s))
    (Hwait : forall c a, In (c, a) (waiting s) ->
               a = length past /\ exists t, cur = Some t /\ derived t = Pending)
    (Hret : forall c, In (c, Fulfilled) (returned s) ->
               exists t, cur = Some t /\ derived t = Settled Fulfilled)
    (Hrej : length past + rejected_body cur <= n).

Definition is_rejection (e : event) : bool :=
  match e with RunSettles _ (Rejected _) => true | _ => false end.

(** The number of statements that fail in a schedule. *)
Definition rejections (tr : list event) : nat :=
  length (filter is_rejection tr).

Definition handle (h : nat) : candidate := Object (Some (FunctionValued h)).


Definition calls (cs : list (nat * nat)) : list event :=
  map (fun ch => Call (fst ch) (handle (snd ch))) cs.

(** The next [k] statements of attempt [a] succeed. *)
Definition succeed (a k : nat) : list event := repeat (RunSettles a Fulfilled) k.

Local Opaque MIGRATION_STATEMENTS.

Lemma logs_from_app a l1 l2 :
  logs_from a (l1 ++ l2) = logs_from a l1 ++ logs_from (length l1 + a) l2.
Proof.
  revert a. induction l1 as [|t l1 IH]; intros a; simpl; [reflexivity|].
  rewrite IH, <- app_assoc. do 3 f_equal. lia.
Qed.

Lemma script_from_snoc stmts : forall a h i k st,
  nth_error stmts k = Some st ->
  script_from a h i (firstn (S k) stmts) =
  script_from a h i (firstn k stmts) ++ [Issued a h st; Done a (i + k) Fulfilled].
Proof.
  induction stmts as [|s0 stmts IH]; intros a h i k st H.
  - destruct k; discriminate.
  - destruct k as [|k].
    + simpl in H. injection H as ->. simpl. rewrite Nat.add_0_r. reflexivity.
    + simpl in H. change (firstn (S (S k)) (s0 :: stmts)) with (s0 :: firstn (S k) stmts).
      change (firstn (S k) (s0 :: stmts)) with (s0 :: firstn k stmts).
      cbn [script_from app]. rewrite (IH a h (S i) k st H).
      replace (S i + k) with (i + S k) by lia. reflexivity.
Qed.

Lemma script_snoc a h k st :
  nth_error MIGRATION_STATEMENTS k = Some st ->
  script a h (S k) = script a h k ++ [Issued a h st; Done a k Fulfilled].
Proof. intros H. unfold script. now rewrite (script_from_snoc _ a h 0 k st H). Qed.

Lemma script_all a h k :
  nth_error MIGRATION_STATEMENTS k = None ->
  script a h k = script a h (length MIGRATION_STATEMENTS).
Proof.
  intros H. apply nth_error_None in H. unfold script.
  rewrite firstn_all, firstn_all2; [reflexivity | exact H].
Qed.

Lemma nth_error_snoc_cases {A} (l : list A) (x y : A) a :
  nth_error (l ++ [x]) a = Some y ->
  nth_error l a = Some y \/ (a = length l /\ y = x).
Proof.
  intros H. destruct (Nat.lt_ge_cases a (length l)) as [Hlt|Hge].
  - left. now rewrite nth_error_app1 in H.
  - right. rewrite nth_error_app2 in H by exact Hge.
    destruct (a - length l) eqn:E; simpl in H.
    + injection H as <-. split; [lia | reflexivity].
    + destruct n; discriminate.
Qed.

Lemma set_attempt_last (l : list attempt) t t' :
  set_attempt (length l) t' (l ++ [t]) = l ++ [t'].
Proof.
  unfold set_attempt. induction l as [|x l IH]; [reflexivity|].
  cbn [length app firstn skipn] in *. now rewrite IH.
Qed.

Lemma failed_body_settled past a t :
  Forall failed past -> nth_error past a = Some t ->
  exists e, body t = Settled (Rejected e) /\ derived t = Settled (Rejected e).
Proof.
  intros HF H. apply nth_error_In in H.
  rewrite Forall_forall in HF. exact (HF _ H).
Qed.

(** An attempt whose body or whose derived promise is pending is the
    one in flight. *)
Lemma pending_is_current past cur a t :
  Forall failed past ->
  nth_error (past ++ opt_list cur) a = Some t ->
  body t = Pending \/ derived t = Pending ->
  a = length past /\ cur = Some t.
Proof.
  intros HF H Hp. destruct cur as [t0|]; simpl in H.
  - apply nth_error_snoc_cases in H. destruct H as [H|[-> ->]]; [|now split].
    destruct (failed_body_settled _ _ _ HF H) as (e & Hb & Hd).
    destruct Hp as [Hp|Hp]; congruence.
  - rewrite app_nil_r in H.
    destruct (failed_body_settled _ _ _ HF H) as (e & Hb & Hd).
    destruct Hp as [Hp|Hp]; congruence.
Qed.

Ltac proj :=
  cbn [attempts bootstrapPromise log waiting returned opt_list current
       db next body derived length app].

Lemma script_zero a h : script a h 0 = [].
Proof. reflexivity. Qed.

Lemma nth_error_current (past : list attempt) t :
  nth_error (past ++ [t]) (length past) = Some t.
Proof. rewrite nth_error_app2, Nat.sub_diag; [reflexivity | lia]. Qed.

Lemma Inv_await n c s :
  Inv n s -> bootstrapPromise s <> None -> Inv n (await_bootstrap c s).
Proof.
  intros [past cur Hatt Hpast Hcur Hlog Hwait Hret Hrej] Hbp.
  destruct cur as [t|]; [|simpl in Hcur; congruence].
  destruct Hcur as [Hb Hlive]. simpl in Hatt.
  unfold await_bootstrap. rewrite Hb, Hatt, nth_error_current. simpl.
  unfold live in Hlive.
  destruct (derived t) as [|o] eqn:Hd.
  - apply Inv_intro with (past := past) (cur := Some t); proj.
    + reflexivity.
    + exact Hpast.
    + now split; [|unfold live; rewrite Hd].
    + now rewrite <- Hatt.
    + intros c' a' Hin. apply in_app_or in Hin. destruct Hin as [Hin|[Hin|[]]].
      * exact (Hwait _ _ Hin).
      * injection Hin as <- <-. split; [reflexivity|]. now exists t.
    + exact Hret.
    + exact Hrej.
  - destruct (body t) as [|[|e]] eqn:Hbody; destruct o; try contradiction.
    apply Inv_intro with (past := past) (cur := Some t); proj.
    + reflexivity.
    + exact Hpast.
    + now split; [|unfold live; rewrite Hbody, Hd].
    + now rewrite <- Hatt.
    + exact Hwait.
    + intros c' _. now exists t.
    + exact Hrej.
Qed.

Lemma Inv_start n s h :
  Inv n s -> bootstrapPromise s = None ->
  let a := length (attempts s) in
  let tl := reach a {| db := h; next := 0; body := Pending; derived := Pending |} 0 (log s) in
  Inv n {| attempts := attempts s ++ [fst tl]; bootstrapPromise := Some a; log := snd tl;
         waiting := waiting s; returned := returned s |}.
Proof.
  intros [past cur Hatt Hpast Hcur Hlog Hwait Hret Hrej] Hbp a tl.
  destruct cur as [t|]; [destruct Hcur; congruence|].
  simpl in Hatt. rewrite app_nil_r in Hatt.
  assert (Ha : a = length past) by (unfold a; now rewrite Hatt).
  apply Inv_intro with (past := past) (cur := Some (fst tl)); simpl.
  - now rewrite Hatt.
  - exact Hpast.
  - split; [now rewrite Ha|].
    unfold tl, reach. destruct (nth_error MIGRATION_STATEMENTS 0) eqn:E; simpl.
    + unfold live; simpl. apply nth_error_Some. congruence.
    + exact I.
  - rewrite logs_from_app. simpl. rewrite app_nil_r, Nat.add_0_r, <- Hlog.
    unfold tl, reach. fold a.
    destruct (nth_error MIGRATION_STATEMENTS 0) eqn:E; simpl.
    + unfold attempt_log, issue; cbn [body db next derived]. now rewrite E, script_zero.
    + unfold attempt_log; cbn [body db next derived]. rewrite <- (script_all _ _ 0 E).
      now rewrite script_zero, app_nil_r.
  - intros c a' Hin. destruct (Hwait _ _ Hin) as (_ & t & Ht & _). discriminate.
  - intros c Hin. destruct (Hret _ Hin) as (t & Ht & _). discriminate.
  - unfold rejected_body in *. cbn [option_map] in *.
    unfold tl, reach. destruct (nth_error MIGRATION_STATEMENTS 0); cbn [fst body]; lia.
Qed.

Lemma Inv_call n c x s : Inv n s -> Inv n (ensureD1Schema c x s).
Proof.
  intros HI. unfold ensureD1Schema.
  destruct (isD1DatabaseLike x); simpl.
  - destruct (bootstrapPromise s) eqn:Hbp.
    + apply Inv_await; [exact HI | congruence].
    + pose proof (Inv_start n s (handle_of x) HI Hbp) as H. simpl in H.
      destruct (reach _ _ _ _) as [t l]. simpl in H.
      apply Inv_await; [exact H | simpl; congruence].
  - destruct HI as [past cur Hatt Hpast Hcur Hlog Hwait Hret Hrej].
    apply Inv_intro with (past := past) (cur := cur); proj; auto.
    intros c' Hin. apply in_app_or in Hin. destruct Hin as [Hin|[Hin|[]]].
    + exact (Hret _ Hin).
    + discriminate.
Qed.

Lemma attempt_log_derived a t p :
  attempt_log a {| db := db t; next := next t; body := body t; derived := p |}
  = attempt_log a t.
Proof. reflexivity. Qed.

Lemma Inv_step n s e s' :
  Inv n s -> step s e = Some s' -> Inv (n + (if is_rejection e then 1 else 0)) s'.
Proof.
  intros HI Hstep. destruct e as [c x | a o | a]; simpl in Hstep.
  - injection Hstep as <-. rewrite Nat.add_0_r. now apply Inv_call.
  - destruct HI as [past cur Hatt Hpast Hcur Hlog Hwait Hret Hrej].
    destruct (nth_error (attempts s) a) as [t|] eqn:Hn; [|discriminate].
    destruct (body t) eqn:Hbody; [|discriminate].
    rewrite Hatt in Hn.
    destruct (pending_is_current past cur a t Hpast Hn (or_introl Hbody)) as [-> ->].
    simpl in Hatt. destruct Hcur as [Hbp Hlive].
    unfold live in Hlive. rewrite Hbody in Hlive.
    destruct (derived t) eqn:Hd; [|contradiction].
    assert (Hold : log s = logs_from 0 past ++ script (length past) (db t) (next t)
                            ++ issue (length past) (db t) (next t)).
    { rewrite Hlog, Hatt, logs_from_app. cbn [logs_from].
      unfold attempt_log. rewrite Hbody, app_nil_r, Nat.add_0_r. reflexivity. }
    destruct (nth_error MIGRATION_STATEMENTS (next t)) as [st|] eqn:Est;
      [|apply nth_error_None in Est; lia].
    assert (Hw : forall t', derived t' = Pending -> forall c a', In (c, a') (waiting s) ->
               a' = length past /\ exists t0, Some t' = Some t0 /\ derived t0 = Pending).
    { intros t' Ht' c a' Hin. destruct (Hwait _ _ Hin) as (-> & _).
      split; [reflexivity|]. now exists t'. }
    assert (Hr : forall t', forall c, In (c, Fulfilled) (returned s) ->
               exists t0, Some t' = Some t0 /\ derived t0 = Settled Fulfilled).
    { intros t' c Hin. destruct (Hret _ Hin) as (t0 & Ht0 & Hd0).
      injection Ht0 as <-. congruence. }
    destruct o as [|e].
    + destruct (reach _ _ _ _) as [t' l] eqn:Hreach.
      injection Hstep as <-. rewrite Hatt, set_attempt_last.
      unfold reach in Hreach.
      destruct (nth_error MIGRATION_STATEMENTS (S (next t))) as [st'|] eqn:Est';
        injection Hreach as <- <-; rewrite Hd.
      * apply Inv_intro with (past := past) (cur := Some
          {| db := db t; next := S (next t); body := Pending; derived := Pending |}); proj.
        -- reflexivity.
        -- exact Hpast.
        -- split; [exact Hbp|]. unfold live; proj. apply nth_error_Some. congruence.
        -- rewrite logs_from_app. cbn [logs_from]. unfold attempt_log; proj.
           rewrite Hold, (script_snoc _ _ _ _ Est). unfold issue. rewrite Est, Est'.
           rewrite app_nil_r, Nat.add_0_r, <- !app_assoc. reflexivity.
        -- now apply Hw.
        -- now apply Hr.
        -- unfold rejected_body in *. cbn [option_map body] in *.
           rewrite Hbody in Hrej. lia.
      * apply Inv_intro with (past := past) (cur := Some
          {| db := db t; next := S (next t); body := Settled Fulfilled; derived := Pending |});
          proj.
        -- reflexivity.
        -- exact Hpast.
        -- split; [exact Hbp|]. exact I.
        -- rewrite logs_from_app. cbn [logs_from]. unfold attempt_log; proj.
           rewrite <- (script_all _ _ _ Est'), Hold, (script_snoc _ _ _ _ Est).
           unfold issue. rewrite Est.
           rewrite app_nil_r, Nat.add_0_r, <- !app_assoc. reflexivity.
        -- now apply Hw.
        -- now apply Hr.
        -- unfold rejected_body in *. cbn [option_map body] in *.
           rewrite Hbody in Hrej. lia.
    + injection Hstep as <-. rewrite Hatt, set_attempt_last.
      apply Inv_intro with (past := past) (cur := Some
        {| db := db t; next := next t; body := Settled (Rejected e); derived := Pending |});
        proj.
      * reflexivity.
      * exact Hpast.
      * split; [exact Hbp|]. exact I.
      * rewrite logs_from_app. cbn [logs_from]. unfold attempt_log; proj.
        rewrite Hold. unfold issue. rewrite Est.
        rewrite app_nil_r, Nat.add_0_r, <- !app_assoc. reflexivity.
      * now apply Hw.
      * now apply Hr.
      * unfold rejected_body in *. cbn [option_map body] in *.
        rewrite Hbody in Hrej. cbn [is_rejection]. lia.
  - destruct HI as [past cur Hatt Hpast Hcur Hlog Hwait Hret Hrej].
    destruct (nth_error (attempts s) a) as [t|] eqn:Hn; [|discriminate].
    destruct (body t) as [|o] eqn:Hbody; [discriminate|].
    destruct (derived t) eqn:Hd; [|discriminate].
    rewrite Hatt in Hn.
    destruct (pending_is_current past cur a t Hpast Hn (or_intror Hd)) as [-> ->].
    simpl in Hatt. destruct Hcur as [Hbp Hlive].
    injection Hstep as <-. rewrite Hatt, set_attempt_last.
    assert (Hnow : forall c a', In (c, a')
               (filter (fun w => negb (waits_on (length past) w)) (waiting s)) -> False).
    { intros c a' Hin. apply filter_In in Hin. destruct Hin as [Hin Hneg].
      destruct (Hwait _ _ Hin) as (-> & _). unfold waits_on in Hneg. simpl in Hneg.
      rewrite Nat.eqb_refl in Hneg. discriminate. }
    assert (Hlog' : forall p, log s = logs_from 0 (past ++
               [{| db := db t; next := next t; body := Settled o; derived := p |}])).
    { intros p. rewrite Hlog, Hatt, !logs_from_app. cbn [logs_from].
      rewrite <- Hbody. now rewrite attempt_log_derived. }
    destruct o as [|e].
    + apply Inv_intro with (past := past) (cur := Some
        {| db := db t; next := next t; body := Settled Fulfilled;
           derived := Settled Fulfilled |}); proj.
      * reflexivity.
      * exact Hpast.
      * split; [exact Hbp|]. exact I.
      * apply Hlog'.
      * intros c a' Hin. exfalso. eapply Hnow; eauto.
      * intros c _. eexists; split; reflexivity.
      * unfold rejected_body in *. cbn [option_map body] in *.
        rewrite Hbody in Hrej. cbn [is_rejection]. lia.
    + apply Inv_intro with (past := past ++
        [{| db := db t; next := next t; body := Settled (Rejected e);
            derived := Settled (Rejected e) |}]) (cur := None); proj.
      * now rewrite app_nil_r.
      * apply Forall_app. split; [exact Hpast|]. constructor; [|constructor].
        exists e. now split.
      * reflexivity.
      * apply Hlog'.
      * intros c a' Hin. exfalso. eapply Hnow; eauto.
      * intros c Hin. apply in_app_or in Hin. destruct Hin as [Hin|Hin].
        -- destruct (Hret _ Hin) as (t0 & Ht0 & Hd0). injection Ht0 as <-. congruence.
        -- apply in_map_iff in Hin. destruct Hin as (w & Hw & _). discriminate.
      * unfold rejected_body in *. cbn [option_map body] in *.
        rewrite Hbody in Hrej. rewrite length_app. cbn [is_rejection length]. lia.
Qed.

Lemma Inv_initial : Inv 0 initial.
Proof.
  apply Inv_intro with (past := []) (cur := None); simpl; auto.
  - intros c a [].
  - intros c [].
Qed.

Lemma Inv_run tr : forall n s s',
  Inv n s -> run s tr = Some s' -> Inv (n + rejections tr) s'.
Proof.
  induction tr as [|e tr IH]; intros n s s' HI H; simpl in H.
  - injection H as <-. unfold rejections; simpl. now rewrite Nat.add_0_r.
  - destruct (step s e) as [s1|] eqn:E; [|discriminate].
    pose proof (IH _ _ _ (Inv_step _ _ _ _ HI E) H) as HI'.
    unfold rejections in *. cbn [filter]. destruct (is_rejection e); cbn [length].
    + now replace (n + S (length (filter is_rejection tr)))
        with (n + 1 + length (filter is_rejection tr)) by lia.
    + now rewrite Nat.add_0_r in HI'.
Qed.

Lemma Inv_attempts_bound n s : Inv n s -> length (attempts s) <= S n.
Proof.
  intros [past cur Hatt _ _ _ _ _ Hrej]. rewrite Hatt, length_app.
  destruct cur; simpl; lia.
Qed.

Lemma Inv_earlier_failed n s a t :
  Inv n s -> nth_error (attempts s) a = Some t -> S a < length (attempts s) -> failed t.
Proof.
  intros [past cur Hatt Hpast _ _ _ _ _] Hn Hlt. rewrite Hatt in Hn, Hlt.
  rewrite length_app in Hlt.
  assert (Ha : a < length past) by (destruct cur; simpl in Hlt; lia).
  rewrite nth_error_app1 in Hn by exact Ha.
  exact (failed_body_settled _ _ _ Hpast Hn).
Qed.

Lemma Inv_in_flight n s a t :
  Inv n s -> nth_error (attempts s) a = Some t -> derived t = Pending ->
  S a = length (attempts s) /\ bootstrapPromise s = Some a.
Proof.
  intros [past cur Hatt Hpast Hcur _ _ _ _] Hn Hd. rewrite Hatt in Hn.
  destruct (pending_is_current past cur a t Hpast Hn (or_intror Hd)) as [-> ->].
  destruct Hcur as [Hbp _]. rewrite Hatt, length_app. simpl. split; [lia | exact Hbp].
Qed.

(** Once a caller has returned normally the last attempt has run the
    whole list and is the one memoized. *)
Lemma Inv_fulfilled n s c :
  Inv n s -> In (c, Fulfilled) (returned s) ->
  exists past t,
    attempts s = past ++ [t] /\ length past <= n /\
    bootstrapPromise s = Some (length past) /\
    derived t = Settled Fulfilled /\
    log s = logs_from 0 past ++ script (length past) (db t) (length MIGRATION_STATEMENTS).
Proof.
  intros [past cur Hatt Hpast Hcur Hlog _ Hret Hrej] Hin.
  destruct (Hret _ Hin) as (t & -> & Hd). destruct Hcur as [Hbp Hlive].
  exists past, t. simpl in Hatt. repeat split; auto; [lia|].
  rewrite Hlog, Hatt, logs_from_app. cbn [logs_from]. rewrite app_nil_r, Nat.add_0_r.
  unfold live in Hlive. rewrite Hd in Hlive. unfold attempt_log.
  destruct (body t) as [|[|e]]; try contradiction. reflexivity.
Qed.

Lemma run_app tr1 : forall tr2 s,
  run s (tr1 ++ tr2) = match run s tr1 with Some s1 => run s1 tr2 | None => None end.
Proof.
  induction tr1 as [|e tr1 IH]; intros tr2 s; simpl; [reflexivity|].
  destruct (step s e); [apply IH | reflexivity].
Qed.

(** Callers that arrive while an attempt is in flight only join it. *)
Lemma run_calls cs : forall att bp l w r a t,
  bp = Some a -> nth_error att a = Some t -> derived t = Pending ->
  run {| attempts := att; bootstrapPromise := bp; log := l; waiting := w; returned := r |}
      (calls cs)
  = Some {| attempts := att; bootstrapPromise := bp; log := l;
            waiting := w ++ map (fun ch => (fst ch, a)) cs; returned := r |}.
Proof.
  induction cs as [|[c h] cs IH]; intros att bp l w r a t Hbp Hn Hd.
  - simpl. now rewrite app_nil_r.
  - cbn [calls map run step fst snd]. unfold ensureD1Schema.
    change (isD1DatabaseLike (handle h)) with true. cbn [negb]. proj. rewrite Hbp.
    unfold await_bootstrap. proj. rewrite Hn. cbn [option_map]. rewrite Hd.
    fold (calls cs). rewrite <- Hbp. rewrite (IH att bp l _ r a t Hbp Hn Hd).
    now rewrite <- app_assoc.
Qed.

Lemma filter_waits_on a (cs : list (nat * nat)) :
  filter (waits_on a) (map (fun ch => (fst ch, a)) cs) = map (fun ch => (fst ch, a)) cs.
Proof.
  induction cs as [|ch cs IH]; simpl; [reflexivity|].
  unfold waits_on at 1. simpl. now rewrite Nat.eqb_refl, IH.
Qed.

Lemma D1DatabaseLike_handle x :
  isD1DatabaseLike x = true <-> exists h, x = handle h.
Proof.
  split.
  - destruct x as [ | | | | [[h|]|]]; try discriminate. intros _. now exists h.
  - intros [h ->]. reflexivity.
Qed.

(** A call on a state without a memoized promise starts an attempt at
    the first statement. *)
Lemma fresh_attempt c h s :
  bootstrapPromise s = None ->
  let s' := ensureD1Schema c (handle h) s in
  bootstrapPromise s' = Some (length (attempts s)) /\
  length (attempts s') = S (length (attempts s)) /\
  log s' = log s ++ issue (length (attempts s)) h 0.
Proof.
  intros Hbp. unfold ensureD1Schema.
  change (isD1DatabaseLike (handle h)) with true. cbn [negb]. rewrite Hbp.
  unfold reach, issue. cbn [handle_of handle db].
  destruct (nth_error MIGRATION_STATEMENTS 0) eqn:E;
    unfold await_bootstrap; proj;
    rewrite nth_error_app2, Nat.sub_diag by lia; cbn [nth_error option_map derived]; proj;
    rewrite length_app; cbn [length]; repeat split; try lia; try reflexivity.
  now rewrite app_nil_r.
Qed.

Local Transparent MIGRATION_STATEMENTS.

Lemma scenario_concurrent c0 h0 cs :
  exists s1,
    run initial (Call c0 (handle h0) :: calls cs
                 ++ succeed 0 (length MIGRATION_STATEMENTS) ++ [BodyReaction 0]) = Some s1 /\
    log s1 = script 0 h0 (length MIGRATION_STATEMENTS) /\
    returned s1 = map (fun ch => (fst ch, Fulfilled)) ((c0, h0) :: cs) /\
    length (attempts s1) = 1.
Proof.
  pose (t0 := {| db := h0; next := 0; body := Pending; derived := Pending |}).
  assert (H1 : step initial (Call c0 (handle h0))
               = Some {| attempts := [t0]; bootstrapPromise := Some 0;
                         log := issue 0 h0 0; waiting := [(c0, 0)]; returned := [] |})
    by (vm_compute; reflexivity).
  assert (H2 : forall w,
     run {| attempts := [t0]; bootstrapPromise := Some 0; log := issue 0 h0 0;
            waiting := w; returned := [] |}
         (succeed 0 (length MIGRATION_STATEMENTS) ++ [BodyReaction 0])
     = Some {| attempts := [ {| db := h0; next := length MIGRATION_STATEMENTS;
                                body := Settled Fulfilled; derived := Settled Fulfilled |} ];
               bootstrapPromise := Some 0;
               log := script 0 h0 (length MIGRATION_STATEMENTS);
               waiting := filter (fun x => negb (waits_on 0 x)) w;
               returned := map (fun x => (fst x, Fulfilled)) (filter (waits_on 0) w) |})
    by (intros w; vm_compute; reflexivity).
  eexists. split.
  - cbn [run]. rewrite H1, run_app.
    rewrite (run_calls cs [t0] (Some 0) _ _ _ 0 t0 eq_refl eq_refl eq_refl).
    apply H2.
  - proj. split; [reflexivity|]. split; [|reflexivity].
    cbn [app filter]. change (waits_on 0 (c0, 0)) with true. cbn [map fst].
    rewrite filter_waits_on, map_map. reflexivity.
Qed.

Lemma scenario_retry k c1 h1 c2 h2 e :
  k < length MIGRATION_STATEMENTS ->
  exists s2,
    run initial ([Call c1 (handle h1)] ++ succeed 0 k
                 ++ [RunSettles 0 (Rejected e); BodyReaction 0; Call c2 (handle h2)]
                 ++ succeed 1 (length MIGRATION_STATEMENTS) ++ [BodyReaction 1]) = Some s2 /\
    length (attempts s2) = 2 /\
    log s2 = script 0 h1 k ++ issue 0 h1 k ++ [Done 0 k (Rejected e)]
             ++ script 1 h2 (length MIGRATION_STATEMENTS) /\
    returned s2 = [(c1, Rejected e); (c2, Fulfilled)] /\
    bootstrapPromise s2 = Some 1.
Proof.
  intros Hk.
  pose (tr := [Call c1 (handle h1)] ++ succeed 0 k
                 ++ [RunSettles 0 (Rejected e); BodyReaction 0; Call c2 (handle h2)]
                 ++ succeed 1 (length MIGRATION_STATEMENTS) ++ [BodyReaction 1]).
  exists (match run initial tr with Some s => s | None => initial end).
  subst tr.
  do 8 (destruct k as [|k]; [repeat apply conj; vm_compute; reflexivity|]).
  exfalso. revert Hk. vm_compute. lia.
Qed.

Local Opaque MIGRATION_STATEMENTS.

(** The reaction on a failed body clears [bootstrapPromise] and rejects
    every caller that awaits the attempt. *)
Lemma failure_clears s a t e s' :
  nth_error (attempts s) a = Some t -> body t = Settled (Rejected e) ->
  step s (BodyReaction a) = Some s' ->
  bootstrapPromise s' = None /\
  length (attempts s') = length (attempts s) /\
  log s' = log s /\
  forall c, In (c, a) (waiting s) -> In (c, Rejected e) (returned s').
Proof.
  intros Hn Hb Hstep. cbn [step] in Hstep. rewrite Hn, Hb in Hstep.
  destruct (derived t); [|discriminate]. injection Hstep as <-. proj.
  repeat split.
  - unfold set_attempt. rewrite !length_app, length_firstn, length_skipn. cbn [length].
    assert (a < length (attempts s)) by (apply nth_error_Some; congruence). lia.
  - intros c Hin. apply in_or_app. right.
    apply in_map_iff. exists (c, a). split; [reflexivity|].
    apply filter_In. split; [exact Hin|]. unfold waits_on. cbn [snd]. apply Nat.eqb_refl.
Qed.

(** C1.  Along every schedule of calls, settling statements and
    reactions: the handles see attempt after attempt, each attempt the
    statements in their declared order, one issued only when the one
    before is done; there is at most one attempt more than statements
    have failed, every attempt but the last has failed and only the
    last can be in flight; if no statement fails, a caller that has
    returned has seen the whole list run exactly once; when an attempt
    fails its reaction clears [bootstrapPromise] and rejects every
    caller awaiting it, and the next call starts again at the first
    statement.  In particular any number of callers that arrive while
    the statements run share one run of the list, and a failure at
    statement [k] followed by a clean retry makes two attempts, the
    second one complete. *)
Theorem ensureD1Schema_single_flight tr s :
  run initial tr = Some s ->
  log s = logs_from 0 (attempts s) /\
  length (attempts s) <= S (rejections tr) /\
  (forall a t, nth_error (attempts s) a = Some t ->
     (S a < length (attempts s) -> failed t) /\
     (derived t = Pending -> S a = length (attempts s) /\ bootstrapPromise s = Some a)) /\
  (forall c a, In (c, a) (waiting s) -> bootstrapPromise s = Some a) /\
  (rejections tr = 0 -> forall c, In (c, Fulfilled) (returned s) ->
     exists h, log s = script 0 h (length MIGRATION_STATEMENTS)) /\
  (forall a t e s', nth_error (attempts s) a = Some t -> body t = Settled (Rejected e) ->
     step s (BodyReaction a) = Some s' ->
     bootstrapPromise s' = None /\
     (forall c, In (c, a) (waiting s) -> In (c, Rejected e) (returned s')) /\
     forall c h,
       let s'' := ensureD1Schema c (handle h) s' in
       bootstrapPromise s'' = Some (length (attempts s)) /\
       length (attempts s'') = S (length (attempts s)) /\
       log s'' = log s ++ issue (length (attempts s)) h 0) /\
  (forall c0 h0 cs, exists s1,
     run initial (Call c0 (handle h0) :: calls cs
                  ++ succeed 0 (length MIGRATION_STATEMENTS) ++ [BodyReaction 0]) = Some s1 /\
     log s1 = script 0 h0 (length MIGRATION_STATEMENTS) /\
     returned s1 = map (fun ch => (fst ch, Fulfilled)) ((c0, h0) :: cs) /\
     length (attempts s1) = 1) /\
  (forall k c1 h1 c2 h2 e, k < length MIGRATION_STATEMENTS -> exists s2,
     run initial ([Call c1 (handle h1)] ++ succeed 0 k
                  ++ [RunSettles 0 (Rejected e); BodyReaction 0; Call c2 (handle h2)]
                  ++ succeed 1 (length MIGRATION_STATEMENTS) ++ [BodyReaction 1]) = Some s2 /\
     length (attempts s2) = 2 /\
     log s2 = script 0 h1 k ++ issue 0 h1 k ++ [Done 0 k (Rejected e)]
              ++ script 1 h2 (length MIGRATION_STATEMENTS) /\
     returned s2 = [(c1, Rejected e); (c2, Fulfilled)] /\
     bootstrapPromise s2 = Some 1).
Proof.
  intros Hrun.
  pose proof (Inv_run tr 0 initial s Inv_initial Hrun) as HI. cbn [Nat.add] in HI.
  split; [now destruct HI|].
  split; [exact (Inv_attempts_bound _ _ HI)|].
  split.
  { intros a t Hn. split.
    - exact (Inv_earlier_failed _ _ _ _ HI Hn).
    - exact (Inv_in_flight _ _ _ _ HI Hn). }
  split.
  { intros c a Hin. destruct HI as [past cur _ _ Hcur _ Hwait _ _].
    destruct (Hwait _ _ Hin) as (-> & t & -> & _). now destruct Hcur. }
  split.
  { intros H0 c Hin. rewrite H0 in HI.
    destruct (Inv_fulfilled _ _ _ HI Hin) as (past & t & _ & Hlen & _ & _ & Hlog).
    destruct past; [|simpl in Hlen; lia]. exists (db t). exact Hlog. }
  split.
  { intros a t e s' Hn Hb Hstep.
    destruct (failure_clears _ _ _ _ _ Hn Hb Hstep) as (Hbp & Hlen & Hlog & Hw).
    split; [exact Hbp|]. split; [exact Hw|].
    intros c h s''. rewrite <- Hlen, <- Hlog. exact (fresh_attempt c h s' Hbp). }
  split.
  { exact scenario_concurrent. }
  exact scenario_retry.
Qed.

(** A schedule for C1: two callers, then the first statement fails. *)
Lemma ensureD1Schema_single_flight_witness :
  exists s,
    run initial [Call 1 (handle 7); Call 2 (handle 7); RunSettles 0 (Rejected TypeError)]
      = Some s /\
    log s = logs_from 0 (attempts s) /\ length (attempts s) <= 2.
Proof.
  eexists. split; [reflexivity|].
  pose proof (ensureD1Schema_single_flight
                [Call 1 (handle 7); Call 2 (handle 7); RunSettles 0 (Rejected TypeError)]
                _ eq_refl) as H.
  split; [exact (proj1 H) | exact (proj1 (proj2 H))].
Defined.

(** C10.  The capability check comes before the memoized promise is
    looked at: in every reachable state a call with a handle that is
    not D1-like throws and changes nothing else, also after the
    bootstrap has completed; a call with a proper handle that follows
    returns without a statement being issued.  The handles that pass
    are the objects whose [prepare] is a function. *)
Theorem ensureD1Schema_checks_handle_first tr s c x :
  run initial tr = Some s ->
  isD1DatabaseLike x = false ->
  let s' := ensureD1Schema c x s in
  step s (Call c x) = Some s' /\
  attempts s' = attempts s /\ bootstrapPromise s' = bootstrapPromise s /\
  log s' = log s /\ waiting s' = waiting s /\
  returned s' = returned s ++ [(c, Rejected not_available)] /\
  (forall c0, In (c0, Fulfilled) (returned s) ->
     forall c' h,
       let s'' := ensureD1Schema c' (handle h) s' in
       attempts s'' = attempts s /\ bootstrapPromise s'' = bootstrapPromise s /\
       log s'' = log s /\ waiting s'' = waiting s /\
       returned s'' = returned s ++ [(c, Rejected not_available); (c', Fulfilled)]) /\
  (forall y, isD1DatabaseLike y = true <-> exists h, y = handle h).
Proof.
  intros Hrun Hx s'.
  pose proof (Inv_run tr 0 initial s Inv_initial Hrun) as HI.
  assert (Hs' : s' = {| attempts := attempts s; bootstrapPromise := bootstrapPromise s;
                        log := log s; waiting := waiting s;
                        returned := returned s ++ [(c, Rejected not_available)] |}).
  { unfold s', ensureD1Schema. now rewrite Hx. }
  split; [reflexivity|].
  rewrite Hs'. proj.
  repeat (split; [reflexivity|]).
  split; [|exact D1DatabaseLike_handle].
  intros c0 Hin c' h.
  destruct (Inv_fulfilled _ _ _ HI Hin) as (past & t & Hatt & _ & Hbp & Hd & _).
  unfold ensureD1Schema. change (isD1DatabaseLike (handle h)) with true.
  cbn [negb]. proj. rewrite Hbp. unfold await_bootstrap. proj.
  rewrite Hatt, nth_error_current. cbn [option_map]. rewrite Hd. proj.
  rewrite <- app_assoc. repeat split; reflexivity.
Qed.

Local Transparent MIGRATION_STATEMENTS.

(** A schedule for C10: the bootstrap completes, then a call without a
    handle and a call with one. *)
Lemma ensureD1Schema_checks_handle_first_witness :
  exists s,
    run initial (Call 1 (handle 7) :: succeed 0 (length MIGRATION_STATEMENTS)
                 ++ [BodyReaction 0]) = Some s /\
    In (1, Fulfilled) (returned s) /\
    isD1DatabaseLike Undefined = false /\
    log (ensureD1Schema 3 (handle 7) (ensureD1Schema 2 Undefined s)) = log s /\
    returned (ensureD1Schema 2 Undefined s) = returned s ++ [(2, Rejected not_available)].
Proof.
  pose (tr := Call 1 (handle 7) :: succeed 0 (length MIGRATION_STATEMENTS)
                 ++ [BodyReaction 0]).
  pose (s := match run initial tr with Some s => s | None => initial end).
  assert (Hrun : run initial tr = Some s) by (vm_compute; reflexivity).
  assert (Hin : In (1, Fulfilled) (returned s)) by (vm_compute; left; reflexivity).
  pose proof (ensureD1Schema_checks_handle_first tr s 2 Undefined Hrun eq_refl) as H.
  cbv zeta in H.
  destruct H as (_ & _ & _ & _ & _ & Hret & Hnext & _).
  exists s. split; [exact Hrun|]. split; [exact Hin|]. split; [reflexivity|].
  split; [|exact Hret].
  exact (proj1 (proj2 (proj2 (Hnext 1 Hin 3 7)))).
Defined.

Local Opaque MIGRATION_STATEMENTS.

End BootstrapFacts.

(** ** More on the matcher *)

(** Case analysis on the comparisons of character codes in a goal. *)
Ltac codes_lia :=
  repeat match goal with
  | |- context [N.leb ?a ?b] => destruct (N.leb_spec a b)
  | |- context [N.eqb ?a ?b] => destruct (N.eqb_spec a b)
  end; cbn [andb orb negb]; try reflexivity; try lia.

Section MatcherMore.
Import JS.

(** What a repetition took, whenever it matches: a run of the set
    within its bounds, and the continuation matched the rest. *)
Lemma rep_sound R p g (k : bool -> jsstring -> option R) : forall s lo hi b r,
  rep p lo hi g k b s = Some r ->
  exists a rest,
    s = a ++ rest /\ forallb p a = true /\ lo <= length a /\
    match hi with Some h => length a <= h | None => True end /\
    k (match a with [] => b | _ :: _ => false end) rest = Some r.
Proof.
  induction s as [|c s IH]; intros lo hi b r H.
  - assert (Hk : lo = 0 /\ k b [] = Some r).
    { cbn [rep] in H. destruct lo.
      - split; [reflexivity|].
        destruct g, hi as [[|h]|]; try exact H; destruct (k b []); congruence.
      - destruct g, hi as [[|h]|]; discriminate. }
    destruct Hk as [-> Hk]. exists [], []. repeat apply conj; try reflexivity.
    + destruct hi; [apply Nat.le_0_l | exact I].
    + exact Hk.
  - assert (Hcases : (lo = 0 /\ k b (c :: s) = Some r) \/
                     (hi <> Some 0 /\ p c = true /\
                      rep p (pred lo) (option_map pred hi) g k false s = Some r)).
    { cbn [rep] in H.
      destruct hi as [[|h]|]; cbn [option_map] in *.
      - left. destruct lo; [|destruct g; discriminate]. split; [reflexivity|].
        destruct g; [exact H|]. destruct (k b (c :: s)); congruence.
      - destruct (p c) eqn:E.
        + destruct g.
          * destruct (rep p (pred lo) (Some (pred (S h))) true k false s) eqn:E2.
            -- right. repeat apply conj; congruence.
            -- left. destruct lo; [split; [reflexivity | exact H] | discriminate].
          * destruct lo.
            -- destruct (k b (c :: s)) eqn:E2; [left; split; congruence|].
               right. repeat apply conj; congruence.
            -- right. repeat apply conj; congruence.
        + left. destruct lo; [|destruct g; discriminate]. split; [reflexivity|].
          destruct g; [exact H|]. destruct (k b (c :: s)); congruence.
      - destruct (p c) eqn:E.
        + destruct g.
          * destruct (rep p (pred lo) None true k false s) eqn:E2.
            -- right. repeat apply conj; congruence.
            -- left. destruct lo; [split; [reflexivity | exact H] | discriminate].
          * destruct lo.
            -- destruct (k b (c :: s)) eqn:E2; [left; split; congruence|].
               right. repeat apply conj; congruence.
            -- right. repeat apply conj; congruence.
        + left. destruct lo; [|destruct g; discriminate]. split; [reflexivity|].
          destruct g; [exact H|]. destruct (k b (c :: s)); congruence. }
    destruct Hcases as [[-> Hk] | (Hhi & Hc & Hrep)].
    + exists [], (c :: s). repeat apply conj; try reflexivity.
      * destruct hi; [apply Nat.le_0_l | exact I].
      * exact Hk.
    + destruct (IH _ _ _ _ Hrep) as (a & rest & -> & Ha & Hlo & Hh & Hk).
      exists (c :: a), rest. repeat apply conj.
      * reflexivity.
      * simpl. now rewrite Hc, Ha.
      * simpl. lia.
      * destruct hi as [[|h]|]; cbn [option_map] in *; simpl; [congruence | lia | exact I].
      * destruct a; exact Hk.
Qed.

(** What is left after a match is an end of the input. *)
Lemma mh_suffix : forall r b s o caps rest caps',
  mh r b s o caps = Some (rest, caps') -> exists m, s = m ++ rest.
Proof.
  induction r as [|a r IH]; intros b s o caps rest caps' H; cbn [mh] in H.
  - injection H as <- <-. now exists [].
  - destruct a.
    + apply rep_sound in H. destruct H as (a & rest0 & -> & _ & _ & _ & Hk).
      apply IH in Hk. destruct Hk as [m ->]. exists (a ++ m). now rewrite app_assoc.
    + eapply IH, H.
    + eapply IH, H.
    + destruct b; [eapply IH, H | discriminate].
    + destruct s; [eapply IH, H | discriminate].
Qed.

Lemma mh_length r b s o caps rest caps' :
  mh r b s o caps = Some (rest, caps') -> length rest <= length s.
Proof.
  intros H. apply mh_suffix in H. destruct H as [m ->]. rewrite length_app. lia.
Qed.

(** An expression without groups. *)
Definition plain (r : regex) : bool :=
  forallb (fun a => match a with Open | Close => false | _ => true end) r.

Lemma mh_plain : forall r b s o caps rest caps',
  plain r = true -> mh r b s o caps = Some (rest, caps') -> caps' = caps.
Proof.
  induction r as [|a r IH]; intros b s o caps rest caps' Hp H; cbn [mh] in H.
  - now injection H as <- <-.
  - simpl in Hp. apply andb_true_iff in Hp. destruct Hp as [Ha Hp].
    destruct a; try discriminate.
    + apply rep_sound in H. destruct H as (a & rest0 & _ & _ & _ & _ & Hk).
      eapply IH; eassumption.
    + destruct b; [eapply IH; eassumption | discriminate].
    + destruct s; [eapply IH; eassumption | discriminate].
Qed.

(** After a prefix without groups the rest of the expression matches
    somewhere, with the same groups. *)
Lemma mh_plain_prefix : forall pre r b s o caps res,
  plain pre = true -> mh (pre ++ r) b s o caps = Some res ->
  exists b' s', mh r b' s' o caps = Some res.
Proof.
  induction pre as [|a pre IH]; intros r b s o caps res Hp H; cbn [app mh] in H.
  - now exists b, s.
  - simpl in Hp. apply andb_true_iff in Hp. destruct Hp as [Ha Hp].
    destruct a; try discriminate.
    + apply rep_sound in H. destruct H as (a & rest0 & _ & _ & _ & _ & Hk).
      eapply IH; eassumption.
    + destruct b; [eapply IH; eassumption | discriminate].
    + destruct s; [eapply IH; eassumption | discriminate].
Qed.

(** One group around one repetition: the group holds a run of the set
    within the bounds. *)
Lemma mh_group p lo hi g post b s o caps rest caps' :
  plain post = true ->
  mh (Open :: Rep p lo hi g :: Close :: post) b s o caps = Some (rest, caps') ->
  exists a, caps' = caps ++ [a] /\ forallb p a = true /\ lo <= length a /\
            match hi with Some h => length a <= h | None => True end.
Proof.
  intros Hp H. cbn [mh] in H. apply rep_sound in H.
  destruct H as (a & rest0 & -> & Ha & Hlo & Hhi & Hk). cbn [mh] in Hk.
  apply mh_plain in Hk; [|exact Hp]. exists a. repeat apply conj; try assumption.
  rewrite Hk. f_equal. f_equal. rewrite length_app.
  replace (length a + length rest0 - length rest0) with (length a) by lia.
  apply firstn_exact.
Qed.

(** The groups of a search are those of a match at some position. *)
Lemma exec_from_mh r : forall s b i m,
  exec_from r b s i = Some m ->
  exists b' s' rest, mh r b' s' [] [] = Some (rest, groups m).
Proof.
  induction s as [|c s IH]; intros b i m H; cbn [exec_from] in H.
  - destruct (mh r b [] [] []) as [[rest caps]|] eqn:E; [|discriminate].
    injection H as <-. now exists b, [], rest.
  - destruct (mh r b (c :: s) [] []) as [[rest caps]|] eqn:E.
    + injection H as <-. now exists b, (c :: s), rest.
    + eapply IH, H.
Qed.

(** A counted repetition takes its characters one at a time. *)
Lemma rep_times R p (k : bool -> jsstring -> option R) n b s :
  rep p (S n) (Some (S n)) true k b s =
  match s with
  | c :: s' => if p c then rep p n (Some n) true k false s' else None
  | [] => None
  end.
Proof.
  destruct s as [|c s]; [reflexivity|]. cbn [rep Nat.pred option_map].
  destruct (p c); [|reflexivity]. now destruct (rep p n (Some n) true k false s).
Qed.

Lemma rep_zero R p (k : bool -> jsstring -> option R) b s :
  rep p 0 (Some 0) true k b s = k b s.
Proof. destruct s; reflexivity. Qed.

(** The input read against a list of sets, one character each: what
    is left, if every character is in its set. *)
Fixpoint take (sets : list (char -> bool)) (s : jsstring) : option jsstring :=
  match sets, s with
  | [], _ => Some s
  | p :: sets', c :: s' => if p c then take sets' s' else None
  | _ :: _, [] => None
  end.

Lemma rep_take R p (k : bool -> jsstring -> option R) : forall n b s,
  rep p n (Some n) true k b s =
  match take (repeat p n) s with
  | Some s' => k (match n with 0 => b | S _ => false end) s'
  | None => None
  end.
Proof.
  induction n as [|n IH]; intros b s.
  - apply rep_zero.
  - rewrite rep_times. cbn [repeat take]. destruct s as [|c s]; [reflexivity|].
    destruct (p c); [|reflexivity]. rewrite IH.
    destruct (take (repeat p n) s); [|reflexivity]. now destruct n.
Qed.

Lemma take_app ps : forall qs s,
  take (ps ++ qs) s = match take ps s with Some s' => take qs s' | None => None end.
Proof.
  induction ps as [|p ps IH]; intros qs s; [reflexivity|].
  cbn [app take]. destruct s as [|c s].
  - reflexivity.
  - destruct (p c); [apply IH | reflexivity].
Qed.

Lemma take_length ps : forall s s', take ps s = Some s' -> length s = length ps + length s'.
Proof.
  induction ps as [|p ps IH]; intros s s' H; cbn [take] in H.
  - now injection H as <-.
  - destruct s as [|c s]; [discriminate|]. destruct (p c); [|discriminate].
    apply IH in H. simpl. lia.
Qed.

(** A greedy repetition without upper bound takes the whole run when
    what follows matches after it. *)
Lemma rep_many0_run R p (k : bool -> jsstring -> option R) r : forall a b rest,
  forallb p a = true ->
  match rest with [] => True | c :: _ => p c = false end ->
  k (match a with [] => b | _ :: _ => false end) rest = Some r ->
  rep p 0 None true k b (a ++ rest) = Some r.
Proof.
  induction a as [|c a IH]; intros b rest Ha Hrest Hk.
  - cbn [app]. destruct rest as [|c rest]; cbn [rep]; [exact Hk|].
    rewrite Hrest. exact Hk.
  - simpl in Ha. apply andb_true_iff in Ha. destruct Ha as [Hc Ha].
    cbn [app rep Nat.pred option_map]. rewrite Hc.
    rewrite (IH false rest Ha Hrest); [reflexivity|]. now destruct a.
Qed.

(** One step of the matcher on a set matched once, and on a repetition. *)
Lemma mh_one p r b s o caps :
  mh (one p :: r) b s o caps =
  match s with
  | c :: s' => if p c then mh r false s' o caps else None
  | [] => None
  end.
Proof. unfold one. cbn [mh]. apply rep_one. Qed.

Lemma mh_rep p lo hi g r b s o caps :
  mh (Rep p lo hi g :: r) b s o caps =
  rep p lo hi g (fun bol' s' => mh r bol' s' o caps) b s.
Proof. reflexivity. Qed.

End MatcherMore.

(** ** stripAnsi *)

Section StripAnsiFacts.
Import JS Setup.

Definition esc : char := 27%N.

(** The three sets of an escape sequence, as the expression has them. *)
Definition parameter : char -> bool :=
  either (range "0" "9") (either (eqc (chr ";")) (eqc (chr "?"))).
Definition intermediate : char -> bool := range " " "/".
Definition final : char -> bool := range "@" "~".

Definition no_escape (s : jsstring) : bool := forallb (fun c => negb (c =? esc)%N) s.

(** An escape sequence: the escape character, an opening bracket,
    parameters, intermediates and one final character. *)
Definition sequence (ps ims : jsstring) (f : char) : jsstring :=
  [esc; chr "["] ++ ps ++ ims ++ [f].

Lemma remove_all_fuel re : forall fuel fuel' b s,
  length s < fuel -> length s < fuel' ->
  remove_all re fuel b s = remove_all re fuel' b s.
Proof.
  induction fuel as [|fuel IH]; intros fuel' b s H H'; [lia|].
  destruct fuel' as [|fuel']; [lia|]. cbn [remove_all].
  destruct (mh re b s [] []) as [[rest caps]|] eqn:E.
  - destruct s as [|c s]; [reflexivity|]. apply mh_length in E. simpl in H, H', E.
    destruct (Nat.eqb_spec (length rest) (length (c :: s))) as [El|El].
    + f_equal. apply IH; lia.
    + simpl in El. apply IH; lia.
  - destruct s as [|c s]; [reflexivity|]. simpl in H, H'. f_equal. apply IH; lia.
Qed.

Lemma mh_ansi b s :
  mh ansi_re b s [] [] =
  match s with
  | c :: s' =>
      if (c =? esc)%N then
        match s' with
        | d :: s'' =>
            if (d =? chr "[")%N then
              mh [ many0 parameter; many0 intermediate; one final ] false s'' [] []
            else None
        | [] => None
        end
      else None
  | [] => None
  end.
Proof.
  unfold ansi_re. rewrite mh_one.
  destruct s as [|c s]; [reflexivity|]. unfold eqc at 1. fold esc.
  destruct (c =? esc)%N; [|reflexivity]. rewrite mh_one.
  destruct s as [|d s]; [reflexivity|]. unfold eqc at 1.
  destruct (d =? chr "[")%N; reflexivity.
Qed.

Lemma remove_all_ansi_bol fuel b b' s :
  remove_all ansi_re fuel b s = remove_all ansi_re fuel b' s.
Proof. destruct fuel; cbn [remove_all]; [reflexivity|]. now rewrite !mh_ansi. Qed.

Lemma remove_all_no_escape : forall fuel b s,
  no_escape s = true -> remove_all ansi_re fuel b s = s.
Proof.
  induction fuel as [|fuel IH]; intros b s H; [reflexivity|].
  cbn [remove_all]. rewrite mh_ansi. destruct s as [|c s]; [reflexivity|].
  simpl in H. apply andb_true_iff in H. destruct H as [Hc H].
  apply negb_true_iff in Hc. rewrite Hc. f_equal. now apply IH.
Qed.

Lemma remove_all_prefix : forall pre fuel b s,
  no_escape pre = true ->
  remove_all ansi_re (length pre + fuel) b (pre ++ s) =
  pre ++ remove_all ansi_re fuel (match pre with [] => b | _ :: _ => false end) s.
Proof.
  induction pre as [|c pre IH]; intros fuel b s H; [reflexivity|].
  simpl in H. apply andb_true_iff in H. destruct H as [Hc H].
  apply negb_true_iff in Hc.
  cbn [length Nat.add app remove_all]. rewrite mh_ansi, Hc. f_equal.
  rewrite (IH fuel false s H). f_equal. destruct pre; [reflexivity|].
  reflexivity.
Qed.

Lemma sets_apart c :
  (intermediate c = true -> parameter c = false) /\
  (final c = true -> parameter c = false) /\
  (final c = true -> intermediate c = false).
Proof.
  unfold parameter, intermediate, final, either, range, eqc.
  change (chr "0") with 48%N. change (chr "9") with 57%N.
  change (chr ";") with 59%N. change (chr "?") with 63%N.
  change (chr " ") with 32%N. change (chr "/") with 47%N.
  change (chr "@") with 64%N. change (chr "~") with 126%N.
  repeat apply conj;
    repeat match goal with
    | |- context [N.leb ?a ?b] => destruct (N.leb_spec a b)
    | |- context [N.eqb ?a ?b] => destruct (N.eqb_spec a b)
    end; cbn [andb orb]; intros; try reflexivity; try discriminate; lia.
Qed.

(** A whole sequence is matched where it starts, and nothing more. *)
Lemma mh_ansi_sequence b ps ims f post :
  forallb parameter ps = true -> forallb intermediate ims = true -> final f = true ->
  mh ansi_re b (sequence ps ims f ++ post) [] [] = Some (post, []).
Proof.
  intros Hps Hims Hf. rewrite mh_ansi. unfold sequence. cbn [app].
  change (esc =? esc)%N with true. change (chr "[" =? chr "[")%N with true. cbn iota.
  unfold many0 at 1. rewrite mh_rep, <- !app_assoc.
  apply rep_many0_run; [exact Hps | |].
  - destruct ims as [|i ims]; cbn [app].
    + exact (proj1 (proj2 (sets_apart f)) Hf).
    + simpl in Hims. apply andb_true_iff in Hims.
      exact (proj1 (sets_apart i) (proj1 Hims)).
  - unfold many0. rewrite mh_rep. apply rep_many0_run; [exact Hims | |].
    + cbn [app]. exact (proj2 (proj2 (sets_apart f)) Hf).
    + cbn [app]. rewrite mh_one. now rewrite Hf.
Qed.

(** X1.  A text without the escape character is left as it is. *)
Theorem stripAnsi_keeps_plain_text (s : jsstring) :
  no_escape s = true -> stripAnsi s = s.
Proof. intros H. unfold stripAnsi, replace_all_empty. now apply remove_all_no_escape. Qed.

Lemma stripAnsi_keeps_plain_text_witness :
  stripAnsi (str "Account ID: 0123") = str "Account ID: 0123".
Proof. apply (stripAnsi_keeps_plain_text (str "Account ID: 0123")). reflexivity. Defined.

Lemma remove_all_sequence fuel b ps ims f post :
  forallb parameter ps = true -> forallb intermediate ims = true -> final f = true ->
  remove_all ansi_re (S fuel) b (sequence ps ims f ++ post) =
  remove_all ansi_re fuel false post.
Proof.
  intros Hps Hims Hf. cbn [remove_all]. rewrite mh_ansi_sequence by assumption.
  unfold sequence. cbn [app].
  destruct (Nat.eqb_spec (length post)
              (length (esc :: chr "[" :: (ps ++ ims ++ [f]) ++ post))) as [E|E];
    [|reflexivity].
  exfalso. cbn [length] in E. rewrite !length_app in E. lia.
Qed.

(** X2.  The first escape sequence of a text is removed whole: what
    stands before it stays, and what follows is stripped in turn. *)
Theorem stripAnsi_removes_sequence (pre ps ims : jsstring) (f : char) (post : jsstring) :
  no_escape pre = true ->
  forallb parameter ps = true -> forallb intermediate ims = true -> final f = true ->
  stripAnsi (pre ++ sequence ps ims f ++ post) = pre ++ stripAnsi post.
Proof.
  intros Hpre Hps Hims Hf. unfold stripAnsi, replace_all_empty.
  set (whole := pre ++ sequence ps ims f ++ post).
  rewrite (remove_all_fuel ansi_re (S (length whole))
             (length pre + S (length (sequence ps ims f ++ post))) true whole).
  - unfold whole. rewrite remove_all_prefix by exact Hpre. f_equal.
    rewrite remove_all_sequence by assumption.
    rewrite (remove_all_ansi_bol _ false true).
    apply remove_all_fuel; [|lia].
    unfold sequence. rewrite !length_app. simpl. lia.
  - lia.
  - unfold whole. rewrite !length_app. lia.
Qed.

Lemma stripAnsi_removes_sequence_witness :
  stripAnsi (str "ok " ++ sequence (str "1;32") [] (chr "m") ++ str "done") =
  str "ok " ++ stripAnsi (str "done").
Proof.
  apply (stripAnsi_removes_sequence (str "ok ") (str "1;32") [] (chr "m") (str "done"));
    reflexivity.
Defined.

End StripAnsiFacts.

(** ** Expressions of counted sets *)

Section CountedFacts.
Import JS Setup.

(** The sets of an expression made of counted repetitions only, one
    per character it takes. *)
Fixpoint sets_of (r : regex) : option (list (char -> bool)) :=
  match r with
  | [] => Some []
  | Rep p lo (Some hi) true :: r' =>
      if (lo =? hi)%nat then option_map (app (repeat p lo)) (sets_of r') else None
  | _ => None
  end.

Lemma mh_counted : forall r sets, sets_of r = Some sets ->
  forall r2 b s o caps,
    mh (r ++ r2) b s o caps =
    match take sets s with
    | Some s' => mh r2 (match sets with [] => b | _ :: _ => false end) s' o caps
    | None => None
    end.
Proof.
  induction r as [|a r IH]; intros sets H r2 b s o caps; cbn [sets_of] in H.
  - injection H as <-. reflexivity.
  - destruct a as [p lo [hi|] [|]| | | |]; try discriminate.
    destruct (Nat.eqb_spec lo hi) as [<-|]; [|discriminate].
    destruct (sets_of r) as [sets'|]; [|discriminate]. injection H as <-.
    cbn [app]. rewrite mh_rep, rep_take, take_app.
    destruct (take (repeat p lo) s) as [s'|]; [|reflexivity].
    rewrite (IH sets' eq_refl).
    destruct (take sets' s'); [|reflexivity].
    destruct lo, sets'; reflexivity.
Qed.

(** A string read against a list of sets, one character each. *)
Fixpoint fits (sets : list (char -> bool)) (s : jsstring) : bool :=
  match sets, s with
  | [], [] => true
  | p :: sets', c :: s' => p c && fits sets' s'
  | _, _ => false
  end.

Lemma fits_take sets : forall s,
  fits sets s = match take sets s with Some [] => true | _ => false end.
Proof.
  induction sets as [|p sets IH]; intros s; destruct s as [|c s]; try reflexivity.
  cbn [fits take]. destruct (p c); [apply IH | reflexivity].
Qed.

Lemma fits_ext ps : forall qs s,
  Forall2 (fun p q => forall c : char, p c = q c) ps qs -> fits ps s = fits qs s.
Proof.
  induction ps as [|p ps IH]; intros qs s H; inversion H as [|? q ? qs' Hpq H']; subst.
  - reflexivity.
  - destruct s as [|c s]; [reflexivity|]. cbn [fits]. now rewrite Hpq, (IH qs' s H').
Qed.

Lemma fits_length sets : forall s, fits sets s = true -> length s = length sets.
Proof.
  induction sets as [|p sets IH]; intros [|c s] H; try discriminate; [reflexivity|].
  cbn [fits] in H. apply andb_true_iff in H. simpl. f_equal. now apply IH.
Qed.

Lemma fits_repeat p n : forall s,
  fits (repeat p n) s = true <-> length s = n /\ forallb p s = true.
Proof.
  induction n as [|n IH]; intros [|c s]; cbn [repeat fits length forallb]; try easy.
  rewrite !andb_true_iff, IH. intuition lia.
Qed.

(** An anchored expression of counted sets accepts the strings that
    fit its sets, and no other. *)
Lemma test_anchored r sets s :
  sets_of r = Some sets -> test (Bol :: r ++ [Eol]) s = fits sets s.
Proof.
  intros H. unfold test, exec. rewrite fits_take.
  assert (Hm : mh (Bol :: r ++ [Eol]) true s [] [] =
               match take sets s with Some [] => Some ([], []) | _ => None end).
  { cbn [mh]. rewrite (mh_counted r sets H). destruct (take sets s) as [[|c s']|]; reflexivity. }
  destruct s as [|c s]; cbn [exec_from]; rewrite Hm.
  - destruct (take sets []) as [[|c s']|]; reflexivity.
  - rewrite exec_from_bol. destruct (take sets (c :: s)) as [[|c' s']|]; reflexivity.
Qed.

End CountedFacts.

(** ** promptForExistingDatabaseDetails *)

Section ExistingDatabaseFacts.
Import JS Setup Run.

Definition dash (c : char) : bool := (c =? 45)%N.

(** A UUID as the prompt accepts it: 8, 4, 4, 4 and 12 hexadecimal
    digits of either case, with dashes between. *)
Definition uuid_sets : list (char -> bool) :=
  repeat hex_digit 8 ++ [dash] ++ repeat hex_digit 4 ++ [dash] ++
  repeat hex_digit 4 ++ [dash] ++ repeat hex_digit 4 ++ [dash] ++ repeat hex_digit 12.

Definition is_uuid (s : jsstring) : bool := fits uuid_sets s.

Lemma hex_hex_digit c : hex c = hex_digit c.
Proof.
  unfold hex, icase, either, range, swapcase, hex_digit.
  change (chr "a") with 97%N. change (chr "f") with 102%N.
  change (chr "0") with 48%N. change (chr "9") with 57%N.
  destruct (N.leb_spec 65 c), (N.leb_spec c 90), (N.leb_spec 97 c), (N.leb_spec c 122);
    cbn [andb]; codes_lia.
Qed.

Lemma dash_i c : icase (eqc (chr "-")) c = dash c.
Proof.
  unfold icase, eqc, swapcase, dash. change (chr "-") with 45%N.
  destruct (N.leb_spec 65 c), (N.leb_spec c 90), (N.leb_spec 97 c), (N.leb_spec c 122);
    cbn [andb]; codes_lia.
Qed.

Lemma Forall2_repeat {A B} (P : A -> B -> Prop) a b n :
  P a b -> Forall2 P (repeat a n) (repeat b n).
Proof. intros H. induction n; simpl; constructor; assumption. Qed.

Lemma uuidPattern_is_uuid s : test uuidPattern s = is_uuid s.
Proof.
  unfold is_uuid.
  set (body := [ times 8 hex ] ++ lit_i "-" ++ [ times 4 hex ] ++ lit_i "-" ++
               [ times 4 hex ] ++ lit_i "-" ++ [ times 4 hex ] ++ lit_i "-" ++
               [ times 12 hex ]).
  change uuidPattern with (Bol :: body ++ [Eol]).
  rewrite (test_anchored body
             (repeat hex 8 ++ [icase (eqc (chr "-"))] ++ repeat hex 4 ++
              [icase (eqc (chr "-"))] ++ repeat hex 4 ++ [icase (eqc (chr "-"))] ++
              repeat hex 4 ++ [icase (eqc (chr "-"))] ++ repeat hex 12) s eq_refl).
  apply fits_ext. unfold uuid_sets.
  repeat (apply Forall2_app;
          [first [apply Forall2_repeat; exact hex_hex_digit
                 | constructor; [exact dash_i | constructor]] |]).
  apply Forall2_repeat. exact hex_hex_digit.
Qed.

Lemma ask_name_nonempty fallbackName : forall lines n rest,
  ask_name fallbackName lines = Some (n, rest) -> n <> [].
Proof.
  induction lines as [|ans lines IH]; intros n rest H; cbn [ask_name] in H; [discriminate|].
  destruct (trim ans) as [|c t].
  - destruct fallbackName as [[|c f]|].
    + eapply IH, H.
    + injection H as <- <-. discriminate.
    + eapply IH, H.
  - injection H as <- <-. discriminate.
Qed.

Lemma ask_uuid_is_uuid : forall lines i rest,
  ask_uuid lines = Some (i, rest) -> is_uuid i = true.
Proof.
  induction lines as [|ans lines IH]; intros i rest H; cbn [ask_uuid] in H; [discriminate|].
  destruct (test uuidPattern (trim ans)) eqn:E.
  - injection H as <- <-. now rewrite <- uuidPattern_is_uuid.
  - eapply IH, H.
Qed.

(** X3.  The details the prompt returns: a name that is not empty and an
    identifier in the form of a UUID. *)
Theorem promptForExistingDatabaseDetails_valid
    (defaultName : option jsstring) (lines : list jsstring)
    (databaseName databaseId : jsstring) (rest : list jsstring) :
  promptForExistingDatabaseDetails defaultName lines =
    Some ((databaseName, databaseId), rest) ->
  databaseName <> [] /\ is_uuid databaseId = true.
Proof.
  unfold promptForExistingDatabaseDetails. intros H.
  destruct (ask_name (option_map trim defaultName) lines) as [[n r1]|] eqn:En; [|discriminate].
  destruct (ask_uuid r1) as [[i r2]|] eqn:Ei; [|discriminate].
  injection H as <- <- <-. split.
  - eapply ask_name_nonempty, En.
  - eapply ask_uuid_is_uuid, Ei.
Qed.

Definition sample_uuid : jsstring := str "123e4567-e89b-12d3-a456-426614174000".

Lemma promptForExistingDatabaseDetails_valid_witness :
  str "shop" <> [] /\ is_uuid sample_uuid = true.
Proof.
  apply (promptForExistingDatabaseDetails_valid (Some (str " shop "))
           [str ""; str "no"; sample_uuid] (str "shop") sample_uuid []).
  vm_compute. reflexivity.
Defined.

Definition blank (line : jsstring) : bool :=
  match trim line with [] => true | _ :: _ => false end.

Lemma ask_name_skips fallbackName : forall blanks lines,
  match fallbackName with Some (_ :: _) => False | _ => True end ->
  forallb blank blanks = true ->
  ask_name fallbackName (blanks ++ lines) = ask_name fallbackName lines.
Proof.
  induction blanks as [|l blanks IH]; intros lines Hf H; [reflexivity|].
  simpl in H. apply andb_true_iff in H. destruct H as [Hl H]. unfold blank in Hl.
  cbn [app ask_name]. destruct (trim l); [|discriminate].
  destruct fallbackName as [[|c f]|]; [| contradiction |]; now apply IH.
Qed.

Lemma ask_uuid_skips : forall wrong lines,
  forallb (fun l => negb (is_uuid (trim l))) wrong = true ->
  ask_uuid (wrong ++ lines) = ask_uuid lines.
Proof.
  induction wrong as [|l wrong IH]; intros lines H; [reflexivity|].
  simpl in H. apply andb_true_iff in H. destruct H as [Hl H].
  apply negb_true_iff in Hl. cbn [app ask_uuid]. rewrite uuidPattern_is_uuid, Hl.
  now apply IH.
Qed.

(** X4.  Without a default name the prompt asks until a name is typed, then
    until a UUID is typed: blank names and malformed identifiers are
    asked again, and the first good answer of each kind is returned,
    trimmed. *)
Theorem promptForExistingDatabaseDetails_first_good_answers
    (blanks : list jsstring) (name : jsstring) (wrong : list jsstring)
    (uuid : jsstring) (rest : list jsstring) :
  forallb blank blanks = true -> blank name = false ->
  forallb (fun l => negb (is_uuid (trim l))) wrong = true -> is_uuid (trim uuid) = true ->
  promptForExistingDatabaseDetails None (blanks ++ name :: wrong ++ uuid :: rest) =
    Some ((trim name, trim uuid), rest).
Proof.
  intros Hb Hn Hw Hu. unfold promptForExistingDatabaseDetails. cbn [option_map].
  rewrite ask_name_skips by (exact I || exact Hb). cbn [ask_name].
  unfold blank in Hn. destruct (trim name) as [|c t] eqn:En; [discriminate|].
  rewrite ask_uuid_skips by exact Hw. cbn [ask_uuid].
  now rewrite uuidPattern_is_uuid, Hu.
Qed.

Lemma promptForExistingDatabaseDetails_first_good_answers_witness :
  promptForExistingDatabaseDetails None
    ([str "  "] ++ str " shop " :: [str "1234"] ++ (sample_uuid ++ str " ") :: [str "DB"]) =
  Some ((trim (str " shop "), trim (sample_uuid ++ str " ")), [str "DB"]).
Proof.
  apply (promptForExistingDatabaseDetails_first_good_answers
           [str "  "] (str " shop ") [str "1234"] (sample_uuid ++ str " ") [str "DB"]);
    vm_compute; reflexivity.
Defined.

End ExistingDatabaseFacts.

(** ** The result of parseD1CreateResult *)

Section CreateResultShape.
Import JS Setup.

(** The set of the quoted identifier: a hexadecimal digit of either
    case, or a dash. *)
Definition hex_or_dash (c : char) : bool := hex_digit c || dash c.

Lemma snippet_class c :
  icase (either (range "0" "9") (either (range "a" "f") (eqc (chr "-")))) c = hex_or_dash c.
Proof.
  unfold icase, either, range, eqc, swapcase, hex_or_dash, hex_digit, dash.
  change (chr "a") with 97%N. change (chr "f") with 102%N.
  change (chr "0") with 48%N. change (chr "9") with 57%N. change (chr "-") with 45%N.
  destruct (N.leb_spec 65 c), (N.leb_spec c 90), (N.leb_spec 97 c), (N.leb_spec c 122);
    cbn [andb]; codes_lia.
Qed.

(** The first group of a match of an expression that ends in one
    group around one repetition. *)
Lemma exec_group pre p lo hi g post s m :
  plain pre = true -> plain post = true ->
  exec (pre ++ Open :: Rep p lo hi g :: Close :: post) s = Some m ->
  exists a, group m 1 = Some a /\ forallb p a = true /\ lo <= length a /\
            match hi with Some h => length a <= h | None => True end.
Proof.
  intros Hpre Hpost H. unfold exec in H. apply exec_from_mh in H.
  destruct H as (b' & s' & rest & H).
  apply mh_plain_prefix in H; [|exact Hpre]. destruct H as (b2 & s2 & H).
  apply mh_group in H; [|exact Hpost]. destruct H as (a & Hg & Ha & Hlo & Hhi).
  exists a. unfold group. rewrite Hg. now repeat apply conj.
Qed.

Lemma take_firstn sets : forall s s2,
  take sets s = Some s2 -> take sets (firstn (length s - length s2) s) = Some [].
Proof.
  induction sets as [|p l IH]; intros s s2 Et; cbn [take] in Et.
  - injection Et as ->. now rewrite Nat.sub_diag.
  - destruct s as [|c s]; [discriminate|]. destruct (p c) eqn:Ec; [|discriminate].
    pose proof (take_length _ _ _ Et) as Hl.
    replace (length (c :: s) - length s2) with (S (length s - length s2))
      by (cbn [length]; lia).
    cbn [firstn take]. rewrite Ec. now apply IH.
Qed.

Lemma snippet_id_group s m :
  exec snippet_id_re s = Some m ->
  exists a, group m 1 = Some a /\ length a = 36 /\ forallb hex_or_dash a = true.
Proof.
  intros H.
  apply (exec_group
           ([ quote ] ++ lit_i "database_id" ++ [ quote; many0 is_space ] ++ lit_i ":" ++
            [ many0 is_space; quote ])
           (icase (either (range "0" "9") (either (range "a" "f") (eqc (chr "-")))))
           36 (Some 36) true [ quote ] s m eq_refl eq_refl) in H.
  destruct H as (a & Hg & Ha & Hlo & Hhi). exists a. repeat apply conj.
  - exact Hg.
  - lia.
  - rewrite <- Ha. apply forallb_ext_eq. intros c. symmetry. apply snippet_class.
Qed.

Lemma uuid_group s m :
  exec uuid_re s = Some m ->
  exists a, group m 1 = Some a /\ is_uuid a = true.
Proof.
  intros H. unfold exec in H. apply exec_from_mh in H.
  destruct H as (b' & s' & rest & H).
  set (body := [ times 8 hex ] ++ lit_i "-" ++ [ times 4 hex ] ++ lit_i "-" ++
               [ times 4 hex ] ++ lit_i "-" ++ [ times 4 hex ] ++ lit_i "-" ++
               [ times 12 hex ]).
  change uuid_re with (Open :: body ++ [Close]) in H. cbn [mh] in H.
  rewrite (mh_counted body
             (repeat hex 8 ++ [icase (eqc (chr "-"))] ++ repeat hex 4 ++
              [icase (eqc (chr "-"))] ++ repeat hex 4 ++ [icase (eqc (chr "-"))] ++
              repeat hex 4 ++ [icase (eqc (chr "-"))] ++ repeat hex 12) eq_refl) in H.
  match type of H with
  | match take ?sets s' with _ => _ end = _ => set (regex_sets := sets) in *
  end.
  destruct (take regex_sets s') as [s2|] eqn:Et; [|discriminate].
  cbn [mh app] in H. injection H as _ Hg.
  exists (firstn (length s' - length s2) s'). split.
  - unfold group. now rewrite <- Hg.
  - unfold is_uuid.
    assert (Hfit : fits regex_sets (firstn (length s' - length s2) s') = true).
    { rewrite fits_take. now rewrite (take_firstn _ _ _ Et). }
    rewrite <- Hfit. symmetry. apply fits_ext. unfold regex_sets, uuid_sets.
    repeat (apply Forall2_app;
            [first [apply Forall2_repeat; exact hex_hex_digit
                   | constructor; [exact dash_i | constructor]] |]).
    apply Forall2_repeat. exact hex_hex_digit.
Qed.

Lemma plain_lit_i keyword : plain (lit_i keyword) = true.
Proof. unfold lit_i. induction (str keyword) as [|c l IH]; [reflexivity | exact IH]. Qed.

Lemma name_group_nonempty keyword s m :
  exec (name_after keyword) s = Some m -> exists c a, group m 1 = Some (c :: a).
Proof.
  intros H.
  assert (E : name_after keyword =
              (lit_i keyword ++ lit_i " " ++ [ maybe any_quote ]) ++
              Open :: Rep (icase (either word (eqc (chr "-")))) 1 None true :: Close ::
              [ maybe any_quote ]).
  { unfold name_after. now rewrite <- !app_assoc. }
  rewrite E in H. clear E.
  apply (exec_group (lit_i keyword ++ lit_i " " ++ [ maybe any_quote ])
           (icase (either word (eqc (chr "-")))) 1 None true [ maybe any_quote ] s m) in H.
  - destruct H as ([|c a] & Hg & _ & Hlo & _); [simpl in Hlo; lia|]. now exists c, a.
  - unfold plain. rewrite !forallb_app. fold (plain (lit_i keyword)).
    now rewrite plain_lit_i.
  - reflexivity.
Qed.

Lemma snippet_name_group_nonempty s m :
  exec snippet_name_re s = Some m -> exists c a, group m 1 = Some (c :: a).
Proof.
  intros H.
  apply (exec_group
           ([ quote ] ++ lit_i "database_name" ++ [ quote; many0 is_space ] ++ lit_i ":" ++
            [ many0 is_space; quote ])
           (icase (except (eqc 34%N))) 1 None true [ quote ] s m eq_refl eq_refl) in H.
  destruct H as ([|c a] & Hg & _ & Hlo & _); [simpl in Hlo; lia|]. now exists c, a.
Qed.

Lemma group_or_name m fallbackName :
  match m with
  | Some r => exists c a, group r 1 = Some (c :: a)
  | None => True
  end ->
  fallbackName <> [] -> group_or m 1 fallbackName <> [].
Proof.
  intros H Hf. unfold group_or. destruct m as [r|]; [|exact Hf].
  destruct H as (c & a & ->). discriminate.
Qed.

Lemma fits_forallb (q : char -> bool) sets : forall s,
  (forall p c, In p sets -> p c = true -> q c = true) ->
  fits sets s = true -> forallb q s = true.
Proof.
  induction sets as [|p sets IH]; intros [|c s] Hq H; try discriminate; [reflexivity|].
  cbn [fits] in H. apply andb_true_iff in H. destruct H as [Hc H]. cbn [forallb].
  rewrite (Hq p c (or_introl eq_refl) Hc). apply IH; [|exact H].
  intros p' c' Hin. apply Hq. now right.
Qed.

Lemma is_uuid_shape a :
  is_uuid a = true -> length a = 36 /\ forallb hex_or_dash a = true.
Proof.
  intros H. split.
  - apply fits_length in H. exact H.
  - apply (fits_forallb hex_or_dash uuid_sets a); [|exact H].
    intros p c Hin Hp. unfold hex_or_dash.
    unfold uuid_sets in Hin. rewrite !in_app_iff in Hin.
    repeat match goal with
    | Hin : _ \/ _ |- _ => destruct Hin as [Hin|Hin]
    | Hin : In _ (repeat _ _) |- _ => apply repeat_spec in Hin; subst p
    | Hin : In _ [_] |- _ => destruct Hin as [<-|[]]
    end; rewrite Hp; auto using orb_true_r.
Qed.

Lemma parseD1CreateResult_shape (raw fallbackName : jsstring) (i n : json) :
  parseD1CreateResult raw fallbackName = Normal (Some (i, n)) ->
  truthy (Some i) = true /\
  (fallbackName <> [] -> truthy (Some n) = true) /\
  ((forall fields, parseJsonFromOutput (stripAnsi raw) <> Normal (JObject fields)) ->
   exists g t, i = JString g /\ n = JString t /\
               length g = 36 /\ forallb hex_or_dash g = true).
Proof.
  unfold parseD1CreateResult. intros H.
  destruct (parseJsonFromOutput_normal (stripAnsi raw)) as [data Hdata].
  rewrite Hdata in *. cbn [bind] in H.
  assert (Htext : forall g t : jsstring,
            i = JString g -> n = JString t ->
            length g = 36 -> forallb hex_or_dash g = true ->
            (fallbackName <> [] -> t <> []) ->
            truthy (Some i) = true /\
            (fallbackName <> [] -> truthy (Some n) = true) /\
            ((forall fields, Normal data <> Normal (JObject fields)) ->
             exists g t, i = JString g /\ n = JString t /\
                         length g = 36 /\ forallb hex_or_dash g = true)).
  { intros g t -> -> Hl Hg Ht. repeat apply conj.
    - destruct g; [discriminate | reflexivity].
    - intros Hf. specialize (Ht Hf). destruct t; [contradiction | reflexivity].
    - intros _. now exists g, t. }
  match type of H with
  | match ?fj with _ => _ end = _ => destruct fj as [[i0 n0]|] eqn:Ej
  end.
  - injection H as -> ->.
    destruct (truthy (Some data)) eqn:Etd; [|discriminate].
    match type of Ej with
    | match ?a with _ => _ end = _ => destruct a as [i1|] eqn:Ea; [|discriminate]
    end.
    match type of Ej with
    | match ?b with _ => _ end = _ => destruct b as [n1|] eqn:Eb; [|discriminate]
    end.
    destruct (truthy (Some i1) && truthy (Some n1)) eqn:Et; [|discriminate].
    injection Ej as -> ->. apply andb_true_iff in Et. destruct Et as [Hi Hn].
    repeat apply conj; [exact Hi | intros _; exact Hn |].
    intros Hno. exfalso.
    destruct (parseJsonFromOutput_object _ _ Hdata) as [->|[fields ->]];
      [discriminate | exact (Hno fields eq_refl)].
  - clear Ej. destruct (exec snippet_id_re (stripAnsi raw)) as [m|] eqn:Es.
    + injection H as <- <-.
      destruct (snippet_id_group _ _ Es) as (a & Hg & Hl & Ha).
      apply (Htext (group_or (Some m) 1 [])
                   (group_or (exec snippet_name_re (stripAnsi raw)) 1 fallbackName));
        try reflexivity; unfold group_or at 1; rewrite ?Hg; try assumption.
      apply group_or_name.
      destruct (exec snippet_name_re (stripAnsi raw)) eqn:En; [|exact I].
      eapply snippet_name_group_nonempty, En.
    + destruct (exec uuid_re (stripAnsi raw)) as [m|] eqn:Eu; [|discriminate].
      injection H as <- <-.
      destruct (uuid_group _ _ Eu) as (a & Hg & Ha).
      apply is_uuid_shape in Ha. destruct Ha as [Hl Ha].
      apply (Htext (group_or (Some m) 1 [])
                   (group_or (match exec db_name_re (stripAnsi raw) with
                              | Some m => Some m
                              | None => exec database_name_re (stripAnsi raw)
                              end) 1 fallbackName));
        try reflexivity; unfold group_or at 1; rewrite ?Hg; try assumption.
      apply group_or_name.
      destruct (exec db_name_re (stripAnsi raw)) eqn:En.
      * eapply name_group_nonempty, En.
      * destruct (exec database_name_re (stripAnsi raw)) eqn:En2; [|exact I].
        eapply name_group_nonempty, En2.
Qed.

(** X5.  The identifier and the name that [parseD1CreateResult]
    returns pass the test of truth, the name when the fallback name
    is not empty.  They need not be strings, nor print as text that is
    not empty: JSON whose uuid is the empty array gives that array as
    the identifier.  When the text holds no JSON object the identifier
    is a string of 36 hexadecimal digits and dashes, and the name a
    string, not empty when the fallback name is not. *)
Theorem parseD1CreateResult_result_is_truthy (raw fallbackName : jsstring) (i n : json) :
  parseD1CreateResult raw fallbackName = Normal (Some (i, n)) ->
  truthy (Some i) = true /\
  (fallbackName <> [] -> truthy (Some n) = true) /\
  ((forall fields, parseJsonFromOutput (stripAnsi raw) <> Normal (JObject fields)) ->
   exists g t, i = JString g /\ n = JString t /\
               length g = 36 /\ forallb hex_or_dash g = true /\
               (fallbackName <> [] -> t <> [])) /\
  parseD1CreateResult (dq "{'uuid': [], 'name': 'shop'}") fallbackName =
    Normal (Some (JArray [], JString (str "shop"))).
Proof.
  intros H. destruct (parseD1CreateResult_shape raw fallbackName i n H) as (Hi & Hn & Hg).
  split; [exact Hi|]. split; [exact Hn|]. split.
  - intros Hno. destruct (Hg Hno) as (g & t & -> & -> & Hl & Hh).
    exists g, t. repeat split; try assumption.
    intros Hf ->. specialize (Hn Hf). discriminate.
  - vm_compute. reflexivity.
Qed.

Lemma parseD1CreateResult_result_is_truthy_witness :
  truthy (Some (JString sample_uuid)) = true /\
  truthy (Some (JString (str "shop"))) = true /\
  exists g t, JString sample_uuid = JString g /\ JString (str "shop") = JString t /\
              length g = 36 /\ forallb hex_or_dash g = true /\ t <> [].
Proof.
  destruct (parseD1CreateResult_result_is_truthy
              (str "Created DB shop " ++ sample_uuid) (str "other")
              (JString sample_uuid) (JString (str "shop"))) as (Hi & Hn & Hg & _).
  - vm_compute. reflexivity.
  - split; [exact Hi|]. split; [apply Hn; discriminate|].
    destruct Hg as (g & t & E1 & E2 & Hl & Hh & Ht).
    + intros fields. vm_compute. discriminate.
    + exists g, t. repeat split; try assumption. apply Ht. discriminate.
Defined.

End CreateResultShape.

(** ** The texts that the expressions of parseD1CreateResult match *)

Section OccurrenceFacts.
Import JS Setup.

(** A text starts with an occurrence of a pattern that captures [g]:
    [P s g].  The first occurrence in [clean] is the one that starts
    leftmost. *)
Definition leftmost (P : jsstring -> jsstring -> Prop) (clean g : jsstring) : Prop :=
  exists pre s,
    clean = pre ++ s /\ P s g /\
    forall pre' s' g', clean = pre' ++ s' -> length pre' < length pre -> ~ P s' g'.

Definition nowhere (P : jsstring -> jsstring -> Prop) (clean : jsstring) : Prop :=
  forall pre s g, clean = pre ++ s -> ~ P s g.

(** An expression with one group matches the texts of [P]. *)
Definition accepts (re : regex) (P : jsstring -> jsstring -> Prop) : Prop :=
  (forall b s g, P s g -> exists rest, mh re b s [] [] = Some (rest, [g])) /\
  (forall b s, mh re b s [] [] <> None -> exists g, P s g).

Lemma exec_from_first re P : accepts re P ->
  forall pre s g b i,
    P s g ->
    (forall pre' s' g', pre ++ s = pre' ++ s' -> length pre' < length pre -> ~ P s' g') ->
    exists m, exec_from re b (pre ++ s) i = Some m /\ groups m = [g].
Proof.
  intros [Hc Hs]. induction pre as [|c pre IH]; intros s g b i HP Hfirst.
  - destruct (Hc b s g HP) as [rest Hm]. cbn [app].
    destruct s as [|c s]; cbn [exec_from]; rewrite Hm; eexists; split; reflexivity.
  - cbn [app exec_from].
    destruct (mh re b (c :: pre ++ s) [] []) as [[rest caps]|] eqn:Em.
    + destruct (Hs b (c :: pre ++ s)) as [g' HP']; [congruence|].
      destruct (Hfirst [] (c :: pre ++ s) g' eq_refl); [cbn [length]; lia | exact HP'].
    + apply IH; [exact HP|]. intros pre' s' g' E Hl.
      apply (Hfirst (c :: pre') s' g'); [cbn [app]; now rewrite E | cbn [length]; lia].
Qed.

Lemma exec_from_absent re P : accepts re P ->
  forall clean b i,
    (forall pre s g, clean = pre ++ s -> ~ P s g) -> exec_from re b clean i = None.
Proof.
  intros [_ Hs]. induction clean as [|c clean IH]; intros b i Hno; cbn [exec_from].
  - destruct (mh re b [] [] []) as [[rest caps]|] eqn:Em; [|reflexivity].
    destruct (Hs b []) as [g HP]; [congruence|]. now destruct (Hno [] [] g eq_refl).
  - destruct (mh re b (c :: clean) [] []) as [[rest caps]|] eqn:Em.
    + destruct (Hs b (c :: clean)) as [g HP]; [congruence|].
      now destruct (Hno [] (c :: clean) g eq_refl).
    + apply IH. intros pre s g E. apply (Hno (c :: pre) s g). cbn [app]. now rewrite E.
Qed.

(** The first group of the search, or the fallback. *)
Lemma group_or_first re P clean g fallback : accepts re P ->
  leftmost P clean g -> group_or (exec re clean) 1 fallback = g.
Proof.
  intros Ha (pre & s & -> & HP & Hfirst).
  destruct (exec_from_first re P Ha pre s g true 0 HP Hfirst) as (m & Hm & Hg).
  unfold exec. rewrite Hm. unfold group_or, group. now rewrite Hg.
Qed.

Lemma exec_first re P clean g : accepts re P ->
  leftmost P clean g -> exists m, exec re clean = Some m /\ group m 1 = Some g.
Proof.
  intros Ha (pre & s & -> & HP & Hfirst).
  destruct (exec_from_first re P Ha pre s g true 0 HP Hfirst) as (m & Hm & Hg).
  exists m. split; [exact Hm|]. unfold group. now rewrite Hg.
Qed.

Lemma exec_absent re P clean : accepts re P ->
  nowhere P clean -> exec re clean = None.
Proof. intros Ha Hno. unfold exec. now apply (exec_from_absent re P Ha). Qed.

(** A greedy repetition without upper bound takes the whole run when
    what follows matches after it. *)
Lemma rep_run R p (k : bool -> jsstring -> option R) r : forall a lo b rest,
  lo <= length a ->
  forallb p a = true ->
  match rest with [] => True | c :: _ => p c = false end ->
  k (match a with [] => b | _ :: _ => false end) rest = Some r ->
  rep p lo None true k b (a ++ rest) = Some r.
Proof.
  induction a as [|c a IH]; intros lo b rest Hlo Ha Hrest Hk.
  - cbn [length] in Hlo. assert (lo = 0) as -> by lia.
    now apply (rep_many0_run R p k r [] b rest).
  - simpl in Ha. apply andb_true_iff in Ha. destruct Ha as [Hc Ha].
    cbn [app rep option_map]. rewrite Hc.
    rewrite (IH (pred lo) false rest); [reflexivity | cbn [length] in Hlo; lia | exact Ha
                                       | exact Hrest | now destruct a].
Qed.

(** An optional character before a continuation that takes any text. *)
Lemma rep_maybe R p (k : bool -> jsstring -> option R) b s :
  (forall b' s', k b' s' <> None) ->
  rep p 0 (Some 1) true k b s =
  match s with
  | c :: s' => if p c then k false s' else k b s
  | [] => k b s
  end.
Proof.
  intros Hk. destruct s as [|c s]; [reflexivity|]. cbn [rep option_map Nat.pred].
  destruct (p c); [|reflexivity]. rewrite rep_zero.
  destruct (k false s) eqn:E; [reflexivity|]. now destruct (Hk false s).
Qed.

Lemma take_fits sets : forall a rest, fits sets a = true -> take sets (a ++ rest) = Some rest.
Proof.
  induction sets as [|p sets IH]; intros [|c a] rest H; try discriminate; [reflexivity|].
  cbn [fits] in H. apply andb_true_iff in H. destruct H as [Hc H].
  cbn [app take]. rewrite Hc. now apply IH.
Qed.

Lemma take_split sets : forall s rest,
  take sets s = Some rest -> exists a, s = a ++ rest /\ fits sets a = true.
Proof.
  induction sets as [|p sets IH]; intros s rest H; cbn [take] in H.
  - injection H as <-. now exists [].
  - destruct s as [|c s]; [discriminate|]. destruct (p c) eqn:Ec; [|discriminate].
    destruct (IH s rest H) as (a & -> & Ha). exists (c :: a). split; [reflexivity|].
    cbn [fits]. now rewrite Ec.
Qed.

Lemma fits_app ps : forall qs a b,
  fits ps a = true -> fits qs b = true -> fits (ps ++ qs) (a ++ b) = true.
Proof.
  induction ps as [|p ps IH]; intros qs [|c a] b Ha Hb; try discriminate; [exact Hb|].
  cbn [fits] in Ha. apply andb_true_iff in Ha. destruct Ha as [Hc Ha].
  cbn [app fits]. rewrite Hc. now apply IH.
Qed.

Lemma fits_split ps : forall qs s,
  fits (ps ++ qs) s = true ->
  exists a b, s = a ++ b /\ fits ps a = true /\ fits qs b = true.
Proof.
  induction ps as [|p ps IH]; intros qs s H.
  - now exists [], s.
  - destruct s as [|c s]; [discriminate|]. cbn [app fits] in H.
    apply andb_true_iff in H. destruct H as [Hc H].
    destruct (IH qs s H) as (a & b & -> & Ha & Hb). exists (c :: a), b.
    repeat split; [|exact Hb]. cbn [fits]. now rewrite Hc.
Qed.

(** The longest run of a set at the start of a text. *)
Lemma run_split p (s : jsstring) :
  exists a rest, s = a ++ rest /\ forallb p a = true /\
                 match rest with [] => True | c :: _ => p c = false end.
Proof.
  induction s as [|c s (a & rest & -> & Ha & Hrest)].
  - now exists [], [].
  - destruct (p c) eqn:Ec.
    + exists (c :: a), rest. repeat split; [|exact Hrest]. cbn [forallb]. now rewrite Ec.
    + exists [], (c :: a ++ rest). now repeat split.
Qed.

(** A word under the flag [i]: each character is the letter of the
    word or its other case. *)
Definition letter_of (w c : char) : bool := ((c =? w) || (c =? swapcase w))%N.

Definition same_word (text : jsstring) (word : string) : bool :=
  fits (map letter_of (str word)) text.

Lemma icase_letter w c : icase (eqc w) c = letter_of w c.
Proof.
  unfold icase, eqc, letter_of, swapcase.
  destruct (N.leb_spec 65 c), (N.leb_spec c 90), (N.leb_spec 97 c), (N.leb_spec c 122),
           (N.leb_spec 65 w), (N.leb_spec w 90), (N.leb_spec 97 w), (N.leb_spec w 122);
    cbn [andb]; codes_lia.
Qed.

Lemma sets_of_literal cs :
  sets_of (map (fun c => one (icase (eqc c))) cs) = Some (map (fun c => icase (eqc c)) cs).
Proof.
  induction cs as [|c cs IH]; [reflexivity|]. cbn [map sets_of one Nat.eqb].
  rewrite IH. reflexivity.
Qed.

(** A literal word takes a text that is the same word. *)
Lemma mh_word w r b s o caps :
  str w <> [] ->
  mh (lit_i w ++ r) b s o caps =
  match take (map letter_of (str w)) s with
  | Some s' => mh r false s' o caps
  | None => None
  end.
Proof.
  intros Hw. unfold lit_i. rewrite (mh_counted _ _ (sets_of_literal (str w))).
  assert (Ht : forall cs (t : jsstring),
            take (map (fun c => icase (eqc c)) cs) t = take (map letter_of cs) t).
  { induction cs as [|c cs IH]; intros t; [reflexivity|]. cbn [map take].
    destruct t as [|d t]; [reflexivity|]. now rewrite icase_letter, IH. }
  rewrite Ht. destruct (take (map letter_of (str w)) s); [|reflexivity].
  destruct (str w); [contradiction | reflexivity].
Qed.

Lemma take_word w key rest :
  same_word key w = true -> take (map letter_of (str w)) (key ++ rest) = Some rest.
Proof. apply take_fits. Qed.

Lemma take_word_split w s rest :
  take (map letter_of (str w)) s = Some rest ->
  exists key, s = key ++ rest /\ same_word key w = true.
Proof. apply take_split. Qed.

End OccurrenceFacts.

(** ** The quoted pairs and the phrases of the output of wrangler *)

Section CreateResultText.
Import JS Setup.

(** A quoted key, a colon with white space around it at will, and a
    quoted value [g] that [value_ok] accepts; the key in either case. *)
Definition quoted_pair (key : string) (value_ok : jsstring -> bool) (s g : jsstring) : Prop :=
  exists k ws1 ws2 rest,
    s = [34%N] ++ k ++ [34%N] ++ ws1 ++ [58%N] ++ ws2 ++ [34%N] ++ g ++ [34%N] ++ rest /\
    same_word k key = true /\
    forallb is_space ws1 = true /\ forallb is_space ws2 = true /\
    value_ok g = true.

(** 36 characters, each a hexadecimal digit or a dash. *)
Definition id_text (g : jsstring) : bool :=
  (length g =? 36)%nat && forallb hex_or_dash g.

(** At least one character, none of them the double quote. *)
Definition name_text (t : jsstring) : bool :=
  nonempty t && forallb (fun c : char => negb (c =? 34)%N) t.

Definition id_snippet : jsstring -> jsstring -> Prop := quoted_pair "database_id" id_text.
Definition name_snippet : jsstring -> jsstring -> Prop := quoted_pair "database_name" name_text.

(** A text that starts with a UUID. *)
Definition uuid_text (s g : jsstring) : Prop :=
  exists rest, s = g ++ rest /\ is_uuid g = true.

(** [\w] or the dash. *)
Definition word_or_dash (c : char) : bool := word c || dash c.

(** The keyword in either case, a space, a quote of either kind or
    none, and the longest run [t] of [\w] and dashes. *)
Definition name_phrase (keyword : string) (s t : jsstring) : Prop :=
  exists k q rest,
    s = k ++ [32%N] ++ q ++ t ++ rest /\
    same_word k keyword = true /\
    (q = [] \/ q = [34%N] \/ q = [39%N]) /\
    t <> [] /\ forallb word_or_dash t = true /\
    match rest with [] => True | c :: _ => word_or_dash c = false end.

(** The expression of a quoted pair up to the quote that opens the
    value. *)
Definition pair_prefix (key : string) : regex :=
  [ quote ] ++ lit_i key ++ [ quote; many0 is_space ] ++ lit_i ":" ++
  [ many0 is_space; quote ].

Lemma firstn_prefix (a b : jsstring) : firstn (length (a ++ b) - length b) (a ++ b) = a.
Proof.
  rewrite length_app. replace (length a + length b - length b) with (length a) by lia.
  apply firstn_exact.
Qed.

Lemma letter_exact w c : swapcase w = w -> letter_of w c = true -> c = w.
Proof.
  unfold letter_of. intros ->. rewrite orb_diag. apply N.eqb_eq.
Qed.

Lemma pair_prefix_matches key r k ws1 ws2 s' b o caps res :
  str key <> [] ->
  same_word k key = true ->
  forallb is_space ws1 = true -> forallb is_space ws2 = true ->
  mh r false s' o caps = Some res ->
  mh (pair_prefix key ++ r) b
     ([34%N] ++ k ++ [34%N] ++ ws1 ++ [58%N] ++ ws2 ++ [34%N] ++ s') o caps = Some res.
Proof.
  intros Hkey Hk H1 H2 Hr. unfold pair_prefix. cbn [app]. unfold quote at 1.
  rewrite mh_one. change (eqc 34%N 34%N) with true. cbv iota.
  rewrite <- !app_assoc. rewrite mh_word by exact Hkey.
  rewrite (take_word key k _ Hk). cbn [app].
  unfold quote at 1. rewrite mh_one. change (eqc 34%N 34%N) with true. cbv iota.
  unfold many0 at 1. rewrite mh_rep. apply rep_many0_run; [exact H1 | reflexivity |].
  change (lit_i ":") with [ one (icase (eqc 58%N)) ]. cbn [app].
  rewrite mh_one. change (icase (eqc 58%N) 58%N) with true. cbv iota.
  unfold many0 at 1. rewrite mh_rep. apply rep_many0_run; [exact H2 | reflexivity |].
  unfold quote at 1. rewrite mh_one. change (eqc 34%N 34%N) with true. cbv iota.
  exact Hr.
Qed.

Lemma pair_prefix_inv key r b s o caps res :
  str key <> [] ->
  mh (pair_prefix key ++ r) b s o caps = Some res ->
  exists k ws1 ws2 s' b',
    s = [34%N] ++ k ++ [34%N] ++ ws1 ++ [58%N] ++ ws2 ++ [34%N] ++ s' /\
    same_word k key = true /\
    forallb is_space ws1 = true /\ forallb is_space ws2 = true /\
    mh r b' s' o caps = Some res.
Proof.
  intros Hkey H. unfold pair_prefix in H. cbn [app] in H. unfold quote at 1 in H.
  rewrite mh_one in H. destruct s as [|c s]; [discriminate|].
  destruct (eqc 34%N c) eqn:Ec; [|discriminate]. apply N.eqb_eq in Ec. subst c.
  rewrite <- !app_assoc in H. rewrite mh_word in H by exact Hkey.
  destruct (take (map letter_of (str key)) s) as [s1|] eqn:Et; [|discriminate].
  apply take_word_split in Et. destruct Et as (k & -> & Hk).
  cbn [app] in H. unfold quote at 1 in H. rewrite mh_one in H.
  destruct s1 as [|c s1]; [discriminate|].
  destruct (eqc 34%N c) eqn:Ec; [|discriminate]. apply N.eqb_eq in Ec. subst c.
  unfold many0 at 1 in H. rewrite mh_rep in H. apply rep_sound in H.
  destruct H as (ws1 & s2 & -> & H1 & _ & _ & H).
  change (lit_i ":") with [ one (icase (eqc 58%N)) ] in H. cbn [app] in H.
  rewrite mh_one in H. destruct s2 as [|c s2]; [discriminate|].
  destruct (icase (eqc 58%N) c) eqn:Ec; [|discriminate].
  rewrite icase_letter in Ec. apply letter_exact in Ec; [|reflexivity]. subst c.
  unfold many0 at 1 in H. rewrite mh_rep in H. apply rep_sound in H.
  destruct H as (ws2 & s3 & -> & H2 & _ & _ & H).
  unfold quote at 1 in H. rewrite mh_one in H. destruct s3 as [|c s3]; [discriminate|].
  destruct (eqc 34%N c) eqn:Ec; [|discriminate]. apply N.eqb_eq in Ec. subst c.
  exists k, ws1, ws2, s3. eexists. repeat split; try assumption. exact H.
Qed.

Lemma mh_open r b s o caps : mh (Open :: r) b s o caps = mh r b s s caps.
Proof. reflexivity. Qed.

Lemma mh_close r b s o caps :
  mh (Close :: r) b s o caps = mh r b s o (caps ++ [firstn (length o - length s) o]).
Proof. reflexivity. Qed.

Lemma name_class c : icase (except (eqc 34%N)) c = negb (c =? 34)%N.
Proof.
  unfold icase, except, eqc, swapcase.
  destruct (N.leb_spec 65 c), (N.leb_spec c 90), (N.leb_spec 97 c), (N.leb_spec c 122);
    cbn [andb]; codes_lia.
Qed.

Lemma snippet_id_re_pair :
  snippet_id_re =
  pair_prefix "database_id" ++
  [ Open;
    times 36 (icase (either (range "0" "9") (either (range "a" "f") (eqc (chr "-")))));
    Close; quote ].
Proof. reflexivity. Qed.

Lemma snippet_name_re_pair :
  snippet_name_re =
  pair_prefix "database_name" ++ [ Open; many1 (icase (except (eqc 34%N))); Close; quote ].
Proof. reflexivity. Qed.

Lemma accepts_id_snippet : accepts snippet_id_re id_snippet.
Proof.
  rewrite snippet_id_re_pair. split.
  - intros b s g (k & ws1 & ws2 & rest & -> & Hk & H1 & H2 & Hg).
    exists rest. apply pair_prefix_matches; try assumption; [discriminate|].
    unfold id_text in Hg. apply andb_true_iff in Hg. destruct Hg as [Hl Hg].
    apply Nat.eqb_eq in Hl.
    rewrite mh_open. unfold times. rewrite mh_rep, rep_take.
    rewrite take_fits.
    + rewrite mh_close. unfold quote. cbn [app]. rewrite mh_one.
      change (eqc 34%N 34%N) with true. cbv iota. cbn [mh app].
      now rewrite (firstn_prefix g (34%N :: rest)).
    + apply fits_repeat. split; [exact Hl|]. 
      rewrite (forallb_ext_eq _ hex_or_dash g snippet_class). exact Hg.
  - intros b s H. destruct (mh _ b s [] []) as [res|] eqn:E; [clear H | congruence].
    apply pair_prefix_inv in E; [|discriminate].
    destruct E as (k & ws1 & ws2 & s' & b' & -> & Hk & H1 & H2 & E).
    rewrite mh_open in E. unfold times in E. rewrite mh_rep, rep_take in E.
    destruct (take _ s') as [s2|] eqn:Et; [|discriminate].
    apply take_split in Et. destruct Et as (g & -> & Hg).
    apply fits_repeat in Hg. destruct Hg as [Hl Hg].
    rewrite mh_close in E. unfold quote in E. rewrite mh_one in E.
    destruct s2 as [|c rest]; [discriminate|].
    destruct (eqc 34%N c) eqn:Ec; [|discriminate]. apply N.eqb_eq in Ec. subst c.
    exists g, k, ws1, ws2, rest. repeat split; try assumption.
    unfold id_text. rewrite Hl. cbn [Nat.eqb andb]. 
    rewrite <- (forallb_ext_eq _ hex_or_dash g snippet_class). exact Hg.
Qed.

Lemma nonempty_length (t : jsstring) : nonempty t = true <-> 1 <= length t.
Proof. destruct t; cbn [nonempty length]; split; intros; try discriminate; lia. Qed.

Lemma accepts_name_snippet : accepts snippet_name_re name_snippet.
Proof.
  rewrite snippet_name_re_pair. split.
  - intros b s g (k & ws1 & ws2 & rest & -> & Hk & H1 & H2 & Hg).
    exists rest. apply pair_prefix_matches; try assumption; [discriminate|].
    unfold name_text in Hg. apply andb_true_iff in Hg. destruct Hg as [Hl Hg].
    apply nonempty_length in Hl.
    rewrite mh_open. unfold many1. rewrite mh_rep. cbn [app].
    apply rep_run; [exact Hl | | reflexivity |].
    + rewrite (forallb_ext_eq _ (fun c : char => negb (c =? 34)%N) g name_class). exact Hg.
    + rewrite mh_close. unfold quote. rewrite mh_one.
      change (eqc 34%N 34%N) with true. cbv iota. cbn [mh app].
      now rewrite (firstn_prefix g (34%N :: rest)).
  - intros b s H. destruct (mh _ b s [] []) as [res|] eqn:E; [clear H | congruence].
    apply pair_prefix_inv in E; [|discriminate].
    destruct E as (k & ws1 & ws2 & s' & b' & -> & Hk & H1 & H2 & E).
    rewrite mh_open in E. unfold many1 in E. rewrite mh_rep in E. apply rep_sound in E.
    destruct E as (g & s2 & -> & Hg & Hl & _ & E).
    rewrite mh_close in E. unfold quote in E. rewrite mh_one in E.
    destruct s2 as [|c rest]; [discriminate|].
    destruct (eqc 34%N c) eqn:Ec; [|discriminate]. apply N.eqb_eq in Ec. subst c.
    exists g, k, ws1, ws2, rest. repeat split; try assumption.
    unfold name_text. apply andb_true_iff. split; [now apply nonempty_length|].
    rewrite <- (forallb_ext_eq _ (fun c : char => negb (c =? 34)%N) g name_class). exact Hg.
Qed.

Lemma take_ext ps : forall qs s,
  Forall2 (fun p q => forall c : char, p c = q c) ps qs -> take ps s = take qs s.
Proof.
  induction ps as [|p ps IH]; intros qs s H; inversion H as [|? q ? qs' Hpq H']; subst.
  - reflexivity.
  - destruct s as [|c s]; [reflexivity|]. cbn [take]. now rewrite Hpq, (IH qs' s H').
Qed.

(** The expression of the UUID reads the text against the sets of a
    UUID. *)
Lemma mh_uuid_re b s :
  mh uuid_re b s [] [] =
  match take uuid_sets s with
  | Some rest => Some (rest, [firstn (length s - length rest) s])
  | None => None
  end.
Proof.
  set (body := [ times 8 hex ] ++ lit_i "-" ++ [ times 4 hex ] ++ lit_i "-" ++
               [ times 4 hex ] ++ lit_i "-" ++ [ times 4 hex ] ++ lit_i "-" ++
               [ times 12 hex ]).
  change uuid_re with (Open :: body ++ [Close]). rewrite mh_open.
  rewrite (mh_counted body
             (repeat hex 8 ++ [icase (eqc (chr "-"))] ++ repeat hex 4 ++
              [icase (eqc (chr "-"))] ++ repeat hex 4 ++ [icase (eqc (chr "-"))] ++
              repeat hex 4 ++ [icase (eqc (chr "-"))] ++ repeat hex 12) eq_refl).
  match goal with
  | |- match take ?sets s with _ => _ end = _ =>
      replace (take sets s) with (take uuid_sets s)
  end.
  - destruct (take uuid_sets s); reflexivity.
  - symmetry. apply take_ext. unfold uuid_sets.
    repeat (apply Forall2_app;
            [first [apply Forall2_repeat; exact hex_hex_digit
                   | constructor; [exact dash_i | constructor]] |]).
    apply Forall2_repeat. exact hex_hex_digit.
Qed.

Lemma accepts_uuid_text : accepts uuid_re uuid_text.
Proof.
  split.
  - intros b s g (rest & -> & Hg). exists rest. rewrite mh_uuid_re.
    unfold is_uuid in Hg. rewrite (take_fits uuid_sets g rest Hg).
    now rewrite firstn_prefix.
  - intros b s H. rewrite mh_uuid_re in H.
    destruct (take uuid_sets s) as [rest|] eqn:Et; [|congruence].
    apply take_split in Et. destruct Et as (g & -> & Hg). exists g, rest. now split.
Qed.

Lemma word_class c : icase (either word (eqc (chr "-"))) c = word_or_dash c.
Proof.
  unfold word_or_dash, icase, word, either, range, eqc, swapcase, dash.
  change (chr "a") with 97%N. change (chr "z") with 122%N.
  change (chr "A") with 65%N. change (chr "Z") with 90%N.
  change (chr "0") with 48%N. change (chr "9") with 57%N.
  change (chr "_") with 95%N. change (chr "-") with 45%N.
  destruct (N.leb_spec 65 c), (N.leb_spec c 90), (N.leb_spec 97 c), (N.leb_spec c 122);
    cbn [andb orb]; codes_lia.
Qed.

Lemma any_quote_cases c : any_quote c = true -> c = 34%N \/ c = 39%N.
Proof.
  unfold any_quote, either, eqc. intros H. apply orb_true_iff in H.
  destruct H as [H|H]; apply N.eqb_eq in H; auto.
Qed.

Lemma word_not_quote c : word_or_dash c = true -> any_quote c = false.
Proof.
  intros H. destruct (any_quote c) eqn:E; [|reflexivity].
  apply any_quote_cases in E. destruct E as [-> | ->]; discriminate.
Qed.

Lemma rep_maybe_skip R p (k : bool -> jsstring -> option R) b c s :
  p c = false -> rep p 0 (Some 1) true k b (c :: s) = k b (c :: s).
Proof. intros H. cbn [rep]. now rewrite H. Qed.

Lemma rep_maybe_take R p (k : bool -> jsstring -> option R) b c s r :
  p c = true -> k false s = Some r -> rep p 0 (Some 1) true k b (c :: s) = Some r.
Proof. intros H Hk. cbn [rep option_map Nat.pred]. now rewrite H, rep_zero, Hk. Qed.

Lemma accepts_name_phrase keyword :
  str keyword <> [] -> accepts (name_after keyword) (name_phrase keyword).
Proof.
  intros Hkw.
  set (cls := icase (either word (eqc (chr "-")))).
  assert (Hafter : forall r, lit_i keyword ++ lit_i " " ++ r =
                             lit_i keyword ++ one (icase (eqc 32%N)) :: r) by reflexivity.
  split.
  - intros b s t (k & q & rest & -> & Hk & Hq & Ht & Hw & Hrest).
    unfold name_after. rewrite Hafter, mh_word by exact Hkw.
    rewrite (take_word keyword k _ Hk). cbn [app]. rewrite mh_one.
    change (icase (eqc 32%N) 32%N) with true. cbv iota.
    assert (Hlast : exists rest0,
              mh (Close :: [ maybe any_quote ]) false rest (t ++ rest) [] = Some (rest0, [t])).
    { rewrite mh_close. cbn [app]. rewrite firstn_prefix. unfold maybe. rewrite mh_rep.
      rewrite rep_maybe by (intros b' s'; discriminate).
      destruct rest as [|c rest']; [now eexists|]. destruct (any_quote c); now eexists. }
    destruct Hlast as [rest0 Hlast]. exists rest0.
    assert (Htail : forall b',
              mh (Open :: many1 cls :: Close :: [ maybe any_quote ]) b' (t ++ rest) [] [] =
              Some (rest0, [t])).
    { intros b'. rewrite mh_open. unfold many1. rewrite mh_rep.
      apply rep_run.
      - destruct t; [contradiction | cbn [length]; lia].
      - unfold cls. rewrite (forallb_ext_eq _ word_or_dash t word_class). exact Hw.
      - destruct rest as [|c rest']; [exact I|]. unfold cls. rewrite word_class. exact Hrest.
      - destruct t; [contradiction | exact Hlast]. }
    unfold maybe at 1. rewrite mh_rep.
    destruct Hq as [-> | [-> | ->]]; cbn [app].
    + destruct t as [|c t']; [contradiction|]. cbn [app].
      rewrite rep_maybe_skip; [apply Htail|].
      apply word_not_quote. cbn [forallb] in Hw. now apply andb_true_iff in Hw.
    + apply rep_maybe_take; [reflexivity | apply Htail].
    + apply rep_maybe_take; [reflexivity | apply Htail].
  - intros b s H. destruct (mh _ b s [] []) as [res|] eqn:E; [clear H | congruence].
    unfold name_after in E. rewrite Hafter, mh_word in E by exact Hkw.
    destruct (take (map letter_of (str keyword)) s) as [s1|] eqn:Et; [|discriminate].
    apply take_word_split in Et. destruct Et as (k & -> & Hk).
    rewrite mh_one in E. destruct s1 as [|c s1]; [discriminate|].
    destruct (icase (eqc 32%N) c) eqn:Ec; [|discriminate].
    rewrite icase_letter in Ec. apply letter_exact in Ec; [|reflexivity]. subst c.
    unfold maybe at 1 in E. rewrite mh_rep in E. apply rep_sound in E.
    destruct E as (q & s2 & -> & Hq & _ & Hone & E).
    rewrite mh_open in E. unfold many1 in E. rewrite mh_rep in E. apply rep_sound in E.
    destruct E as (a & s3 & -> & Ha & Hlo & _ & _).
    destruct (run_split word_or_dash s3) as (a' & rest & -> & Ha' & Hrest).
    exists (a ++ a'), k, q, rest. repeat split.
    + cbn [app]. now rewrite <- !app_assoc.
    + exact Hk.
    + destruct q as [|c [|c' q]]; [now left | | cbn [length] in Hone; lia].
      right. cbn [forallb] in Hq. rewrite andb_true_r in Hq.
      apply any_quote_cases in Hq. destruct Hq as [-> | ->]; auto.
    + destruct a; [cbn [length] in Hlo; lia | discriminate].
    + rewrite forallb_app, Ha'.
      rewrite <- (forallb_ext_eq _ word_or_dash a word_class). unfold cls in Ha. now rewrite Ha.
    + exact Hrest.
Qed.

End CreateResultText.

(** ** parseD1CreateResult: the stages, by the text *)

Section CreateResultStages.
Import JS Setup.

(** The payload of the JSON: what it holds under [result], or the
    JSON itself when it holds nothing or [null] there. *)
Definition payload_of (data payload : json) : Prop :=
  (nullish (get data "result") = true /\ payload = data) \/
  (get data "result" = Some payload /\ payload <> JNull).

(** The name of the payload: the first of its aliases that is
    present, or the fallback name. *)
Definition name_of (payload : json) (fallbackName : jsstring) (n : json) : Prop :=
  first_present payload name_aliases = Some n \/
  (first_present payload name_aliases = None /\ n = JString fallbackName).

(** The JSON stage gives nothing: the text holds no JSON object, or
    the identifier of its payload is missing or fails the test of
    truth, or its name fails it. *)
Definition json_stage_fails (clean fallbackName : jsstring) : Prop :=
  (forall fields, parseJsonFromOutput clean <> Normal (JObject fields)) \/
  exists fields payload,
    parseJsonFromOutput clean = Normal (JObject fields) /\
    payload_of (JObject fields) payload /\
    ((forall i, first_present payload id_aliases = Some i -> truthy (Some i) = false) \/
     (forall n, name_of payload fallbackName n -> truthy (Some n) = false)).

Lemma payload_of_match data payload :
  payload_of data payload ->
  match get data "result" with
  | None | Some JNull => data
  | Some r => r
  end = payload.
Proof.
  intros [[Hn ->] | [-> Hp]].
  - destruct (get data "result") as [[]|]; try discriminate; reflexivity.
  - destruct payload; try reflexivity. now destruct Hp.
Qed.

Lemma stage_json_succeeds clean fallbackName fields payload i n :
  parseJsonFromOutput clean = Normal (JObject fields) ->
  payload_of (JObject fields) payload ->
  first_present payload id_aliases = Some i -> truthy (Some i) = true ->
  name_of payload fallbackName n -> truthy (Some n) = true ->
  stage_json clean fallbackName = Some (i, n).
Proof.
  intros Hd Hp Hi Hti Hn Htn. unfold stage_json. rewrite Hd. cbv zeta.
  rewrite (payload_of_match _ _ Hp), Hi.
  destruct Hn as [Hn | [Hn ->]]; rewrite Hn, Hti, Htn; reflexivity.
Qed.

Lemma stage_json_fails clean fallbackName :
  json_stage_fails clean fallbackName -> stage_json clean fallbackName = None.
Proof.
  intros [Hno | (fields & payload & Hd & Hp & Hbad)]; unfold stage_json.
  - destruct (parseJsonFromOutput clean) as [[| | | | |fields]|e]; try reflexivity.
    now destruct (Hno fields).
  - rewrite Hd. cbv zeta. rewrite (payload_of_match _ _ Hp).
    destruct (first_present payload id_aliases) as [i|] eqn:Ei; [|reflexivity].
    destruct Hbad as [Hid | Hname].
    + now rewrite (Hid i eq_refl).
    + pose proof (fun n => Hname n) as Hname'. unfold name_of in Hname'.
      destruct (first_present payload name_aliases) as [n|].
      * rewrite (Hname' n (or_introl eq_refl)). now rewrite andb_false_r.
      * rewrite (Hname' (JString fallbackName) (or_intror (conj eq_refl eq_refl))).
        now rewrite andb_false_r.
Qed.

Lemma stage_snippet_named clean fallbackName g t :
  leftmost id_snippet clean g -> leftmost name_snippet clean t ->
  stage_snippet clean fallbackName = Some (JString g, JString t).
Proof.
  intros Hg Ht. unfold stage_snippet.
  destruct (exec_first _ _ clean g accepts_id_snippet Hg) as (m & -> & Hm).
  rewrite (group_or_first _ _ clean t fallbackName accepts_name_snippet Ht).
  unfold group_or. now rewrite Hm.
Qed.

Lemma stage_snippet_unnamed clean fallbackName g :
  leftmost id_snippet clean g -> nowhere name_snippet clean ->
  stage_snippet clean fallbackName = Some (JString g, JString fallbackName).
Proof.
  intros Hg Ht. unfold stage_snippet.
  destruct (exec_first _ _ clean g accepts_id_snippet Hg) as (m & -> & Hm).
  rewrite (exec_absent _ _ clean accepts_name_snippet Ht).
  unfold group_or. now rewrite Hm.
Qed.

Lemma stage_snippet_absent clean fallbackName :
  nowhere id_snippet clean -> stage_snippet clean fallbackName = None.
Proof.
  intros H. unfold stage_snippet. now rewrite (exec_absent _ _ clean accepts_id_snippet H).
Qed.

Lemma accepts_db : accepts db_name_re (name_phrase "DB").
Proof. apply accepts_name_phrase. discriminate. Qed.

Lemma accepts_database : accepts database_name_re (name_phrase "database").
Proof. apply accepts_name_phrase. discriminate. Qed.

Lemma stage_uuid_db clean fallbackName g t :
  leftmost uuid_text clean g -> leftmost (name_phrase "DB") clean t ->
  stage_uuid clean fallbackName = Some (JString g, JString t).
Proof.
  intros Hg Ht. unfold stage_uuid.
  destruct (exec_first _ _ clean g accepts_uuid_text Hg) as (m & -> & Hm).
  destruct (exec_first _ _ clean t accepts_db Ht) as (m' & -> & Hm').
  unfold group_or. now rewrite Hm, Hm'.
Qed.

Lemma stage_uuid_database clean fallbackName g t :
  leftmost uuid_text clean g -> nowhere (name_phrase "DB") clean ->
  leftmost (name_phrase "database") clean t ->
  stage_uuid clean fallbackName = Some (JString g, JString t).
Proof.
  intros Hg Hno Ht. unfold stage_uuid.
  destruct (exec_first _ _ clean g accepts_uuid_text Hg) as (m & -> & Hm).
  rewrite (exec_absent _ _ clean accepts_db Hno).
  rewrite (group_or_first _ _ clean t fallbackName accepts_database Ht).
  unfold group_or. now rewrite Hm.
Qed.

Lemma stage_uuid_unnamed clean fallbackName g :
  leftmost uuid_text clean g -> nowhere (name_phrase "DB") clean ->
  nowhere (name_phrase "database") clean ->
  stage_uuid clean fallbackName = Some (JString g, JString fallbackName).
Proof.
  intros Hg Hno Hno'. unfold stage_uuid.
  destruct (exec_first _ _ clean g accepts_uuid_text Hg) as (m & -> & Hm).
  rewrite (exec_absent _ _ clean accepts_db Hno).
  rewrite (exec_absent _ _ clean accepts_database Hno').
  unfold group_or. now rewrite Hm.
Qed.

Lemma stage_uuid_absent clean fallbackName :
  nowhere uuid_text clean -> stage_uuid clean fallbackName = None.
Proof.
  intros H. unfold stage_uuid. now rewrite (exec_absent _ _ clean accepts_uuid_text H).
Qed.

End CreateResultStages.

(** ** parseD1CreateResult: the result *)

Section CreateResultTheorem.
Import JS Setup.

(** C5.  [parseD1CreateResult] never throws; its result is that of the
    first of its three stages that succeeds, in the order JSON, quoted
    database_id, bare UUID, and [null] exactly when none does.

    The JSON stage reads the payload, which is what the JSON holds
    under result or else the JSON itself: the id is the first present
    of uuid, id, database_id and databaseId, the name the first
    present of name, database_name and databaseName or else the
    fallback, and the stage succeeds when both pass the test of truth.

    When it does not, the id is the value of the leftmost quoted pair
    of database_id with 36 hexadecimal digits and dashes, and the name
    the value of the leftmost quoted pair of database_name, or the
    fallback.  Without such an id, the id is the leftmost UUID of the
    text and the name the run of word characters and dashes after the
    leftmost DB, or without one after the leftmost database, or the
    fallback.  Without a UUID the result is [null]. *)
Theorem parseD1CreateResult_first_stage_wins (raw fallbackName : jsstring) :
  let clean := stripAnsi raw in
  let stages := [ stage_json clean fallbackName; stage_snippet clean fallbackName;
                  stage_uuid clean fallbackName ] in
  let found (i n : jsstring) := Normal (Some (JString i, JString n)) in
  parseD1CreateResult raw fallbackName = Normal (first_success stages) /\
  (parseD1CreateResult raw fallbackName = Normal None <-> Forall (fun r => r = None) stages) /\
  (forall fields i,
     parseJsonFromOutput clean = Normal (JObject fields) ->
     nullish (get (JObject fields) "result") = true ->
     first_present (JObject fields) id_aliases = Some i -> truthy (Some i) = true ->
     (first_present (JObject fields) name_aliases = None -> fallbackName <> [] ->
      parseD1CreateResult raw fallbackName = Normal (Some (i, JString fallbackName))) /\
     (forall n, first_present (JObject fields) name_aliases = Some n -> truthy (Some n) = true ->
      parseD1CreateResult raw fallbackName = Normal (Some (i, n)))) /\
  (forall fields payload i n,
     parseJsonFromOutput clean = Normal (JObject fields) ->
     payload_of (JObject fields) payload ->
     first_present payload id_aliases = Some i -> truthy (Some i) = true ->
     name_of payload fallbackName n -> truthy (Some n) = true ->
     parseD1CreateResult raw fallbackName = Normal (Some (i, n))) /\
  (json_stage_fails clean fallbackName ->
   (forall g,
      leftmost id_snippet clean g ->
      (forall t, leftmost name_snippet clean t ->
                 parseD1CreateResult raw fallbackName = found g t) /\
      (nowhere name_snippet clean ->
       parseD1CreateResult raw fallbackName = found g fallbackName)) /\
   (nowhere id_snippet clean ->
    (forall g,
       leftmost uuid_text clean g ->
       (forall t, leftmost (name_phrase "DB") clean t ->
                  parseD1CreateResult raw fallbackName = found g t) /\
       (nowhere (name_phrase "DB") clean ->
        (forall t, leftmost (name_phrase "database") clean t ->
                   parseD1CreateResult raw fallbackName = found g t) /\
        (nowhere (name_phrase "database") clean ->
         parseD1CreateResult raw fallbackName = found g fallbackName))) /\
    (nowhere uuid_text clean ->
     parseD1CreateResult raw fallbackName = Normal None))) /\
  parseD1CreateResult
    (dq ("{'result':{'uuid':'" ++ uuid1 ++ "','name':'foo'}}")) (str "fallback") =
    Normal (Some (JString (str uuid1), JString (str "foo"))) /\
  parseD1CreateResult
    (dq ("{'databaseId':'" ++ uuid2 ++ "','id':'" ++ uuid1 ++
         "','database_name':'b','name':'a'}")) (str "fallback") =
    Normal (Some (JString (str uuid1), JString (str "a"))) /\
  parseD1CreateResult
    (dq ("{'result':null,'id':'" ++ uuid1 ++ "'}")) (str "fallback") =
    Normal (Some (JString (str uuid1), JString (str "fallback"))) /\
  parseD1CreateResult
    (dq ("{'id': 1e-999} DB shop " ++ uuid2)) (str "fallback") =
    Normal (Some (JString (str uuid2), JString (str "shop"))) /\
  parseD1CreateResult
    (dq ("{ 'd1_databases': [ { 'binding': 'DB', 'database_name': 'prod', 'database_id': '"
         ++ uuid1 ++ "' } ] }")) (str "fallback") =
    Normal (Some (JString (str uuid1), JString (str "prod"))) /\
  parseD1CreateResult
    (dq ("'DATABASE_ID' :  '" ++ uuid1 ++ "' " ++ uuid2)) (str "fallback") =
    Normal (Some (JString (str uuid1), JString (str "fallback"))) /\
  parseD1CreateResult (dq ("created DB 'mydb' " ++ uuid2)) (str "fallback") =
    Normal (Some (JString (str uuid2), JString (str "mydb"))) /\
  parseD1CreateResult (dq ("database 'main' " ++ uuid2)) (str "fallback") =
    Normal (Some (JString (str uuid2), JString (str "main"))) /\
  parseD1CreateResult (str uuid2) (str "fallback") =
    Normal (Some (JString (str uuid2), JString (str "fallback"))) /\
  parseD1CreateResult (str "no identifiers here") (str "fallback") = Normal None.
Proof.
  intros clean stages found.

  assert (Hchain : parseD1CreateResult raw fallbackName = Normal (first_success stages)).
  { unfold parseD1CreateResult, stages, stage_json. fold clean.
    destruct (parseJsonFromOutput_normal clean) as [data Hdata]. rewrite Hdata.
    cbn [bind first_success].
    assert (Hrest : match exec snippet_id_re clean with
      | Some snippetIdMatch =>
          Normal (Some (JString (group_or (Some snippetIdMatch) 1 []),
                        JString (group_or (exec snippet_name_re clean) 1 fallbackName)))
      | None =>
          match exec uuid_re clean with
          | Some uuidMatch =>
              Normal (Some (JString (group_or (Some uuidMatch) 1 []),
                            JString (group_or (match exec db_name_re clean with
                                               | Some m => Some m
                                               | None => exec database_name_re clean
                                               end) 1 fallbackName)))
          | None => Normal None
          end
      end = Normal (first_success [stage_snippet clean fallbackName;
                                   stage_uuid clean fallbackName])).
    { unfold stage_snippet, stage_uuid. cbn [first_success].
      destruct (exec snippet_id_re clean); [reflexivity|].
      destruct (exec uuid_re clean); reflexivity. }
    destruct (parseJsonFromOutput_object _ _ Hdata) as [->|[fields ->]]; [exact Hrest|].
    { cbn [truthy].
      set (data := JObject fields).
      set (payload := match coalesce (get data "result") (Some data) with
                      | Some p => p
                      | None => data
                      end).
      assert (Hp : payload = match get data "result" with
                             | None | Some JNull => data
                             | Some r => r
                             end).
      { unfold payload, coalesce. destruct (get data "result") as [[]|]; reflexivity. }
      rewrite <- Hp.
      change [get payload "uuid"; get payload "id"; get payload "database_id";
              get payload "databaseId"]
        with (map (get payload) ["uuid"; "id"; "database_id"]%string ++ [get payload "databaseId"]).
      change [get payload "name"; get payload "database_name"; get payload "databaseName";
              Some (JString fallbackName)]
        with (map (get payload) name_aliases ++ [Some (JString fallbackName)]).
      rewrite !first_defined_present.
      rewrite <- (first_present_snoc payload ["uuid"; "id"; "database_id"]%string "databaseId").
      change (["uuid"; "id"; "database_id"]%string ++ ["databaseId"%string]) with id_aliases.
      pose proof (first_present_not_null payload id_aliases) as Hnn.
      destruct (first_present payload id_aliases) as [i|]; [|exact Hrest].
      cbn [coalesce nullish].
      destruct (first_present payload name_aliases) as [n|]; cbn [coalesce nullish truthy];
        match goal with |- context [if ?b then _ else _] => destruct b end;
        try reflexivity; exact Hrest. } }
  split; [exact Hchain|]. split; [|split; [|split; [|split]]].
  - rewrite Hchain. unfold stages. cbn [first_success]. split.
    + intros H.
      destruct (stage_json clean fallbackName); [discriminate|].
      destruct (stage_snippet clean fallbackName); [discriminate|].
      destruct (stage_uuid clean fallbackName); [discriminate|].
      repeat constructor.
    + intros H. inversion H as [|? ? H1 H']; subst. inversion H' as [|? ? H2 H'']; subst.
      inversion H'' as [|? ? H3 _]; subst. now rewrite H1, H2, H3.
  - intros fields i Hdata Hres Hi Hti.
    assert (Hpayload : match get (JObject fields) "result" with
                       | None | Some JNull => JObject fields
                       | Some r => r
                       end = JObject fields).
    { destruct (get (JObject fields) "result") as [[]|]; try discriminate; reflexivity. }
    rewrite Hchain. unfold stages, stage_json. rewrite Hdata. cbv zeta.
    rewrite Hpayload, Hi, Hti. cbn [andb first_success]. split.
    + intros Hn Hfb. rewrite Hn. cbn [truthy]. destruct fallbackName; [contradiction|].
      reflexivity.
    + intros n Hn Htn. rewrite Hn, Htn. reflexivity.
  - intros fields payload i n Hd Hp Hi Hti Hn Htn. rewrite Hchain. unfold stages.
    now rewrite (stage_json_succeeds clean fallbackName fields payload i n).
  - intros Hjson. rewrite Hchain. unfold stages, found.
    rewrite (stage_json_fails clean fallbackName Hjson). cbn [first_success].
    split.
    + intros g Hg. split.
      * intros t Ht. now rewrite (stage_snippet_named clean fallbackName g t).
      * intros Ht. now rewrite (stage_snippet_unnamed clean fallbackName g).
    + intros Hno. rewrite (stage_snippet_absent clean fallbackName Hno). split.
      * intros g Hg. split; [|split].
        -- intros t Ht. now rewrite (stage_uuid_db clean fallbackName g t).
        -- intros t Ht. now rewrite (stage_uuid_database clean fallbackName g t).
        -- intros Hno'. now rewrite (stage_uuid_unnamed clean fallbackName g).
      * intros Hu. now rewrite (stage_uuid_absent clean fallbackName Hu).
  - repeat apply conj; vm_compute; reflexivity.
Qed.

(** A JSON body with an id and no name. *)
Lemma parseD1CreateResult_first_stage_wins_witness :
  parseD1CreateResult (dq ("{'uuid':'" ++ uuid1 ++ "'}")) (str "fallback")
  = Normal (Some (JString (str uuid1), JString (str "fallback"))).
Proof.
  pose proof (parseD1CreateResult_first_stage_wins
                (dq ("{'uuid':'" ++ uuid1 ++ "'}")) (str "fallback")) as H.
  cbv zeta in H. destruct H as (_ & _ & _ & H & _).
  apply (H [(str "uuid", JString (str uuid1))]
           (JObject [(str "uuid", JString (str uuid1))])
           (JString (str uuid1)) (JString (str "fallback"))).
  - vm_compute. reflexivity.
  - left. split; reflexivity.
  - vm_compute. reflexivity.
  - reflexivity.
  - right. split; [vm_compute|]; reflexivity.
  - reflexivity.
Defined.

End CreateResultTheorem.

(** ** trim *)

Section TrimFacts.
Import JS.

Lemma trimStart_suffix : forall s,
  exists sp, s = sp ++ trimStart s /\ forallb is_space sp = true.
Proof.
  induction s as [|c s IH]; cbn [trimStart].
  - now exists [].
  - destruct (is_space c) eqn:E.
    + destruct IH as (sp & Hs & Hsp). exists (c :: sp). simpl. rewrite E, Hsp.
      split; [now f_equal | reflexivity].
    + now exists [].
Qed.

Definition starts_black (s : jsstring) : Prop :=
  match s with c :: _ => is_space c = false | [] => True end.

Lemma trimStart_black s : starts_black (trimStart s).
Proof.
  induction s as [|c s IH]; cbn [trimStart]; [exact I|].
  destruct (is_space c) eqn:E; [exact IH | exact E].
Qed.

Lemma trimStart_fixed s : starts_black s -> trimStart s = s.
Proof. destruct s as [|c s]; [reflexivity|]. cbn. now intros ->. Qed.

Lemma trimEnd_prefix s : exists sp, s = trimEnd s ++ sp /\ forallb is_space sp = true.
Proof.
  unfold trimEnd. destruct (trimStart_suffix (rev s)) as (sp & Hs & Hsp).
  exists (rev sp). split.
  - rewrite <- rev_app_distr, <- Hs. symmetry. apply rev_involutive.
  - rewrite forallb_forall in *. intros x Hx. apply Hsp. now apply in_rev.
Qed.

Lemma trimEnd_idempotent s : trimEnd (trimEnd s) = trimEnd s.
Proof.
  unfold trimEnd. rewrite rev_involutive. f_equal.
  apply trimStart_fixed, trimStart_black.
Qed.

Lemma trimEnd_black s : starts_black s -> starts_black (trimEnd s).
Proof.
  intros H. destruct (trimEnd_prefix s) as (sp & Hs & _).
  destruct (trimEnd s) as [|c t]; [exact I|]. rewrite Hs in H. exact H.
Qed.

(** Trimming twice is trimming once. *)
Lemma trim_idempotent s : trim (trim s) = trim s.
Proof.
  unfold trim.
  rewrite (trimStart_fixed (trimEnd (trimStart s))).
  - apply trimEnd_idempotent.
  - apply trimEnd_black, trimStart_black.
Qed.

Lemma trim_forallb (p : char -> bool) s : forallb p s = true -> forallb p (trim s) = true.
Proof.
  intros H. unfold trim.
  destruct (trimStart_suffix s) as (sp & Hs & _).
  destruct (trimEnd_prefix (trimStart s)) as (sp' & Hs' & _).
  rewrite Hs, forallb_app in H. apply andb_true_iff in H. destruct H as [_ H].
  rewrite Hs', forallb_app in H. apply andb_true_iff in H. exact (proj1 H).
Qed.

End TrimFacts.

(** ** What extractAccounts keeps true of its accounts *)

Section AccountInvariant.
Import JS Setup.

(** A property of the accounts found so far that every call of
    [addAccount] keeps holds of the accounts returned. *)
Variable P : list AccountInfo -> Prop.
Hypothesis P_addAccount : forall i n acc acc',
  P acc -> addAccount i n acc = Normal acc' -> P acc'.

Lemma add_entries_keeps l : forall acc acc',
  P acc -> add_entries l acc = Normal acc' -> P acc'.
Proof.
  induction l as [|e l IH]; intros acc acc' Hacc H; cbn [add_entries] in H.
  - now injection H as <-.
  - destruct (member (Some e) "id") as [i|]; cbn [bind] in H; [|discriminate].
    destruct (member (Some e) "name") as [n|]; cbn [bind] in H; [|discriminate].
    destruct (addAccount _ _ acc) as [acc1|] eqn:E; cbn [bind] in H; [|discriminate].
    exact (IH _ _ (P_addAccount _ _ _ _ Hacc E) H).
Qed.

Lemma scan_json_keeps data acc acc' :
  P acc -> scan_json data acc = Normal acc' -> P acc'.
Proof.
  intros Hacc H. unfold scan_json in H.
  destruct (truthy (Some data)); [|now injection H as <-].
  destruct (addAccount _ _ acc) as [acc1|] eqn:E; cbn [bind] in H; [|discriminate].
  exact (add_entries_keeps _ _ _ (P_addAccount _ _ _ _ Hacc E) H).
Qed.

Lemma scan_line_keeps line acc acc' :
  P acc -> scan_line line acc = Normal acc' -> P acc'.
Proof.
  intros Hacc H. unfold scan_line in H.
  destruct (nonempty (trim line)); cbn [negb] in H; [|now injection H as <-].
  destruct (test table_row_re (trim line)).
  - destruct (filter nonempty _) as [|maybeName [|maybeId parts]];
      try (now injection H as <-).
    destruct (_ && _); [|now injection H as <-].
    exact (P_addAccount _ _ _ _ Hacc H).
  - destruct (exec inline_re (trim line)).
    + exact (P_addAccount _ _ _ _ Hacc H).
    + destruct (exec colon_re (trim line)).
      * exact (P_addAccount _ _ _ _ Hacc H).
      * now injection H as <-.
Qed.

Lemma scan_lines_keeps lines : forall acc acc',
  P acc -> scan_lines lines acc = Normal acc' -> P acc'.
Proof.
  induction lines as [|line lines IH]; intros acc acc' Hacc H; cbn [scan_lines] in H.
  - now injection H as <-.
  - destruct (scan_line line acc) as [acc1|] eqn:E; cbn [bind] in H; [|discriminate].
    exact (IH _ _ (scan_line_keeps _ _ _ Hacc E) H).
Qed.

Lemma extractAccounts_keeps raw accs :
  P [] -> extractAccounts raw = Normal accs -> P accs.
Proof.
  unfold extractAccounts. intros H0 H.
  destruct (parseJsonFromOutput _) as [data|]; cbn [bind] in H; [|discriminate].
  destruct (scan_json data []) as [acc1|] eqn:E; cbn [bind] in H; [|discriminate].
  exact (scan_lines_keeps _ _ _ (scan_json_keeps _ _ _ H0 E) H).
Qed.

End AccountInvariant.

Section AccountListFacts.
Import JS Setup.

(** What [addAccount] does to the accounts: nothing, or one account
    more, under an id that was not there. *)
Lemma addAccount_cases i n acc acc' :
  addAccount i n acc = Normal acc' ->
  acc' = acc \/
  exists trimmedId cleaned,
    acc' = acc ++ [ {| id := trimmedId;
                       name := match cleaned with
                               | Some ((_ :: _) as t) =>
                                   match trim (replace_all_empty quotes_re t) with
                                   | [] => None
                                   | (_ :: _) as c => Some c
                                   end
                               | _ => None
                               end |} ] /\
    has acc trimmedId = false.
Proof.
  intros H. unfold addAccount in H.
  destruct i as [idv|]; [|injection H as <-; now left].
  destruct (truthy (Some idv)); cbn [negb] in H; [|injection H as <-; now left].
  destruct (call_trim idv) as [trimmedId|]; cbn [bind] in H; [|discriminate].
  destruct (test account_id_re trimmedId); cbn [negb] in H; [|injection H as <-; now left].
  destruct (match n with None | Some JNull => _ | Some _ => _ end) as [tn|];
    cbn [bind] in H; [|discriminate].
  destruct (has acc trimmedId) eqn:Eh; cbn [negb] in H; injection H as <-; [now left|].
  right. exists trimmedId, tn. split; [|exact Eh].
  do 3 f_equal. destruct tn as [[|c t]|]; try reflexivity.
  now destruct (trim (replace_all_empty quotes_re (c :: t))).
Qed.

Lemma addAccount_distinct i n acc acc' :
  NoDup (map id acc) -> addAccount i n acc = Normal acc' -> NoDup (map id acc').
Proof.
  intros Hacc H. apply addAccount_cases in H.
  destruct H as [->|(t & c & -> & Hh)]; [exact Hacc|].
  rewrite map_app. cbn [map id].
  apply NoDup_app; [exact Hacc | repeat constructor; intros [] |].
  intros x Hx [<-|[]]. rewrite has_existsb in Hh.
  apply not_true_iff_false in Hh. apply Hh. now apply existsb_jseqb_In.
Qed.

(** X6.  The accounts returned have ids that differ from one another. *)
Theorem extractAccounts_distinct_ids (raw : jsstring) (accounts : list AccountInfo) :
  extractAccounts raw = Normal accounts -> NoDup (map id accounts).
Proof.
  apply (extractAccounts_keeps (fun acc => NoDup (map id acc)) addAccount_distinct).
  constructor.
Qed.

Definition twice_listed : jsstring :=
  str "Acme (id: 0123456789abcdef0123456789abcdef)" ++ [10%N] ++
  str "Account ID: 0123456789abcdef0123456789abcdef".

Lemma extractAccounts_distinct_ids_witness :
  NoDup (map id [ {| id := str "0123456789abcdef0123456789abcdef";
                     name := Some (str "Acme") |} ]).
Proof.
  apply (extractAccounts_distinct_ids twice_listed). vm_compute. reflexivity.
Defined.

(** Removing the quotes keeps the other characters. *)
Lemma remove_all_quotes : forall fuel b s,
  length s < fuel ->
  remove_all quotes_re fuel b s = filter (fun c => negb (any_quote c)) s.
Proof.
  induction fuel as [|fuel IH]; intros b s H; [lia|].
  cbn [remove_all]. unfold quotes_re. rewrite mh_one.
  destruct s as [|c s]; [reflexivity|]. simpl in H. cbn [filter].
  fold any_quote. destruct (any_quote c); cbn [negb mh].
  - destruct (Nat.eqb_spec (length s) (length (c :: s))) as [E|E].
    + simpl in E. lia.
    + apply IH. lia.
  - f_equal. apply IH. lia.
Qed.

Definition quote_free (s : jsstring) : bool := forallb (fun c => negb (any_quote c)) s.

(** A name as [extractAccounts] keeps it: not empty, without quote
    characters, without white space at either end. *)
Definition well_named (a : AccountInfo) : Prop :=
  match name a with
  | Some n => n <> [] /\ quote_free n = true /\ trim n = n
  | None => True
  end.

Lemma addAccount_well_named i n acc acc' :
  Forall well_named acc -> addAccount i n acc = Normal acc' -> Forall well_named acc'.
Proof.
  intros Hacc H. apply addAccount_cases in H.
  destruct H as [->|(t & c & -> & _)]; [exact Hacc|].
  apply Forall_app. split; [exact Hacc|]. constructor; [|constructor].
  unfold well_named. cbn [name].
  destruct c as [[|x t']|]; try exact I.
  destruct (trim (replace_all_empty quotes_re (x :: t'))) as [|y cleaned] eqn:E; [exact I|].
  repeat apply conj.
  - discriminate.
  - rewrite <- E. apply trim_forallb. unfold replace_all_empty.
    rewrite remove_all_quotes by lia. apply forallb_forall. intros z Hz.
    apply filter_In in Hz. exact (proj2 Hz).
  - rewrite <- E. apply trim_idempotent.
Qed.

(** X7.  The names of the accounts returned are clean: an account has no
    name, or a name that is not empty, holds no quote character and
    has no white space at either end. *)
Theorem extractAccounts_clean_names (raw : jsstring) (accounts : list AccountInfo) :
  extractAccounts raw = Normal accounts -> Forall well_named accounts.
Proof.
  apply (extractAccounts_keeps (Forall well_named) addAccount_well_named).
  constructor.
Qed.

Definition quoted_row : jsstring :=
  str "| 'Acme' Ltd  | 0123456789abcdef0123456789abcdef |".

Lemma extractAccounts_clean_names_witness :
  Forall well_named [ {| id := str "0123456789abcdef0123456789abcdef";
                         name := Some (str "Acme Ltd") |} ].
Proof.
  apply (extractAccounts_clean_names quoted_row). vm_compute. reflexivity.
Defined.

End AccountListFacts.

(** ** The only exception of extractAccounts *)

Section AccountThrows.
Import JS Setup.

Lemma call_trim_throws v e : call_trim v = Throw e -> e = TypeError.
Proof. destruct v; cbn; congruence. Qed.

Lemma addAccount_throws i n acc e : addAccount i n acc = Throw e -> e = TypeError.
Proof.
  intros H. unfold addAccount in H.
  destruct i as [idv|]; [|discriminate].
  destruct (truthy (Some idv)); cbn [negb] in H; [|discriminate].
  destruct (call_trim idv) as [trimmedId|e0] eqn:Ei; cbn [bind] in H.
  - destruct (test account_id_re trimmedId); cbn [negb] in H; [|discriminate].
    destruct n as [nv|]; cbn [bind] in H.
    + destruct nv; cbn [call_trim bind] in H;
        try (injection H as <-; reflexivity);
        destruct (has acc trimmedId); discriminate.
    + destruct (has acc trimmedId); discriminate.
  - injection H as <-. eapply call_trim_throws, Ei.
Qed.

Lemma member_throws v k e : member v k = Throw e -> e = TypeError.
Proof. destruct v as [[]|]; cbn; congruence. Qed.

Lemma add_entries_throws l : forall acc e, add_entries l acc = Throw e -> e = TypeError.
Proof.
  induction l as [|x l IH]; intros acc e H; cbn [add_entries] in H; [discriminate|].
  destruct (member (Some x) "id") as [i|e0] eqn:Ei; cbn [bind] in H;
    [|injection H as <-; eapply member_throws, Ei].
  destruct (member (Some x) "name") as [n|e0] eqn:En; cbn [bind] in H;
    [|injection H as <-; eapply member_throws, En].
  destruct (addAccount _ _ acc) as [acc1|e0] eqn:E; cbn [bind] in H.
  - eapply IH, H.
  - injection H as <-. eapply addAccount_throws, E.
Qed.

Lemma scan_json_throws data acc e : scan_json data acc = Throw e -> e = TypeError.
Proof.
  intros H. unfold scan_json in H.
  destruct (truthy (Some data)); [|discriminate].
  destruct (addAccount _ _ acc) as [acc1|e0] eqn:E; cbn [bind] in H.
  - eapply add_entries_throws, H.
  - injection H as <-. eapply addAccount_throws, E.
Qed.

Lemma scan_line_throws line acc e : scan_line line acc = Throw e -> e = TypeError.
Proof.
  intros H. unfold scan_line in H.
  destruct (nonempty (trim line)); cbn [negb] in H; [|discriminate].
  destruct (test table_row_re (trim line)).
  - destruct (filter nonempty _) as [|maybeName [|maybeId parts]]; try discriminate.
    destruct (_ && _); [|discriminate].
    eapply addAccount_throws, H.
  - destruct (exec inline_re (trim line)).
    + eapply addAccount_throws, H.
    + destruct (exec colon_re (trim line)); [|discriminate].
      eapply addAccount_throws, H.
Qed.

Lemma scan_lines_throws lines : forall acc e, scan_lines lines acc = Throw e -> e = TypeError.
Proof.
  induction lines as [|line lines IH]; intros acc e H; cbn [scan_lines] in H; [discriminate|].
  destruct (scan_line line acc) as [acc1|e0] eqn:E; cbn [bind] in H.
  - eapply IH, H.
  - injection H as <-. eapply scan_line_throws, E.
Qed.

Lemma extractAccounts_throws raw e : extractAccounts raw = Throw e -> e = TypeError.
Proof.
  unfold extractAccounts. intros H.
  destruct (parseJsonFromOutput_normal (stripAnsi raw)) as [data Hd].
  rewrite Hd in H. cbn [bind] in H.
  destruct (scan_json data []) as [acc1|e0] eqn:E; cbn [bind] in H.
  - eapply scan_lines_throws, H.
  - injection H as <-. eapply scan_json_throws, E.
Qed.

Lemma addAccount_strings i n acc :
  (i = None \/ exists s, i = Some (JString s)) ->
  (n = None \/ exists s, n = Some (JString s)) ->
  exists acc', addAccount i n acc = Normal acc'.
Proof.
  intros [->|[s ->]] Hn; [now exists acc|]. unfold addAccount.
  destruct (truthy (Some (JString s))); cbn [negb]; [|now exists acc].
  cbn [call_trim bind].
  destruct (test account_id_re (trim s)); cbn [negb]; [|now exists acc].
  destruct Hn as [->|[t ->]]; cbn [call_trim bind];
    destruct (has acc (trim s)); cbn [negb]; eexists; reflexivity.
Qed.

Lemma string_arg_cases o : string_arg o = None \/ exists s, string_arg o = Some (JString s).
Proof. destruct o as [s|]; [right; now exists s | now left]. Qed.

Lemma scan_line_normal line acc : exists acc', scan_line line acc = Normal acc'.
Proof.
  unfold scan_line.
  destruct (nonempty (trim line)); cbn [negb]; [|now exists acc].
  destruct (test table_row_re (trim line)).
  - destruct (filter nonempty _) as [|maybeName [|maybeId parts]];
      try (now exists acc).
    destruct (_ && _); [|now exists acc].
    apply addAccount_strings; right; eexists; reflexivity.
  - destruct (exec inline_re (trim line)).
    + apply addAccount_strings; apply string_arg_cases.
    + destruct (exec colon_re (trim line)); [|now exists acc].
      apply addAccount_strings; [apply string_arg_cases | now left].
Qed.

Lemma scan_lines_normal lines : forall acc, exists acc', scan_lines lines acc = Normal acc'.
Proof.
  induction lines as [|line lines IH]; intros acc; cbn [scan_lines]; [now exists acc|].
  destruct (scan_line_normal line acc) as [acc1 ->]. cbn [bind]. apply IH.
Qed.

Lemma extractAccounts_without_object raw :
  parseJsonFromOutput (stripAnsi raw) = Normal JNull ->
  exists accounts, extractAccounts raw = Normal accounts.
Proof.
  intros H. unfold extractAccounts. rewrite H. cbn [bind scan_json truthy].
  apply scan_lines_normal.
Qed.

Lemma extractAccounts_throws_object raw e :
  extractAccounts raw = Throw e ->
  e = TypeError /\ exists fields, parseJsonFromOutput (stripAnsi raw) = Normal (JObject fields).
Proof.
  intros H. split; [eapply extractAccounts_throws, H|].
  destruct (parseJsonFromOutput_normal (stripAnsi raw)) as [data Hd].
  destruct (parseJsonFromOutput_object _ _ Hd) as [->|[fields ->]]; [|now exists fields].
  destruct (extractAccounts_without_object raw Hd) as [accounts Ha]. congruence.
Qed.

(** X8.  The only exception that [extractAccounts] can throw is a
    [TypeError], and it throws only on a text in which a JSON object
    was found.  A text without an opening brace, and a text whose
    slice from the first opening brace to the last closing brace is
    not well-formed JSON, give the accounts of the lines and no
    exception. *)
Theorem extractAccounts_throws_only_TypeError (raw : jsstring) :
  (forall e, extractAccounts raw = Throw e ->
     e = TypeError /\
     exists fields, parseJsonFromOutput (stripAnsi raw) = Normal (JObject fields)) /\
  (~ In lbrace (stripAnsi (stripAnsi raw)) ->
   exists accounts, extractAccounts raw = Normal accounts) /\
  (forall pre mid post err,
     stripAnsi (stripAnsi raw) = pre ++ (lbrace :: mid ++ [rbrace]) ++ post ->
     ~ In lbrace pre -> ~ In rbrace post ->
     JSON_parse (lbrace :: mid ++ [rbrace]) = Throw err ->
     exists accounts, extractAccounts raw = Normal accounts).
Proof.
  split; [intros e; apply extractAccounts_throws_object|]. split.
  - intros Hno. apply extractAccounts_without_object.
    unfold parseJsonFromOutput. destruct (stripAnsi raw) as [|c clean] eqn:E; [reflexivity|].
    cbv zeta. unfold indexOf at 1. change (str "{") with [lbrace].
    rewrite indexOf_char_absent by exact Hno. reflexivity.
  - intros pre mid post err Hs Hpre Hpost Hparse. apply extractAccounts_without_object.
    rewrite (parseJsonFromOutput_slice (stripAnsi raw) pre mid post Hs Hpre Hpost), Hparse.
    reflexivity.
Qed.

Lemma extractAccounts_throws_only_TypeError_witness :
  TypeError = TypeError /\
  exists fields,
    parseJsonFromOutput (stripAnsi (dq "{'accounts': [null]}")) = Normal (JObject fields).
Proof.
  apply (proj1 (extractAccounts_throws_only_TypeError (dq "{'accounts': [null]}")) TypeError).
  vm_compute. reflexivity.
Defined.

(** An id that is a number too small for a double is zero, and is
    passed over. *)
Example extractAccounts_underflowing_id :
  extractAccounts (dq "{'accounts': [{'id': 1e-999}]}") = Normal [].
Proof. vm_compute. reflexivity. Qed.

End AccountThrows.

(** ** The prompts for an account *)

Section AccountPromptFacts.
Import JS Setup.

Definition rejected_id (line : jsstring) : bool := negb (test account_id_re (trim line)).

Lemma promptForAccountId_skips : forall wrong lines,
  forallb rejected_id wrong = true ->
  promptForAccountId (wrong ++ lines) = promptForAccountId lines.
Proof.
  induction wrong as [|l wrong IH]; intros lines H; [reflexivity|].
  simpl in H. apply andb_true_iff in H. destruct H as [Hl H].
  apply negb_true_iff in Hl. cbn [app promptForAccountId].
  rewrite trim_idempotent, Hl. now apply IH.
Qed.

Lemma promptForAccountId_first wrong answer label rest :
  forallb rejected_id wrong = true -> test account_id_re (trim answer) = true ->
  promptForAccountId (wrong ++ answer :: label :: rest) =
    Some ({| id := trim answer; name := label_of (trim label) |}, rest).
Proof.
  intros Hw Ha. rewrite promptForAccountId_skips by exact Hw.
  cbn [promptForAccountId question]. now rewrite !trim_idempotent, Ha.
Qed.

(** X9.  The prompt asks until an answer is 32 hexadecimal digits once
    trimmed: that answer is the id, and the next line, trimmed, the
    name, or no name when it is blank. *)
Theorem promptForAccountId_first_valid_answer
    (wrong : list jsstring) (answer label : jsstring) (rest : list jsstring) :
  forallb rejected_id wrong = true -> test account_id_re (trim answer) = true ->
  promptForAccountId (wrong ++ answer :: label :: rest) =
    Some ({| id := trim answer; name := label_of (trim label) |}, rest).
Proof. exact (promptForAccountId_first wrong answer label rest). Qed.

Definition typed_id : jsstring := str "1abcdef0123456789abcdef012345678".

Lemma promptForAccountId_first_valid_answer_witness :
  promptForAccountId ([str "me"; str "1234"] ++ (str "  " ++ typed_id) :: str " " :: []) =
    Some ({| id := trim (str "  " ++ typed_id); name := label_of (trim (str " ")) |}, []).
Proof.
  apply (promptForAccountId_first_valid_answer [str "me"; str "1234"]
           (str "  " ++ typed_id) (str " ") []); vm_compute; reflexivity.
Defined.

(** Where an account comes from: it was typed. *)
Definition typed_by (lines : list jsstring) (a : AccountInfo) : Prop :=
  exists answer, In answer lines /\ id a = trim answer /\
                 test account_id_re (trim answer) = true.

Lemma promptForAccountId_typed : forall lines a rest,
  promptForAccountId lines = Some (a, rest) -> typed_by lines a.
Proof.
  induction lines as [|ans lines IH]; intros a rest H; cbn [promptForAccountId] in H.
  - discriminate.
  - rewrite trim_idempotent in H. destruct (test account_id_re (trim ans)) eqn:Et.
    + destruct (question lines) as [[l rest']|]; [|discriminate].
      injection H as <- <-. exists ans. repeat apply conj; [now left | reflexivity | exact Et].
    + destruct (IH _ _ H) as (answer & Hin & Hid & Ht).
      exists answer. repeat apply conj; [now right | exact Hid | exact Ht].
Qed.

Lemma choose_loop_origin detected first : forall lines a rest,
  In first detected ->
  choose_loop detected first lines = Some (a, rest) -> In a detected \/ typed_by lines a.
Proof.
  intros lines a rest Hf. revert a rest.
  induction lines as [|ans lines IH]; intros a rest H; cbn [choose_loop] in H.
  - discriminate.
  - rewrite trim_idempotent in H. destruct (trim ans) as [|c answer] eqn:Ea.
    + injection H as <- <-. now left.
    + assert (Hby : (if test account_id_re (c :: answer)
                     then match question lines with
                          | Some (l, rest') =>
                              Some ({| id := c :: answer; name := label_of (trim l) |}, rest')
                          | None => None
                          end
                     else choose_loop detected first lines) = Some (a, rest) ->
                    In a detected \/ typed_by (ans :: lines) a).
      { destruct (test account_id_re (c :: answer)) eqn:Et.
        - destruct (question lines) as [[l rest']|]; [|discriminate].
          intros H'. injection H' as <- <-. right. exists ans.
          repeat apply conj; [now left | now rewrite Ea | now rewrite Ea].
        - intros H'. destruct (IH _ _ H') as [Hd|(x & Hin & Hid & Ht)]; [now left|].
          right. exists x. repeat apply conj; [now right | exact Hid | exact Ht]. }
      destruct (parseInt10 (c :: answer)) as [index|]; [|exact (Hby H)].
      destruct (_ && _); [|exact (Hby H)].
      destruct (nth_error detected _) as [a0|] eqn:En; [|exact (Hby H)].
      injection H as <- <-. left. exact (nth_error_In _ _ En).
Qed.

Lemma chooseCloudflareAccount_origin detected lines a rest :
  chooseCloudflareAccount detected lines = Some (a, rest) ->
  In a detected \/ typed_by lines a.
Proof.
  unfold chooseCloudflareAccount. destruct detected as [|first more].
  - intros H. right. eapply promptForAccountId_typed, H.
  - apply choose_loop_origin. now left.
Qed.

(** X10.  The account chosen is one of those detected, or has an id that
    the operator typed and that is 32 hexadecimal digits. *)
Theorem chooseCloudflareAccount_detected_or_typed
    (detected : list AccountInfo) (lines : list jsstring)
    (a : AccountInfo) (rest : list jsstring) :
  chooseCloudflareAccount detected lines = Some (a, rest) ->
  In a detected \/ typed_by lines a.
Proof. exact (chooseCloudflareAccount_origin detected lines a rest). Qed.

Definition acme : AccountInfo :=
  {| id := str "0123456789abcdef0123456789abcdef"; name := Some (str "Acme") |}.

Lemma chooseCloudflareAccount_detected_or_typed_witness :
  In acme [acme] \/ typed_by [str "x"; str " 1 "] acme.
Proof.
  apply (chooseCloudflareAccount_detected_or_typed [acme] [str "x"; str " 1 "] acme []).
  vm_compute. reflexivity.
Defined.

(** X11.  An answer that starts with a number of the list selects by that
    number, whatever follows the digits: a well-formed account id
    whose first digits read as such a number is not taken as an id. *)
Theorem chooseCloudflareAccount_number_before_id
    (detected : list AccountInfo) (answer : jsstring) (rest : list jsstring) (k : Z) :
  parseInt10 (trim answer) = Some k -> (1 <= k <= Z.of_nat (length detected))%Z ->
  exists a, nth_error detected (Z.to_nat (k - 1)) = Some a /\
            chooseCloudflareAccount detected (answer :: rest) = Some (a, rest).
Proof.
  intros Hk Hr.
  destruct (nth_error detected (Z.to_nat (k - 1))) as [a|] eqn:En.
  - exists a. split; [reflexivity|].
    unfold chooseCloudflareAccount. destruct detected as [|first more].
    + simpl in Hr. lia.
    + cbn [choose_loop]. rewrite trim_idempotent.
      destruct (trim answer) as [|c t] eqn:Ea; [discriminate|].
      rewrite Hk.
      replace ((1 <=? k)%Z && (k <=? Z.of_nat (length (first :: more)))%Z) with true.
      * now rewrite En.
      * symmetry. apply andb_true_iff. split; apply Z.leb_le; lia.
  - apply nth_error_None in En. lia.
Qed.

Lemma chooseCloudflareAccount_number_before_id_witness :
  test account_id_re (trim typed_id) = true /\
  exists a, nth_error [acme] (Z.to_nat (1 - 1)) = Some a /\
            chooseCloudflareAccount [acme] (typed_id :: []) = Some (a, []).
Proof.
  split; [vm_compute; reflexivity|].
  apply (chooseCloudflareAccount_number_before_id [acme] typed_id [] 1%Z).
  - vm_compute. reflexivity.
  - simpl. lia.
Defined.

End AccountPromptFacts.

(** ** How the steps of the script end *)

Section EndingFacts.
Import JS Setup Run.

(** A step ends with an exception only if [T] holds of it, and with
    [process.exit] only if [E] holds of the code. *)
Definition ends {A} (T : error -> Prop) (E : Z -> Prop) (m : proc A) : Prop :=
  forall w, match fst (m w) with
            | Thrown e => T e
            | Exit c => E c
            | _ => True
            end.

Definition anything {X} : X -> Prop := fun _ => True.
Definition status_one : Z -> Prop := fun c => c = 1%Z.

Lemma ends_ret {A} T E (a : A) : ends T E (ret a).
Proof. intros w. exact I. Qed.

Lemma ends_bind {A B} T E (m : proc A) (k : A -> proc B) :
  ends T E m -> (forall a, ends T E (k a)) -> ends T E (pbind m k).
Proof.
  intros Hm Hk w. unfold pbind. specialize (Hm w).
  destruct (m w) as [[a|e|c|] w1]; cbn [fst] in *; try assumption. apply Hk.
Qed.

Lemma ends_catch {A} T E (m : proc A) (h : error -> proc A) :
  ends anything E m -> (forall e, ends T E (h e)) -> ends T E (catch m h).
Proof.
  intros Hm Hh w. unfold catch. specialize (Hm w).
  destruct (m w) as [[a|e|c|] w1]; cbn [fst] in *; try assumption. apply Hh.
Qed.


Lemma ends_execAsync E cmd env : ends anything E (execAsync cmd env).
Proof. intros w. unfold execAsync. destruct (execs w) as [|[out|e] rest]; exact I. Qed.

Lemma ends_ask T E : ends T E ask.
Proof. intros w. unfold ask. destruct (question (stdin w)) as [[a r]|]; exact I. Qed.


Lemma ends_lift {A} (T : error -> Prop) E (c : completion A) :
  (forall e, c = Throw e -> T e) -> ends T E (lift c).
Proof. intros H w. unfold lift. destruct c; cbn [fst]; [exact I | now apply H]. Qed.


Lemma ends_exit {A} T (E : Z -> Prop) c : E c -> ends T E (exit (A := A) c).
Proof. intros H w. exact H. Qed.


(** A step that leaves the file .env alone. *)
Definition keeps_env {A} (m : proc A) : Prop :=
  forall w, dot_env (snd (m w)) = dot_env w.

Lemma keeps_ret {A} (a : A) : keeps_env (ret a).
Proof. intros w. reflexivity. Qed.

Lemma keeps_bind {A B} (m : proc A) (k : A -> proc B) :
  keeps_env m -> (forall a, keeps_env (k a)) -> keeps_env (pbind m k).
Proof.
  intros Hm Hk w. unfold pbind. specialize (Hm w).
  destruct (m w) as [[a|e|c|] w1]; cbn [snd] in *; try assumption.
  now rewrite Hk.
Qed.

Lemma keeps_catch {A} (m : proc A) (h : error -> proc A) :
  keeps_env m -> (forall e, keeps_env (h e)) -> keeps_env (catch m h).
Proof.
  intros Hm Hh w. unfold catch. specialize (Hm w).
  destruct (m w) as [[a|e|c|] w1]; cbn [snd] in *; try assumption.
  now rewrite Hh.
Qed.

Lemma keeps_execAsync cmd env : keeps_env (execAsync cmd env).
Proof. intros w. unfold execAsync. destruct (execs w) as [|[out|e] rest]; reflexivity. Qed.

Lemma keeps_ask : keeps_env ask.
Proof. intros w. unfold ask. destruct (question (stdin w)) as [[a r]|]; reflexivity. Qed.

Lemma keeps_prompt {A} (p : list jsstring -> option (A * list jsstring)) :
  keeps_env (prompt p).
Proof. intros w. unfold prompt. destruct (p (stdin w)) as [[a r]|]; reflexivity. Qed.

Lemma keeps_lift {A} (c : completion A) : keeps_env (lift c).
Proof. intros w. reflexivity. Qed.

Lemma keeps_throw {A} e : keeps_env (throw (A := A) e).
Proof. intros w. reflexivity. Qed.



End EndingFacts.

(** ** checkStripeCLI *)

Section StripeStepFacts.
Import JS Setup Run.

Definition version_run (ok : bool) : invocation :=
  {| command := str "stripe --version"; account_env := None; succeeded := ok |}.
Definition config_run (ok : bool) : invocation :=
  {| command := str "stripe config --list"; account_env := None; succeeded := ok |}.

(** The runs of the step, one by one. *)
Lemma checkStripeCLI_runs w :
  checkStripeCLI w =
  match execs w with
  | [] => (Waiting, w)
  | Throw _ :: r1 => (Exit 1%Z, ran (version_run false) r1 w)
  | Normal _ :: r1 =>
      let w1 := ran (version_run true) r1 w in
      match r1 with
      | [] => (Waiting, w1)
      | Normal _ :: r2 => (Value tt, ran (config_run true) r2 w1)
      | Throw _ :: r2 =>
          let w2 := ran (config_run false) r2 w1 in
          match stdin w with
          | [] => (Waiting, w2)
          | answer :: lines =>
              let w3 := set_stdin lines w2 in
              if lower_is_y (trim answer) then
                match r2 with
                | [] => (Waiting, w3)
                | Normal _ :: r3 => (Value tt, ran (config_run true) r3 w3)
                | Throw _ :: r3 => (Exit 1%Z, ran (config_run false) r3 w3)
                end
              else (Exit 1%Z, w3)
          end
      end
  end.
Proof.
  unfold checkStripeCLI, catch, pbind, execAsync, ask, question, exit, ret.
  destruct (execs w) as [|[o1|e1] r1]; try reflexivity.
  cbn [execs ran]. destruct r1 as [|[o2|e2] r2]; try reflexivity.
  cbn [execs stdin ran]. destruct (stdin w) as [|answer lines]; try reflexivity.
  destruct (lower_is_y (trim answer)); try reflexivity.
  cbn [execs set_stdin]. destruct r2 as [|[o3|e3] r3]; reflexivity.
Qed.

Lemma last_snoc {A} (l : list A) (x d : A) : last (l ++ [x]) d = x.
Proof. induction l as [|y l IH]; [reflexivity|]. cbn [app]. destruct (l ++ [x]) eqn:E.
  - destruct l; discriminate.
  - rewrite <- E. cbn [last]. rewrite E in *. exact IH.
Qed.

(** X12.  The step never throws and exits with status 1 only.  It passes
    exactly when the last command it ran is [stripe config --list] and
    that command succeeded; at most three commands are run. *)
Theorem checkStripeCLI_passes_when_authenticated (w : world) :
  let r := fst (checkStripeCLI w) in
  let w' := snd (checkStripeCLI w) in
  match r with Thrown _ => False | Exit c => c = 1%Z | _ => True end /\
  (r = Value tt <->
   exists earlier, invoked w' = invoked w ++ earlier ++ [config_run true]) /\
  exists trace, invoked w' = invoked w ++ trace /\ length trace <= 3.
Proof.
  cbv zeta. rewrite checkStripeCLI_runs.
  assert (Hlast : forall trace earlier,
            invoked w ++ trace = invoked w ++ earlier ++ [config_run true] ->
            last trace (version_run true) = config_run true).
  { intros trace earlier H. apply app_inv_head in H. rewrite H. apply last_snoc. }
  destruct (execs w) as [|[o1|e1] r1]; cbn [fst snd ran invoked].
  - split; [exact I | split; [ | exists []; split; [now rewrite app_nil_r | simpl; lia]]].
    split; [discriminate|]. intros [earlier H].
    rewrite <- (app_nil_r (invoked w)) in H at 1. apply Hlast in H. discriminate.
  - destruct r1 as [|[o2|e2] r2]; cbn [fst snd ran invoked].
    + split; [exact I | split; [ | exists [version_run true]; split; [reflexivity | simpl; lia]]].
      split; [discriminate|]. intros [earlier H]. apply Hlast in H. discriminate.
    + split; [exact I | split; [ |
        exists [version_run true; config_run true]; split;
          [now rewrite <- app_assoc | simpl; lia]]].
      split; [|reflexivity]. intros _. exists [version_run true]. now rewrite <- app_assoc.
    + destruct (stdin w) as [|answer lines]; cbn [fst snd ran invoked].
      * split; [exact I | split; [ |
          exists [version_run true; config_run false]; split;
            [now rewrite <- app_assoc | simpl; lia]]].
        split; [discriminate|]. intros [earlier H].
        rewrite <- app_assoc in H. apply Hlast in H. discriminate.
      * destruct (lower_is_y (trim answer)).
        -- destruct r2 as [|[o3|e3] r3]; cbn [fst snd ran invoked set_stdin].
           ++ split; [exact I | split; [ |
                exists [version_run true; config_run false]; split;
                  [now rewrite <- app_assoc | simpl; lia]]].
              split; [discriminate|]. intros [earlier H].
              rewrite <- app_assoc in H. apply Hlast in H. discriminate.
           ++ split; [exact I | split; [ |
                exists [version_run true; config_run false; config_run true]; split;
                  [now rewrite <- !app_assoc | simpl; lia]]].
              split; [|reflexivity]. intros _.
              exists [version_run true; config_run false]. now rewrite <- !app_assoc.
           ++ split; [reflexivity | split; [ |
                exists [version_run true; config_run false; config_run false]; split;
                  [now rewrite <- !app_assoc | simpl; lia]]].
              split; [discriminate|]. intros [earlier H].
              rewrite <- !app_assoc in H. apply Hlast in H. discriminate.
        -- cbn [fst snd ran invoked set_stdin].
           split; [reflexivity | split; [ |
             exists [version_run true; config_run false]; split;
               [now rewrite <- app_assoc | simpl; lia]]].
           split; [discriminate|]. intros [earlier H].
           rewrite <- app_assoc in H. apply Hlast in H. discriminate.
  - split; [reflexivity | split; [ | exists [version_run false]; split; [reflexivity | simpl; lia]]].
    split; [discriminate|]. intros [earlier H]. apply Hlast in H. discriminate.
Qed.

Definition stripe_world : world :=
  {| execs := [ Normal (str "stripe version 1.21.8", []);
                Throw (ExecError [] (str "not logged in"));
                Normal (str "test_mode_api_key = sk_test", []) ];
     stdin := [ str " Y " ];
     entropy := fun _ => Byte.x00; drawn := 0;
     wrangler_jsonc := Throw (Error (str "ENOENT"));
     jsonc_writable := false; env_writable := true;
     invoked := []; dot_env := None |}.

Lemma checkStripeCLI_passes_when_authenticated_witness :
  exists earlier,
    invoked (snd (checkStripeCLI stripe_world)) =
      invoked stripe_world ++ earlier ++ [config_run true].
Proof.
  apply (proj1 (proj1 (proj2 (checkStripeCLI_passes_when_authenticated stripe_world)))).
  vm_compute. reflexivity.
Defined.



End StripeStepFacts.

(** ** checkWranglerCLI *)

Section WranglerStepFacts.
Import JS Setup Run.

Definition only_TypeError : error -> Prop := fun e => e = TypeError.

Lemma whoami_ends : forall rounds attempt,
  ends only_TypeError status_one (whoami rounds attempt).
Proof.
  induction rounds as [|rounds IH]; intros attempt; cbn [whoami].
  - apply ends_ret.
  - apply ends_catch.
    + apply ends_bind; [apply ends_execAsync|]. intros out.
      apply ends_bind; [apply ends_lift; intros; exact I|]. intros d. apply ends_ret.
    + intros e. apply ends_bind.
      * apply ends_lift. intros e' H. unfold only_TypeError.
        eapply extractAccounts_throws, H.
      * intros [|a accs]; [|apply ends_ret].
        destruct (Nat.eqb attempt 0); [|now apply ends_exit].
        apply ends_bind; [apply ends_ask|]. intros answer.
        destruct (lower_is_y answer); [apply IH | now apply ends_exit].
Qed.

(** What the [try] block of a round gives when it gives a value. *)
Lemma whoami_try w v w1 :
  (out <~ execAsync (str "pnpm wrangler whoami") None ;;
   detectedAccounts <~ lift (extractAccounts (fst out)) ;;
   ret (Some detectedAccounts)) w = (Value v, w1) ->
  exists accs, v = Some accs /\ Forall valid_account accs.
Proof.
  unfold pbind, execAsync, lift, ret.
  destruct (execs w) as [|[out|e] r]; try discriminate.
  destruct (extractAccounts (fst out)) as [d|e] eqn:Ed; [|discriminate].
  intros H. injection H as <- <-. exists d. split; [reflexivity|].
  eapply extractAccounts_valid, Ed.
Qed.

(** The loop leaves with accounts, never with [null]: in its second
    round every path breaks or exits. *)
Lemma whoami_detected : forall rounds attempt w v w',
  (attempt = 0 -> 2 <= rounds) -> 1 <= rounds ->
  whoami rounds attempt w = (Value v, w') ->
  exists accs, v = Some accs /\ Forall valid_account accs.
Proof.
  induction rounds as [|rounds IH]; intros attempt w v w' H0 H1 H; [lia|].
  cbn [whoami] in H. unfold catch in H.
  match type of H with
  | match ?m with _ => _ end = _ => destruct m as [[v0|e|c|] w1] eqn:Etry
  end; try discriminate.
  - injection H as <- <-. eapply whoami_try, Etry.
  - unfold pbind at 1 in H. unfold lift at 1 in H.
    destruct (extractAccounts (getStdout e)) as [[|a accs]|e'] eqn:Ed; try discriminate.
    + destruct (Nat.eqb_spec attempt 0) as [E0|E0]; [|discriminate].
      unfold pbind, ask in H. destruct (question (stdin w1)) as [[answer lines]|];
        [|discriminate].
      destruct (lower_is_y answer); [|discriminate].
      apply IH in H; [exact H | discriminate | specialize (H0 E0); lia].
    + unfold ret in H. injection H as <- <-. exists (a :: accs). split; [reflexivity|].
      eapply extractAccounts_valid, Ed.
Qed.

Lemma checkWranglerCLI_ends : ends only_TypeError status_one checkWranglerCLI.
Proof.
  intros w. unfold checkWranglerCLI, pbind.
  destruct (catch _ _ w) as [[[]|e|c|] w1] eqn:E1; cbn [fst].
  - pose proof (whoami_ends 2 0 w1) as He.
    destruct (whoami 2 0 w1) as [[v|e|c|] w2] eqn:E2; cbn [fst] in *; try exact He.
    apply whoami_detected in E2; [|lia|lia]. destruct E2 as (accs & -> & _).
    unfold prompt. destruct (chooseCloudflareAccount accs (stdin w2)) as [[a r]|]; exact I.
  - exfalso. revert E1. unfold catch, pbind, execAsync, exit, ret.
    destruct (execs w) as [|[out|e0] r]; discriminate.
  - revert E1. unfold catch, pbind, execAsync, exit, ret.
    destruct (execs w) as [|[out|e0] r]; try discriminate. now intros [= <- _].
  - exact I.
Qed.

(** X13.  The step throws nothing but the [TypeError] that [extractAccounts]
    can throw on the output of a failed command, and exits with
    status 1 only: the error after the loop, for the case that no
    round set the accounts, is never thrown. *)
Theorem checkWranglerCLI_failures (w : world) :
  match fst (checkWranglerCLI w) with
  | Thrown e => e = TypeError
  | Exit c => c = 1%Z
  | _ => True
  end.
Proof. exact (checkWranglerCLI_ends w). Qed.

Lemma checkWranglerCLI_valid w a w' :
  checkWranglerCLI w = (Value a, w') -> valid_account a.
Proof.
  unfold checkWranglerCLI, pbind. intros H.
  destruct (catch _ _ w) as [[[]|e|c|] w1] eqn:E1; try discriminate.
  destruct (whoami 2 0 w1) as [[v|e|c|] w2] eqn:E2; try discriminate.
  apply whoami_detected in E2; [|lia|lia]. destruct E2 as (accs & -> & Hv).
  unfold prompt in H.
  destruct (chooseCloudflareAccount accs (stdin w2)) as [[a0 r]|] eqn:Ec; [|discriminate].
  injection H as <- _. unfold chooseCloudflareAccount in Ec.
  destruct accs as [|first more].
  - eapply promptForAccountId_valid, Ec.
  - eapply choose_loop_valid; [exact Hv | | exact Ec]. now inversion Hv.
Qed.

(** X14.  The account that the step returns has an id of 32 hexadecimal
    digits, on every path: detected or typed. *)
Theorem checkWranglerCLI_account (w : world) (a : AccountInfo) (w' : world) :
  checkWranglerCLI w = (Value a, w') -> valid_account a.
Proof. exact (checkWranglerCLI_valid w a w'). Qed.



Definition whoami_text : jsstring :=
  str "Acme (id: 0123456789abcdef0123456789abcdef)".

Definition sample_world : world :=
  {| execs := [Normal (str "4.0.0", []); Normal (whoami_text, [])];
     stdin := [str ""];
     entropy := fun _ => Byte.x00; drawn := 0;
     wrangler_jsonc := Throw (Error (str "ENOENT"));
     jsonc_writable := false; env_writable := true;
     invoked := []; dot_env := None |}.

Lemma checkWranglerCLI_account_witness :
  valid_account {| id := str "0123456789abcdef0123456789abcdef"; name := Some (str "Acme") |}.
Proof.
  apply (checkWranglerCLI_account sample_world _
           (snd (checkWranglerCLI sample_world))).
  vm_compute. reflexivity.
Defined.

End WranglerStepFacts.

(** ** setupCloudflareD1 *)

Section DatabaseStepFacts.
Import JS Setup Run.

Variable number_text : jsstring -> jsstring.

Lemma updateWranglerConfig_run binding identifier name w :
  exists w', updateWranglerConfig number_text binding identifier name w = (Value tt, w') /\
             invoked w' = invoked w /\ dot_env w' = dot_env w.
Proof.
  unfold updateWranglerConfig. eexists. split; [reflexivity|].
  match goal with
  | |- context [match ?p with Normal _ => _ | Throw _ => _ end] =>
      destruct p as [[updated [|]]|]
  end; try (now split).
  destruct (jsonc_writable w); now split.
Qed.

(** A value that a template literal can print. *)
Definition printable (v : json) : Prop := exists t, to_text number_text v = Normal t.


Lemma keeps_updateWranglerConfig binding identifier name :
  keeps_env (updateWranglerConfig number_text binding identifier name).
Proof.
  intros w. destruct (updateWranglerConfig_run binding identifier name w) as (w' & E & _ & H).
  now rewrite E.
Qed.



Lemma keeps_setupCloudflareD1 account :
  keeps_env (setupCloudflareD1 number_text account).
Proof.
  unfold setupCloudflareD1.
  apply keeps_bind; [apply keeps_ask|]. intros answer.
  apply keeps_bind.
  - destruct (lower_is_y (trim answer)).
    + apply keeps_bind; [apply keeps_prompt | intros m; apply keeps_ret].
    + apply keeps_bind; [apply keeps_prompt|]. intros d.
      unfold create_database. apply keeps_catch.
      * apply keeps_bind; [apply keeps_execAsync|]. intros out.
        apply keeps_bind; [apply keeps_lift|].
        intros [[i n]|]; [|apply keeps_throw].
        apply keeps_bind; [apply keeps_lift|]. intros _.
        apply keeps_bind; [apply keeps_lift | intros _; apply keeps_ret].
      * intros e. apply keeps_bind; [apply keeps_prompt | intros m; apply keeps_ret].
  - intros details. apply keeps_bind; [apply keeps_ask|]. intros b.
    apply keeps_bind; [apply keeps_ask|]. intros t.
    apply keeps_bind; [apply keeps_updateWranglerConfig | intros _; apply keeps_ret].
Qed.


Lemma is_uuid_nonempty i : is_uuid i = true -> i <> [].
Proof. intros H ->. discriminate. Qed.

(** The details typed by the operator. *)
Lemma manual_details defaultName w i n w' :
  (manualDetails <~ prompt (promptForExistingDatabaseDetails defaultName) ;;
   ret (JString (snd manualDetails), JString (fst manualDetails))) w = (Value (i, n), w') ->
  (exists id name, i = JString id /\ n = JString name /\ is_uuid id = true /\ name <> []) /\
  invoked w' = invoked w.
Proof.
  unfold pbind, prompt, ret.
  destruct (promptForExistingDatabaseDetails defaultName (stdin w)) as [[[dn di] rest]|] eqn:E;
    [|discriminate].
  intros H. injection H as <- <- <-. cbn [fst snd].
  unfold promptForExistingDatabaseDetails in E.
  destruct (ask_name _ _) as [[n1 r1]|] eqn:En; [|discriminate].
  destruct (ask_uuid r1) as [[i1 r2]|] eqn:Ei; [|discriminate].
  injection E as E1 E2 E3. subst.
  apply ask_name_nonempty in En. apply ask_uuid_is_uuid in Ei.
  split; [|reflexivity]. now exists di, dn.
Qed.

(** What the step hands on: values that pass the test of truth and
    that a template literal can print. *)
Definition usable (v : json) : Prop := truthy (Some v) = true /\ printable v.

Lemma usable_string s : s <> [] -> usable (JString s).
Proof. intros H. split; [now destruct s | now exists s]. Qed.

Definition create_run (account : AccountInfo) (desiredName : jsstring) (ok : bool)
    : invocation :=
  {| command := str "pnpm wrangler d1 create " ++ desiredName;
     account_env := Some (id account); succeeded := ok |}.

Lemma create_database_result account desiredName w i n w' :
  desiredName <> [] ->
  create_database number_text account desiredName w = (Value (i, n), w') ->
  usable i /\ usable n /\
  exists ok, invoked w' = invoked w ++ [create_run account desiredName ok].
Proof.
  intros Hd. unfold create_database, catch.
  match goal with
  | |- match ?m with _ => _ end = _ -> _ => destruct m as [[v|e|c|] w1] eqn:Etry
  end; try discriminate.
  - intros H. injection H as -> ->. revert Etry.
    unfold pbind, execAsync, lift, ret, throw.
    destruct (execs w) as [|[out|e] r]; try discriminate.
    destruct (parseD1CreateResult _ desiredName) as [[[i0 n0]|]|e] eqn:Ep; try discriminate.
    destruct (to_text number_text n0) as [tn|e] eqn:En; [|discriminate].
    destruct (to_text number_text i0) as [ti|e] eqn:Ei; [|discriminate].
    intros H. injection H as <- <- <-.
    destruct (parseD1CreateResult_shape _ _ _ _ Ep) as (Hi & Hn & _).
    repeat split; [exact Hi | now exists ti | exact (Hn Hd) | now exists tn | now exists true].
  - intros H. apply manual_details in H.
    destruct H as ((id & name & -> & -> & Hi & Hn) & Hinv).
    split; [apply usable_string; now apply is_uuid_nonempty|].
    split; [now apply usable_string|]. rewrite Hinv. revert Etry.
    unfold pbind, execAsync, lift, ret, throw.
    destruct (execs w) as [|[out|e0] r]; try discriminate.
    + destruct (parseD1CreateResult _ desiredName) as [[[i0 n0]|]|e0] eqn:Ep;
        try discriminate.
      * destruct (to_text number_text n0) as [tn|e1];
          [destruct (to_text number_text i0) as [ti|e1]; [discriminate|]|];
          intros H; injection H as _ <-; now exists true.
      * intros H; injection H as _ <-; now exists true.
      * intros H; injection H as _ <-; now exists true.
    + intros H. injection H as _ <-. now exists false.
Qed.

Lemma ask_nonempty_nonempty : forall lines d rest,
  ask_nonempty lines = Some (d, rest) -> d <> [].
Proof.
  induction lines as [|ans lines IH]; intros d rest H; cbn [ask_nonempty] in H; [discriminate|].
  destruct (trim ans) as [|c t]; [eapply IH, H|]. now injection H as <- <-.
Qed.

Lemma setupCloudflareD1_run account w d1 w' :
  setupCloudflareD1 number_text account w = (Value d1, w') ->
  bindingName d1 <> [] /\ usable (databaseId d1) /\ usable (databaseName d1) /\
  dot_env w' = dot_env w /\
  (invoked w' = invoked w \/
   exists desiredName ok,
     desiredName <> [] /\ invoked w' = invoked w ++ [create_run account desiredName ok]).
Proof.
  intros H. assert (Hk : dot_env w' = dot_env w).
  { change w' with (snd (Value d1, w')). rewrite <- H. apply keeps_setupCloudflareD1. }
  revert H.
  unfold setupCloudflareD1. unfold pbind at 1. unfold ask at 1.
  destruct (question (stdin w)) as [[answer l1]|]; [|discriminate].
  unfold pbind at 1.
  match goal with
  | |- match ?m with _ => _ end = _ -> _ => destruct m as [[[i n]|e|c|] w1] eqn:Edetails
  end; try discriminate.
  assert (Hdetails : usable i /\ usable n /\
            (invoked w1 = invoked w \/
             exists desiredName ok,
               desiredName <> [] /\
               invoked w1 = invoked w ++ [create_run account desiredName ok])).
  { destruct (lower_is_y (trim answer)).
    - apply manual_details in Edetails.
      destruct Edetails as ((id & name & -> & -> & Hi & Hn) & Hinv).
      split; [apply usable_string; now apply is_uuid_nonempty|].
      split; [now apply usable_string | now left].
    - revert Edetails. unfold pbind at 1. unfold prompt at 1. cbn [stdin set_stdin].
      destruct (ask_nonempty l1) as [[d l2]|] eqn:Ed; [|discriminate].
      intros Hc. apply ask_nonempty_nonempty in Ed.
      apply create_database_result in Hc; [|exact Ed].
      destruct Hc as (Hi & Hn & ok & Hinv).
      split; [exact Hi|]. split; [exact Hn|]. right. now exists d, ok. }
  destruct Hdetails as (Hi & Hn & Hinv).
  unfold pbind at 1. unfold ask at 1.
  destruct (question (stdin w1)) as [[b l3]|]; [|discriminate].
  unfold pbind at 1. unfold ask at 1. cbn [stdin set_stdin].
  destruct (question l3) as [[t l4]|]; [|discriminate].
  unfold pbind at 1.
  match goal with
  | |- context [updateWranglerConfig number_text ?b ?i ?n ?w] =>
      destruct (updateWranglerConfig_run b i n w) as (w2 & -> & Hinv2 & Hk2)
  end.
  unfold ret. intros H. injection H as <- <-.
  cbn [bindingName databaseId databaseName fst snd].
  split; [destruct (trim b); discriminate|].
  split; [exact Hi|]. split; [exact Hn|]. split; [exact Hk|].
  rewrite Hinv2. exact Hinv.
Qed.

(** X16.  What the step returns can be used: the binding name is not
    empty, and the identifier and the name of the database pass the
    test of truth and can be printed by a template literal (the step
    printed them, or the operator typed them).  The step runs one
    command at most, the creation of the database, with the id of the
    account in its environment. *)
Theorem setupCloudflareD1_result (account : AccountInfo) (w : world)
    (d1 : D1SetupResult) (w' : world) :
  setupCloudflareD1 number_text account w = (Value d1, w') ->
  bindingName d1 <> [] /\
  (truthy (Some (databaseId d1)) = true /\
   exists text, to_text number_text (databaseId d1) = Normal text) /\
  (truthy (Some (databaseName d1)) = true /\
   exists text, to_text number_text (databaseName d1) = Normal text) /\
  (invoked w' = invoked w \/
   exists desiredName ok,
     desiredName <> [] /\ invoked w' = invoked w ++ [create_run account desiredName ok]).
Proof.
  intros H. destruct (setupCloudflareD1_run account w d1 w' H) as (Hb & Hi & Hn & _ & Hr).
  split; [exact Hb|]. split; [exact Hi|]. split; [exact Hn | exact Hr].
Qed.

End DatabaseStepFacts.

Section DatabaseStepExample.
Import JS Setup Run.

Definition d1_world : world :=
  {| execs := [Normal (str "Created DB shop " ++ sample_uuid, [])];
     stdin := [str "n"; str ""; str "shop"; str ""; str "token"];
     entropy := fun _ => Byte.x00; drawn := 0;
     wrangler_jsonc := Throw (Error (str "ENOENT"));
     jsonc_writable := false; env_writable := true;
     invoked := []; dot_env := None |}.

Definition d1_result : D1SetupResult :=
  {| databaseId := JString sample_uuid; databaseName := JString (str "shop");
     bindingName := str "DB"; apiToken := str "token" |}.

Lemma setupCloudflareD1_result_witness :
  bindingName d1_result <> [] /\
  (truthy (Some (databaseId d1_result)) = true /\
   exists text, to_text (fun lexeme => lexeme) (databaseId d1_result) = Normal text) /\
  (truthy (Some (databaseName d1_result)) = true /\
   exists text, to_text (fun lexeme => lexeme) (databaseName d1_result) = Normal text) /\
  (invoked (snd (setupCloudflareD1 (fun lexeme => lexeme) acme d1_world)) = invoked d1_world \/
   exists desiredName ok,
     desiredName <> [] /\
     invoked (snd (setupCloudflareD1 (fun lexeme => lexeme) acme d1_world)) =
       invoked d1_world ++ [create_run acme desiredName ok]).
Proof.
  apply (setupCloudflareD1_result (fun lexeme => lexeme) acme d1_world d1_result
           (snd (setupCloudflareD1 (fun lexeme => lexeme) acme d1_world))).
  vm_compute. reflexivity.
Defined.

(** The identifier need not be a string: when the JSON of wrangler
    gives the empty array for it, the step returns the array, whose
    text is empty. *)
Example setupCloudflareD1_identifier_without_text :
  let w := {| execs := [Normal (dq "{'uuid': [], 'name': 'shop'}", [])];
              stdin := stdin d1_world; entropy := entropy d1_world; drawn := 0;
              wrangler_jsonc := wrangler_jsonc d1_world;
              jsonc_writable := false; env_writable := true;
              invoked := []; dot_env := None |} in
  fst (setupCloudflareD1 (fun lexeme => lexeme) acme w) =
    Value {| databaseId := JArray []; databaseName := JString (str "shop");
             bindingName := str "DB"; apiToken := str "token" |} /\
  to_text (fun lexeme => lexeme) (JArray []) = Normal [].
Proof. split; vm_compute; reflexivity. Qed.

End DatabaseStepExample.

(** ** generateAuthSecret *)

Section SecretFacts.
Import JS Setup Run.

Lemma nibble_injective a b :
  (a < 16)%N -> (b < 16)%N -> nibble a = nibble b -> a = b.
Proof.
  unfold nibble. intros Ha Hb.
  destruct (N.ltb_spec a 10), (N.ltb_spec b 10); lia.
Qed.

Lemma nibble_hex a : (a < 16)%N -> lower_hex_digit (nibble a) = true.
Proof.
  unfold nibble, lower_hex_digit. intros Ha.
  destruct (N.ltb_spec a 10); codes_lia.
Qed.

Lemma byte_bound b : (Byte.to_N b < 256)%N.
Proof. destruct b; reflexivity. Qed.

Lemma to_N_injective a b : Byte.to_N a = Byte.to_N b -> a = b.
Proof.
  intros H. pose proof (Byte.of_to_N a) as Ha. pose proof (Byte.of_to_N b) as Hb.
  rewrite H in Ha. congruence.
Qed.

Lemma hex_of_byte_injective a b : hex_of_byte a = hex_of_byte b -> a = b.
Proof.
  unfold hex_of_byte. intros H. injection H as Hhi Hlo.
  pose proof (byte_bound a) as Ba. pose proof (byte_bound b) as Bb.
  apply nibble_injective in Hhi;
    [|apply N.Div0.div_lt_upper_bound; lia | apply N.Div0.div_lt_upper_bound; lia].
  apply nibble_injective in Hlo; [|apply N.mod_lt; lia | apply N.mod_lt; lia].
  apply to_N_injective.
  rewrite (N.div_mod' (Byte.to_N a) 16), (N.div_mod' (Byte.to_N b) 16). congruence.
Qed.

Lemma toString_hex_injective : forall a b, toString_hex a = toString_hex b -> a = b.
Proof.
  unfold toString_hex.
  induction a as [|x a IH]; intros [|y b] H; try discriminate; [reflexivity|].
  cbn [flat_map hex_of_byte app] in H. injection H as Hhi Hlo H.
  f_equal; [|now apply IH].
  apply hex_of_byte_injective. unfold hex_of_byte. now rewrite Hhi, Hlo.
Qed.

Lemma toString_hex_shape : forall bytes,
  length (toString_hex bytes) = 2 * length bytes /\
  forallb lower_hex_digit (toString_hex bytes) = true.
Proof.
  unfold toString_hex. induction bytes as [|b bytes [IHl IHh]]; [now split|].
  cbn [flat_map hex_of_byte app length forallb]. split; [rewrite IHl; lia|].
  pose proof (byte_bound b) as Bb.
  rewrite !nibble_hex, IHh; [reflexivity | apply N.mod_lt; lia |
    apply N.Div0.div_lt_upper_bound; lia].
Qed.

Lemma generateAuthSecret_run w :
  let bytes := map (entropy w) (seq (drawn w) 32) in
  generateAuthSecret w = (Value (toString_hex bytes), draw 32 w) /\
  length (toString_hex bytes) = 64 /\
  forallb lower_hex_digit (toString_hex bytes) = true.
Proof.
  intros bytes. repeat apply conj.
  - reflexivity.
  - rewrite (proj1 (toString_hex_shape bytes)). unfold bytes.
    now rewrite length_map, length_seq.
  - apply toString_hex_shape.
Qed.

(** X17.  The secret is the next 32 random bytes in hexadecimal: 64
    digits out of 0-9 and a-f, from which the bytes can be read back,
    so that different bytes give different secrets. *)
Theorem generateAuthSecret_secret (w : world) :
  let bytes := map (entropy w) (seq (drawn w) 32) in
  generateAuthSecret w = (Value (toString_hex bytes), draw 32 w) /\
  length (toString_hex bytes) = 64 /\
  forallb lower_hex_digit (toString_hex bytes) = true /\
  forall others, toString_hex others = toString_hex bytes -> others = bytes.
Proof.
  intros bytes. destruct (generateAuthSecret_run w) as (Hr & Hl & Hh).
  repeat apply conj; try assumption.
  intros others. apply toString_hex_injective.
Qed.

End SecretFacts.

(** ** The whole script *)

Section ScriptFacts.
Import JS Setup Run.

Variable number_text : jsstring -> jsstring.













End ScriptFacts.

Section ScriptExamples.
Import JS Setup Run.



End ScriptExamples.

From Stdlib Require Import Permutation.

(** ** The callers of ensureD1Schema *)

Section CallerFacts.
Import JS Bootstrap.

(** The callers that entered, in the order of their calls. *)
Definition callers (tr : list event) : list nat :=
  flat_map (fun e => match e with Call c _ => [c] | _ => [] end) tr.

(** The callers a state knows: those that have returned and those
    that wait. *)
Definition known (s : state) : list nat :=
  map fst (returned s) ++ map fst (waiting s).

Lemma filter_split {A} (p : A -> bool) (l : list A) :
  Permutation (filter p l ++ filter (fun x => negb (p x)) l) l.
Proof.
  induction l as [|x l IH]; [constructor|]. cbn [filter].
  destruct (p x); cbn [negb app].
  - now constructor.
  - apply Permutation_sym, Permutation_cons_app, Permutation_sym, IH.
Qed.

Lemma known_await c s :
  Permutation (known (await_bootstrap c s)) (known s ++ [c]).
Proof.
  unfold await_bootstrap, known.
  destruct (bootstrapPromise s) as [a|]; cbn [returned waiting].
  - destruct (option_map derived (nth_error (attempts s) a)) as [[|o]|];
      cbn [returned waiting]; rewrite map_app; cbn [map fst].
    + now rewrite app_assoc.
    + rewrite <- !app_assoc. apply Permutation_app_head, Permutation_app_comm.
    + now rewrite app_assoc.
  - rewrite map_app. cbn [map fst]. rewrite <- !app_assoc.
    apply Permutation_app_head, Permutation_app_comm.
Qed.

Lemma known_step s e s' :
  step s e = Some s' -> Permutation (known s') (known s ++ callers [e]).
Proof.
  destruct e as [c x|a o|a]; cbn [step callers flat_map app].
  - intros H. injection H as <-. unfold ensureD1Schema.
    destruct (isD1DatabaseLike x); cbn [negb].
    + destruct (bootstrapPromise s) as [a|] eqn:Eb; [apply known_await|].
      destruct (reach _ _ 0 (log s)) as [t l].
      etransitivity; [apply known_await|]. reflexivity.
    + unfold known. cbn [returned waiting]. rewrite map_app. cbn [map fst].
      rewrite <- !app_assoc. apply Permutation_app_head, Permutation_app_comm.
  - rewrite app_nil_r.
    destruct (nth_error (attempts s) a) as [t|]; [|discriminate].
    destruct (body t); [|discriminate].
    destruct o as [|e].
    + destruct (reach _ _ _ _) as [t' l]. intros H. injection H as <-. reflexivity.
    + intros H. injection H as <-. reflexivity.
  - rewrite app_nil_r.
    destruct (nth_error (attempts s) a) as [t|]; [|discriminate].
    destruct (body t) as [|o]; [discriminate|].
    destruct (derived t); [|discriminate].
    intros H. injection H as <-. unfold known. cbn [returned waiting].
    rewrite !map_app, map_map. cbn [fst]. rewrite <- app_assoc.
    apply Permutation_app_head. rewrite <- map_app. apply Permutation_map.
    apply filter_split.
Qed.

Lemma known_run : forall tr s s',
  run s tr = Some s' -> Permutation (known s') (known s ++ callers tr).
Proof.
  induction tr as [|e tr IH]; intros s s' H; cbn [run] in H.
  - injection H as <-. cbn. now rewrite app_nil_r.
  - destruct (step s e) as [s1|] eqn:E; [|discriminate].
    etransitivity; [exact (IH _ _ H)|].
    etransitivity; [apply Permutation_app_tail, (known_step _ _ _ E)|].
    rewrite <- app_assoc.
    replace (callers (e :: tr)) with (callers [e] ++ callers tr); [reflexivity|].
    unfold callers. cbn [flat_map]. now rewrite app_nil_r.
Qed.

(** X19.  No caller is lost and none is answered twice: along every
    schedule, the callers that have returned and the callers that
    still wait are, together, exactly the callers that entered. *)
Theorem ensureD1Schema_callers_accounted (tr : list event) (s : state) :
  run initial tr = Some s ->
  Permutation (map fst (returned s) ++ map fst (waiting s)) (callers tr).
Proof. intros H. exact (known_run tr initial s H). Qed.

Definition busy_schedule : list event :=
  [ Call 1 (Object (Some (FunctionValued 7))); Call 2 Null;
    Call 3 (Object (Some (FunctionValued 7))); RunSettles 0 (Rejected TypeError);
    BodyReaction 0; Call 4 (Object (Some (FunctionValued 7))) ].

Definition busy_state : state :=
  match run initial busy_schedule with Some s => s | None => initial end.

Lemma ensureD1Schema_callers_accounted_witness :
  Permutation (map fst (returned busy_state) ++ map fst (waiting busy_state))
              (callers busy_schedule).
Proof.
  apply (ensureD1Schema_callers_accounted busy_schedule busy_state).
  vm_compute. reflexivity.
Defined.

(** *** Where the errors come from *)

(** A handle rejected with [e]. *)
Definition produced (l : list op) (e : error) : Prop :=
  exists a i, In (Done a i (Rejected e)) l.

Record Origin (s : state) : Prop := {
  O_body : forall a t e,
    nth_error (attempts s) a = Some t -> body t = Settled (Rejected e) ->
    produced (log s) e;
  O_derived : forall a t o,
    nth_error (attempts s) a = Some t -> derived t = Settled o -> body t = Settled o;
  O_returned : forall c e,
    In (c, Rejected e) (returned s) -> e = not_available \/ produced (log s) e
}.

Lemma produced_app l l' e : produced l e -> produced (l ++ l') e.
Proof. intros (a & i & H). exists a, i. apply in_or_app. now left. Qed.

Lemma nth_error_set_attempt a t l a' :
  a < length l ->
  nth_error (set_attempt a t l) a' = if (a' =? a)%nat then Some t else nth_error l a'.
Proof.
  intros Ha. unfold set_attempt.
  assert (Hf : length (firstn a l) = a) by (rewrite length_firstn; lia).
  destruct (Nat.eqb_spec a' a) as [->|Hne].
  - rewrite nth_error_app2 by lia. now rewrite Hf, Nat.sub_diag.
  - destruct (Nat.lt_ge_cases a' a) as [Hlt|Hge].
    + rewrite nth_error_app1 by lia. rewrite nth_error_firstn.
      destruct (Nat.ltb_spec a' a); [reflexivity | lia].
    + rewrite nth_error_app2 by lia. rewrite Hf.
      destruct (a' - a) as [|k] eqn:Ek; [lia|]. cbn [app nth_error].
      rewrite nth_error_skipn. f_equal. lia.
Qed.

Lemma reach_shape a t i l :
  let (t', l') := reach a t i l in
  derived t' = derived t /\ (body t' = Pending \/ body t' = Settled Fulfilled) /\
  exists extra, l' = l ++ extra.
Proof.
  unfold reach. destruct (nth_error MIGRATION_STATEMENTS i).
  - repeat apply conj; [reflexivity | now left | now eexists].
  - repeat apply conj; [reflexivity | now right | exists []; now rewrite app_nil_r].
Qed.

Lemma Origin_await c s : Origin s -> Origin (await_bootstrap c s).
Proof.
  intros [Hb Hd Hr]. unfold await_bootstrap.
  destruct (bootstrapPromise s) as [a|].
  - destruct (nth_error (attempts s) a) as [t|] eqn:Et; cbn [option_map].
    + destruct (derived t) as [|o] eqn:Ed; constructor; cbn [attempts log returned];
        try assumption.
      intros c' e Hin. apply in_app_or in Hin. destruct Hin as [Hin|[Hin|[]]]; [eauto|].
      injection Hin as <- ->. right. eapply Hb; [exact Et|]. eapply Hd; eassumption.
    + constructor; assumption.
  - constructor; cbn [attempts log returned]; try assumption.
    intros c' e Hin. apply in_app_or in Hin. destruct Hin as [Hin|[Hin|[]]]; [eauto|].
    discriminate.
Qed.

Lemma Origin_step s e s' : Origin s -> step s e = Some s' -> Origin s'.
Proof.
  intros HO. pose proof HO as [Hb Hd Hr].
  destruct e as [c x|a o|a]; cbn [step].
  - intros H. injection H as <-. unfold ensureD1Schema.
    destruct (isD1DatabaseLike x); cbn [negb].
    + destruct (bootstrapPromise s) as [a|] eqn:Eb; apply Origin_await; [exact HO|].
      pose proof (reach_shape (length (attempts s))
                    {| db := handle_of x; next := 0; body := Pending; derived := Pending |}
                    0 (log s)) as Hreach.
      destruct (reach _ _ 0 (log s)) as [t l]. cbn [derived] in Hreach.
      destruct Hreach as (Hdt & Hbt & extra & ->).
      constructor; cbn [attempts log returned].
      * intros a t0 e Hn Hbody. apply produced_app.
        apply nth_error_snoc_cases in Hn. destruct Hn as [Hn|[_ ->]]; [eauto|].
        destruct Hbt as [E|E]; rewrite E in Hbody; discriminate.
      * intros a t0 o Hn Hder.
        apply nth_error_snoc_cases in Hn. destruct Hn as [Hn|[_ ->]]; [eauto|].
        rewrite Hdt in Hder. discriminate.
      * intros c' e Hin. destruct (Hr _ _ Hin) as [->|Hp]; [now left|].
        right. now apply produced_app.
    + constructor; cbn [attempts log returned]; try assumption.
      intros c' e Hin. apply in_app_or in Hin. destruct Hin as [Hin|[Hin|[]]]; [eauto|].
      injection Hin as _ <-. now left.
  - destruct (nth_error (attempts s) a) as [t|] eqn:Et; [|discriminate].
    assert (Ha : a < length (attempts s)) by (apply nth_error_Some; congruence).
    destruct (body t) eqn:Ebody; [|discriminate].
    destruct o as [|e].
    + pose proof (reach_shape a t (S (next t)) (log s ++ [Done a (next t) Fulfilled]))
        as Hreach.
      destruct (reach _ _ _ _) as [t' l]. destruct Hreach as (Hdt & Hbt & extra & ->).
      intros H. injection H as <-. constructor; cbn [attempts log returned].
      * intros a' t0 e Hn Hbody. rewrite <- app_assoc. apply produced_app.
        rewrite nth_error_set_attempt in Hn by exact Ha.
        destruct (a' =? a)%nat; [|eauto].
        injection Hn as <-. destruct Hbt as [E|E]; rewrite E in Hbody; discriminate.
      * intros a' t0 o Hn Hder. rewrite nth_error_set_attempt in Hn by exact Ha.
        destruct (a' =? a)%nat; [|eauto].
        injection Hn as <-. rewrite Hdt in Hder.
        pose proof (Hd _ _ _ Et Hder) as Hc. rewrite Ebody in Hc. discriminate.
      * intros c' e Hin. destruct (Hr _ _ Hin) as [->|Hp]; [now left|].
        right. rewrite <- app_assoc. now apply produced_app.
    + intros H. injection H as <-. constructor; cbn [attempts log returned].
      * intros a' t0 e' Hn Hbody. rewrite nth_error_set_attempt in Hn by exact Ha.
        destruct (a' =? a)%nat.
        -- injection Hn as <-. cbn [body] in Hbody. injection Hbody as <-.
           exists a, (next t). apply in_or_app. right. now left.
        -- apply produced_app. eauto.
      * intros a' t0 o Hn Hder. rewrite nth_error_set_attempt in Hn by exact Ha.
        destruct (a' =? a)%nat; [|eauto].
        injection Hn as <-. cbn [derived] in Hder.
        pose proof (Hd _ _ _ Et Hder) as Hc. rewrite Ebody in Hc. discriminate.
      * intros c' e' Hin. destruct (Hr _ _ Hin) as [->|Hp]; [now left|].
        right. now apply produced_app.
  - destruct (nth_error (attempts s) a) as [t|] eqn:Et; [|discriminate].
    assert (Ha : a < length (attempts s)) by (apply nth_error_Some; congruence).
    destruct (body t) as [|o] eqn:Ebody; [discriminate|].
    destruct (derived t) eqn:Eder; [|discriminate].
    intros H. injection H as <-. constructor; cbn [attempts log returned].
    + intros a' t0 e Hn Hbody. rewrite nth_error_set_attempt in Hn by exact Ha.
      destruct (a' =? a)%nat; [|eauto].
      injection Hn as <-. cbn [body] in Hbody. eapply Hb; [exact Et | congruence].
    + intros a' t0 o' Hn Hder. rewrite nth_error_set_attempt in Hn by exact Ha.
      destruct (a' =? a)%nat; [|eauto].
      injection Hn as <-. cbn [derived body] in *. congruence.
    + intros c' e Hin. apply in_app_or in Hin. destruct Hin as [Hin|Hin]; [eauto|].
      apply in_map_iff in Hin. destruct Hin as (w & Hw & _). injection Hw as _ ->.
      right. eauto.
Qed.

Lemma Origin_initial : Origin initial.
Proof.
  constructor; cbn.
  - intros a t e Hn. destruct a; discriminate.
  - intros a t o Hn. destruct a; discriminate.
  - intros c e [].
Qed.

Lemma Origin_run : forall tr s s', Origin s -> run s tr = Some s' -> Origin s'.
Proof.
  induction tr as [|e tr IH]; intros s s' HO H; cbn [run] in H.
  - now injection H as <-.
  - destruct (step s e) as [s1|] eqn:E; [|discriminate].
    exact (IH _ _ (Origin_step _ _ _ HO E) H).
Qed.

(** X20.  No error is made up and none is replaced by another: a caller
    that is rejected gets the error of a missing binding, or the very
    error with which a statement failed on a handle. *)
Theorem ensureD1Schema_errors_come_from_handles
    (tr : list event) (s : state) (c : nat) (e : error) :
  run initial tr = Some s -> In (c, Rejected e) (returned s) ->
  e = not_available \/ exists a i, In (Done a i (Rejected e)) (log s).
Proof.
  intros Hrun Hin. exact (O_returned s (Origin_run tr initial s Origin_initial Hrun) c e Hin).
Qed.

Lemma ensureD1Schema_errors_come_from_handles_witness :
  TypeError = not_available \/
  exists a i, In (Done a i (Rejected TypeError)) (log busy_state).
Proof.
  apply (ensureD1Schema_errors_come_from_handles busy_schedule busy_state 1 TypeError).
  - vm_compute. reflexivity.
  - vm_compute. tauto.
Defined.

End CallerFacts.

(** ** resolveD1Database and getDb *)

Section DatabaseOfRequest.
Import JS Bootstrap Db.

Variable inherited : jsstring -> binding.

Lemma resolveD1Database_order process_env env b :
  resolveD1Database inherited process_env env = Normal b ->
  exists envRecord,
    env = Some envRecord /\ truthy b = true /\
    let preferred := get inherited envRecord (preferredBindingName inherited process_env envRecord) in
    let my_d1 := get inherited envRecord (str "MY_D1") in
    (b = preferred \/
     (nullish preferred = true /\ b = my_d1) \/
     (nullish preferred = true /\ nullish my_d1 = true /\
      b = get inherited envRecord (str "DB"))).
Proof.
  unfold resolveD1Database. destruct env as [envRecord|]; [|discriminate].
  cbv zeta.
  set (preferred := get inherited envRecord (preferredBindingName inherited process_env envRecord)).
  set (my_d1 := get inherited envRecord (str "MY_D1")).
  destruct (truthy (coalesce preferred (coalesce my_d1 _))) eqn:Et; cbn [negb]; [|discriminate].
  intros H. injection H as <-. exists envRecord.
  split; [reflexivity|]. split; [exact Et|].
  unfold coalesce. destruct (nullish preferred) eqn:Ep; [|now left].
  destruct (nullish my_d1) eqn:Em; right; [right | left]; now repeat split.
Qed.

(** X21.  The binding returned is truthy and is the first of three that is
    neither [undefined] nor [null]: the one under the configured name,
    the one under MY_D1, the one under DB. *)
Theorem resolveD1Database_first_present
    (process_env : option jsstring) (env : option (list (jsstring * binding)))
    (b : binding) :
  resolveD1Database inherited process_env env = Normal b ->
  exists envRecord,
    env = Some envRecord /\ truthy b = true /\
    let preferred := get inherited envRecord (preferredBindingName inherited process_env envRecord) in
    let my_d1 := get inherited envRecord (str "MY_D1") in
    (b = preferred \/
     (nullish preferred = true /\ b = my_d1) \/
     (nullish preferred = true /\ nullish my_d1 = true /\
      b = get inherited envRecord (str "DB"))).
Proof. exact (resolveD1Database_order process_env env b). Qed.

(** X22.  A binding under the configured name that is there but falsy, an
    empty string or a zero, is not passed over: the lookup fails with
    the missing-binding error whatever MY_D1 and DB hold. *)
Theorem resolveD1Database_falsy_binding_blocks
    (process_env : option jsstring) (envRecord : list (jsstring * binding)) :
  let name := preferredBindingName inherited process_env envRecord in
  nullish (get inherited envRecord name) = false ->
  truthy (get inherited envRecord name) = false ->
  resolveD1Database inherited process_env (Some envRecord) =
    Throw (missing_binding name envRecord).
Proof.
  intros name Hn Ht. unfold resolveD1Database. cbv zeta. fold name.
  unfold coalesce at 1. now rewrite Hn, Ht.
Qed.

Lemma preferredBindingName_trim s envRecord :
  preferredBindingName inherited (Some s) envRecord =
  match trim s with [] => str "DB" | (_ :: _) as name => name end.
Proof. unfold preferredBindingName. cbn [option_map]. now destruct (trim s). Qed.

(** X23.  The name configured in the variable of the process is used
    trimmed, and a blank one stands for DB. *)
Theorem resolveD1Database_name_normalised
    (s : jsstring) (env : option (list (jsstring * binding))) :
  resolveD1Database inherited (Some s) env =
  resolveD1Database inherited
    (Some (match trim s with [] => str "DB" | (_ :: _) as name => name end)) env.
Proof.
  unfold resolveD1Database. destruct env as [envRecord|]; [|reflexivity].
  cbv zeta. rewrite !preferredBindingName_trim.
  destruct (trim s) as [|c t] eqn:E; [reflexivity|].
  rewrite <- E, trim_idempotent, E. reflexivity.
Qed.

Lemma await_bootstrap_log c s : log (await_bootstrap c s) = log s.
Proof.
  unfold await_bootstrap. destruct (bootstrapPromise s) as [a|]; [|reflexivity].
  destruct (option_map derived (nth_error (attempts s) a)) as [[|o]|]; reflexivity.
Qed.

(** X24.  A request makes the handles see something only when its binding
    resolves to an object whose [prepare] is a function and no
    bootstrap is remembered: in every other case, the errors of
    [resolveD1Database] and of [ensureD1Schema] included, nothing is
    issued. *)
Theorem getDb_issues_on_database_only
    (c : nat) (process_env : option jsstring)
    (env : option (list (jsstring * binding))) (s : state) :
  log (getDb inherited c process_env env s) = log s \/
  exists h,
    resolveD1Database inherited process_env env = Normal (Resource (Some (FunctionValued h))) /\
    bootstrapPromise s = None.
Proof.
  unfold getDb. destruct (resolveD1Database inherited process_env env) as [b|e];
    [|now left].
  unfold ensureD1Schema.
  destruct (isD1DatabaseLike (to_candidate b)) eqn:Ed; cbn [negb]; [|now left].
  destruct (bootstrapPromise s) eqn:Eb; [left; apply await_bootstrap_log|].
  right. destruct b as [| | | | |[[h|]|]]; try discriminate. now exists h.
Qed.

End DatabaseOfRequest.

Section DatabaseOfRequestExamples.
Import JS Bootstrap Db.

Definition plain_object (name : jsstring) : binding := Missing.

Definition database : binding := Resource (Some (FunctionValued 7)).

Definition request_env : list (jsstring * binding) :=
  [ (str "CACHE", Resource None); (str "MAIN", Text []); (str "DB", database) ].

Lemma resolveD1Database_first_present_witness :
  exists envRecord,
    Some request_env = Some envRecord /\ truthy database = true /\
    let preferred := get plain_object envRecord
                       (preferredBindingName plain_object (Some (str " D1 ")) envRecord) in
    let my_d1 := get plain_object envRecord (str "MY_D1") in
    (database = preferred \/
     (nullish preferred = true /\ database = my_d1) \/
     (nullish preferred = true /\ nullish my_d1 = true /\
      database = get plain_object envRecord (str "DB"))).
Proof.
  apply (resolveD1Database_first_present plain_object (Some (str " D1 "))
           (Some request_env) database).
  vm_compute. reflexivity.
Defined.

Lemma resolveD1Database_falsy_binding_blocks_witness :
  resolveD1Database plain_object (Some (str "MAIN")) (Some request_env) =
    Throw (missing_binding (preferredBindingName plain_object (Some (str "MAIN")) request_env)
             request_env).
Proof.
  apply (resolveD1Database_falsy_binding_blocks plain_object (Some (str "MAIN")) request_env);
    vm_compute; reflexivity.
Defined.

End DatabaseOfRequestExamples.

(** ** remoteCallback *)

Section RemoteFacts.
Import JS Remote.

Variable number_text : jsstring -> jsstring.

Lemma opt_first_cons item rest : opt_first (Some (JArray (item :: rest))) = Some item.
Proof. reflexivity. Qed.

Lemma opt_member_get (item : json) (k : string) :
  get item k <> None -> opt_member (Some item) k = get item k.
Proof. destruct item; cbn [opt_member get]; congruence. Qed.

(** X25.  How a call ends, by the response.  Rows are returned exactly
    when the status is ok and the body reports success: they are the
    array under [results] of the first entry of [result], or the array
    under [rows] of the object found there, and no rows when [result]
    is missing or empty.  A body that is [null] gives a [TypeError].
    Every other response gives an [Error]: its message is one line
    for each entry of [errors], the code and the message of the entry
    with [unknown] and [Unknown error] for a code that is no number
    and a message that is no string, when [errors] is an array that
    is not empty, and the text with the status otherwise. *)
Theorem remoteCallback_outcome (resp : response) (data : json) :
  body resp = Normal data ->
  match remoteCallback number_text (Normal resp) with
  | Normal rows =>
      ok resp = true /\ truthy (get data "success") = true /\
      (forall item rest found,
         get data "result" = Some (JArray (item :: rest)) ->
         get item "results" = Some (JArray found) -> rows = found) /\
      (forall item rest inner found,
         get data "result" = Some (JArray (item :: rest)) ->
         get item "results" = Some (JObject inner) ->
         lookup (str "rows") inner None = Some (JArray found) -> rows = found) /\
      (forall item rest inner,
         get data "result" = Some (JArray (item :: rest)) ->
         get item "results" = Some (JObject inner) ->
         (forall found, lookup (str "rows") inner None <> Some (JArray found)) ->
         rows = []) /\
      (forall item rest,
         get data "result" = Some (JArray (item :: rest)) ->
         (forall found, get item "results" <> Some (JArray found)) ->
         (forall inner, get item "results" <> Some (JObject inner)) -> rows = []) /\
      (nullish (get data "result") = true \/ get data "result" = Some (JArray []) ->
       rows = [])
  | Throw TypeError => data = JNull
  | Throw (Error message) =>
      data <> JNull /\ (ok resp = false \/ truthy (get data "success") = false) /\
      (forall entry entries,
         get data "errors" = Some (JArray (entry :: entries)) ->
         message = join [10%N] (map (error_line number_text) (entry :: entries))) /\
      ((forall entry entries, get data "errors" <> Some (JArray (entry :: entries))) ->
       message = str "Unexpected response from Cloudflare D1 API (" ++ status resp ++ str ")")
  | Throw _ => False
  end /\
  (forall entry : json,
     exists code message,
       error_line number_text entry = code ++ str ": " ++ message /\
       (forall lexeme, get entry "code" = Some (JNumber lexeme) -> code = number_text lexeme) /\
       ((forall lexeme, get entry "code" <> Some (JNumber lexeme)) -> code = str "unknown") /\
       (forall text, get entry "message" = Some (JString text) -> message = text) /\
       ((forall text, get entry "message" <> Some (JString text)) ->
        message = str "Unknown error")).
Proof.
  intros Hb. split.
  - assert (Hrows : forall result : value,
      let rows := match opt_member (opt_first result) "results" with
                  | Some (JArray rows) => rows
                  | Some (JObject fields) =>
                      match lookup (str "rows") fields None with
                      | Some (JArray rows) => rows
                      | _ => []
                      end
                  | _ => []
                  end in
      (forall item rest found,
         result = Some (JArray (item :: rest)) ->
         get item "results" = Some (JArray found) -> rows = found) /\
      (forall item rest inner found,
         result = Some (JArray (item :: rest)) ->
         get item "results" = Some (JObject inner) ->
         lookup (str "rows") inner None = Some (JArray found) -> rows = found) /\
      (forall item rest inner,
         result = Some (JArray (item :: rest)) ->
         get item "results" = Some (JObject inner) ->
         (forall found, lookup (str "rows") inner None <> Some (JArray found)) ->
         rows = []) /\
      (forall item rest,
         result = Some (JArray (item :: rest)) ->
         (forall found, get item "results" <> Some (JArray found)) ->
         (forall inner, get item "results" <> Some (JObject inner)) -> rows = []) /\
      (nullish result = true \/ result = Some (JArray []) -> rows = [])).
    { intros result rows. subst rows. repeat split.
      - intros item rest found -> Hg. rewrite opt_first_cons, opt_member_get, Hg; congruence.
      - intros item rest inner found -> Hg Hr.
        rewrite opt_first_cons, opt_member_get, Hg, ?Hr; congruence.
      - intros item rest inner -> Hg Hr.
        rewrite opt_first_cons, opt_member_get, Hg by congruence.
        destruct (lookup (str "rows") inner None) as [[| | | |found|]|]; try reflexivity.
        now destruct (Hr found).
      - intros item rest -> Ha Ho. rewrite opt_first_cons.
        destruct (get item "results") as [[| | | |found|inner]|] eqn:Hg.
        1-4: rewrite opt_member_get, Hg; congruence.
        + now destruct (Ha found).
        + now destruct (Ho inner).
        + destruct item; cbn [opt_member]; try rewrite Hg; reflexivity.
      - intros [Hn| ->]; [|reflexivity].
        destruct result as [[]|]; try discriminate; reflexivity. }
    assert (Hmsg : forall errors : value,
      let message :=
        match errors with
        | Some (JArray ((_ :: _) as entries)) => join [10%N] (map (error_line number_text) entries)
        | _ => str "Unexpected response from Cloudflare D1 API (" ++ status resp ++ str ")"
        end in
      (forall entry entries,
         errors = Some (JArray (entry :: entries)) ->
         message = join [10%N] (map (error_line number_text) (entry :: entries))) /\
      ((forall entry entries, errors <> Some (JArray (entry :: entries))) ->
       message = str "Unexpected response from Cloudflare D1 API (" ++ status resp ++ str ")")).
    { intros errors message. subst message. split.
      - intros entry entries ->. reflexivity.
      - intros Hno. destruct errors as [[| | | |[|entry entries]|]|]; try reflexivity.
        now destruct (Hno entry entries). }
    unfold remoteCallback. cbn [bind]. rewrite Hb. cbn [bind].
    destruct (ok resp); cbn [negb bind].
    + destruct data as [|b|n|s|items|fields]; cbn [member bind get negb truthy];
        try reflexivity;
        try (split; [discriminate | split; [now right | apply (Hmsg None)]]).
      destruct (truthy (lookup (str "success") fields None)) eqn:Et; cbn [negb bind].
      * split; [reflexivity|]. split; [reflexivity|]. apply Hrows.
      * split; [discriminate|]. split; [now right|]. apply Hmsg.
    + destruct data as [|b|n|s|items|fields]; cbn [member bind get];
        try reflexivity;
        (split; [discriminate | split; [now left | apply Hmsg]]).
  - intros entry. unfold error_line. do 2 eexists. split; [reflexivity|].
    assert (Hm : forall k, opt_member (Some entry) k = get entry k)
      by (intros k; now destruct entry).
    rewrite !Hm. repeat split.
    + intros lexeme ->. reflexivity.
    + intros Hno. destruct (get entry "code") as [[| |lexeme| | |]|]; try reflexivity.
      now destruct (Hno lexeme).
    + intros text ->. reflexivity.
    + intros Hno. destruct (get entry "message") as [[| | |text| |]|]; try reflexivity.
      now destruct (Hno text).
Qed.

End RemoteFacts.

Section RemoteExamples.
Import JS Remote.

Definition success_body : json :=
  JObject [ (str "success", JBool true);
            (str "result", JArray [ JObject [ (str "results", JArray [ JNumber (str "1") ]) ] ]) ].

Definition success_response : response :=
  {| ok := true; status := str "200"; body := Normal success_body |}.

Lemma remoteCallback_outcome_witness :
  ok success_response = true /\ truthy (get success_body "success") = true /\
  remoteCallback (fun lexeme => lexeme) (Normal success_response) =
    Normal [ JNumber (str "1") ].
Proof.
  assert (H := proj1 (remoteCallback_outcome (fun lexeme => lexeme)
                        success_response success_body eq_refl)).
  vm_compute in H. destruct H as (H1 & H2 & Hr & _).
  split; [exact H1|]. split; [exact H2|].
  apply (f_equal (@Normal (list json))).
  exact (Hr (JObject [ (str "results", JArray [ JNumber (str "1") ]) ]) []
            [ JNumber (str "1") ] eq_refl eq_refl).
Defined.

(** A success that is a number too small for a double is zero. *)
Example remoteCallback_underflowing_success :
  remoteCallback (fun lexeme => lexeme)
    (Normal {| ok := true; status := str "200";
               body := Normal (JObject [ (str "success", JNumber (str "1e-999")) ]) |}) =
  Throw (Error (str "Unexpected response from Cloudflare D1 API (200)")).
Proof. vm_compute. reflexivity. Qed.

End RemoteExamples.

(** ** seed *)

Section SeedFacts.
Import JS Remote Seed.

Variable service : Type.
Variable hashPassword : jsstring -> service -> completion jsstring * service.
Variable fetch : jsstring -> query -> service -> completion response * service.
Variable products_create : jsstring -> jsstring -> service -> completion json * service.
Variable prices_create : value -> Z -> service -> completion json * service.
Variable number_text : jsstring -> jsstring.
Variable baseUrl : jsstring.
Variable select_user : jsstring -> query.
Variable insert_user : jsstring -> jsstring -> jsstring -> query.
Variable select_team : jsstring -> query.
Variable insert_team : jsstring -> query.
Variable select_member : value -> value -> query.
Variable insert_member : value -> value -> jsstring -> query.
Variable mapResultRow : table -> json -> completion json.

(** The query endpoint gives each row as an object keyed by the names
    of the columns. *)
Definition object_rows : Prop :=
  forall url q s resp s' rows row,
    fetch url q s = (Normal resp, s') ->
    Remote.remoteCallback number_text (Normal resp) = Normal rows ->
    In row rows ->
    exists fields, row = JObject fields /\ lookup (str "0") fields None = None.

(** The driver reads the columns of a row by their position, and the
    id is the first column of each table. *)
Definition positional : Prop :=
  forall t row object,
    mapResultRow t row = Normal object ->
    exists decoded,
      object = JObject decoded /\
      lookup (str "id") decoded None = opt_first (Some row).

(** No membership has a team and a user that equal a missing value. *)
Definition missing_matches_nothing : Prop :=
  forall url s resp s' rows,
    fetch url (select_member None None) s = (Normal resp, s') ->
    Remote.remoteCallback number_text (Normal resp) = Normal rows ->
    rows = [].

(** The table of the memberships takes no row without a team and a
    user: team_id and user_id are NOT NULL. *)
Definition missing_rejected : Prop :=
  forall url s,
    exists e,
      Remote.remoteCallback number_text
        (fst (fetch url (insert_member None None (str "owner")) s)) = Throw e.

(** The insertion of a membership without team and user. *)
Definition membership_request : request :=
  Fetch (endpoint baseUrl Run) (insert_member None None (str "owner")).

Definition creates (added : list request) : Prop :=
  exists n d, In (ProductsCreate n d) added.

Lemma creates_app a b : creates (a ++ b) <-> creates a \/ creates b.
Proof.
  unfold creates. split.
  - intros (n & d & H). apply in_app_or in H. destruct H; [left | right]; eauto.
  - intros [(n & d & H) | (n & d & H)]; exists n, d; apply in_or_app; auto.
Qed.

Lemma sbind_then {A B} (m : step service A) (k : A -> step service B)
    (P : completion B * world service -> Prop) w :
  (forall e w1, m w = (Throw e, w1) -> P (Throw e, w1)) ->
  (forall a w1, m w = (Normal a, w1) -> P (k a w1)) ->
  P (sbind m k w).
Proof. intros Ht Hn. unfold sbind. destruct (m w) as [[a|e] w1]; auto. Qed.

Lemma call_sent {A} r (f : service -> completion A * service) w res w1 :
  call r f w = (res, w1) -> sent w1 = sent w ++ [r].
Proof. unfold call. destruct (f (remote w)). intros H. now injection H as _ <-. Qed.

Lemma remoteCallback_sent q method w res w1 :
  Seed.remoteCallback fetch number_text baseUrl q method w = (res, w1) ->
  sent w1 = sent w ++ [Fetch (endpoint baseUrl method) q].
Proof.
  unfold Seed.remoteCallback. destruct (fetch _ q (remote w)). intros H.
  now injection H as _ <-.
Qed.

(** A decoded row whose id is missing. *)
Definition no_id (v : value) : Prop :=
  exists decoded, v = Some (JObject decoded) /\ lookup (str "id") decoded None = None.

Lemma map_rows_no_id t : object_rows -> positional ->
  forall rows decoded,
    (forall row, In row rows ->
       exists fields, row = JObject fields /\ lookup (str "0") fields None = None) ->
    map_rows mapResultRow t rows = Normal decoded ->
    forall d, In d decoded -> no_id (Some d).
Proof.
  intros _ Hpos. induction rows as [|row rows IH]; intros decoded Hrows H d Hd.
  - cbn [map_rows] in H. injection H as <-. destruct Hd.
  - cbn [map_rows] in H. destruct (mapResultRow t row) as [object|e] eqn:Hm; [|discriminate].
    destruct (Hpos t row object Hm) as (fs & -> & Hid). cbn [bind] in H.
    destruct (map_rows mapResultRow t rows) as [rest|e] eqn:Er; [|discriminate].
    cbn [bind] in H. injection H as <-. destruct Hd as [<- | Hd].
    + exists fs. split; [reflexivity|]. rewrite Hid.
      destruct (Hrows row (or_introl eq_refl)) as (fields & -> & H0). exact H0.
    + apply (IH rest); [|reflexivity | exact Hd].
      intros r Hr. apply Hrows. now right.
Qed.

Lemma all_rows q t w res w1 : object_rows -> positional -> missing_matches_nothing ->
  all fetch number_text baseUrl mapResultRow q t w = (res, w1) ->
  sent w1 = sent w ++ [Fetch (endpoint baseUrl All) q] /\
  forall rows, res = Normal rows ->
    (first rows <> None -> no_id (first rows)) /\
    (q = select_member None None -> rows = []).
Proof.
  intros Hobj Hpos Hnone H. unfold all, sbind in H.
  destruct (Seed.remoteCallback fetch number_text baseUrl q All w) as [[rows0|e] w0] eqn:E.
  - pose proof (remoteCallback_sent _ _ _ _ _ E) as Hs.
    unfold lift in H. injection H as <- <-. split; [exact Hs|].
    intros rows Hrows. unfold Seed.remoteCallback in E.
    destruct (fetch (endpoint baseUrl All) q (remote w)) as [answer s] eqn:Ef.
    injection E as E _. destruct answer as [resp|e]; [|discriminate].
    split.
    + intros Hfirst. destruct rows as [|d rows]; [now destruct Hfirst|]. cbn [first].
      apply (map_rows_no_id t Hobj Hpos rows0 (d :: rows)); [| exact Hrows | now left].
      intros row Hin. exact (Hobj _ _ _ _ _ _ row Ef E Hin).
    + intros ->. rewrite (Hnone _ _ _ _ _ Ef E) in Hrows. cbn [map_rows] in Hrows.
      now injection Hrows as <-.
  - injection H as <- <-. split; [exact (remoteCallback_sent _ _ _ _ _ E)|].
    intros rows Hrows. discriminate.
Qed.

Lemma run_sent q w res w1 :
  run fetch number_text baseUrl q w = (res, w1) ->
  sent w1 = sent w ++ [Fetch (endpoint baseUrl Run) q] /\
  (forall e, Remote.remoteCallback number_text
               (fst (fetch (endpoint baseUrl Run) q (remote w))) = Throw e ->
             res = Throw e).
Proof.
  intros H. unfold run, sbind in H.
  destruct (Seed.remoteCallback fetch number_text baseUrl q Run w) as [[rows0|e] w0] eqn:E.
  - unfold ret in H. injection H as <- <-. split; [exact (remoteCallback_sent _ _ _ _ _ E)|].
    intros e He. unfold Seed.remoteCallback in E.
    destruct (fetch (endpoint baseUrl Run) q (remote w)) as [answer s].
    cbn [fst] in He. injection E as E _. congruence.
  - injection H as <- <-. split; [exact (remoteCallback_sent _ _ _ _ _ E)|].
    intros e' He. unfold Seed.remoteCallback in E.
    destruct (fetch (endpoint baseUrl Run) q (remote w)) as [answer s].
    cbn [fst] in He. injection E as E _. congruence.
Qed.

Lemma for_each_sent (body : jsstring -> step service unit) :
  (forall a w res w1, body a w = (res, w1) -> exists r, sent w1 = sent w ++ [r] /\ ~ creates [r]) ->
  forall l w res w1,
    for_each l body w = (res, w1) ->
    exists added, sent w1 = sent w ++ added /\ ~ creates added.
Proof.
  intros Hbody. induction l as [|a l IH]; intros w res w1 H; cbn [for_each] in H.
  - unfold ret in H. injection H as _ <-. exists []. rewrite app_nil_r. split; [reflexivity|].
    intros (n & d & []).
  - unfold sbind in H. destruct (body a w) as [[u|e] w0] eqn:E.
    + destruct (Hbody _ _ _ _ E) as (r & Hs & Hq).
      destruct (IH _ _ _ H) as (added & Hs' & Hq').
      exists (r :: added). split.
      * rewrite Hs', Hs, <- app_assoc. reflexivity.
      * change (r :: added) with ([r] ++ added). rewrite creates_app. tauto.
    + injection H as _ <-. destruct (Hbody _ _ _ _ E) as (r & Hs & Hq).
      exists [r]. now split.
Qed.

Lemma fetch_quiet url q : ~ creates [Fetch url q].
Proof. intros (n & d & [H|[]]). discriminate. Qed.

(** A step that only adds to the requests sent. *)
Definition extends {A} (m : step service A) : Prop :=
  forall w, exists added, sent (snd (m w)) = sent w ++ added.

Lemma extends_bind {A B} (m : step service A) (k : A -> step service B) :
  extends m -> (forall a, extends (k a)) -> extends (sbind m k).
Proof.
  intros Hm Hk w. unfold sbind. destruct (Hm w) as [added Hs].
  destruct (m w) as [[a|e] w1]; cbn [snd] in Hs.
  - destruct (Hk a w1) as [added' Hs']. exists (added ++ added').
    now rewrite Hs', Hs, app_assoc.
  - now exists added.
Qed.

Lemma extends_call {A} r (f : service -> completion A * service) : extends (call r f).
Proof.
  intros w. exists [r]. destruct (call r f w) as [res w1] eqn:E. now apply call_sent in E.
Qed.

Lemma extends_lift {A} (c : completion A) : extends (lift (service := service) c).
Proof. intros w. exists []. now rewrite app_nil_r. Qed.

Lemma createStripeProducts_sent w :
  exists added,
    sent (snd (createStripeProducts products_create prices_create w)) = sent w ++ added.
Proof.
  revert w. change (extends (createStripeProducts products_create prices_create)).
  unfold createStripeProducts.
  repeat (apply extends_bind; [first [apply extends_call | apply extends_lift] | intros ?]).
  apply (extends_lift (Normal tt)).
Qed.

Lemma retrieve_rows sel ins t found w res w1 :
  object_rows -> positional -> missing_matches_nothing ->
  (first found <> None -> no_id (first found)) ->
  (if negb (truthy (first found))
   then sbind (run fetch number_text baseUrl ins)
          (fun _ => sbind (all fetch number_text baseUrl mapResultRow sel t)
                      (fun again => ret (first again)))
   else ret (first found)) w = (res, w1) ->
  exists added,
    sent w1 = sent w ++ added /\ ~ creates added /\
    forall x, res = Normal x -> truthy x = true -> no_id x.
Proof.
  intros Hobj Hpos Hnone Hfound H.
  destruct (truthy (first found)) eqn:Et; cbn [negb] in H.
  - unfold ret in H. injection H as <- <-. exists []. rewrite app_nil_r.
    split; [reflexivity|]. split; [intros (n & d & [])|].
    intros x Hx _. injection Hx as <-. apply Hfound. intros E. now rewrite E in Et.
  - unfold sbind in H.
    destruct (run fetch number_text baseUrl ins w) as [[u|e] w2] eqn:Er.
    + apply run_sent in Er. destruct Er as [Hs2 _].
      destruct (all fetch number_text baseUrl mapResultRow sel t w2) as [[again|e] w3] eqn:Ea.
      * apply (all_rows _ _ _ _ _ Hobj Hpos Hnone) in Ea. destruct Ea as [Hs3 Hrows].
        unfold ret in H. injection H as <- <-.
        exists [Fetch (endpoint baseUrl Run) ins; Fetch (endpoint baseUrl All) sel].
        split; [rewrite Hs3, Hs2, <- app_assoc; reflexivity|].
        split; [intros (n & d & [Hin|[Hin|[]]]); discriminate|].
        intros x Hx Htx. injection Hx as <-.
        apply (proj1 (Hrows again eq_refl)). intros E. now rewrite E in Htx.
      * apply (all_rows _ _ _ _ _ Hobj Hpos Hnone) in Ea. destruct Ea as [Hs3 _].
        injection H as <- <-.
        exists [Fetch (endpoint baseUrl Run) ins; Fetch (endpoint baseUrl All) sel].
        split; [rewrite Hs3, Hs2, <- app_assoc; reflexivity|].
        split; [intros (n & d & [Hin|[Hin|[]]]); discriminate|].
        intros x Hx. discriminate.
    + apply run_sent in Er. destruct Er as [Hs2 _]. injection H as <- <-.
      exists [Fetch (endpoint baseUrl Run) ins].
      split; [exact Hs2|]. split; [apply fetch_quiet|]. intros x Hx. discriminate.
Qed.

(** The requests of a run so far hold no creation of a product. *)
Definition reached (w0 w : world service) : Prop :=
  exists pre, sent w = sent w0 ++ pre /\ ~ creates pre.

Lemma reached_step w0 w w1 added :
  reached w0 w -> sent w1 = sent w ++ added -> ~ creates added -> reached w0 w1.
Proof.
  intros (pre & Hs & Hq) Hs1 Hq1. exists (pre ++ added). split.
  - now rewrite Hs1, Hs, app_assoc.
  - rewrite creates_app. tauto.
Qed.

(** What is stated of a run that starts in [w0]. *)
Definition sends_membership_without_ids (w0 : world service)
    (r : completion unit * world service) : Prop :=
  exists added,
    sent (snd r) = sent w0 ++ added /\
    ((fst r = Normal tt \/ creates added) -> In membership_request added) /\
    (missing_rejected -> (exists e, fst r = Throw e) /\ ~ creates added).

Lemma reached_throw w0 w1 e :
  reached w0 w1 -> sends_membership_without_ids w0 (Throw e, w1).
Proof.
  intros (pre & Hs & Hq). exists pre. split; [exact Hs|]. split.
  - intros [H|H]; [discriminate | now destruct Hq].
  - intros _. split; [now exists e | exact Hq].
Qed.

Lemma sbind_lift {A B} (a : A) (k : A -> step service B) w :
  sbind (lift (Normal a)) k w = k a w.
Proof. reflexivity. Qed.

Lemma seed_run (w : world service) :
  object_rows -> positional -> missing_matches_nothing ->
  sends_membership_without_ids w
    (seed hashPassword fetch products_create prices_create number_text baseUrl
       select_user insert_user select_team insert_team select_member insert_member
       mapResultRow w).
Proof.
  intros Hobj Hpos Hnone. unfold seed. cbv zeta.
  assert (H0 : reached w w).
  { exists []. rewrite app_nil_r. split; [reflexivity | intros (n & d & [])]. }
  apply sbind_then; intros ? w1 E1; apply call_sent in E1;
    assert (H1 : reached w w1)
      by (apply (reached_step w w w1 _ H0 E1); intros (n & d & [H|[]]); discriminate);
    [now apply reached_throw|].
  assert (Hbody : forall (statement : jsstring) wa res wb,
            sbind (Seed.remoteCallback fetch number_text baseUrl
                     {| sql := statement; params := [] |} Run)
                  (fun _ => ret tt) wa = (res, wb) ->
            exists r, sent wb = sent wa ++ [r] /\ ~ creates [r]).
  { intros st wa res wb Hb. unfold sbind in Hb.
    destruct (Seed.remoteCallback _ _ _ _ _ wa) as [[rows|err] wc] eqn:Ec;
      apply remoteCallback_sent in Ec; injection Hb as _ <-;
      eexists; (split; [exact Ec | apply fetch_quiet]). }
  apply sbind_then; intros ? w2 E2;
    apply (for_each_sent _ Hbody) in E2; destruct E2 as (added & E2 & Hq2);
    pose proof (reached_step w w1 w2 added H1 E2 Hq2) as H2;
    [now apply reached_throw|].
  apply sbind_then; intros found w3 E3;
    apply (all_rows _ _ _ _ _ Hobj Hpos Hnone) in E3; destruct E3 as [E3 Hfound];
    pose proof (reached_step w w2 w3 _ H2 E3 (fetch_quiet _ _)) as H3;
    [now apply reached_throw|].
  apply sbind_then; intros user w4 E4;
    apply (retrieve_rows _ _ _ _ _ _ _ Hobj Hpos Hnone
             (proj1 (Hfound found eq_refl))) in E4;
    destruct E4 as (added4 & E4 & Hq4 & Huser);
    pose proof (reached_step w w3 w4 added4 H3 E4 Hq4) as H4;
    [now apply reached_throw|].
  destruct (truthy user) eqn:Etu; cbn [negb]; [|now apply reached_throw].
  destruct (Huser user eq_refl Etu) as (ufields & -> & Huid).
  apply sbind_then; intros found' w5 E5;
    apply (all_rows _ _ _ _ _ Hobj Hpos Hnone) in E5; destruct E5 as [E5 Hfound'];
    pose proof (reached_step w w4 w5 _ H4 E5 (fetch_quiet _ _)) as H5;
    [now apply reached_throw|].
  apply sbind_then; intros team w6 E6;
    apply (retrieve_rows _ _ _ _ _ _ _ Hobj Hpos Hnone
             (proj1 (Hfound' found' eq_refl))) in E6;
    destruct E6 as (added6 & E6 & Hq6 & Hteam);
    pose proof (reached_step w w5 w6 added6 H5 E6 Hq6) as H6;
    [now apply reached_throw|].
  destruct (truthy team) eqn:Ett; cbn [negb]; [|now apply reached_throw].
  destruct (Hteam team eq_refl Ett) as (tfields & -> & Htid).
  cbn [member get]. rewrite Htid, Huid, !sbind_lift.
  apply sbind_then; intros existing w7 E7;
    apply (all_rows _ _ _ _ _ Hobj Hpos Hnone) in E7; destruct E7 as [E7 Hexisting];
    pose proof (reached_step w w6 w7 _ H6 E7 (fetch_quiet _ _)) as H7;
    [now apply reached_throw|].
  rewrite (proj2 (Hexisting existing eq_refl) eq_refl). cbn [first truthy negb].
  apply sbind_then; intros u w8 E8; apply run_sent in E8; destruct E8 as [E8 Hrej];
    pose proof (reached_step w w7 w8 _ H7 E8 (fetch_quiet _ _)) as H8;
    [now apply reached_throw|].
  destruct H7 as (pre & Hs7 & Hq7).
  destruct (createStripeProducts_sent w8) as [added' Hs'].
  exists ((pre ++ [membership_request]) ++ added'). split; [|split].
  - rewrite Hs', E8, Hs7, <- !app_assoc. reflexivity.
  - intros _. apply in_or_app. left. apply in_or_app. right. now left.
  - intros Hr. destruct (Hr (endpoint baseUrl Run) (remote w7)) as [e He].
    specialize (Hrej e He). destruct u. discriminate.
Qed.

(** C9.  Where [seed] departs from what is specified of it: one
    user, one team and one membership after the first run, and two
    products for each run.  The query endpoint gives the rows as
    objects, and the driver reads a row by position: the user and the
    team that [seed] retrieves have no id.  So every run
    that completes, or that creates a product, has sent the insertion
    of a membership without team and user; and when the table rejects
    such a row, as NOT NULL makes it, every run throws, the first one
    too, and creates no product. *)
Theorem seed_sends_membership_without_ids (w : world service) :
  object_rows -> positional -> missing_matches_nothing ->
  let outcome :=
    seed hashPassword fetch products_create prices_create number_text baseUrl
      select_user insert_user select_team insert_team select_member insert_member
      mapResultRow w in
  exists added,
    sent (snd outcome) = sent w ++ added /\
    ((fst outcome = Normal tt \/ exists name description,
                                   In (ProductsCreate name description) added) ->
     In (Fetch (endpoint baseUrl Run) (insert_member None None (str "owner"))) added) /\
    (missing_rejected ->
     (exists e, fst outcome = Throw e) /\
     forall name description, ~ In (ProductsCreate name description) added).
Proof.
  intros Hobj Hpos Hnone outcome.
  destruct (seed_run w Hobj Hpos Hnone) as (added & Hs & Hm & Hr).
  exists added. split; [exact Hs|]. split; [exact Hm|].
  intros Hrej. destruct (Hr Hrej) as [He Hq]. split; [exact He|].
  intros n d Hin. apply Hq. now exists n, d.
Qed.

End SeedFacts.

(** ** A first run of seed

    A service that keeps the number of rows of each table and answers
    as the query endpoint does: a row is an object keyed by the names
    of its columns, and a membership without team or user is
    rejected. *)
Section SeedExample.
Import JS Remote Seed.

Record tables := {
  user_rows : nat;
  team_rows : nat;
  member_rows : nat
}.

Definition select_user (email : jsstring) : query :=
  {| sql := str "select from users where email = ? limit ?";
     params := [Some (JString email); Some (JNumber (str "1"))] |}.

Definition insert_user (email passwordHash role : jsstring) : query :=
  {| sql := str "insert into users (email, password_hash, role) values (?, ?, ?)";
     params := [Some (JString email); Some (JString passwordHash); Some (JString role)] |}.

Definition select_team (name : jsstring) : query :=
  {| sql := str "select from teams where name = ? limit ?";
     params := [Some (JString name); Some (JNumber (str "1"))] |}.

Definition insert_team (name : jsstring) : query :=
  {| sql := str "insert into teams (name) values (?)";
     params := [Some (JString name)] |}.

Definition select_member (teamId userId : value) : query :=
  {| sql := str "select from team_members where team_id = ? and user_id = ? limit ?";
     params := [teamId; userId; Some (JNumber (str "1"))] |}.

Definition insert_member (teamId userId : value) (role : jsstring) : query :=
  {| sql := str "insert into team_members (team_id, user_id, role) values (?, ?, ?)";
     params := [teamId; userId; Some (JString role)] |}.

Definition answer (rows : list json) : response :=
  {| ok := true; status := str "200";
     body := Normal (JObject [ (str "success", JBool true);
                               (str "result", JArray [ JObject [ (str "results", JArray rows) ] ]) ]) |}.

Definition refusal (message : jsstring) : response :=
  {| ok := false; status := str "400";
     body := Normal (JObject [ (str "success", JBool false);
                               (str "errors",
                                JArray [ JObject [ (str "code", JNumber (str "7500"));
                                                   (str "message", JString message) ] ]) ]) |}.

Definition row_of (name : string) : json :=
  JObject [ (str "id", JNumber (str "1")); (str "name", JString (str name)) ].

Definition given (v : value) : bool := negb (nullish v).

Definition fetch (url : jsstring) (q : query) (s : tables) : completion response * tables :=
  if jseqb (sql q) (sql (select_user [])) then
    (Normal (answer (if (0 <? user_rows s)%nat then [row_of "user"] else [])), s)
  else if jseqb (sql q) (sql (insert_user [] [] [])) then
    (Normal (answer []),
     {| user_rows := S (user_rows s); team_rows := team_rows s; member_rows := member_rows s |})
  else if jseqb (sql q) (sql (select_team [])) then
    (Normal (answer (if (0 <? team_rows s)%nat then [row_of "team"] else [])), s)
  else if jseqb (sql q) (sql (insert_team [])) then
    (Normal (answer []),
     {| user_rows := user_rows s; team_rows := S (team_rows s); member_rows := member_rows s |})
  else if jseqb (sql q) (sql (select_member None None)) then
    (Normal (answer (if forallb given (params q) && (0 <? member_rows s)%nat
                     then [row_of "member"] else [])), s)
  else if jseqb (sql q) (sql (insert_member None None [])) then
    if forallb given (params q) then
      (Normal (answer []),
       {| user_rows := user_rows s; team_rows := team_rows s; member_rows := S (member_rows s) |})
    else (Normal (refusal (str "NOT NULL constraint failed: team_members.team_id")), s)
  else (Normal (answer []), s).

Definition mapResultRow (t : table) (row : json) : completion json :=
  Normal (JObject match opt_first (Some row) with
                  | Some v => [ (str "id", v) ]
                  | None => []
                  end).

Definition hashPassword (password : jsstring) (s : tables) : completion jsstring * tables :=
  (Normal (str "hash of " ++ password), s).

Definition products_create (name description : jsstring) (s : tables)
    : completion json * tables :=
  (Normal (JObject [ (str "id", JString (str "prod_" ++ name)) ]), s).

Definition prices_create (product : value) (unit_amount : Z) (s : tables)
    : completion json * tables :=
  (Normal (JObject [ (str "id", JString (str "price") ) ]), s).

Definition decimal_text (lexeme : jsstring) : jsstring := lexeme.

Definition base : jsstring := str "https://d1.example".

Definition first_run : completion unit * world tables :=
  seed hashPassword fetch products_create prices_create decimal_text base
    select_user insert_user select_team insert_team select_member insert_member
    mapResultRow
    {| sent := []; remote := {| user_rows := 0; team_rows := 0; member_rows := 0 |} |}.

Lemma fetch_answers url q s :
  exists rows,
    (fst (fetch url q s) = Normal (answer rows) \/
     exists message, fst (fetch url q s) = Normal (refusal message)) /\
    (rows = [] \/ exists name, rows = [row_of name]).
Proof.
  unfold fetch.
  repeat match goal with
         | |- context [jseqb ?a ?b] => destruct (jseqb a b)
         end.
  all: repeat match goal with
              | |- context [if ?c then _ else _] => destruct c
              end.
  all: cbn [fst].
  all: first [ exists []; split; [left; reflexivity | left; reflexivity]
             | eexists [row_of _]; split; [left; reflexivity | right; eexists; reflexivity]
             | exists []; split; [right; eexists; reflexivity | left; reflexivity] ].
Qed.

Lemma answer_rows rows : Remote.remoteCallback decimal_text (Normal (answer rows)) = Normal rows.
Proof. reflexivity. Qed.

Lemma refusal_throws message :
  Remote.remoteCallback decimal_text (Normal (refusal message)) =
  Throw (Error (str "7500: " ++ message)).
Proof. reflexivity. Qed.

Lemma example_object_rows : object_rows tables fetch decimal_text.
Proof.
  intros url q s resp s' rows row Hf Hr Hin.
  destruct (fetch_answers url q s) as (rows0 & Hresp & Hrows).
  rewrite Hf in Hresp. cbn [fst] in Hresp.
  destruct Hresp as [Hresp | [message Hresp]]; injection Hresp as ->.
  - rewrite answer_rows in Hr. injection Hr as <-.
    destruct Hrows as [-> | [name ->]]; [destruct Hin|].
    destruct Hin as [<- | []]. eexists. split; reflexivity.
  - rewrite refusal_throws in Hr. discriminate.
Qed.

Lemma example_positional : positional mapResultRow.
Proof.
  intros t row object H.
  assert (E : object = JObject match opt_first (Some row) with
                               | Some v => [ (str "id", v) ]
                               | None => []
                               end) by (unfold mapResultRow in H; congruence).
  rewrite E. eexists. split; [reflexivity|].
  destruct (opt_first (Some row)); reflexivity.
Qed.

Lemma example_missing_matches_nothing :
  missing_matches_nothing tables fetch decimal_text select_member.
Proof.
  intros url s resp s' rows Hf Hr. vm_compute in Hf. injection Hf as <- _.
  vm_compute in Hr. now injection Hr as <-.
Qed.

Lemma example_missing_rejected : missing_rejected tables fetch decimal_text insert_member.
Proof. intros url s. eexists. vm_compute. reflexivity. Qed.

(** The first run against the empty tables: the insertion of the
    membership is refused, after one user and one team, and no product
    is created. *)
Example first_run_fails :
  fst first_run =
    Throw (Error (str "7500: NOT NULL constraint failed: team_members.team_id")) /\
  remote (snd first_run) = {| user_rows := 1; team_rows := 1; member_rows := 0 |} /\
  (forall name description, ~ In (ProductsCreate name description) (sent (snd first_run))) /\
  last (sent (snd first_run)) (Hash []) =
    Fetch (endpoint base Run) (insert_member None None (str "owner")).
Proof.
  split; [vm_compute; reflexivity|]. split; [vm_compute; reflexivity|]. split.
  - intros name description Hin. vm_compute in Hin.
    repeat (destruct Hin as [Hin|Hin]; [discriminate|]). exact Hin.
  - vm_compute. reflexivity.
Qed.

Lemma seed_sends_membership_without_ids_witness :
  (exists e, fst first_run = Throw e) /\
  forall name description, ~ In (ProductsCreate name description) (sent (snd first_run)).
Proof.
  destruct (seed_sends_membership_without_ids tables hashPassword fetch products_create
              prices_create decimal_text base select_user insert_user select_team
              insert_team select_member insert_member mapResultRow
              {| sent := []; remote := {| user_rows := 0; team_rows := 0; member_rows := 0 |} |}
              example_object_rows example_positional example_missing_matches_nothing)
    as (added & Hs & _ & Hr).
  destruct (Hr example_missing_rejected) as [He Hq].
  split; [exact He|]. intros name description. fold first_run in Hs.
  rewrite Hs. exact (Hq name description).
Defined.

End SeedExample.
